(** * An LSM-tree storage engine: skip-list memtable, SSTables with bloom
    filters and sparse indexes, a level manager and leveled compaction.

    The development embeds the JavaScript engine (js/engine) as Rocq
    functions and proves or refutes the properties its specification states.

    Conventions of the embedding.
    - JS strings are [string]s (code units below 256); [<] on strings is
      [String.ltb], [===] is [String.eqb].
    - JS numbers that the engine uses as integers are [Z] or [nat]; the
      32-bit operators ([<<], [^], [| 0]) are written out with [toInt32].
    - A stored value is [option string]: [None] is JS [null], which the
      engine uses as the tombstone.
    - A property access on [undefined] throws a TypeError; array reads
      that the source performs are [!!] lookups whose miss is [TypeError].
    - Loops are fixpoints on a fuel argument; running out of fuel is the
      separate outcome [OutOfFuel], never a result.
    - [Date.now()] and [Math.random() < probability] read a [World] that
      holds the two sequences of answers and how many were consumed.
    - Wall-clock durations ([performance.now()], [timeMs]) and formatted
      strings ([toFixed], [complexity]) are left out of the result records. *)

From Stdlib Require Import ZArith String Ascii Lia Bool DecimalString.
From stdpp Require Import base option list gmap strings sorting.

Local Open Scope string_scope.
Local Open Scope list_scope.

(** ** JavaScript primitives used by the engine *)

Module JS.

Inductive result (A : Type) : Type :=
| Ok (a : A)
| TypeError
| OutOfFuel.

Arguments Ok {A} a.
Arguments TypeError {A}.
Arguments OutOfFuel {A}.

Definition bind {A B} (m : result A) (f : A -> result B) : result B :=
  match m with
  | Ok a => f a
  | TypeError => TypeError
  | OutOfFuel => OutOfFuel
  end.

(** [arr[i]] followed by a property access: a miss throws. *)
Definition at_index {A} (l : list A) (i : nat) : result A :=
  match l !! i with
  | Some a => Ok a
  | None => TypeError
  end.

(** [arr[i]] where [i] is a JS number that may be negative. *)
Definition at_Z {A} (l : list A) (i : Z) : result A :=
  if (i <? 0)%Z then TypeError else at_index l (Z.to_nat i).

(** ToInt32: wrap-around to the signed 32-bit range. *)
Definition toInt32 (z : Z) : Z :=
  ((z + 2147483648) mod 4294967296 - 2147483648)%Z.

(** [x << n] for [0 <= n < 32]. *)
Definition shl (x : Z) (n : Z) : Z := toInt32 (Z.shiftl (toInt32 x) n).

(** [x ^ y]. *)
Definition xor (x y : Z) : Z := toInt32 (Z.lxor (toInt32 x) (toInt32 y)).

(** [x % y] on integers; [None] is NaN (division by zero). *)
Definition rem (x y : Z) : option Z :=
  if (y =? 0)%Z then None else Some (Z.rem x y).

Definition charCode (c : ascii) : Z := Z.of_N (N_of_ascii c).

Definition charCodes (s : string) : list Z :=
  map charCode (list_ascii_of_string s).

(** String comparison operators. *)
Definition str_lt (a b : string) : bool := String.ltb a b.
Definition str_gt (a b : string) : bool := String.ltb b a.
Definition str_ge (a b : string) : bool := negb (String.ltb a b).
Definition str_le (a b : string) : bool := negb (String.ltb b a).
Definition str_eq (a b : string) : bool := String.eqb a b.

(** Length of [JSON.stringify(s)] for a string [s]: two quotes, and the
    escapes of the quote, the backslash and the control characters. *)
Definition json_char_length (c : ascii) : Z :=
  let n := N_of_ascii c in
  if (n =? 34)%N || (n =? 92)%N then 2%Z
  else if (n =? 8)%N || (n =? 9)%N || (n =? 10)%N || (n =? 12)%N || (n =? 13)%N then 2%Z
  else if (n <? 32)%N then 6%Z
  else 1%Z.

Definition json_length (v : option string) : Z :=
  match v with
  | None => 4%Z
  | Some s => (2 + fold_right (fun c acc => json_char_length c + acc) 0 (list_ascii_of_string s))%Z
  end.

(** The ambient runtime: the answers of [Math.random() < probability] and
    of [Date.now()], in call order, and how many of each were consumed. *)
Record World := mkWorld {
  coins : nat -> bool;
  ncoins : nat;
  clock : nat -> Z;
  nclock : nat
}.

Definition random_lt (w : World) : bool * World :=
  (coins w (ncoins w), mkWorld (coins w) (S (ncoins w)) (clock w) (nclock w)).

Definition Date_now (w : World) : Z * World :=
  (clock w (nclock w), mkWorld (coins w) (ncoins w) (clock w) (S (nclock w))).

End JS.

Import JS.

#[global] Instance result_bind : MBind JS.result := fun A B f m => JS.bind m f.
#[global] Instance result_ret : MRet JS.result := fun A a => JS.Ok a.

(** A record as the memtable hands it to a flush and as SSTables store it. *)
Module Entry.

Record t := mk {
  key : string;
  value : option string;
  timestamp : Z
}.

End Entry.

(** ** BloomFilter.js *)

Module BloomFilter.

Record t := mk {
  size : Z;
  numHashes : nat;
  bits : list Z;
  elementsAdded : nat
}.

(** [Math.ceil(-(n * Math.log(0.01)) / (Math.log(2) ** 2))], with the two
    logarithms at the decimal expansion of their double values and the
    quotient taken exactly. *)
Definition optimalSize (n : nat) : Z :=
  let num := (Z.of_nat n * 46051701859880910)%Z in
  let den := 4804530139182014%Z in
  ((num + den - 1) / den)%Z.

(** [Math.ceil((size / n) * Math.log(2))]; for [n = 0] the quotient is
    NaN, no loop bounded by it runs, and the count is modelled as [0]. *)
Definition optimalHashes (m : Z) (n : nat) : nat :=
  match n with
  | O => O
  | _ =>
    let num := (m * 6931471805599453)%Z in
    let den := (Z.of_nat n * 10000000000000000)%Z in
    Z.to_nat ((num + den - 1) / den)
  end.

(** [new BloomFilter(expectedElements, 0.01)]. *)
Definition create (expectedElements : nat) : t :=
  let m := optimalSize expectedElements in
  {| size := m;
     numHashes := optimalHashes m expectedElements;
     bits := replicate (Z.to_nat ((m + 7) / 8)) 0%Z;
     elementsAdded := 0 |}.

Definition hash1 (bf : t) (key : string) : option Z :=
  let h := fold_left (fun hash c => toInt32 (shl hash 5 - hash + c)) (charCodes key) 0%Z in
  JS.rem (Z.abs h) (size bf).

Definition hash2 (bf : t) (key : string) : option Z :=
  let h := fold_left
    (fun hash c =>
       let x := JS.xor hash c in
       (x + (shl x 1 + shl x 4 + shl x 7 + shl x 8 + shl x 24))%Z)
    (charCodes key) 2166136261%Z in
  JS.rem (Z.abs h) (size bf).

(** Double hashing: the i-th probe is [(h1 + i * h2) % size]; [None] is
    a NaN index. *)
Definition getHashes (bf : t) (key : string) : list (option Z) :=
  match hash1 bf key, hash2 bf key with
  | Some h1, Some h2 =>
    map (fun i => Z.abs <$> JS.rem (h1 + Z.of_nat i * h2) (size bf)) (seq 0 (numHashes bf))
  | _, _ => replicate (numHashes bf) None
  end.

(** Writes outside a typed array, and at a NaN index, are ignored. *)
Definition setBit (bs : list Z) (index : option Z) : list Z :=
  match index with
  | None => bs
  | Some i =>
    let byteIndex := Z.to_nat (i / 8) in
    let bitIndex := Z.rem i 8 in
    match bs !! byteIndex with
    | Some b => <[byteIndex := Z.lor b (Z.shiftl 1 bitIndex)]> bs
    | None => bs
    end
  end.

(** Reads outside a typed array give [undefined], and [undefined & x] is 0. *)
Definition getBit (bs : list Z) (index : option Z) : bool :=
  match index with
  | None => false
  | Some i =>
    let byteIndex := Z.to_nat (i / 8) in
    let bitIndex := Z.rem i 8 in
    match bs !! byteIndex with
    | Some b => negb (Z.land b (Z.shiftl 1 bitIndex) =? 0)%Z
    | None => false
    end
  end.

Definition add (bf : t) (key : string) : t :=
  {| size := size bf;
     numHashes := numHashes bf;
     bits := fold_left setBit (getHashes bf key) (bits bf);
     elementsAdded := S (elementsAdded bf) |}.

(** The probe loop of [contains], with its early exit. *)
Fixpoint allBitsSet (bs : list Z) (hashes : list (option Z)) : bool :=
  match hashes with
  | [] => true
  | h :: rest => if getBit bs h then allBitsSet bs rest else false
  end.

Record ContainsResult := mkContains {
  mightExist : bool;
  hashes : list (option Z)
}.

Definition contains (bf : t) (key : string) : ContainsResult :=
  let hs := getHashes bf key in
  {| mightExist := allBitsSet (bits bf) hs; hashes := hs |}.

Definition getMemorySize (bf : t) : Z := Z.of_nat (length (bits bf)).

(** [getBitArray]: one flag for each of the [size] bits. *)
Definition getBitArray (bf : t) : list bool :=
  map (fun i => getBit (bits bf) (Some (Z.of_nat i))) (seq 0 (Z.to_nat (size bf))).

(** The number of bits that [getFillPercentage] counts. *)
Definition bitsSet (bf : t) : nat := length (List.filter (fun b => b) (getBitArray bf)).

(** [clear]: a new zeroed bit array of the same length. *)
Definition clear (bf : t) : t :=
  {| size := size bf;
     numHashes := numHashes bf;
     bits := replicate (Z.to_nat ((size bf + 7) / 8)) 0%Z;
     elementsAdded := 0 |}.

(** The plain object of [export]; [Array.from] copies the bytes. *)
Record Exported := mkExported {
  ex_size : Z;
  ex_numHashes : nat;
  ex_bits : list Z;
  ex_elementsAdded : nat
}.

Definition export (bf : t) : Exported :=
  {| ex_size := size bf; ex_numHashes := numHashes bf;
     ex_bits := bits bf; ex_elementsAdded := elementsAdded bf |}.

(** [import]: a default filter whose four fields are overwritten;
    [new Uint8Array(array)] stores every number modulo 256. *)
Definition import (data : Exported) : t :=
  {| size := ex_size data; numHashes := ex_numHashes data;
     bits := map (fun b => (b mod 256)%Z) (ex_bits data);
     elementsAdded := ex_elementsAdded data |}.

End BloomFilter.

(** ** Skiplist.js *)

(** A node, with [level = forward.length - 1]. The forward pointers are
    not stored: the list keeps its nodes in level-0 order, and
    [forward[i]] of a node (or of the header) is the next node of level at
    least [i] after it. [insert] splices a new node in between the
    predecessor found on each level and that predecessor's successor, which
    is this reading of the chain with the node put at its level-0 place. *)
Module SkipListNode.

Record t := mk {
  key : string;
  value : option string;
  level : nat;
  timestamp : Z
}.

End SkipListNode.

Module SkipList.

Abbreviation Node := SkipListNode.t.

Record t := mk {
  maxLevel : nat;
  level : nat;
  nodes : list Node;
  size : nat
}.

(** [new SkipList(maxLevel, probability)]; building the header reads the clock. *)
Definition create (maxLevel : nat) (w : World) : t * World :=
  let '(_, w1) := Date_now w in
  ({| maxLevel := maxLevel; level := 0; nodes := []; size := 0 |}, w1).

(** [while (Math.random() < p && level < maxLevel) level++], by recursion
    on [maxLevel - level]; every test of the condition draws a sample. *)
Fixpoint randomLevel_loop (room : nat) (lvl : nat) (w : World) : nat * World :=
  let '(c, w1) := random_lt w in
  match room with
  | O => (lvl, w1)
  | S r => if c then randomLevel_loop r (S lvl) w1 else (lvl, w1)
  end.

Definition randomLevel (sl : t) (w : World) : nat * World :=
  randomLevel_loop (maxLevel sl) 0 w.

(** The inner [while] of a descent on level [i]. [cur] counts the nodes up
    to and including [current] (0 is the header); [scan] is the part of
    the chain being walked over to find [current.forward[i]], starting at
    index [scanpos]. Nodes below level [i] are not on that level's chain. *)
Fixpoint advance_from (i : nat) (k : string) (scan : list Node) (scanpos cur cmp : nat)
  : nat * nat :=
  match scan with
  | [] => (cur, cmp)
  | n :: rest =>
    if (i <=? SkipListNode.level n)%nat then
      if str_lt (SkipListNode.key n) k
      then advance_from i k rest (S scanpos) (S scanpos) (S cmp)
      else (cur, cmp)
    else advance_from i k rest (S scanpos) cur cmp
  end.

Definition advance (i : nat) (k : string) (ns : list Node) (cur cmp : nat) : nat * nat :=
  advance_from i k (drop cur ns) cur cur cmp.

(** [for (let i = this.level; i >= 0; i--)]. *)
Fixpoint descend (i : nat) (k : string) (ns : list Node) (cur cmp : nat) : nat * nat :=
  let '(cur', cmp') := advance i k ns cur cmp in
  match i with
  | O => (cur', cmp')
  | S j => descend j k ns cur' cmp'
  end.

Inductive Operation := INSERT | UPDATE.

Record InsertResult := mkInsertResult {
  operation : Operation;
  ir_key : string;
  ir_level : Z;
  ir_comparisons : nat;
  ir_size : nat
}.

(** [getNodeLevel]: the number of leading non-null forward pointers, minus one. *)
Fixpoint getNodeLevel_loop (fuel : nat) (lvl : nat) (n : Node) (later : list Node) : nat :=
  match fuel with
  | O => lvl
  | S f =>
    if (lvl <=? SkipListNode.level n)%nat && existsb (fun m => (lvl <=? SkipListNode.level m)%nat) later
    then getNodeLevel_loop f (S lvl) n later
    else lvl
  end.

Definition getNodeLevel (sl : t) (n : Node) (later : list Node) : Z :=
  (Z.of_nat (getNodeLevel_loop (S (maxLevel sl)) 0 n later) - 1)%Z.

Definition insert (sl : t) (k : string) (v : option string) (w : World)
  : InsertResult * t * World :=
  let '(cur, cmp) := descend (level sl) k (nodes sl) 0 0 in
  let fresh :=
    let '(newLevel, w1) := randomLevel sl w in
    let '(now, w2) := Date_now w1 in
    let node := SkipListNode.mk k v newLevel now in
    ({| operation := INSERT; ir_key := k; ir_level := Z.of_nat newLevel;
        ir_comparisons := cmp; ir_size := S (size sl) |},
     {| maxLevel := maxLevel sl;
        level := if (level sl <? newLevel)%nat then newLevel else level sl;
        nodes := take cur (nodes sl) ++ node :: drop cur (nodes sl);
        size := S (size sl) |},
     w2) in
  match nodes sl !! cur with
  | Some n =>
    if str_eq (SkipListNode.key n) k then
      let '(now, w1) := Date_now w in
      let n' := SkipListNode.mk (SkipListNode.key n) v (SkipListNode.level n) now in
      ({| operation := UPDATE; ir_key := k;
          ir_level := getNodeLevel sl n (drop (S cur) (nodes sl));
          ir_comparisons := cmp; ir_size := size sl |},
       {| maxLevel := maxLevel sl; level := level sl;
          nodes := <[cur := n']> (nodes sl); size := size sl |},
       w1)
    else fresh
  | None => fresh
  end.

Record SearchResult := mkSearchResult {
  found : bool;
  sr_value : option (option string);
  comparisons : nat
}.

Definition search (sl : t) (k : string) : SearchResult :=
  let '(cur, cmp) := descend (level sl) k (nodes sl) 0 0 in
  let miss := {| found := false; sr_value := None; comparisons := cmp |} in
  match nodes sl !! cur with
  | Some n =>
    if str_eq (SkipListNode.key n) k
    then {| found := true; sr_value := Some (SkipListNode.value n); comparisons := cmp |}
    else miss
  | None => miss
  end.

Definition getAllEntries (sl : t) : list Entry.t :=
  map (fun n => Entry.mk (SkipListNode.key n) (SkipListNode.value n) (SkipListNode.timestamp n)) (nodes sl).

(** [clear] builds a new header, which reads the clock. *)
Definition clear (sl : t) (w : World) : t * World :=
  let '(_, w1) := Date_now w in
  ({| maxLevel := maxLevel sl; level := 0; nodes := []; size := 0 |}, w1).

Definition isEmpty (sl : t) : bool := (size sl =? 0)%nat.

Record DeleteResult := mkDeleteResult {
  dr_success : bool;
  dr_comparisons : nat;
  dr_size : option nat
}.

(** [while (this.level > 0 && !this.header.forward[this.level]) this.level--]:
    the header has a successor on a level when some node reaches it. *)
Fixpoint lowerLevel (lvl : nat) (ns : list Node) : nat :=
  match lvl with
  | O => O
  | S l =>
    if existsb (fun n => (lvl <=? SkipListNode.level n)%nat) ns then lvl
    else lowerLevel l ns
  end.

(** [delete]: the node found is unlinked on every level that holds it,
    which takes it out of the chain. *)
Definition delete (sl : t) (k : string) : DeleteResult * t :=
  let '(cur, cmp) := descend (level sl) k (nodes sl) 0 0 in
  let miss := ({| dr_success := false; dr_comparisons := cmp; dr_size := None |}, sl) in
  match nodes sl !! cur with
  | Some n =>
    if str_eq (SkipListNode.key n) k then
      let ns := take cur (nodes sl) ++ drop (S cur) (nodes sl) in
      ({| dr_success := true; dr_comparisons := cmp; dr_size := Some (size sl - 1)%nat |},
       {| maxLevel := maxLevel sl; level := lowerLevel (level sl) ns;
          nodes := ns; size := (size sl - 1)%nat |})
    else miss
  | None => miss
  end.

End SkipList.

(** ** SSTable.js: the table *)

Module SSTable.

Record IndexEntry := mkIndexEntry {
  key : string;
  position : nat
}.

Record KeyRange := mkKeyRange {
  min : option string;
  max : option string
}.

(** [id] is the number [n] of the identifier [sstable-n]. *)
Record t := mk {
  id : nat;
  level : nat;
  createdAt : Z;
  entries : list Entry.t;
  bloomFilter : BloomFilter.t;
  sparseIndex : list IndexEntry;
  size : Z;
  keyRange : KeyRange
}.

(** [entries.sort(cmp)] with the comparator on keys: [Array.prototype.sort]
    is stable, and a stable sort by a total preorder has one result, which
    this insertion computes. *)
Fixpoint sort_insert (x : Entry.t) (l : list Entry.t) : list Entry.t :=
  match l with
  | [] => [x]
  | y :: l' =>
    if str_lt (Entry.key y) (Entry.key x) then y :: sort_insert x l' else x :: l
  end.

Definition sort (l : list Entry.t) : list Entry.t := foldr sort_insert [] l.

Definition buildBloomFilter (es : list Entry.t) : BloomFilter.t :=
  fold_left (fun bf e => BloomFilter.add bf (Entry.key e)) es (BloomFilter.create (length es)).

(** [for (let i = 0; i < this.entries.length; i += step)]. *)
Fixpoint buildSparseIndex_loop (fuel : nat) (es : list Entry.t) (step i : nat)
  : result (list IndexEntry) :=
  if (length es <=? i)%nat then Ok []
  else match fuel with
       | O => OutOfFuel
       | S f =>
         e ← at_index es i;
         rest ← buildSparseIndex_loop f es step (i + step);
         Ok ({| key := Entry.key e; position := i |} :: rest)
       end.

Definition buildSparseIndex (es : list Entry.t) (step : nat) : result (list IndexEntry) :=
  index ← buildSparseIndex_loop (length es) es step 0;
  if (length es mod step =? 0)%nat then Ok index
  else
    let lastIdx := (length es - 1)%nat in
    e ← at_index es lastIdx;
    Ok (index ++ [{| key := Entry.key e; position := lastIdx |}]).

Definition calculateSize (es : list Entry.t) (bf : BloomFilter.t) (index : list IndexEntry) : Z :=
  (fold_left
     (fun total e =>
        total + (Z.of_nat (String.length (Entry.key e)) * 2
                 + JS.json_length (Entry.value e) * 2 + 16))
     es 0
   + BloomFilter.getMemorySize bf
   + Z.of_nat (length index) * 24)%Z.

Definition getKeyRange (es : list Entry.t) : KeyRange :=
  {| min := Entry.key <$> head es; max := Entry.key <$> last es |}.

(** [new SSTable(id, level, entries, bloomFilter = null)]. *)
Definition create (id level : nat) (es : list Entry.t) (bf : option BloomFilter.t) (w : World)
  : result (t * World) :=
  let '(now, w1) := Date_now w in
  let sorted := sort es in
  let bloom := match bf with Some b => b | None => buildBloomFilter sorted end in
  index ← buildSparseIndex sorted 10;
  Ok ({| id := id; level := level; createdAt := now; entries := sorted;
         bloomFilter := bloom; sparseIndex := index;
         size := calculateSize sorted bloom index;
         keyRange := getKeyRange sorted |}, w1).

Record SearchResult := mkSearchResult {
  sr_found : bool;
  sr_value : option (option string);
  sr_position : option Z;
  sr_comparisons : nat
}.

(** The [while (left <= right)] loop of [binarySearch]. *)
Fixpoint binarySearch_loop (fuel : nat) (es : list Entry.t) (k : string)
    (left right : Z) (comparisons : nat) : result SearchResult :=
  if (right <? left)%Z then
    Ok {| sr_found := false; sr_value := None; sr_position := None;
          sr_comparisons := comparisons |}
  else match fuel with
       | O => OutOfFuel
       | S f =>
         let mid := ((left + right) / 2)%Z in
         e ← at_Z es mid;
         if str_eq (Entry.key e) k then
           Ok {| sr_found := true; sr_value := Some (Entry.value e);
                 sr_position := Some mid; sr_comparisons := S comparisons |}
         else if str_lt k (Entry.key e)
         then binarySearch_loop f es k left (mid - 1) (S comparisons)
         else binarySearch_loop f es k (mid + 1) right (S comparisons)
       end.

Definition binarySearch (tb : t) (k : string) (start end_ : Z) : result SearchResult :=
  binarySearch_loop (Z.to_nat (end_ - start + 1)) (entries tb) k start end_ 0.

(** The scan of the sparse index for the pair of neighbours around [k]. *)
Fixpoint narrow (k : string) (index : list IndexEntry) (dflt : Z * Z) : Z * Z :=
  match index with
  | a :: (b :: _) as rest =>
    if str_ge k (key a) && str_lt k (key b)
    then (Z.of_nat (position a), Z.of_nat (position b))
    else narrow k rest dflt
  | _ => dflt
  end.

Record GetResult := mkGetResult {
  found : bool;
  value : option (option string);
  bloomFilterSaved : bool;
  comparisons : nat;
  searchRange : option (Z * Z)
}.

Definition get (tb : t) (k : string) : result GetResult :=
  let bloomCheck := BloomFilter.contains (bloomFilter tb) k in
  if negb (BloomFilter.mightExist bloomCheck) then
    Ok {| found := false; value := None; bloomFilterSaved := true;
          comparisons := 0; searchRange := None |}
  else
    let '(searchStart, searchEnd) :=
      narrow k (sparseIndex tb) (0%Z, (Z.of_nat (length (entries tb)) - 1)%Z) in
    r ← binarySearch tb k searchStart searchEnd;
    Ok {| found := sr_found r; value := sr_value r; bloomFilterSaved := false;
          comparisons := sr_comparisons r;
          searchRange := Some (searchStart, searchEnd) |}.

(** First loop of [scan]: the first position whose key is at least
    [startKey], and 0 when there is none. *)
Fixpoint scan_start (fuel : nat) (es : list Entry.t) (startKey : string) (i : nat) : result nat :=
  if (length es <=? i)%nat then Ok 0%nat
  else match fuel with
       | O => OutOfFuel
       | S f =>
         e ← at_index es i;
         if str_ge (Entry.key e) startKey then Ok i
         else scan_start f es startKey (S i)
       end.

(** Second loop of [scan]. *)
Fixpoint scan_collect (fuel : nat) (es : list Entry.t) (endKey : string) (i : nat)
  : result (list Entry.t) :=
  if (length es <=? i)%nat then Ok []
  else match fuel with
       | O => OutOfFuel
       | S f =>
         e ← at_index es i;
         if str_gt (Entry.key e) endKey then Ok []
         else rest ← scan_collect f es endKey (S i); Ok (e :: rest)
       end.

Definition scan (tb : t) (startKey endKey : string) : result (list Entry.t) :=
  startPos ← scan_start (length (entries tb)) (entries tb) startKey 0;
  scan_collect (length (entries tb)) (entries tb) endKey startPos.

Definition getAllEntries (tb : t) : list Entry.t := entries tb.

(** The range is null only for a table without entries, which the guard
    sends to [false]. *)
Definition containsKeyInRange (tb : t) (k : string) : bool :=
  if (length (entries tb) =? 0)%nat then false
  else match min (keyRange tb), max (keyRange tb) with
       | Some lo, Some hi => str_ge k lo && str_le k hi
       | _, _ => false
       end.

(** The plain object of [export]. *)
Record Exported := mkExported {
  ex_id : nat;
  ex_level : nat;
  ex_entries : list Entry.t;
  ex_bloomFilter : BloomFilter.Exported;
  ex_createdAt : Z;
  ex_keyRange : KeyRange
}.

Definition export (tb : t) : Exported :=
  {| ex_id := id tb; ex_level := level tb; ex_entries := entries tb;
     ex_bloomFilter := BloomFilter.export (bloomFilter tb);
     ex_createdAt := createdAt tb; ex_keyRange := keyRange tb |}.

(** [SSTable.import]: the constructor, with the imported filter. *)
Definition import (data : Exported) (w : World) : result (t * World) :=
  create (ex_id data) (ex_level data) (ex_entries data)
    (Some (BloomFilter.import (ex_bloomFilter data))) w.

End SSTable.

(** ** SSTable.js: the level manager *)

Module SSTableManager.

Record t := mk {
  levels : gmap nat (list SSTable.t);
  nextId : nat
}.

Definition create : t := {| levels := ∅; nextId := 1 |}.

Definition getLevel (m : t) (level : nat) : list SSTable.t :=
  default [] (levels m !! level).

Definition addSSTable (m : t) (level : nat) (tb : SSTable.t) : t :=
  {| levels := <[level := getLevel m level ++ [tb]]> (levels m); nextId := nextId m |}.

Definition createSSTable (m : t) (level : nat) (es : list Entry.t) (w : World)
  : result (SSTable.t * t * World) :=
  let id := nextId m in
  let m1 := {| levels := levels m; nextId := S (nextId m) |} in
  '(tb, w1) ← SSTable.create id level es None w;
  Ok (tb, addSSTable m1 level tb, w1).

Definition clearLevel (m : t) (level : nat) : t :=
  {| levels := <[level := []]> (levels m); nextId := nextId m |}.

Definition clear (m : t) : t := {| levels := ∅; nextId := 1 |}.

Record Step := mkStep {
  step_level : nat;
  sstableId : nat;
  step_result : SSTable.GetResult
}.

Record SearchResult := mkSearchResult {
  found : bool;
  value : option (option string);
  searchPath : list Step
}.

Definition sstablesChecked (r : SearchResult) : nat := length (searchPath r).

(** The inner loop of [search], over the tables of one level in array
    order. [Some v] is the early return of a hit. *)
Fixpoint search_tables (level : nat) (k : string) (tables : list SSTable.t) (path : list Step)
  : result (option (option string) * list Step) :=
  match tables with
  | [] => Ok (None, path)
  | tb :: rest =>
    if (0 <? level)%nat && negb (SSTable.containsKeyInRange tb k)
    then search_tables level k rest path
    else
      r ← SSTable.get tb k;
      let path' := path ++ [{| step_level := level; sstableId := SSTable.id tb; step_result := r |}] in
      if SSTable.found r then Ok (Some (default None (SSTable.value r)), path')
      else search_tables level k rest path'
  end.

(** The outer loop, over the level numbers in ascending order. *)
Fixpoint search_levels (m : t) (k : string) (sortedLevels : list nat) (path : list Step)
  : result SearchResult :=
  match sortedLevels with
  | [] => Ok {| found := false; value := None; searchPath := path |}
  | level :: rest =>
    '(hit, path') ← search_tables level k (getLevel m level) path;
    match hit with
    | Some v => Ok {| found := true; value := Some v; searchPath := path' |}
    | None => search_levels m k rest path'
    end
  end.

(** [Array.from(this.levels.keys()).sort((a, b) => a - b)]. *)
Definition sortedLevels (m : t) : list nat :=
  merge_sort Nat.le (map fst (map_to_list (levels m))).

Definition search (m : t) (k : string) : result SearchResult :=
  search_levels m k (sortedLevels m) [].

Definition getTotalSSTables (m : t) : nat :=
  map_fold (fun _ tables total => (total + length tables)%nat) 0%nat (levels m).

End SSTableManager.

(** ** Compaction.js: the heap of the k-way merge *)

Module MinHeap.

Record Item := mkItem {
  key : string;
  value : option string;
  timestamp : Z;
  iteratorIndex : nat
}.

Record t := mk {
  heap : list Item;
  comparisons : nat
}.

Definition create : t := {| heap := []; comparisons := 0 |}.

Definition size (h : t) : nat := length (heap h).

(** [[a[i], a[j]] = [a[j], a[i]]]. *)
Definition swap (l : list Item) (i j : nat) (x y : Item) : list Item :=
  <[j := x]> (<[i := y]> l).

Fixpoint bubbleUp (fuel : nat) (h : t) (index : nat) : result t :=
  if (index =? 0)%nat then Ok h
  else match fuel with
       | O => OutOfFuel
       | S f =>
         let parentIndex := ((index - 1) / 2)%nat in
         x ← at_index (heap h) index;
         p ← at_index (heap h) parentIndex;
         if str_ge (key x) (key p) then
           Ok {| heap := heap h; comparisons := S (comparisons h) |}
         else
           bubbleUp f {| heap := swap (heap h) index parentIndex x p;
                         comparisons := S (comparisons h) |} parentIndex
       end.

Definition insert (h : t) (element : Item) : result t :=
  let l := heap h ++ [element] in
  bubbleUp (length l) {| heap := l; comparisons := comparisons h |} (length l - 1).

Fixpoint bubbleDown (fuel : nat) (h : t) (index : nat) : result t :=
  match fuel with
  | O => OutOfFuel
  | S f =>
    let leftChild := (2 * index + 1)%nat in
    let rightChild := (2 * index + 2)%nat in
    '(smallest, c1) ←
      (if (leftChild <? length (heap h))%nat then
         l ← at_index (heap h) leftChild;
         s ← at_index (heap h) index;
         Ok (if str_lt (key l) (key s) then leftChild else index, S (comparisons h))
       else Ok (index, comparisons h));
    '(smallest, c2) ←
      (if (rightChild <? length (heap h))%nat then
         r ← at_index (heap h) rightChild;
         s ← at_index (heap h) smallest;
         Ok (if str_lt (key r) (key s) then rightChild else smallest, S c1)
       else Ok (smallest, c1));
    if (smallest =? index)%nat then Ok {| heap := heap h; comparisons := c2 |}
    else
      x ← at_index (heap h) index;
      y ← at_index (heap h) smallest;
      bubbleDown f {| heap := swap (heap h) index smallest x y; comparisons := c2 |} smallest
  end.

(** [None] is the [null] of an empty heap. *)
Definition extractMin (h : t) : result (option Item * t) :=
  match heap h with
  | [] => Ok (None, h)
  | [x] => Ok (Some x, {| heap := []; comparisons := comparisons h |})
  | minItem :: _ =>
    match last (heap h) with
    | None => TypeError
    | Some lastItem =>
      let l := <[0%nat := lastItem]> (removelast (heap h)) in
      h' ← bubbleDown (S (length l)) {| heap := l; comparisons := comparisons h |} 0;
      Ok (Some minItem, h')
    end
  end.

End MinHeap.

(** ** Compaction.js: the compaction engine *)

Module Compaction.

Record Iterator := mkIterator {
  it_sstableId : nat;
  it_entries : list Entry.t;
  currentIndex : nat
}.

Record MergeStats := mkMergeStats {
  ms_inputSSTables : nat;
  inputEntries : nat;
  outputEntries : nat;
  ms_duplicatesRemoved : nat;
  heapComparisons : nat
}.

Record MergeResult := mkMergeResult {
  entries : list Entry.t;
  stats : MergeStats
}.

(** The first loop of [kWayMerge]: one iterator per non-empty table, and
    the first entry of each such table in the heap, tagged with the index
    [i] of the table in [sstables]. *)
Fixpoint kWayMerge_init (sstables : list SSTable.t) (i : nat)
    (iterators : list Iterator) (h : MinHeap.t) : result (list Iterator * MinHeap.t) :=
  match sstables with
  | [] => Ok (iterators, h)
  | tb :: rest =>
    let es := SSTable.getAllEntries tb in
    match es with
    | [] => kWayMerge_init rest (S i) iterators h
    | e :: _ =>
      h' ← MinHeap.insert h (MinHeap.mkItem (Entry.key e) (Entry.value e) (Entry.timestamp e) i);
      kWayMerge_init rest (S i) (iterators ++ [mkIterator (SSTable.id tb) es 0]) h'
    end
  end.

(** The [while (heap.size() > 0)] loop. [iterators[min.iteratorIndex]]
    is read by the index of the table, not of the iterator. *)
Fixpoint kWayMerge_loop (fuel : nat) (iterators : list Iterator) (h : MinHeap.t)
    (mergedEntries : list Entry.t) (lastKey : option string) (duplicatesRemoved : nat)
  : result (list Entry.t * nat * MinHeap.t) :=
  if (MinHeap.size h =? 0)%nat then Ok (mergedEntries, duplicatesRemoved, h)
  else match fuel with
       | O => OutOfFuel
       | S f =>
         '(extracted, h1) ← MinHeap.extractMin h;
         minItem ← (match extracted with Some x => Ok x | None => TypeError end);
         let fresh :=
           match lastKey with
           | Some k => negb (str_eq (MinHeap.key minItem) k)
           | None => true
           end in
         let merged' :=
           if fresh then
             match MinHeap.value minItem with
             | Some v =>
               mergedEntries ++
                 [Entry.mk (MinHeap.key minItem) (Some v) (MinHeap.timestamp minItem)]
             | None => mergedEntries
             end
           else mergedEntries in
         let lastKey' := if fresh then Some (MinHeap.key minItem) else lastKey in
         let dups' := if fresh then duplicatesRemoved else S duplicatesRemoved in
         iterator ← at_index iterators (MinHeap.iteratorIndex minItem);
         let iterator' :=
           mkIterator (it_sstableId iterator) (it_entries iterator) (S (currentIndex iterator)) in
         let iterators' := <[MinHeap.iteratorIndex minItem := iterator']> iterators in
         h2 ←
           (match it_entries iterator' !! currentIndex iterator' with
            | Some nextEntry =>
              MinHeap.insert h1
                (MinHeap.mkItem (Entry.key nextEntry) (Entry.value nextEntry)
                   (Entry.timestamp nextEntry) (MinHeap.iteratorIndex minItem))
            | None => Ok h1
            end);
         kWayMerge_loop f iterators' h2 merged' lastKey' dups'
       end.

Definition totalEntries (sstables : list SSTable.t) : nat :=
  fold_left (fun sum tb => (sum + length (SSTable.entries tb))%nat) sstables 0%nat.

Definition kWayMerge (sstables : list SSTable.t) : result MergeResult :=
  '(iterators, h) ← kWayMerge_init sstables 0 [] MinHeap.create;
  '(merged, dups, h') ←
    kWayMerge_loop (S (length sstables + totalEntries sstables)) iterators h [] None 0;
  Ok {| entries := merged;
        stats := {| ms_inputSSTables := length sstables;
                    inputEntries := totalEntries sstables;
                    outputEntries := length merged;
                    ms_duplicatesRemoved := dups;
                    heapComparisons := MinHeap.comparisons h' |} |}.

Record Record_ := mkRecord {
  id : nat;
  timestamp : Z;
  sourceLevel : nat;
  targetLevel : nat;
  inputSSTables : nat;
  outputSSTables : nat;
  inputBytes : Z;
  outputBytes : Z;
  duplicatesRemoved : nat;
  mergeStats : MergeStats
}.

(** The engine's own state; the SSTable manager it points to is the one
    the tree holds, so it is an argument and a result of the methods. *)
Record t := mk {
  compactionHistory : list Record_;
  totalCompactions : nat;
  totalBytesCompacted : Z
}.

Definition create : t :=
  {| compactionHistory := []; totalCompactions := 0; totalBytesCompacted := 0 |}.

(** [!x] for a key or null: null and the empty string are falsy. *)
Definition falsy (x : option string) : bool :=
  match x with
  | None => true
  | Some s => (String.length s =? 0)%nat
  end.

Definition rangesOverlap (range1 range2 : SSTable.KeyRange) : bool :=
  if falsy (SSTable.min range1) || falsy (SSTable.max range1)
     || falsy (SSTable.min range2) || falsy (SSTable.max range2)
  then false
  else
    match SSTable.min range1, SSTable.max range1, SSTable.min range2, SSTable.max range2 with
    | Some min1, Some max1, Some min2, Some max2 =>
      negb (str_lt max1 min2 || str_lt max2 min1)
    | _, _, _, _ => false
    end.

Definition findOverlappingSSTables (sourceSSTables targetSSTables : list SSTable.t)
  : list SSTable.t :=
  List.filter
    (fun target =>
       existsb (fun source => rangesOverlap (SSTable.keyRange source) (SSTable.keyRange target))
         sourceSSTables)
    targetSSTables.

Inductive Result :=
| Failure (message : string)
| Success (record : Record_).

Definition success (r : Result) : bool :=
  match r with Success _ => true | Failure _ => false end.

(** [Array.prototype.includes] on tables compares object identity; within
    a manager every table has its own [id]. *)
Definition includes (l : list SSTable.t) (tb : SSTable.t) : bool :=
  existsb (fun o => (SSTable.id o =? SSTable.id tb)%nat) l.

Definition compactLevel (c : t) (m : SSTableManager.t) (sourceLevel targetLevel : nat) (w : World)
  : result (Result * t * SSTableManager.t * World) :=
  let sourceSSTables := SSTableManager.getLevel m sourceLevel in
  if (length sourceSSTables =? 0)%nat then
    Ok (Failure ("No SSTables at level " +:+ NilZero.string_of_uint (Nat.to_uint sourceLevel)),
        c, m, w)
  else
    let targetSSTables := SSTableManager.getLevel m targetLevel in
    let overlappingSSTables := findOverlappingSSTables sourceSSTables targetSSTables in
    let sstablesToMerge := sourceSSTables ++ overlappingSSTables in
    mergeResult ← kWayMerge sstablesToMerge;
    let inputBytes := fold_left (fun sum tb => (sum + SSTable.size tb)%Z) sstablesToMerge 0%Z in
    let outputBytes := (Z.of_nat (length (entries mergeResult)) * 100)%Z in
    let m1 := SSTableManager.clearLevel m sourceLevel in
    let remainingTarget :=
      List.filter (fun tb => negb (includes overlappingSSTables tb)) targetSSTables in
    let m2 := SSTableManager.clearLevel m1 targetLevel in
    let m3 := fold_left (fun mm tb => SSTableManager.addSSTable mm targetLevel tb)
                remainingTarget m2 in
    '(_, m4, w1) ← SSTableManager.createSSTable m3 targetLevel (entries mergeResult) w;
    let '(now, w2) := Date_now w1 in
    let compactionRecord :=
      {| id := totalCompactions c; timestamp := now;
         sourceLevel := sourceLevel; targetLevel := targetLevel;
         inputSSTables := length sstablesToMerge; outputSSTables := 1;
         inputBytes := inputBytes; outputBytes := outputBytes;
         duplicatesRemoved := ms_duplicatesRemoved (stats mergeResult);
         mergeStats := stats mergeResult |} in
    Ok (Success compactionRecord,
        {| compactionHistory := compactionHistory c ++ [compactionRecord];
           totalCompactions := S (totalCompactions c);
           totalBytesCompacted := (totalBytesCompacted c + inputBytes)%Z |},
        m4, w2).

(** [thresholds[level] || 1000]. *)
Definition threshold (level : nat) : nat :=
  match level with
  | 0 => 4
  | 1 => 10
  | 2 => 100
  | _ => 1000
  end%nat.

Definition shouldCompact (m : SSTableManager.t) (level : nat) : bool :=
  (threshold level <=? length (SSTableManager.getLevel m level))%nat.

(** [for (let level = 0; level < 3; level++)], over the list of the
    levels still to visit. *)
Fixpoint runAutoCompaction_loop (levels : list nat) (c : t) (m : SSTableManager.t) (w : World)
    (results : list Record_) : result (list Record_ * t * SSTableManager.t * World) :=
  match levels with
  | [] => Ok (results, c, m, w)
  | level :: rest =>
    if shouldCompact m level then
      '(r, c1, m1, w1) ← compactLevel c m level (level + 1) w;
      match r with
      | Success rec => runAutoCompaction_loop rest c1 m1 w1 (results ++ [rec])
      | Failure _ => runAutoCompaction_loop rest c1 m1 w1 results
      end
    else runAutoCompaction_loop rest c m w results
  end.

Definition runAutoCompaction (c : t) (m : SSTableManager.t) (w : World)
  : result (list Record_ * t * SSTableManager.t * World) :=
  runAutoCompaction_loop [0; 1; 2]%nat c m w [].

Definition clearHistory (c : t) : t := create.

End Compaction.

(** ** LSMTree.js *)

Module LSMTree.

Record Stats := mkStats {
  totalWrites : nat;
  totalReads : nat;
  totalDeletes : nat;
  memtableFlushes : nat;
  totalCompactions : nat;
  bloomFilterHits : nat;
  bloomFilterMisses : nat
}.

Definition noStats : Stats := mkStats 0 0 0 0 0 0 0.

(** The tree. The observer callbacks are not part of the state: they are
    called with results and do not feed back into the engine. *)
Record t := mk {
  memtable : SkipList.t;
  memtableThreshold : nat;
  sstableManager : SSTableManager.t;
  compaction : Compaction.t;
  stats : Stats
}.

(** [new LSMTree(memtableThreshold)]. *)
Definition create (memtableThreshold : nat) (w : World) : t * World :=
  let '(sl, w1) := SkipList.create 16 w in
  ({| memtable := sl; memtableThreshold := memtableThreshold;
      sstableManager := SSTableManager.create;
      compaction := Compaction.create; stats := noStats |}, w1).

Record FlushResult := mkFlushResult {
  entriesFlushed : nat;
  fr_sstableId : nat;
  fr_level : nat
}.

Definition flushMemtable (tr : t) (w : World) : result (option FlushResult * t * World) :=
  if SkipList.isEmpty (memtable tr) then Ok (None, tr, w)
  else
    let es := SkipList.getAllEntries (memtable tr) in
    '(tb, m1, w1) ← SSTableManager.createSSTable (sstableManager tr) 0 es w;
    let oldSize := SkipList.size (memtable tr) in
    let '(sl, w2) := SkipList.clear (memtable tr) w1 in
    let st := stats tr in
    Ok (Some {| entriesFlushed := oldSize; fr_sstableId := SSTable.id tb; fr_level := 0 |},
        {| memtable := sl; memtableThreshold := memtableThreshold tr;
           sstableManager := m1; compaction := compaction tr;
           stats := mkStats (totalWrites st) (totalReads st) (totalDeletes st)
                      (S (memtableFlushes st)) (totalCompactions st)
                      (bloomFilterHits st) (bloomFilterMisses st) |},
        w2).

Record PutResult := mkPutResult {
  pr_key : string;
  pr_memtableResult : SkipList.InsertResult;
  pr_flushed : bool;
  pr_flushResult : option FlushResult;
  compacted : bool;
  compactionResults : list Compaction.Record_
}.

Definition put (tr : t) (k : string) (v : option string) (w : World)
  : result (PutResult * t * World) :=
  let '(insertResult, sl, w1) := SkipList.insert (memtable tr) k v w in
  let st := stats tr in
  let tr1 :=
    {| memtable := sl; memtableThreshold := memtableThreshold tr;
       sstableManager := sstableManager tr; compaction := compaction tr;
       stats := mkStats (S (totalWrites st)) (totalReads st) (totalDeletes st)
                  (memtableFlushes st) (totalCompactions st)
                  (bloomFilterHits st) (bloomFilterMisses st) |} in
  '(flushResult, tr2, w2) ←
    (if (memtableThreshold tr1 <=? SkipList.size (memtable tr1))%nat
     then flushMemtable tr1 w1
     else Ok (None, tr1, w1));
  '(results, c, m, w3) ←
    Compaction.runAutoCompaction (compaction tr2) (sstableManager tr2) w2;
  let st2 := stats tr2 in
  Ok ({| pr_key := k; pr_memtableResult := insertResult;
         pr_flushed := bool_decide (is_Some flushResult); pr_flushResult := flushResult;
         compacted := (0 <? length results)%nat; compactionResults := results |},
      {| memtable := memtable tr2; memtableThreshold := memtableThreshold tr2;
         sstableManager := m; compaction := c;
         stats := mkStats (totalWrites st2) (totalReads st2) (totalDeletes st2)
                    (memtableFlushes st2) (totalCompactions st2 + length results)
                    (bloomFilterHits st2) (bloomFilterMisses st2) |},
      w3).

Inductive Location := Memtable | SSTable_ | NotFound.

Inductive PathStep :=
| MemtableStep (found : bool) (comparisons : nat)
| SSTableStep (level sstableId : nat) (found bloomFilterSaved : bool) (comparisons : nat).

Record GetResult := mkGetResult {
  found : bool;
  value : option string;
  location : Location;
  searchPath : list PathStep;
  sstablesChecked : option nat
}.

(** The counters kept while copying the manager's search path. *)
Fixpoint trackBloom (path : list SSTableManager.Step) (hits misses : nat) : nat * nat :=
  match path with
  | [] => (hits, misses)
  | step :: rest =>
    let r := SSTableManager.step_result step in
    if SSTable.bloomFilterSaved r then trackBloom rest (S hits) misses
    else if negb (SSTable.found r) then trackBloom rest hits (S misses)
    else trackBloom rest hits misses
  end.

Definition pathStep (step : SSTableManager.Step) : PathStep :=
  let r := SSTableManager.step_result step in
  SSTableStep (SSTableManager.step_level step) (SSTableManager.sstableId step)
    (SSTable.found r) (SSTable.bloomFilterSaved r) (SSTable.comparisons r).

Definition get (tr : t) (k : string) : result (GetResult * t) :=
  let st := stats tr in
  let memtableResult := SkipList.search (memtable tr) k in
  let first := MemtableStep (SkipList.found memtableResult) (SkipList.comparisons memtableResult) in
  if SkipList.found memtableResult then
    Ok ({| found := true; value := default None (SkipList.sr_value memtableResult);
           location := Memtable; searchPath := [first]; sstablesChecked := None |},
        {| memtable := memtable tr; memtableThreshold := memtableThreshold tr;
           sstableManager := sstableManager tr; compaction := compaction tr;
           stats := mkStats (totalWrites st) (S (totalReads st)) (totalDeletes st)
                      (memtableFlushes st) (totalCompactions st)
                      (bloomFilterHits st) (bloomFilterMisses st) |})
  else
    sstableResult ← SSTableManager.search (sstableManager tr) k;
    let '(hits, misses) :=
      trackBloom (SSTableManager.searchPath sstableResult)
        (bloomFilterHits st) (bloomFilterMisses st) in
    Ok ({| found := SSTableManager.found sstableResult;
           value := if SSTableManager.found sstableResult
                    then default None (SSTableManager.value sstableResult)
                    else None;
           location := if SSTableManager.found sstableResult then SSTable_ else NotFound;
           searchPath := first :: map pathStep (SSTableManager.searchPath sstableResult);
           sstablesChecked := Some (SSTableManager.sstablesChecked sstableResult) |},
        {| memtable := memtable tr; memtableThreshold := memtableThreshold tr;
           sstableManager := sstableManager tr; compaction := compaction tr;
           stats := mkStats (totalWrites st) (S (totalReads st)) (totalDeletes st)
                      (memtableFlushes st) (totalCompactions st) hits misses |}).

Record DeleteResult := mkDeleteResult {
  dr_key : string;
  dr_memtableResult : SkipList.InsertResult;
  dr_flushed : bool;
  dr_flushResult : option FlushResult
}.

(** [delete]: the tombstone is the value [null]. *)
Definition delete (tr : t) (k : string) (w : World) : result (DeleteResult * t * World) :=
  let '(insertResult, sl, w1) := SkipList.insert (memtable tr) k None w in
  let st := stats tr in
  let tr1 :=
    {| memtable := sl; memtableThreshold := memtableThreshold tr;
       sstableManager := sstableManager tr; compaction := compaction tr;
       stats := mkStats (totalWrites st) (totalReads st) (S (totalDeletes st))
                  (memtableFlushes st) (totalCompactions st)
                  (bloomFilterHits st) (bloomFilterMisses st) |} in
  '(flushResult, tr2, w2) ←
    (if (memtableThreshold tr1 <=? SkipList.size (memtable tr1))%nat
     then flushMemtable tr1 w1
     else Ok (None, tr1, w1));
  Ok ({| dr_key := k; dr_memtableResult := insertResult;
         dr_flushed := bool_decide (is_Some flushResult); dr_flushResult := flushResult |},
      tr2, w2).

Definition compact (tr : t) (sourceLevel targetLevel : nat) (w : World)
  : result (Compaction.Result * t * World) :=
  '(r, c, m, w1) ←
    Compaction.compactLevel (compaction tr) (sstableManager tr) sourceLevel targetLevel w;
  let st := stats tr in
  Ok (r,
      {| memtable := memtable tr; memtableThreshold := memtableThreshold tr;
         sstableManager := m; compaction := c;
         stats := if Compaction.success r
                  then mkStats (totalWrites st) (totalReads st) (totalDeletes st)
                         (memtableFlushes st) (S (totalCompactions st))
                         (bloomFilterHits st) (bloomFilterMisses st)
                  else st |},
      w1).

Definition clear (tr : t) (w : World) : t * World :=
  let '(sl, w1) := SkipList.clear (memtable tr) w in
  ({| memtable := sl; memtableThreshold := memtableThreshold tr;
      sstableManager := SSTableManager.clear (sstableManager tr);
      compaction := Compaction.clearHistory (compaction tr);
      stats := noStats |}, w1).

End LSMTree.

(** ** Operation sequences *)

(** The calls a client makes on a tree, and what each returns. A run ends
    at the first exception. *)
Inductive Op :=
| Put (k : string) (v : option string)
| Get (k : string)
| Delete (k : string)
| Compact (sourceLevel targetLevel : nat)
| Clear.

Inductive Output :=
| OPut (r : LSMTree.PutResult)
| OGet (r : LSMTree.GetResult)
| ODelete (r : LSMTree.DeleteResult)
| OCompact (r : Compaction.Result)
| OClear.

Definition step (tr : LSMTree.t) (w : World) (op : Op) : result (Output * LSMTree.t * World) :=
  match op with
  | Put k v => '(r, tr', w') ← LSMTree.put tr k v w; Ok (OPut r, tr', w')
  | Get k => '(r, tr') ← LSMTree.get tr k; Ok (OGet r, tr', w)
  | Delete k => '(r, tr', w') ← LSMTree.delete tr k w; Ok (ODelete r, tr', w')
  | Compact src tgt => '(r, tr', w') ← LSMTree.compact tr src tgt w; Ok (OCompact r, tr', w')
  | Clear => let '(tr', w') := LSMTree.clear tr w in Ok (OClear, tr', w')
  end.

Fixpoint run (tr : LSMTree.t) (w : World) (ops : list Op)
  : result (list Output * LSMTree.t * World) :=
  match ops with
  | [] => Ok ([], tr, w)
  | op :: rest =>
    '(o, tr1, w1) ← step tr w op;
    '(os, tr2, w2) ← run tr1 w1 rest;
    Ok (o :: os, tr2, w2)
  end.

(** A fresh tree with the given flush threshold, then the operations. *)
Definition session (memtableThreshold : nat) (w : World) (ops : list Op)
  : result (list Output * LSMTree.t * World) :=
  let '(tr, w1) := LSMTree.create memtableThreshold w in
  run tr w1 ops.

(** What a client sees of a [get]: the found flag and the value. *)
Definition observe (o : Output) : option (bool * option string) :=
  match o with
  | OGet r => Some (LSMTree.found r, LSMTree.value r)
  | _ => None
  end.

Definition observations (r : result (list Output * LSMTree.t * World))
  : result (list (option (bool * option string))) :=
  '(os, _, _) ← r; Ok (map observe os).

(** The answer of the last operation of a session when it is a [get]. *)
Definition lastGet (r : result (list Output * LSMTree.t * World))
  : result (option (bool * option string)) :=
  '(os, _, _) ← r; Ok (last os ≫= observe).

Definition world0 : World := mkWorld (fun _ => false) 0 (fun n => Z.of_nat n) 0.

(** * Invariants and auxiliary predicates *)

(** A probe index is usable when it is a number that falls inside the
    bit array. *)
Definition probe_ok (bs : list Z) (h : option Z) : Prop :=
  exists i, h = Some i /\ (0 <= i)%Z /\ (Z.to_nat (i / 8) < length bs)%nat.

(** What the constructor establishes and [add] keeps: a bit array that
    covers [size] bits, or no probes at all. *)
Definition bloom_wf (bf : BloomFilter.t) : Prop :=
  BloomFilter.numHashes bf = 0%nat \/
  ((0 < BloomFilter.size bf)%Z /\
   length (BloomFilter.bits bf) = Z.to_nat ((BloomFilter.size bf + 7) / 8)).

(** [a] may stand before [b] in a table: its key is not the greater one. *)
Definition key_le (a b : Entry.t) : Prop := str_lt (Entry.key b) (Entry.key a) = false.

(** An index entry points at a stored record that carries its key. *)
Definition index_ok (es : list Entry.t) (ie : SSTable.IndexEntry) : Prop :=
  exists e, es !! SSTable.position ie = Some e /\ Entry.key e = SSTable.key ie.

(** What the constructor establishes about a table. *)
Definition table_wf (tb : SSTable.t) : Prop :=
  StronglySorted key_le (SSTable.entries tb) /\
  Forall (index_ok (SSTable.entries tb)) (SSTable.sparseIndex tb).


(** * Sessions used as concrete inputs *)

(** What is left of a session's final tree under a projection. *)
Definition inspect {A} (f : LSMTree.t -> A) (r : result (list Output * LSMTree.t * World))
  : result A :=
  '(_, tr, _) ← r; Ok (f tr).

Definition levelTables (l : nat) (tr : LSMTree.t) : list SSTable.t :=
  SSTableManager.getLevel (LSMTree.sstableManager tr) l.

Definition levelRanges (l : nat) (tr : LSMTree.t) : list SSTable.KeyRange :=
  map SSTable.keyRange (levelTables l tr).

Definition levelRecords (l : nat) (tr : LSMTree.t) : list (list (string * option string)) :=
  map (fun tb => map (fun e => (Entry.key e, Entry.value e)) (SSTable.entries tb))
    (levelTables l tr).

Definition historyLength (tr : LSMTree.t) : nat :=
  length (Compaction.compactionHistory (LSMTree.compaction tr)).

(** Level 0 as the trigger policy sees it: the number of its tables, the
    number of compactions run so far, and [shouldCompact(0)]. *)
Definition level0State (tr : LSMTree.t) : nat * nat * bool :=
  (length (levelTables 0 tr), historyLength tr,
   Compaction.shouldCompact (LSMTree.sstableManager tr) 0).

(** The manager a session ends with (the empty manager if it throws). *)
Definition managerAfter (memtableThreshold : nat) (ops : list Op) : SSTableManager.t :=
  match session memtableThreshold world0 ops with
  | Ok (_, tr, _) => LSMTree.sstableManager tr
  | _ => SSTableManager.create
  end.

(** Two flushes that both carry the key ["k"], at the default threshold. *)
Definition two_flushes_of_k : list Op :=
  [Put "k" (Some "a"); Put "f1" (Some "x"); Put "f2" (Some "x"); Put "f3" (Some "x");
   Put "f4" (Some "x"); Put "f5" (Some "x"); Put "f6" (Some "x"); Put "f7" (Some "x");
   Put "f8" (Some "x"); Put "f9" (Some "x");
   Put "k" (Some "b"); Put "g1" (Some "x"); Put "g2" (Some "x"); Put "g3" (Some "x");
   Put "g4" (Some "x"); Put "g5" (Some "x"); Put "g6" (Some "x"); Put "g7" (Some "x");
   Put "g8" (Some "x"); Put "g9" (Some "x"); Get "k"].

(** An old version of ["k"] in level 1 and a newer one in level 0, in a
    table whose first key is smaller. *)
Definition newer_version_in_L0 : list Op :=
  [Put "k" (Some "old"); Put "z" (Some "0"); Compact 0 1;
   Put "a" (Some "1"); Put "k" (Some "new"); Get "k"; Compact 0 1; Get "k"].

(** A level-1 table inside the gap between two level-0 tables. *)
Definition target_in_gap : list Op :=
  [Put "m" (Some "1"); Put "n" (Some "1"); Compact 0 1;
   Put "a" (Some "1"); Put "b" (Some "1"); Put "y" (Some "1"); Put "z" (Some "1");
   Compact 0 1].

(** A value pushed down to level 2, then deleted, then level 0 compacted. *)
Definition delete_then_compact : list Op :=
  [Put "k" (Some "x"); Compact 0 1; Compact 1 2; Delete "k"; Get "k"; Compact 0 1; Get "k"].

(** * Erasure of timestamps and node levels

    Two runs of one operation sequence under different runtimes build
    trees that differ in the timestamps of records, tables and compaction
    records and in the levels of skip-list nodes. Erasure sets all of these
    to zero; trees with the same erasure are indistinguishable by [get]. *)

Definition rmap {A B} (f : A -> B) (r : result A) : result B :=
  match r with
  | Ok a => Ok (f a)
  | TypeError => TypeError
  | OutOfFuel => OutOfFuel
  end.

Definition eraseE (e : Entry.t) : Entry.t :=
  Entry.mk (Entry.key e) (Entry.value e) 0.

Definition eraseN (n : SkipListNode.t) : SkipListNode.t :=
  SkipListNode.mk (SkipListNode.key n) (SkipListNode.value n) 0 0.

Definition eraseSL (sl : SkipList.t) : SkipList.t :=
  SkipList.mk (SkipList.maxLevel sl) 0 (map eraseN (SkipList.nodes sl)) (SkipList.size sl).

Definition eraseT (tb : SSTable.t) : SSTable.t :=
  SSTable.mk (SSTable.id tb) (SSTable.level tb) 0 (map eraseE (SSTable.entries tb))
    (SSTable.bloomFilter tb) (SSTable.sparseIndex tb) (SSTable.size tb) (SSTable.keyRange tb).

Definition eraseM (m : SSTableManager.t) : SSTableManager.t :=
  SSTableManager.mk (map eraseT <$> SSTableManager.levels m) (SSTableManager.nextId m).

Definition eraseI (x : MinHeap.Item) : MinHeap.Item :=
  MinHeap.mkItem (MinHeap.key x) (MinHeap.value x) 0 (MinHeap.iteratorIndex x).

Definition eraseH (h : MinHeap.t) : MinHeap.t :=
  MinHeap.mk (map eraseI (MinHeap.heap h)) (MinHeap.comparisons h).

Definition eraseIt (it : Compaction.Iterator) : Compaction.Iterator :=
  Compaction.mkIterator (Compaction.it_sstableId it) (map eraseE (Compaction.it_entries it))
    (Compaction.currentIndex it).

Definition eraseMR (mr : Compaction.MergeResult) : Compaction.MergeResult :=
  Compaction.mkMergeResult (map eraseE (Compaction.entries mr)) (Compaction.stats mr).

Definition eraseR (r : Compaction.Record_) : Compaction.Record_ :=
  Compaction.mkRecord (Compaction.id r) 0 (Compaction.sourceLevel r) (Compaction.targetLevel r)
    (Compaction.inputSSTables r) (Compaction.outputSSTables r) (Compaction.inputBytes r)
    (Compaction.outputBytes r) (Compaction.duplicatesRemoved r) (Compaction.mergeStats r).

Definition eraseC (c : Compaction.t) : Compaction.t :=
  Compaction.mk (map eraseR (Compaction.compactionHistory c)) (Compaction.totalCompactions c)
    (Compaction.totalBytesCompacted c).

Definition eraseTree (tr : LSMTree.t) : LSMTree.t :=
  LSMTree.mk (eraseSL (LSMTree.memtable tr)) (LSMTree.memtableThreshold tr)
    (eraseM (LSMTree.sstableManager tr)) (eraseC (LSMTree.compaction tr)) (LSMTree.stats tr).

(** The level-0 chain of a skip list is strictly increasing by key. *)
Definition node_lt (a b : SkipListNode.t) : Prop :=
  str_lt (SkipListNode.key a) (SkipListNode.key b) = true.

Definition chain_sorted (sl : SkipList.t) : Prop :=
  StronglySorted node_lt (SkipList.nodes sl).

(** The number of leading nodes of a chain whose key is below [k]. *)
Fixpoint rank (k : string) (ns : list SkipListNode.t) : nat :=
  match ns with
  | [] => 0
  | n :: rest => if str_lt (SkipListNode.key n) k then S (rank k rest) else 0
  end.

(** Two trees that a [get] cannot tell apart. *)
Definition sim (tr1 tr2 : LSMTree.t) : Prop :=
  eraseTree tr1 = eraseTree tr2 /\
  chain_sorted (LSMTree.memtable tr1) /\ chain_sorted (LSMTree.memtable tr2).

(** What a client sees of one operation, and the erased tree after it. *)
Definition eraseStep (r : Output * LSMTree.t * World)
  : option (bool * option string) * LSMTree.t :=
  (observe (fst (fst r)), eraseTree (snd (fst r))).

Definition eraseRes (r : Compaction.Result) : Compaction.Result :=
  match r with
  | Compaction.Success rec => Compaction.Success (eraseR rec)
  | Compaction.Failure msg => Compaction.Failure msg
  end.

(** What remains of the outcome of a compaction once the runtime is dropped. *)
Definition eraseCL (r : Compaction.Result * Compaction.t * SSTableManager.t * World)
  : Compaction.Result * Compaction.t * SSTableManager.t :=
  (eraseRes (fst (fst (fst r))), eraseC (snd (fst (fst r))), eraseM (snd (fst r))).

Definition eraseAC (r : list Compaction.Record_ * Compaction.t * SSTableManager.t * World)
  : list Compaction.Record_ * Compaction.t * SSTableManager.t :=
  (map eraseR (fst (fst (fst r))), eraseC (snd (fst (fst r))), eraseM (snd (fst r))).

Definition eraseFlush (r : option LSMTree.FlushResult * LSMTree.t * World)
  : option LSMTree.FlushResult * LSMTree.t :=
  (fst (fst r), eraseTree (snd (fst r))).

(** The erased tree an operation leaves. *)
Definition treeOf {A} (r : A * LSMTree.t * World) : LSMTree.t := eraseTree (snd (fst r)).

Definition eraseGet (r : LSMTree.GetResult * LSMTree.t) : bool * option string * LSMTree.t :=
  (LSMTree.found (fst r), LSMTree.value (fst r), eraseTree (snd r)).

(** What remains of a run: the answers of its [get]s and the erased tree. *)
Definition eraseRun (r : list Output * LSMTree.t * World)
  : list (option (bool * option string)) * LSMTree.t :=
  (map observe (fst (fst r)), eraseTree (snd (fst r))).

(** * The measure of the k-way merge *)

(** The entries of an iterator that have not entered the heap yet. *)
Definition pending (it : Compaction.Iterator) : nat :=
  length (Compaction.it_entries it) - S (Compaction.currentIndex it).

(** What the merge loop still has to emit: the heap and what is pending. *)
Definition potential (its : list Compaction.Iterator) (h : MinHeap.t) : nat :=
  MinHeap.size h + sum_list_with pending its.

(** Every table of every level is as the constructor builds tables. *)
Definition manager_wf (m : SSTableManager.t) : Prop :=
  forall l tb, tb ∈ SSTableManager.getLevel m l -> table_wf tb.

(** The invariant of a tree between operations. *)
Definition tree_wf (tr : LSMTree.t) : Prop :=
  manager_wf (LSMTree.sstableManager tr).

(** * Invariants of the structures, and clients used to state them *)

(** What the skip list keeps between calls: the chain is strictly
    increasing by key, [size] counts its nodes, and no node is higher than
    the list, which is no higher than [maxLevel]. *)
Definition skiplist_wf (sl : SkipList.t) : Prop :=
  chain_sorted sl /\
  SkipList.size sl = length (SkipList.nodes sl) /\
  (SkipList.level sl <= SkipList.maxLevel sl)%nat /\
  Forall (fun n => (SkipListNode.level n <= SkipList.level sl)%nat) (SkipList.nodes sl).

(** What [search] tells a caller: the found flag and the value. *)
Definition lookup (sl : SkipList.t) (k : string) : bool * option (option string) :=
  (SkipList.found (SkipList.search sl k), SkipList.sr_value (SkipList.search sl k)).

(** A run of [insert] calls, in order. *)
Fixpoint insertAll (sl : SkipList.t) (kvs : list (string * option string)) (w : World)
  : SkipList.t * World :=
  match kvs with
  | [] => (sl, w)
  | (k, v) :: rest =>
    let '(_, sl1, w1) := SkipList.insert sl k v w in
    insertAll sl1 rest w1
  end.

(** The value a key has after a run of writes: that of the last write. *)
Fixpoint lastWrite (kvs : list (string * option string)) (k : string)
  : option (option string) :=
  match kvs with
  | [] => None
  | (k', v) :: rest =>
    match lastWrite rest k with
    | Some v' => Some v'
    | None => if String.eqb k' k then Some v else None
    end
  end.

(** [a] may stand above [b] in the heap: its key is not the greater one. *)
Definition item_le (a b : MinHeap.Item) : Prop :=
  str_lt (MinHeap.key b) (MinHeap.key a) = false.

(** The heap order: no element has a key below the key of its parent. *)
Definition heap_ok (l : list MinHeap.Item) : Prop :=
  forall i x p, (0 < i)%nat -> l !! i = Some x -> l !! ((i - 1) / 2)%nat = Some p ->
    item_le p x.

(** The order is in place except between [idx] and its parent, and the
    children of [idx] are not below that parent: the state of the array
    while [bubbleUp] is at [idx]. *)
Definition up_inv (l : list MinHeap.Item) (idx : nat) : Prop :=
  (forall i x p, (0 < i)%nat -> i <> idx -> l !! i = Some x ->
     l !! ((i - 1) / 2)%nat = Some p -> item_le p x) /\
  (forall c x g, (0 < idx)%nat -> (0 < c)%nat -> ((c - 1) / 2)%nat = idx ->
     l !! c = Some x -> l !! ((idx - 1) / 2)%nat = Some g -> item_le g x).

(** The order is in place except between [idx] and its children, and the
    children of [idx] are not below the parent of [idx]: the state of the
    array while [bubbleDown] is at [idx]. *)
Definition down_inv (l : list MinHeap.Item) (idx : nat) : Prop :=
  (forall i x p, (0 < i)%nat -> ((i - 1) / 2)%nat <> idx -> l !! i = Some x ->
     l !! ((i - 1) / 2)%nat = Some p -> item_le p x) /\
  (forall c x g, (0 < idx)%nat -> (0 < c)%nat -> ((c - 1) / 2)%nat = idx ->
     l !! c = Some x -> l !! ((idx - 1) / 2)%nat = Some g -> item_le g x).

(** The heap element made from a record of the table at index [i]. *)
Definition itemOf (i : nat) (e : Entry.t) : MinHeap.Item :=
  MinHeap.mkItem (Entry.key e) (Entry.value e) (Entry.timestamp e) i.

(** The record an element of the heap came from. *)
Definition entryOf (x : MinHeap.Item) : Entry.t :=
  Entry.mk (MinHeap.key x) (MinHeap.value x) (MinHeap.timestamp x).

(** The element of an iterator that is in the heap, if it has one left,
    and all the elements it has left. *)
Definition headOf (i : nat) (it : Compaction.Iterator) : list MinHeap.Item :=
  match Compaction.it_entries it !! Compaction.currentIndex it with
  | Some e => [itemOf i e]
  | None => []
  end.

Definition restOf (i : nat) (it : Compaction.Iterator) : list MinHeap.Item :=
  map (itemOf i) (drop (Compaction.currentIndex it) (Compaction.it_entries it)).

Definition heads (its : list Compaction.Iterator) : list MinHeap.Item :=
  concat (imap headOf its).

Definition remaining (its : list Compaction.Iterator) : list MinHeap.Item :=
  concat (imap restOf its).

(** The state of the merge loop between two extractions: the heap is in
    heap order and holds the current element of every iterator that has
    one. *)
Definition merge_inv (its : list Compaction.Iterator) (h : MinHeap.t) : Prop :=
  heap_ok (MinHeap.heap h) /\ MinHeap.heap h ≡ₚ heads its.

(** Every iterator walks a list sorted by key. *)
Definition iterators_sorted (its : list Compaction.Iterator) : Prop :=
  Forall (fun it => StronglySorted key_le (Compaction.it_entries it)) its.

(** What the body of the merge loop does with the elements in the order
    of their extraction: the records it appends and the duplicates it
    counts, given the key of the element extracted before. *)
Fixpoint emit (xs : list MinHeap.Item) (lastKey : option string) : list Entry.t * nat :=
  match xs with
  | [] => ([], 0%nat)
  | x :: rest =>
    let fresh :=
      match lastKey with
      | Some k => negb (str_eq (MinHeap.key x) k)
      | None => true
      end in
    if fresh then
      let '(out, d) := emit rest (Some (MinHeap.key x)) in
      (match MinHeap.value x with
       | Some v => Entry.mk (MinHeap.key x) (Some v) (MinHeap.timestamp x) :: out
       | None => out
       end, d)
    else
      let '(out, d) := emit rest lastKey in (out, S d)
  end.

(** No table without records stands before a table with records. *)
Definition empties_last (tbs : list SSTable.t) : Prop :=
  forall i j a b, (i < j)%nat -> tbs !! i = Some a -> tbs !! j = Some b ->
    SSTable.entries a = [] -> SSTable.entries b = [].

(** Keys strictly increase along a list of records. *)
Definition key_lt (a b : Entry.t) : Prop := str_lt (Entry.key a) (Entry.key b) = true.

(** The number of tables that have records. *)
Definition nonEmptyTables (tbs : list SSTable.t) : nat :=
  length (List.filter (fun tb => negb (length (SSTable.entries tb) =? 0)%nat) tbs).

(** A table given by its records alone, for the inputs of the merge. *)
Definition plainTable (id : nat) (es : list Entry.t) : SSTable.t :=
  SSTable.mk id 0 0 es (BloomFilter.create 0) [] 0 (SSTable.getKeyRange es).

(** A table as the constructor builds it from records alone: sorted,
    with an index that points into the records, the filter of the records,
    and the range of the records. *)
Definition table_built (tb : SSTable.t) : Prop :=
  table_wf tb /\
  SSTable.bloomFilter tb = SSTable.buildBloomFilter (SSTable.entries tb) /\
  SSTable.keyRange tb = SSTable.getKeyRange (SSTable.entries tb).

(** Whether a table holds a record with the key. *)
Definition hasKey (k : string) (tb : SSTable.t) : bool :=
  existsb (fun e => str_eq (Entry.key e) k) (SSTable.entries tb).

(** The tables of a manager in the order in which [search] visits them:
    by ascending level, and within a level in the order of the array. *)
Definition allTables (m : SSTableManager.t) : list SSTable.t :=
  concat (map (SSTableManager.getLevel m) (SSTableManager.sortedLevels m)).

(** What the manager keeps between operations: every table is as the
    constructor builds it, its keys strictly increase, it carries the
    number of its level and an id below [nextId]; and no two tables have
    the same id, within a level or across levels. *)
Definition manager_ok (m : SSTableManager.t) : Prop :=
  (forall l tb, tb ∈ SSTableManager.getLevel m l ->
     table_built tb /\ StronglySorted key_lt (SSTable.entries tb) /\
     (SSTable.id tb < SSTableManager.nextId m)%nat /\ SSTable.level tb = l) /\
  (forall l, NoDup (map SSTable.id (SSTableManager.getLevel m l))) /\
  (forall l1 l2 tb1 tb2, l1 <> l2 ->
     tb1 ∈ SSTableManager.getLevel m l1 -> tb2 ∈ SSTableManager.getLevel m l2 ->
     SSTable.id tb1 <> SSTable.id tb2).

(** What the tree keeps between operations: the invariants of the
    memtable and of the manager, and a memtable below the flush threshold
    (or empty, when the threshold is 0). *)
Definition tree_ok (tr : LSMTree.t) : Prop :=
  skiplist_wf (LSMTree.memtable tr) /\
  manager_ok (LSMTree.sstableManager tr) /\
  ((SkipList.size (LSMTree.memtable tr) < LSMTree.memtableThreshold tr)%nat \/
   SkipList.size (LSMTree.memtable tr) = 0%nat).

(** The writes of a run of operations, in order: a delete writes null. *)
Definition writes (ops : list Op) : list (string * option string) :=
  omap (fun op => match op with
                  | Put k v => Some (k, v)
                  | Delete k => Some (k, None)
                  | _ => None
                  end) ops.

(** Every record of the memtable and of the tables was written by one
    of the writes [W]. *)
Definition data_from (W : list (string * option string)) (tr : LSMTree.t) : Prop :=
  (forall n, n ∈ SkipList.nodes (LSMTree.memtable tr) ->
     (SkipListNode.key n, SkipListNode.value n) ∈ W) /\
  (forall l tb e, tb ∈ SSTableManager.getLevel (LSMTree.sstableManager tr) l ->
     e ∈ SSTable.entries tb -> (Entry.key e, Entry.value e) ∈ W).

Definition hasClear (ops : list Op) : bool :=
  existsb (fun o => match o with Clear => true | _ => false end) ops.

(** The operations of a run that come after its last [Clear]. *)
Fixpoint afterClear (ops : list Op) : list Op :=
  match ops with
  | [] => []
  | op :: rest =>
    if hasClear rest
    then afterClear rest
    else match op with
         | Clear => rest
         | _ => op :: rest
         end
  end.

Definition countPuts (ops : list Op) : nat :=
  length (List.filter (fun o => match o with Put _ _ => true | _ => false end) ops).

Definition countGets (ops : list Op) : nat :=
  length (List.filter (fun o => match o with Get _ => true | _ => false end) ops).

Definition countDeletes (ops : list Op) : nat :=
  length (List.filter (fun o => match o with Delete _ => true | _ => false end) ops).

(** The records of the history are numbered by their position. *)
Definition history_numbered (c : Compaction.t) : Prop :=
  Compaction.totalCompactions c = length (Compaction.compactionHistory c) /\
  forall i rec, Compaction.compactionHistory c !! i = Some rec -> Compaction.id rec = i.

(** What one operation does to the counters. *)
Definition counters_step (op : Op) (tr tr' : LSMTree.t) : Prop :=
  let st := LSMTree.stats tr in
  let st' := LSMTree.stats tr' in
  match op with
  | Clear => st' = LSMTree.noStats
  | _ =>
    LSMTree.totalWrites st'
    = (LSMTree.totalWrites st + match op with Put _ _ => 1 | _ => 0 end)%nat /\
    LSMTree.totalReads st'
    = (LSMTree.totalReads st + match op with Get _ => 1 | _ => 0 end)%nat /\
    LSMTree.totalDeletes st'
    = (LSMTree.totalDeletes st + match op with Delete _ => 1 | _ => 0 end)%nat
  end.

Definition counters_ok (tr : LSMTree.t) : Prop :=
  LSMTree.totalCompactions (LSMTree.stats tr)
  = Compaction.totalCompactions (LSMTree.compaction tr) /\
  history_numbered (LSMTree.compaction tr).

(** * Proofs *)

(** ** Bloom filter: bits that are set stay set *)

Section BloomBits.
Local Open Scope Z_scope.

Lemma land_bit_eqb (b j : Z) :
  0 <= j -> (Z.land b (Z.shiftl 1 j) =? 0) = negb (Z.testbit b j).
Proof.
  intros Hj. destruct (Z.testbit b j) eqn:Hb; simpl.
  - apply Z.eqb_neq. intros H0.
    assert (Z.testbit (Z.land b (Z.shiftl 1 j)) j = true) as Ht.
    { rewrite Z.land_spec, Hb, Z.shiftl_spec by lia.
      replace (j - j) with 0 by lia. reflexivity. }
    rewrite H0, Z.bits_0 in Ht. discriminate.
  - apply Z.eqb_eq. apply Z.bits_inj'. intros n Hn.
    rewrite Z.land_spec, Z.bits_0, Z.shiftl_spec by lia.
    destruct (Z.eq_dec n j) as [->|Hne].
    + rewrite Hb. reflexivity.
    + destruct (Z.lt_ge_cases n j).
      * rewrite (Z.testbit_neg_r 1 (n - j)) by lia. apply andb_false_r.
      * replace (Z.testbit 1 (n - j)) with false; [apply andb_false_r|].
        symmetry. apply (Z.bits_above_log2 1 (n - j)); simpl; lia.
Qed.

Lemma rem8_bounds (i : Z) : 0 <= i -> 0 <= Z.rem i 8 < 8.
Proof. intros Hi. apply Z.rem_bound_pos; lia. Qed.

End BloomBits.

Lemma getBit_setBit_mono (bs : list Z) (i j : option Z) :
  (forall z, j = Some z -> (0 <= z)%Z) ->
  BloomFilter.getBit bs j = true ->
  BloomFilter.getBit (BloomFilter.setBit bs i) j = true.
Proof.
  intros Hj Hget. destruct i as [i|]; [|exact Hget].
  destruct j as [j|]; [|discriminate]. specialize (Hj j eq_refl).
  unfold BloomFilter.setBit, BloomFilter.getBit in *.
  destruct (bs !! Z.to_nat (i / 8)) as [b|] eqn:Hi; [|exact Hget].
  destruct (bs !! Z.to_nat (j / 8)) as [c|] eqn:Hc; [|discriminate].
  destruct (decide (Z.to_nat (i / 8) = Z.to_nat (j / 8))) as [Heq|Hne].
  - rewrite <- Heq, list_lookup_insert_eq by (eapply lookup_lt_Some; eauto).
    rewrite <- Heq, Hi in Hc. injection Hc as ->.
    pose proof (rem8_bounds j Hj) as Hb.
    rewrite land_bit_eqb in * by lia.
    rewrite negb_involutive in *. rewrite Z.lor_spec, Hget. reflexivity.
  - rewrite list_lookup_insert_ne by done. rewrite Hc. exact Hget.
Qed.

Lemma getBit_setBit_same (bs : list Z) (i : Z) :
  (0 <= i)%Z -> (Z.to_nat (i / 8) < length bs)%nat ->
  BloomFilter.getBit (BloomFilter.setBit bs (Some i)) (Some i) = true.
Proof.
  intros Hi Hlen. unfold BloomFilter.setBit, BloomFilter.getBit.
  destruct (lookup_lt_is_Some_2 bs _ Hlen) as [b Hb]. rewrite Hb.
  rewrite list_lookup_insert_eq by done.
  pose proof (rem8_bounds i Hi) as Hr.
  rewrite land_bit_eqb by lia. rewrite negb_involutive, Z.lor_spec.
  rewrite Z.shiftl_spec by lia. replace (Z.rem i 8 - Z.rem i 8)%Z with 0%Z by lia.
  apply orb_true_r.
Qed.

Lemma setBit_length (bs : list Z) (i : option Z) :
  length (BloomFilter.setBit bs i) = length bs.
Proof.
  destruct i as [i|]; [|done]. unfold BloomFilter.setBit.
  destruct (bs !! _); [apply length_insert|done].
Qed.

Lemma fold_setBit_length (hs : list (option Z)) (bs : list Z) :
  length (fold_left BloomFilter.setBit hs bs) = length bs.
Proof.
  revert bs. induction hs as [|h hs IH]; intros bs; simpl; [done|].
  rewrite IH. apply setBit_length.
Qed.

Lemma fold_setBit_mono (hs : list (option Z)) (bs : list Z) (j : option Z) :
  (forall z, j = Some z -> (0 <= z)%Z) ->
  BloomFilter.getBit bs j = true ->
  BloomFilter.getBit (fold_left BloomFilter.setBit hs bs) j = true.
Proof.
  intros Hj. revert bs. induction hs as [|h hs IH]; intros bs Hget; simpl; [done|].
  apply IH. by apply getBit_setBit_mono.
Qed.

Lemma fold_setBit_sets (hs : list (option Z)) (bs : list Z) (h : option Z) :
  h ∈ hs -> probe_ok bs h ->
  BloomFilter.getBit (fold_left BloomFilter.setBit hs bs) h = true.
Proof.
  revert bs. induction hs as [|x hs IH]; intros bs Hin Hok; [by apply elem_of_nil in Hin|].
  simpl. apply elem_of_cons in Hin as [->|Hin].
  - destruct Hok as (i & -> & Hi & Hlen).
    apply fold_setBit_mono; [intros z [= <-]; done|].
    by apply getBit_setBit_same.
  - apply IH; [done|]. destruct Hok as (i & -> & Hi & Hlen).
    exists i. by rewrite setBit_length.
Qed.

Lemma allBitsSet_true (bs : list Z) (hs : list (option Z)) :
  (forall h, h ∈ hs -> BloomFilter.getBit bs h = true) ->
  BloomFilter.allBitsSet bs hs = true.
Proof.
  induction hs as [|h hs IH]; intros Hall; simpl; [done|].
  rewrite Hall by left. apply IH. intros h' Hh'. apply Hall. by right.
Qed.

Lemma optimalSize_pos (n : nat) : (0 < n)%nat -> (0 < BloomFilter.optimalSize n)%Z.
Proof.
  intros Hn. unfold BloomFilter.optimalSize.
  apply Z.div_str_pos. lia.
Qed.

Lemma create_wf (n : nat) : bloom_wf (BloomFilter.create n).
Proof.
  destruct n as [|n]; [by left|]. right. simpl. split.
  - apply optimalSize_pos. lia.
  - apply length_replicate.
Qed.

Lemma add_wf (bf : BloomFilter.t) (k : string) : bloom_wf bf -> bloom_wf (BloomFilter.add bf k).
Proof.
  intros [H0|[Hs Hl]]; [by left|]. right. simpl. split; [done|].
  by rewrite fold_setBit_length.
Qed.

Lemma getHashes_add (bf : BloomFilter.t) (k k' : string) :
  BloomFilter.getHashes (BloomFilter.add bf k) k' = BloomFilter.getHashes bf k'.
Proof. reflexivity. Qed.

Lemma getHashes_ok (bf : BloomFilter.t) (k : string) (h : option Z) :
  (0 < BloomFilter.size bf)%Z ->
  length (BloomFilter.bits bf) = Z.to_nat ((BloomFilter.size bf + 7) / 8) ->
  h ∈ BloomFilter.getHashes bf k -> probe_ok (BloomFilter.bits bf) h.
Proof.
  intros Hs Hl Hin. unfold BloomFilter.getHashes, BloomFilter.hash1, BloomFilter.hash2, JS.rem in Hin.
  destruct (BloomFilter.size bf =? 0)%Z eqn:E; [apply Z.eqb_eq in E; lia|].
  apply list_elem_of_In, in_map_iff in Hin as (i & <- & _). simpl.
  eexists. split; [reflexivity|].
  match goal with |- context [Z.rem ?a ?b] => pose proof (Z.rem_bound_abs a b ltac:(lia)) as Hb end.
  split; [lia|]. rewrite Hl. 
  apply Z2Nat.inj_lt; [apply Z.div_pos; lia|apply Z.div_pos; lia|].
  apply Z.div_lt_upper_bound; [lia|].
  pose proof (Z.mul_div_le (BloomFilter.size bf + 7) 8 ltac:(lia)).
  pose proof (Z.mod_pos_bound (BloomFilter.size bf + 7) 8 ltac:(lia)).
  pose proof (Z.div_mod (BloomFilter.size bf + 7) 8 ltac:(lia)). lia.
Qed.

Lemma contains_after_add (bf : BloomFilter.t) (k : string) :
  bloom_wf bf ->
  BloomFilter.mightExist (BloomFilter.contains (BloomFilter.add bf k) k) = true.
Proof.
  intros Hwf. unfold BloomFilter.contains. simpl. rewrite getHashes_add.
  destruct Hwf as [H0|[Hs Hl]].
  - unfold BloomFilter.getHashes. rewrite H0.
    by destruct (BloomFilter.hash1 bf k), (BloomFilter.hash2 bf k).
  - apply allBitsSet_true. intros h Hh.
    apply fold_setBit_sets; [done|]. by eapply getHashes_ok.
Qed.

Lemma getHashes_nonneg (bf : BloomFilter.t) (k : string) (h : option Z) (z : Z) :
  h ∈ BloomFilter.getHashes bf k -> h = Some z -> (0 <= z)%Z.
Proof.
  intros Hin ->. unfold BloomFilter.getHashes in Hin.
  destruct (BloomFilter.hash1 bf k), (BloomFilter.hash2 bf k);
    try (apply elem_of_replicate in Hin as [? _]; discriminate).
  apply list_elem_of_In, in_map_iff in Hin as (i & Hi & _).
  unfold JS.rem in Hi. destruct (_ =? _)%Z; [discriminate|].
  simpl in Hi. injection Hi as <-. lia.
Qed.

Lemma allBitsSet_spec (bs : list Z) (hs : list (option Z)) :
  BloomFilter.allBitsSet bs hs = true <-> (forall h, h ∈ hs -> BloomFilter.getBit bs h = true).
Proof.
  split; [|apply allBitsSet_true].
  induction hs as [|h hs IH]; simpl; intros Hall x Hx; [by apply elem_of_nil in Hx|].
  destruct (BloomFilter.getBit bs h) eqn:Hh; [|discriminate].
  apply elem_of_cons in Hx as [->|Hx]; [done|by apply IH].
Qed.

Lemma contains_add_mono (bf : BloomFilter.t) (k k' : string) :
  BloomFilter.mightExist (BloomFilter.contains bf k) = true ->
  BloomFilter.mightExist (BloomFilter.contains (BloomFilter.add bf k') k) = true.
Proof.
  unfold BloomFilter.contains. simpl. rewrite getHashes_add, !allBitsSet_spec.
  intros Hall h Hh. apply fold_setBit_mono; [|by apply Hall].
  intros z Hz. by eapply getHashes_nonneg.
Qed.

Lemma contains_fold_add_mono (adds : list string) (bf : BloomFilter.t) (k : string) :
  BloomFilter.mightExist (BloomFilter.contains bf k) = true ->
  BloomFilter.mightExist (BloomFilter.contains (fold_left BloomFilter.add adds bf) k) = true.
Proof.
  revert bf. induction adds as [|x adds IH]; intros bf H; simpl; [done|].
  apply IH. by apply contains_add_mono.
Qed.

Lemma contains_fold_add (adds : list string) (bf : BloomFilter.t) (k : string) :
  bloom_wf bf -> k ∈ adds ->
  BloomFilter.mightExist (BloomFilter.contains (fold_left BloomFilter.add adds bf) k) = true.
Proof.
  revert bf. induction adds as [|x adds IH]; intros bf Hwf Hin; [by apply elem_of_nil in Hin|].
  simpl. apply elem_of_cons in Hin as [->|Hin].
  - apply contains_fold_add_mono. by apply contains_after_add.
  - apply IH; [by apply add_wf|done].
Qed.

Lemma buildBloomFilter_fold (es : list Entry.t) :
  SSTable.buildBloomFilter es
  = fold_left BloomFilter.add (map Entry.key es) (BloomFilter.create (length es)).
Proof.
  unfold SSTable.buildBloomFilter. generalize (BloomFilter.create (length es)).
  induction es as [|e es IH]; intros bf; simpl; [done|]. apply IH.
Qed.

Lemma buildBloomFilter_covers (es : list Entry.t) (e : Entry.t) :
  e ∈ es ->
  BloomFilter.mightExist (BloomFilter.contains (SSTable.buildBloomFilter es) (Entry.key e)) = true.
Proof.
  intros Hin. rewrite buildBloomFilter_fold.
  apply contains_fold_add; [apply create_wf|].
  apply list_elem_of_In, in_map, list_elem_of_In, Hin.
Qed.

(** ** The order on keys *)

Lemma ltb_leb (a b : string) : String.ltb a b = negb (String.leb b a).
Proof.
  unfold String.ltb, String.leb. rewrite (String.compare_antisym a b).
  by destruct (String.compare b a).
Qed.

Lemma leb_refl (a : string) : String.leb a a = true.
Proof. apply Is_true_true. change (String.le a a). reflexivity. Qed.

Lemma leb_trans (a b c : string) :
  String.leb a b = true -> String.leb b c = true -> String.leb a c = true.
Proof.
  intros H1%Is_true_true H2%Is_true_true. apply Is_true_true.
  change (String.le a c). by trans b.
Qed.

Lemma str_lt_irrefl (a : string) : str_lt a a = false.
Proof. unfold str_lt. by rewrite ltb_leb, leb_refl. Qed.

Lemma str_lt_leb (a b : string) : str_lt a b = false <-> String.leb b a = true.
Proof. unfold str_lt. rewrite ltb_leb. by destruct (String.leb b a). Qed.

Lemma str_lt_total (a b : string) : str_lt a b = false -> str_lt b a = false -> a = b.
Proof. rewrite !str_lt_leb. intros H1 H2. by apply String.leb_antisym. Qed.

Lemma str_lt_asym (a b : string) : str_lt a b = true -> str_lt b a = false.
Proof.
  unfold str_lt. rewrite !ltb_leb. intros H.
  destruct (String.leb_total a b) as [E|E]; rewrite E in *; [done|discriminate].
Qed.

Lemma str_le_lt_trans (a b c : string) :
  str_lt b a = false -> str_lt b c = true -> str_lt a c = true.
Proof.
  intros H1 H2. destruct (str_lt a c) eqn:E; [done|].
  apply str_lt_leb in H1, E. pose proof (leb_trans _ _ _ E H1) as H.
  apply str_lt_leb in H. congruence.
Qed.

Lemma str_lt_le_trans (a b c : string) :
  str_lt a b = true -> str_lt c b = false -> str_lt a c = true.
Proof.
  intros H1 H2. destruct (str_lt a c) eqn:E; [done|].
  apply str_lt_leb in H2, E. pose proof (leb_trans _ _ _ H2 E) as H.
  apply str_lt_leb in H. congruence.
Qed.

Lemma str_lt_trans (a b c : string) :
  str_lt a b = true -> str_lt b c = true -> str_lt a c = true.
Proof.
  intros H1 H2. eapply str_le_lt_trans; [|exact H2]. by apply str_lt_asym.
Qed.

Lemma str_le_trans (a b c : string) :
  str_lt b a = false -> str_lt c b = false -> str_lt c a = false.
Proof. rewrite !str_lt_leb. intros. by eapply leb_trans. Qed.

Lemma str_eq_true (a b : string) : str_eq a b = true <-> a = b.
Proof. apply String.eqb_eq. Qed.

Lemma str_eq_false (a b : string) : str_eq a b = false <-> a <> b.
Proof. apply String.eqb_neq. Qed.

(** ** SSTable construction: sorting and the sparse index *)

Lemma sort_insert_perm (x : Entry.t) (l : list Entry.t) : SSTable.sort_insert x l ≡ₚ x :: l.
Proof.
  induction l as [|y l IH]; simpl; [done|].
  destruct (str_lt _ _); [|done]. rewrite IH. apply Permutation_swap.
Qed.

Lemma sort_perm (l : list Entry.t) : SSTable.sort l ≡ₚ l.
Proof.
  induction l as [|x l IH]; simpl; [done|].
  unfold SSTable.sort in *. simpl. by rewrite sort_insert_perm, IH.
Qed.

Lemma sort_insert_sorted (x : Entry.t) (l : list Entry.t) :
  StronglySorted key_le l -> StronglySorted key_le (SSTable.sort_insert x l).
Proof.
  induction 1 as [|y l Hs IH Hall]; simpl.
  - repeat constructor.
  - destruct (str_lt (Entry.key y) (Entry.key x)) eqn:E.
    + constructor; [done|]. rewrite sort_insert_perm. constructor; [|done].
      unfold key_le. by apply str_lt_asym.
    + constructor; [by constructor|]. constructor; [done|].
      eapply Forall_impl; [exact Hall|]. intros z Hz. unfold key_le in *.
      by eapply str_le_trans.
Qed.

Lemma sort_sorted (l : list Entry.t) : StronglySorted key_le (SSTable.sort l).
Proof.
  induction l as [|x l IH]; [constructor|]. by apply sort_insert_sorted.
Qed.

Lemma sorted_lookup (l : list Entry.t) (i j : nat) (a b : Entry.t) :
  StronglySorted key_le l -> l !! i = Some a -> l !! j = Some b -> (i <= j)%nat -> key_le a b.
Proof.
  intros Hs. revert i j. induction Hs as [|x l Hs IH Hall]; intros i j Hi Hj Hij; [done|].
  destruct i as [|i], j as [|j]; simpl in *; simplify_eq.
  - unfold key_le. apply str_lt_irrefl.
  - rewrite Forall_forall in Hall. apply Hall. by eapply list_elem_of_lookup_2.
  - lia.
  - eapply IH; eauto. lia.
Qed.

Lemma at_index_lt {A} (l : list A) (i : nat) :
  (i < length l)%nat -> exists a, at_index l i = Ok a /\ l !! i = Some a.
Proof.
  intros Hi. destruct (lookup_lt_is_Some_2 l i Hi) as [a Ha].
  exists a. unfold at_index. by rewrite Ha.
Qed.

Lemma buildSparseIndex_loop_ok (es : list Entry.t) (step : nat) :
  (0 < step)%nat ->
  forall fuel i, (length es - i <= fuel)%nat ->
  exists idx, SSTable.buildSparseIndex_loop fuel es step i = Ok idx /\ Forall (index_ok es) idx.
Proof.
  intros Hstep. induction fuel as [|fuel IH]; intros i Hfuel; simpl.
  - destruct (Nat.leb_spec (length es) i); [|lia]. by exists [].
  - destruct (Nat.leb_spec (length es) i) as [|Hlt]; [by exists []|].
    destruct (at_index_lt es i Hlt) as (e & -> & He). simpl.
    destruct (IH (i + step)%nat ltac:(lia)) as (rest & -> & Hrest). simpl.
    eexists. split; [reflexivity|]. constructor; [|done]. by exists e.
Qed.

Lemma buildSparseIndex_ok (es : list Entry.t) :
  exists idx, SSTable.buildSparseIndex es 10 = Ok idx /\ Forall (index_ok es) idx.
Proof.
  unfold SSTable.buildSparseIndex.
  destruct (buildSparseIndex_loop_ok es 10 ltac:(lia) (length es) 0%nat ltac:(lia))
    as (idx & -> & Hidx).
  cbn [mbind result_bind JS.bind].
  destruct (length es mod 10 =? 0)%nat eqn:E; [by exists idx|].
  assert (0 < length es)%nat as Hlen.
  { destruct es; [discriminate|simpl; lia]. }
  destruct (at_index_lt es (length es - 1) ltac:(lia)) as (e & -> & He).
  cbn [mbind result_bind JS.bind].
  eexists. split; [reflexivity|].
  apply Forall_app. split; [done|]. constructor; [|done]. by exists e.
Qed.

(** ** SSTable lookups *)

Lemma binarySearch_loop_spec (es : list Entry.t) (k : string) :
  StronglySorted key_le es ->
  forall fuel left right c,
    (0 <= left)%Z -> (right < Z.of_nat (length es))%Z ->
    (right - left + 1 <= Z.of_nat fuel)%Z ->
    exists r, SSTable.binarySearch_loop fuel es k left right c = Ok r /\
      (SSTable.sr_found r = true ->
         exists e, e ∈ es /\ Entry.key e = k /\ SSTable.sr_value r = Some (Entry.value e)) /\
      (SSTable.sr_found r = false ->
         SSTable.sr_value r = None /\
         forall p e, (left <= p <= right)%Z -> es !! Z.to_nat p = Some e -> Entry.key e <> k).
Proof.
  intros Hsorted. induction fuel as [|fuel IH]; intros left right c Hl Hr Hfuel.
  - simpl. destruct (Z.ltb_spec right left); [|lia].
    eexists. split; [reflexivity|]. simpl. split; [done|]. intros _. split; [done|]. lia.
  - simpl. destruct (Z.ltb_spec right left) as [Hlt|Hge].
    { eexists. split; [reflexivity|]. simpl. split; [done|]. intros _. split; [done|]. lia. }
    set (mid := ((left + right) / 2)%Z).
    assert (left <= mid <= right)%Z as Hmid.
    { unfold mid. split; [apply Z.div_le_lower_bound|apply Z.div_le_upper_bound]; lia. }
    unfold at_Z. destruct (Z.ltb_spec mid 0); [lia|].
    destruct (at_index_lt es (Z.to_nat mid) ltac:(lia)) as (e & -> & He).
    cbn [mbind result_bind JS.bind].
    destruct (str_eq (Entry.key e) k) eqn:Eeq.
    { eexists. split; [reflexivity|]. simpl. split; [|done]. intros _.
      exists e. split; [by eapply list_elem_of_lookup_2|]. split; [|done].
      by apply str_eq_true. }
    apply str_eq_false in Eeq.
    destruct (str_lt k (Entry.key e)) eqn:Elt.
    + destruct (IH left (mid - 1)%Z (S c) ltac:(lia) ltac:(lia) ltac:(lia))
        as (r & -> & Hf & Hnf).
      exists r. split; [done|]. split; [done|]. intros Hr0.
      destruct (Hnf Hr0) as [Hv Hno]. split; [done|]. intros p e' Hp He'.
      destruct (Z.le_gt_cases p (mid - 1)); [apply (Hno p); [lia|done]|].
      intros <-.
      pose proof (sorted_lookup es (Z.to_nat mid) (Z.to_nat p) e e' Hsorted He He' ltac:(lia)) as Hle.
      unfold key_le in Hle. congruence.
    + destruct (IH (mid + 1)%Z right (S c) ltac:(lia) ltac:(lia) ltac:(lia))
        as (r & -> & Hf & Hnf).
      exists r. split; [done|]. split; [done|]. intros Hr0.
      destruct (Hnf Hr0) as [Hv Hno]. split; [done|]. intros p e' Hp He'.
      destruct (Z.le_gt_cases (mid + 1) p); [apply (Hno p); [lia|done]|].
      intros <-.
      pose proof (sorted_lookup es (Z.to_nat p) (Z.to_nat mid) e' e Hsorted He' He ltac:(lia)) as Hle.
      unfold key_le in Hle.
      apply Eeq. symmetry. by apply str_lt_total.
Qed.

(** The interval the sparse index selects is inside the table and holds
    an occurrence of the key whenever the table has one. *)
Lemma narrow_spec (es : list Entry.t) (k : string) (index : list SSTable.IndexEntry) :
  StronglySorted key_le es -> Forall (index_ok es) index ->
  forall s e, SSTable.narrow k index (0%Z, (Z.of_nat (length es) - 1)%Z) = (s, e) ->
    (0 <= s)%Z /\ (e < Z.of_nat (length es))%Z /\
    (forall x, x ∈ es -> Entry.key x = k ->
       exists p y, (s <= p <= e)%Z /\ es !! Z.to_nat p = Some y /\ Entry.key y = k).
Proof.
  intros Hsorted. induction index as [|a index IH]; intros Hok s e Hn.
  { simpl in Hn. injection Hn as <- <-. split; [lia|]. split; [lia|].
    intros x Hx Hk. apply list_elem_of_lookup in Hx as [p Hp].
    exists (Z.of_nat p), x. rewrite Nat2Z.id. split; [|done].
    apply lookup_lt_Some in Hp. lia. }
  destruct index as [|b index].
  { simpl in Hn. injection Hn as <- <-. split; [lia|]. split; [lia|].
    intros x Hx Hk. apply list_elem_of_lookup in Hx as [p Hp].
    exists (Z.of_nat p), x. rewrite Nat2Z.id. split; [|done].
    apply lookup_lt_Some in Hp. lia. }
  simpl in Hn. inversion Hok as [|? ? Ha Hok']; subst.
  destruct (str_ge k (SSTable.key a) && str_lt k (SSTable.key b)) eqn:E.
  - injection Hn as <- <-. apply andb_true_iff in E as [Ege Elt].
    unfold str_ge in Ege. apply negb_true_iff in Ege.
    inversion Hok' as [|? ? Hb _]; subst.
    destruct Ha as (ea & Hea & Hka). destruct Hb as (eb & Heb & Hkb).
    rewrite <- Hka in Ege. rewrite <- Hkb in Elt.
    pose proof (lookup_lt_Some _ _ _ Hea). pose proof (lookup_lt_Some _ _ _ Heb).
    split; [lia|]. split; [lia|].
    intros x Hx Hk. apply list_elem_of_lookup in Hx as [p Hp]. subst k.
    assert (p < SSTable.position b)%nat as Hpb.
    { destruct (Nat.lt_ge_cases p (SSTable.position b)); [done|].
      pose proof (sorted_lookup es _ _ eb x Hsorted Heb Hp ltac:(lia)) as Hle.
      unfold key_le in Hle. unfold str_lt in *. congruence. }
    destruct (Nat.le_gt_cases (SSTable.position a) p) as [Hap|Hap].
    + exists (Z.of_nat p), x. rewrite Nat2Z.id. split; [lia|done].
    + pose proof (sorted_lookup es _ _ x ea Hsorted Hp Hea ltac:(lia)) as Hle.
      unfold key_le in Hle.
      assert (Entry.key ea = Entry.key x) as Heq by (by apply str_lt_total).
      assert (SSTable.position a <= SSTable.position b)%nat.
      { destruct (Nat.le_gt_cases (SSTable.position a) (SSTable.position b)); [done|].
        pose proof (sorted_lookup es _ _ eb ea Hsorted Heb Hea ltac:(lia)) as Hle'.
        unfold key_le in Hle'. rewrite Heq in Hle'. unfold str_lt in *. congruence. }
      exists (Z.of_nat (SSTable.position a)), ea. rewrite Nat2Z.id. split; [lia|done].
  - by apply IH.
Qed.

Lemma create_spec (id level : nat) (es : list Entry.t) (bf : option BloomFilter.t) (w : World) :
  exists tb, SSTable.create id level es bf w = Ok (tb, snd (Date_now w)) /\
    SSTable.id tb = id /\ SSTable.level tb = level /\
    SSTable.entries tb = SSTable.sort es /\
    SSTable.bloomFilter tb = default (SSTable.buildBloomFilter (SSTable.sort es)) bf /\
    SSTable.keyRange tb = SSTable.getKeyRange (SSTable.sort es) /\
    table_wf tb.
Proof.
  unfold SSTable.create. simpl.
  destruct (buildSparseIndex_ok (SSTable.sort es)) as (idx & -> & Hidx).
  cbn [mbind result_bind JS.bind].
  eexists. split; [reflexivity|]. simpl. repeat split; try done.
  apply sort_sorted.
Qed.

Lemma get_spec (tb : SSTable.t) (k : string) :
  table_wf tb ->
  exists r, SSTable.get tb k = Ok r /\
    (SSTable.found r = true ->
       SSTable.bloomFilterSaved r = false /\
       exists e, e ∈ SSTable.entries tb /\ Entry.key e = k /\
                 SSTable.value r = Some (Entry.value e)) /\
    (SSTable.found r = false ->
       SSTable.value r = None /\
       SSTable.bloomFilterSaved r
       = negb (BloomFilter.mightExist (BloomFilter.contains (SSTable.bloomFilter tb) k)) /\
       (SSTable.bloomFilterSaved r = false ->
        forall e, e ∈ SSTable.entries tb -> Entry.key e <> k)).
Proof.
  intros [Hsorted Hidx]. unfold SSTable.get.
  destruct (BloomFilter.mightExist _) eqn:Hb; simpl.
  2:{ eexists. split; [reflexivity|]. simpl. split; [done|]. intros _. done. }
  destruct (SSTable.narrow _ _ _) as [s e] eqn:Hn.
  destruct (narrow_spec _ k _ Hsorted Hidx s e Hn) as (Hs & He & Hocc).
  unfold SSTable.binarySearch.
  destruct (binarySearch_loop_spec _ k Hsorted (Z.to_nat (e - s + 1)) s e 0%nat Hs He ltac:(lia))
    as (r & -> & Hf & Hnf).
  cbn [mbind result_bind JS.bind].
  eexists. split; [reflexivity|]. simpl. split.
  - intros Hr. split; [done|]. by apply Hf.
  - intros Hr. destruct (Hnf Hr) as [Hv Hno]. split; [done|]. split; [done|].
    intros _ x Hx Hk. destruct (Hocc x Hx Hk) as (p & y & Hp & Hy & Hky).
    by apply (Hno p y).
Qed.

Lemma scan_start_ok (es : list Entry.t) (startKey : string) :
  forall fuel i, (length es - i <= fuel)%nat ->
  exists p, SSTable.scan_start fuel es startKey i = Ok p.
Proof.
  induction fuel as [|fuel IH]; intros i Hfuel; simpl.
  - destruct (Nat.leb_spec (length es) i); [by eexists|lia].
  - destruct (Nat.leb_spec (length es) i) as [|Hlt]; [by eexists|].
    destruct (at_index_lt es i Hlt) as (e & -> & _). cbn [mbind result_bind JS.bind].
    destruct (str_ge _ _); [by eexists|]. apply IH. lia.
Qed.

Lemma scan_collect_ok (es : list Entry.t) (endKey : string) :
  forall fuel i, (length es - i <= fuel)%nat ->
  exists l, SSTable.scan_collect fuel es endKey i = Ok l.
Proof.
  induction fuel as [|fuel IH]; intros i Hfuel; simpl.
  - destruct (Nat.leb_spec (length es) i); [by eexists|lia].
  - destruct (Nat.leb_spec (length es) i) as [|Hlt]; [by eexists|].
    destruct (at_index_lt es i Hlt) as (e & -> & _). cbn [mbind result_bind JS.bind].
    destruct (str_gt _ _); [by eexists|].
    destruct (IH (S i) ltac:(lia)) as (l & ->). cbn [mbind result_bind JS.bind]. by eexists.
Qed.

Lemma scan_ok (tb : SSTable.t) (startKey endKey : string) :
  exists l, SSTable.scan tb startKey endKey = Ok l.
Proof.
  unfold SSTable.scan.
  destruct (scan_start_ok (SSTable.entries tb) startKey (length (SSTable.entries tb)) 0%nat
              ltac:(lia)) as (p & ->).
  cbn [mbind result_bind JS.bind]. apply scan_collect_ok. lia.
Qed.

Lemma sort_elem_of (es : list Entry.t) (e : Entry.t) : e ∈ SSTable.sort es <-> e ∈ es.
Proof. by rewrite sort_perm. Qed.

(** C6. Bloom no-false-negative: a filter built by the constructor answers
    [mightExist = true] for every key that was passed to [add], whatever
    else was added before or after; and the filter of a table built from
    records answers [mightExist = true] for the key of each of its records. *)
Theorem bloom_no_false_negative :
  (forall (n : nat) (adds : list string) (k : string),
      k ∈ adds ->
      BloomFilter.mightExist
        (BloomFilter.contains (fold_left BloomFilter.add adds (BloomFilter.create n)) k) = true) /\
  (forall (id level : nat) (es : list Entry.t) (w : World) (e : Entry.t),
      e ∈ es ->
      exists tb w', SSTable.create id level es None w = Ok (tb, w') /\
        e ∈ SSTable.entries tb /\
        BloomFilter.mightExist
          (BloomFilter.contains (SSTable.bloomFilter tb) (Entry.key e)) = true).
Proof.
  split.
  - intros n adds k Hin. apply contains_fold_add; [apply create_wf|done].
  - intros id level es w e Hin.
    destruct (create_spec id level es None w) as (tb & Hc & _ & _ & He & Hb & _).
    exists tb, (snd (Date_now w)). split; [done|].
    rewrite He, Hb. simpl. split; [by apply sort_elem_of|].
    apply buildBloomFilter_covers. by apply sort_elem_of.
Qed.

Lemma bloom_no_false_negative_witness :
  "b" ∈ ["a"; "b"; "c"] /\
  BloomFilter.mightExist
    (BloomFilter.contains
       (fold_left BloomFilter.add ["a"; "b"; "c"] (BloomFilter.create 3)) "b") = true.
Proof.
  split; [set_solver|].
  apply (proj1 bloom_no_false_negative 3%nat ["a"; "b"; "c"] "b"). set_solver.
Defined.

(** C7. Point lookup in a table: for a table the constructor built from
    the records [es] (with its own bloom filter, or with a supplied one
    that has no false negative on [es]), [get] returns a result; it is a hit
    exactly when some record has the key, a hit carries the value of a
    record with that key and [bloomFilterSaved = false], and a miss has
    [bloomFilterSaved = true] exactly when the bloom filter decided it. *)
Theorem sstable_get_correct (id level : nat) (es : list Entry.t)
    (bf : option BloomFilter.t) (w : World) (k : string) :
  (forall b e, bf = Some b -> e ∈ es ->
     BloomFilter.mightExist (BloomFilter.contains b (Entry.key e)) = true) ->
  exists tb w' r,
    SSTable.create id level es bf w = Ok (tb, w') /\
    SSTable.get tb k = Ok r /\
    (SSTable.found r = true <-> exists e, e ∈ es /\ Entry.key e = k) /\
    (SSTable.found r = true ->
       SSTable.bloomFilterSaved r = false /\
       exists e, e ∈ es /\ Entry.key e = k /\ SSTable.value r = Some (Entry.value e)) /\
    (SSTable.found r = false ->
       SSTable.value r = None /\
       SSTable.bloomFilterSaved r
       = negb (BloomFilter.mightExist (BloomFilter.contains (SSTable.bloomFilter tb) k))).
Proof.
  intros Hbf.
  destruct (create_spec id level es bf w) as (tb & Hc & _ & _ & He & Hb & _ & Hwf).
  destruct (get_spec tb k Hwf) as (r & Hg & Hf & Hnf).
  exists tb, (snd (Date_now w)), r. split; [done|]. split; [done|].
  assert (SSTable.found r = true ->
          SSTable.bloomFilterSaved r = false /\
          exists e, e ∈ es /\ Entry.key e = k /\ SSTable.value r = Some (Entry.value e)) as Hhit.
  { intros Hr. destruct (Hf Hr) as (Hs & e & Hin & Hk & Hv). split; [done|].
    exists e. rewrite He in Hin. by rewrite <- sort_elem_of. }
  split; [|split; [done|]].
  - split.
    + intros Hr. destruct (Hhit Hr) as (_ & e & ? & ? & _). by exists e.
    + intros (e & Hin & Hk). destruct (SSTable.found r) eqn:Hr; [done|exfalso].
      destruct (Hnf eq_refl) as (_ & Hsaved & Hno).
      assert (BloomFilter.mightExist
                (BloomFilter.contains (SSTable.bloomFilter tb) (Entry.key e)) = true) as Hm.
      { rewrite Hb. destruct bf as [b|]; simpl.
        - by eapply Hbf.
        - apply buildBloomFilter_covers. by apply sort_elem_of. }
      rewrite Hk in Hm. rewrite Hm in Hsaved. simpl in Hsaved.
      apply (Hno Hsaved e); [|done]. rewrite He. by apply sort_elem_of.
  - intros Hr. destruct (Hnf Hr) as (Hv & Hs & _). done.
Qed.

Lemma sstable_get_correct_witness :
  exists tb w' r,
    SSTable.create 1 0 [Entry.mk "b" (Some "2") 0; Entry.mk "a" None 1] None world0 = Ok (tb, w') /\
    SSTable.get tb "a" = Ok r /\
    (SSTable.found r = true <->
     exists e, e ∈ [Entry.mk "b" (Some "2") 0; Entry.mk "a" None 1] /\ Entry.key e = "a") /\
    (SSTable.found r = true ->
       SSTable.bloomFilterSaved r = false /\
       exists e, e ∈ [Entry.mk "b" (Some "2") 0; Entry.mk "a" None 1] /\ Entry.key e = "a" /\
                 SSTable.value r = Some (Entry.value e)) /\
    (SSTable.found r = false ->
       SSTable.value r = None /\
       SSTable.bloomFilterSaved r
       = negb (BloomFilter.mightExist (BloomFilter.contains (SSTable.bloomFilter tb) "a"))).
Proof.
  apply (sstable_get_correct 1 0 [Entry.mk "b" (Some "2") 0; Entry.mk "a" None 1] None world0 "a").
  intros b e Hb. discriminate Hb.
Defined.

(** ** The level manager *)

Lemma getLevel_clearLevel (m : SSTableManager.t) (l l' : nat) :
  SSTableManager.getLevel (SSTableManager.clearLevel m l) l'
  = if decide (l = l') then [] else SSTableManager.getLevel m l'.
Proof.
  unfold SSTableManager.getLevel, SSTableManager.clearLevel. simpl.
  rewrite lookup_insert. by case_decide.
Qed.

Lemma getLevel_addSSTable (m : SSTableManager.t) (l l' : nat) (tb : SSTable.t) :
  SSTableManager.getLevel (SSTableManager.addSSTable m l tb) l'
  = if decide (l = l') then SSTableManager.getLevel m l ++ [tb]
    else SSTableManager.getLevel m l'.
Proof.
  unfold SSTableManager.getLevel, SSTableManager.addSSTable. simpl.
  rewrite lookup_insert. by case_decide.
Qed.

Lemma getLevel_fold_addSSTable (tbs : list SSTable.t) (m : SSTableManager.t) (l l' : nat) :
  SSTableManager.getLevel
    (fold_left (fun mm tb => SSTableManager.addSSTable mm l tb) tbs m) l'
  = if decide (l = l') then SSTableManager.getLevel m l ++ tbs
    else SSTableManager.getLevel m l'.
Proof.
  revert m. induction tbs as [|tb tbs IH]; intros m; simpl.
  - case_decide; [subst; by rewrite app_nil_r|done].
  - rewrite IH, !getLevel_addSSTable. case_decide; [|done].
    rewrite decide_True by done. by rewrite <- app_assoc.
Qed.

Lemma createSSTable_spec (m : SSTableManager.t) (l : nat) (es : list Entry.t) (w : World) :
  exists tb m',
    SSTableManager.createSSTable m l es w = Ok (tb, m', snd (Date_now w)) /\
    SSTable.id tb = SSTableManager.nextId m /\
    SSTable.entries tb = SSTable.sort es /\
    SSTable.keyRange tb = SSTable.getKeyRange (SSTable.sort es) /\
    table_wf tb /\
    SSTableManager.nextId m' = S (SSTableManager.nextId m) /\
    forall l', SSTableManager.getLevel m' l'
               = if decide (l = l') then SSTableManager.getLevel m l ++ [tb]
                 else SSTableManager.getLevel m l'.
Proof.
  unfold SSTableManager.createSSTable.
  destruct (create_spec (SSTableManager.nextId m) l es None w)
    as (tb & -> & Hid & _ & He & _ & Hr & Hwf).
  cbn [mbind result_bind JS.bind].
  eexists _, _. split; [reflexivity|].
  split; [done|]. split; [done|]. split; [done|]. split; [done|]. split; [done|].
  intros l'. by rewrite getLevel_addSSTable.
Qed.

(** C8 (as amended). Zero-output compaction: when the merge of the source
    level with the overlapping tables of a different target level yields no
    record, the compaction succeeds, leaves the source level empty, takes
    the overlapping tables out of the target level, and appends to the
    target level exactly one new table, which has no records and a null key
    range; the compaction record counts one output table, and the other
    levels are untouched. *)
Theorem zero_output_compaction (c : Compaction.t) (m : SSTableManager.t)
    (sourceLevel targetLevel : nat) (w : World) (mr : Compaction.MergeResult) :
  sourceLevel <> targetLevel ->
  SSTableManager.getLevel m sourceLevel <> [] ->
  Compaction.kWayMerge
    (SSTableManager.getLevel m sourceLevel ++
     Compaction.findOverlappingSSTables (SSTableManager.getLevel m sourceLevel)
       (SSTableManager.getLevel m targetLevel)) = Ok mr ->
  Compaction.entries mr = [] ->
  exists rec c' m' w' tb,
    Compaction.compactLevel c m sourceLevel targetLevel w = Ok (Compaction.Success rec, c', m', w') /\
    SSTableManager.getLevel m' sourceLevel = [] /\
    SSTableManager.getLevel m' targetLevel
    = List.filter (fun t => negb (Compaction.includes
                (Compaction.findOverlappingSSTables (SSTableManager.getLevel m sourceLevel)
                   (SSTableManager.getLevel m targetLevel)) t))
        (SSTableManager.getLevel m targetLevel) ++ [tb] /\
    SSTable.entries tb = [] /\
    SSTable.keyRange tb = SSTable.mkKeyRange None None /\
    Compaction.outputSSTables rec = 1%nat /\
    Compaction.outputBytes rec = 0%Z /\
    (forall l, l <> sourceLevel -> l <> targetLevel ->
       SSTableManager.getLevel m' l = SSTableManager.getLevel m l).
Proof.
  intros Hne Hsrc Hmerge Hempty. unfold Compaction.compactLevel.
  destruct (SSTableManager.getLevel m sourceLevel) as [|s0 src] eqn:Es; [done|].
  cbn [length Nat.eqb]. rewrite Hmerge. cbn [mbind result_bind JS.bind].
  rewrite Hempty.
  match goal with |- context [SSTableManager.createSSTable ?mm _ _ _] =>
    destruct (createSSTable_spec mm targetLevel [] w)
      as (tb & m' & -> & _ & He & Hr & _ & _ & Hlv) end.
  cbn [mbind result_bind JS.bind]. simpl.
  eexists _, _, m', _, tb. split; [reflexivity|]. simpl.
  split.
  { rewrite Hlv, decide_False by done.
    rewrite getLevel_fold_addSSTable, decide_False by done.
    rewrite getLevel_clearLevel, decide_False by done.
    rewrite getLevel_clearLevel. by rewrite decide_True. }
  split.
  { rewrite Hlv, decide_True by done.
    rewrite getLevel_fold_addSSTable, decide_True by done.
    rewrite getLevel_clearLevel, decide_True by done. done. }
  repeat split; try done.
  intros l H1 H2. rewrite Hlv, decide_False by done.
  rewrite getLevel_fold_addSSTable, decide_False by done.
  rewrite !getLevel_clearLevel, !decide_False by done. done.
Qed.

Lemma zero_output_compaction_witness :
  exists rec c' m' w' tb,
    Compaction.compactLevel Compaction.create (managerAfter 1 [Delete "a"]) 0 1 world0
    = Ok (Compaction.Success rec, c', m', w') /\
    SSTableManager.getLevel m' 0 = [] /\
    SSTableManager.getLevel m' 1
    = List.filter (fun t => negb (Compaction.includes
                (Compaction.findOverlappingSSTables
                   (SSTableManager.getLevel (managerAfter 1 [Delete "a"]) 0)
                   (SSTableManager.getLevel (managerAfter 1 [Delete "a"]) 1)) t))
        (SSTableManager.getLevel (managerAfter 1 [Delete "a"]) 1) ++ [tb] /\
    SSTable.entries tb = [] /\
    SSTable.keyRange tb = SSTable.mkKeyRange None None /\
    Compaction.outputSSTables rec = 1%nat /\
    Compaction.outputBytes rec = 0%Z /\
    (forall l, l <> 0%nat -> l <> 1%nat ->
       SSTableManager.getLevel m' l = SSTableManager.getLevel (managerAfter 1 [Delete "a"]) l).
Proof.
  apply (zero_output_compaction Compaction.create (managerAfter 1 [Delete "a"]) 0 1 world0
           (Compaction.mkMergeResult [] (Compaction.mkMergeStats 1 1 0 0 0))).
  - lia.
  - vm_compute. discriminate.
  - vm_compute. reflexivity.
  - reflexivity.
Defined.

(** C8, counterexample. Deleting a key and compacting level 0: the merge
    yields no record, yet level 1 receives a table (without records). *)
Lemma zero_output_compaction_creates_table :
  inspect (levelRecords 0) (session 1 world0 [Delete "a"; Compact 0 1]) = Ok [] /\
  inspect (levelRecords 1) (session 1 world0 [Delete "a"; Compact 0 1]) = Ok [[]] /\
  inspect (fun tr => length (levelTables 1 tr)) (session 1 world0 [Delete "a"; Compact 0 1])
  = Ok 1%nat.
Proof. repeat split; vm_compute; reflexivity. Qed.

(** C9, counterexample. Constructing a table from the empty record
    sequence does not fail: it returns a table without records, whose key
    range is null. *)
Lemma construction_on_empty_input_succeeds :
  exists tb w', SSTable.create 1 0 [] None world0 = Ok (tb, w') /\ SSTable.entries tb = [] /\
                SSTable.keyRange tb = SSTable.mkKeyRange None None.
Proof. eexists _, _. split; [vm_compute; reflexivity|]. split; reflexivity. Qed.

Lemma compact_empty_source (tr : LSMTree.t) (sourceLevel targetLevel : nat) (w : World) :
  SSTableManager.getLevel (LSMTree.sstableManager tr) sourceLevel = [] ->
  LSMTree.compact tr sourceLevel targetLevel w
  = Ok (Compaction.Failure
          ("No SSTables at level " +:+ NilZero.string_of_uint (Nat.to_uint sourceLevel)),
        tr, w).
Proof.
  intros H. unfold LSMTree.compact, Compaction.compactLevel. rewrite H. simpl.
  by destruct tr.
Qed.

(** C9 (as amended). Constructing an SSTable never fails, the empty record
    sequence included: the table holds the records sorted by key, and from
    the empty sequence it is a table with no records and a null key range;
    on a constructed table [get] and [scan] never fail; and a compaction
    whose source level is empty returns the failure "No SSTables at level n"
    and leaves the tree (levels, compaction history and counters) and the
    runtime as they were. *)
Theorem sstable_failure_semantics :
  (forall id level es bf w,
      exists tb w', SSTable.create id level es bf w = Ok (tb, w') /\
                    SSTable.entries tb = SSTable.sort es /\
                    (es = [] ->
                     SSTable.entries tb = [] /\
                     SSTable.keyRange tb = SSTable.mkKeyRange None None)) /\
  (forall id level es bf w tb w' k startKey endKey,
      SSTable.create id level es bf w = Ok (tb, w') ->
      (exists r, SSTable.get tb k = Ok r) /\
      (exists l, SSTable.scan tb startKey endKey = Ok l)) /\
  (forall tr sourceLevel targetLevel w,
      SSTableManager.getLevel (LSMTree.sstableManager tr) sourceLevel = [] ->
      LSMTree.compact tr sourceLevel targetLevel w
      = Ok (Compaction.Failure
              ("No SSTables at level " +:+ NilZero.string_of_uint (Nat.to_uint sourceLevel)),
            tr, w)).
Proof.
  split; [|split].
  - intros id level es bf w.
    destruct (create_spec id level es bf w) as (tb & Hc & _ & _ & He & _ & Hr & _).
    exists tb, (snd (Date_now w)). split; [done|]. split; [done|].
    intros ->. by rewrite He, Hr.
  - intros id level es bf w tb w' k startKey endKey Hc.
    destruct (create_spec id level es bf w) as (tb0 & Hc0 & _ & _ & _ & _ & _ & Hwf).
    rewrite Hc0 in Hc. injection Hc as <- <-. split.
    + destruct (get_spec tb0 k Hwf) as (r & Hr & _). by exists r.
    + apply scan_ok.
  - apply compact_empty_source.
Qed.

Lemma sstable_failure_semantics_witness :
  (exists tb w',
      SSTable.create 1 0 [] None world0 = Ok (tb, w') /\
      SSTable.entries tb = [] /\ SSTable.keyRange tb = SSTable.mkKeyRange None None) /\
  (exists tb w',
      SSTable.create 1 0 [Entry.mk "k" (Some "v") 0] None world0 = Ok (tb, w') /\
      (exists r, SSTable.get tb "k" = Ok r) /\
      (exists l, SSTable.scan tb "a" "z" = Ok l)) /\
  (exists os tr w',
      session 1 world0 [Put "a" (Some "1"); Put "b" (Some "2"); Compact 0 1; Put "c" (Some "3")]
      = Ok (os, tr, w') /\
      length (levelTables 0 tr) = 1%nat /\ length (levelTables 1 tr) = 1%nat /\
      length (Compaction.compactionHistory (LSMTree.compaction tr)) = 1%nat /\
      SSTableManager.getLevel (LSMTree.sstableManager tr) 2 = [] /\
      LSMTree.compact tr 2 3 w' = Ok (Compaction.Failure "No SSTables at level 2", tr, w')).
Proof.
  split; [|split].
  - destruct (proj1 sstable_failure_semantics 1%nat 0%nat [] None world0)
      as (tb & w' & Hc & _ & Hnull).
    exists tb, w'. split; [exact Hc|]. exact (Hnull eq_refl).
  - eexists _, _. split; [vm_compute; reflexivity|].
    eapply (proj1 (proj2 sstable_failure_semantics)
              1%nat 0%nat [Entry.mk "k" (Some "v") 0] None world0 _ _ "k" "a" "z").
    vm_compute. reflexivity.
  - assert (exists os tr w',
              session 1 world0
                [Put "a" (Some "1"); Put "b" (Some "2"); Compact 0 1; Put "c" (Some "3")]
              = Ok (os, tr, w') /\
              length (levelTables 0 tr) = 1%nat /\ length (levelTables 1 tr) = 1%nat /\
              length (Compaction.compactionHistory (LSMTree.compaction tr)) = 1%nat /\
              SSTableManager.getLevel (LSMTree.sstableManager tr) 2 = [])
      as (os & tr & w' & Hs & H0 & H1 & Hh & He)
      by (eexists _, _, _; split; [vm_compute; reflexivity|];
          repeat split; vm_compute; reflexivity).
    exists os, tr, w'. split; [exact Hs|]. split; [exact H0|]. split; [exact H1|].
    split; [exact Hh|]. split; [exact He|].
    exact (proj2 (proj2 sstable_failure_semantics) tr 2%nat 3%nat w' He).
Defined.


(** ** Fuel: the loops of the merge never run out *)

(** A branch that throws: it is not out of fuel and it returns nothing. *)
Ltac dead := split; [done|intros; simplify_eq].

Lemma at_index_cases {A} (l : list A) (i : nat) :
  (exists a, at_index l i = Ok a) \/ at_index l i = TypeError.
Proof. unfold at_index. destruct (l !! i); eauto. Qed.

(** Case analysis on an array read: it returns an element or throws. *)
Ltac read_at l i x :=
  destruct (at_index_cases l i) as [[x ->]| ->]; cbn [mbind result_bind JS.bind]; [|dead].

Lemma bubbleUp_fuel (fuel : nat) :
  forall h index, (index <= fuel)%nat ->
    MinHeap.bubbleUp fuel h index <> OutOfFuel /\
    forall h', MinHeap.bubbleUp fuel h index = Ok h' ->
               length (MinHeap.heap h') = length (MinHeap.heap h).
Proof.
  induction fuel as [|fuel IH]; intros h index Hi; cbn [MinHeap.bubbleUp].
  - assert (index = 0%nat) as -> by lia. simpl. split; [done|]. by intros h' [= <-].
  - destruct (index =? 0)%nat eqn:E; [split; [done|by intros h' [= <-]]|].
    apply Nat.eqb_neq in E.
    read_at (MinHeap.heap h) index x.
    read_at (MinHeap.heap h) ((index - 1) / 2)%nat p.
    destruct (str_ge _ _); [split; [done|by intros h' [= <-]]|].
    assert ((index - 1) / 2 <= fuel)%nat as Hp.
    { pose proof (Nat.Div0.div_le_upper_bound (index - 1) 2 (index - 1) ltac:(lia)). lia. }
    destruct (IH (MinHeap.mk (MinHeap.swap (MinHeap.heap h) index ((index - 1) / 2) x p)
                    (S (MinHeap.comparisons h))) _ Hp) as [Hne Hlen].
    split; [done|]. intros h' Hh'. rewrite (Hlen h' Hh'). unfold MinHeap.swap. simpl.
    by rewrite !length_insert.
Qed.

Lemma heap_insert_fuel (h : MinHeap.t) (x : MinHeap.Item) :
  MinHeap.insert h x <> OutOfFuel /\
  forall h', MinHeap.insert h x = Ok h' -> MinHeap.size h' = S (MinHeap.size h).
Proof.
  unfold MinHeap.insert, MinHeap.size.
  destruct (bubbleUp_fuel (length (MinHeap.heap h ++ [x]))
              (MinHeap.mk (MinHeap.heap h ++ [x]) (MinHeap.comparisons h))
              (length (MinHeap.heap h ++ [x]) - 1) ltac:(lia)) as [Hne Hlen].
  split; [done|]. intros h' Hh'. rewrite (Hlen h' Hh'). simpl.
  rewrite length_app. simpl. lia.
Qed.

Lemma bubbleDown_fuel (fuel : nat) :
  forall h index, (1 <= fuel)%nat -> (S (length (MinHeap.heap h)) <= index + fuel)%nat ->
    MinHeap.bubbleDown fuel h index <> OutOfFuel /\
    forall h', MinHeap.bubbleDown fuel h index = Ok h' ->
               length (MinHeap.heap h') = length (MinHeap.heap h).
Proof.
  induction fuel as [|fuel IH]; intros h index H1 Hf; [lia|].
  cbn [MinHeap.bubbleDown].
  set (lc := (2 * index + 1)%nat). set (rc := (2 * index + 2)%nat).
  set (len := length (MinHeap.heap h)) in *.
  assert (forall (x : MinHeap.Item) s c,
            (s = index \/ (index < s < len)%nat) ->
            (if (s =? index)%nat then Ok (MinHeap.mk (MinHeap.heap h) c)
             else y ← at_index (MinHeap.heap h) s;
                  MinHeap.bubbleDown fuel
                    (MinHeap.mk (MinHeap.swap (MinHeap.heap h) index s x y) c) s) <> OutOfFuel /\
            forall h',
              (if (s =? index)%nat then Ok (MinHeap.mk (MinHeap.heap h) c)
               else y ← at_index (MinHeap.heap h) s;
                    MinHeap.bubbleDown fuel
                      (MinHeap.mk (MinHeap.swap (MinHeap.heap h) index s x y) c) s) = Ok h' ->
              length (MinHeap.heap h') = len) as Htail.
  { intros x s c Hs.
    destruct (s =? index)%nat eqn:E; [split; [done|by intros h' [= <-]]|].
    apply Nat.eqb_neq in E. destruct Hs as [->|Hs]; [done|].
    read_at (MinHeap.heap h) s y.
    assert (length (MinHeap.swap (MinHeap.heap h) index s x y) = len) as Hsw.
    { unfold MinHeap.swap. by rewrite !length_insert. }
    destruct (IH (MinHeap.mk (MinHeap.swap (MinHeap.heap h) index s x y) c) s)
      as [Hne Hlen]; [lia|simpl; rewrite Hsw; lia|].
    split; [done|]. intros h' Hh'. rewrite (Hlen h' Hh'). simpl. done. }
  destruct (Nat.ltb_spec lc len) as [Hlc|Hlc].
  - read_at (MinHeap.heap h) lc l.
    read_at (MinHeap.heap h) index s.
    destruct (Nat.ltb_spec rc len) as [Hrc|Hrc].
    + read_at (MinHeap.heap h) rc r.
      read_at (MinHeap.heap h) (if str_lt (MinHeap.key l) (MinHeap.key s) then lc else index) s'.
      apply Htail. destruct (str_lt (MinHeap.key r) _); [right; lia|].
      destruct (str_lt (MinHeap.key l) _); [right; lia|by left].
    + cbn [mbind result_bind JS.bind]. apply Htail.
      destruct (str_lt (MinHeap.key l) _); [right; lia|by left].
  - cbn [mbind result_bind JS.bind].
    destruct (Nat.ltb_spec rc len) as [Hrc|Hrc]; [subst lc rc; lia|].
    cbn [mbind result_bind JS.bind]. rewrite Nat.eqb_refl.
    split; [done|]. by intros h' [= <-].
Qed.

Lemma extractMin_fuel (h : MinHeap.t) :
  MinHeap.extractMin h <> OutOfFuel /\
  forall o h', MinHeap.extractMin h = Ok (o, h') ->
    (S (MinHeap.size h') <= MinHeap.size h)%nat \/ MinHeap.size h = 0%nat.
Proof.
  unfold MinHeap.extractMin, MinHeap.size.
  destruct (MinHeap.heap h) as [|x [|y l]] eqn:Eh.
  - split; [done|]. intros o h' _. by right.
  - split; [done|]. intros o h' [= _ <-]. simpl. left. lia.
  - destruct (last (x :: y :: l)) as [lastItem|]; [|dead].
    set (l' := <[0%nat:=lastItem]> (removelast (x :: y :: l))).
    assert (S (length l') = length (x :: y :: l)) as Hl.
    { subst l'. rewrite length_insert, removelast_firstn_len, length_take. simpl. lia. }
    destruct (bubbleDown_fuel (S (length l')) (MinHeap.mk l' (MinHeap.comparisons h)) 0)
      as [Hne Hlen]; [lia|simpl; lia|].
    destruct (MinHeap.bubbleDown _ _ _) as [h1| |]; cbn [mbind result_bind JS.bind];
      [|dead|done].
    split; [done|]. intros o h' [= _ <-]. left. rewrite (Hlen h1 eq_refl).
    cbn [MinHeap.heap]. lia.
Qed.

Lemma totalEntries_sum (tbs : list SSTable.t) :
  Compaction.totalEntries tbs = sum_list_with (fun tb => length (SSTable.entries tb)) tbs.
Proof.
  unfold Compaction.totalEntries.
  assert (forall n, fold_left (fun sum tb => (sum + length (SSTable.entries tb))%nat) tbs n
                    = (n + sum_list_with (fun tb => length (SSTable.entries tb)) tbs)%nat) as H.
  { induction tbs as [|tb tbs IH]; intros n; simpl; [lia|]. rewrite IH. lia. }
  by rewrite H.
Qed.

Lemma kWayMerge_init_fuel (tbs : list SSTable.t) :
  forall i its h,
    Compaction.kWayMerge_init tbs i its h <> OutOfFuel /\
    forall its' h', Compaction.kWayMerge_init tbs i its h = Ok (its', h') ->
      potential its' h'
      = (potential its h + sum_list_with (fun tb => length (SSTable.entries tb)) tbs)%nat.
Proof.
  induction tbs as [|tb tbs IH]; intros i its h; cbn [Compaction.kWayMerge_init].
  { split; [done|]. intros its' h' [= <- <-]. simpl. lia. }
  unfold SSTable.getAllEntries. destruct (SSTable.entries tb) as [|e es] eqn:Ee.
  { destruct (IH (S i) its h) as [Hne Hpot]. split; [done|].
    intros its' h' H. rewrite (Hpot its' h' H). simpl. rewrite Ee. simpl. lia. }
  destruct (heap_insert_fuel h (MinHeap.mkItem (Entry.key e) (Entry.value e)
                                  (Entry.timestamp e) i)) as [Hne Hsz].
  destruct (MinHeap.insert h _) as [h1| |]; cbn [mbind result_bind JS.bind]; [|dead|done].
  destruct (IH (S i) (its ++ [Compaction.mkIterator (SSTable.id tb) (e :: es) 0]) h1)
    as [Hne' Hpot].
  split; [done|]. intros its' h' H. rewrite (Hpot its' h' H).
  unfold potential. rewrite (Hsz h1 eq_refl), sum_list_with_app. cbn [sum_list_with].
  rewrite Ee. unfold pending. simpl. lia.
Qed.

Lemma sum_pending_insert (its : list Compaction.Iterator) (i : nat)
    (it it' : Compaction.Iterator) :
  its !! i = Some it ->
  (sum_list_with pending (<[i := it']> its) + pending it
   = sum_list_with pending its + pending it')%nat.
Proof.
  revert i. induction its as [|x its IH]; intros i Hi; [done|].
  destruct i as [|i]; simpl in *.
  - injection Hi as ->. lia.
  - rewrite <- Nat.add_assoc, (IH i Hi). lia.
Qed.

Lemma kWayMerge_loop_fuel (fuel : nat) :
  forall its h merged lastKey dups,
    (potential its h < fuel)%nat ->
    Compaction.kWayMerge_loop fuel its h merged lastKey dups <> OutOfFuel.
Proof.
  induction fuel as [|fuel IH]; intros its h merged lastKey dups Hpot; [lia|].
  cbn [Compaction.kWayMerge_loop].
  destruct (MinHeap.size h =? 0)%nat eqn:Esz; [done|]. apply Nat.eqb_neq in Esz.
  destruct (extractMin_fuel h) as [Hne Hext].
  destruct (MinHeap.extractMin h) as [[extracted h1]| |]; cbn [mbind result_bind JS.bind];
    [|done|done].
  destruct (Hext extracted h1 eq_refl) as [Hh1|]; [|done].
  destruct extracted as [x|]; cbn [mbind result_bind JS.bind]; [|done].
  unfold at_index at 1.
  destruct (its !! MinHeap.iteratorIndex x) as [it|] eqn:Eit; cbn [mbind result_bind JS.bind];
    [|done].
  set (it' := Compaction.mkIterator (Compaction.it_sstableId it) (Compaction.it_entries it)
                (S (Compaction.currentIndex it))).
  pose proof (sum_pending_insert its _ it it' Eit) as Hsum.
  change (Compaction.it_entries it' !! Compaction.currentIndex it')
    with (Compaction.it_entries it !! S (Compaction.currentIndex it)).
  destruct (Compaction.it_entries it !! S (Compaction.currentIndex it)) as [nextEntry|] eqn:En.
  - apply lookup_lt_Some in En.
    assert (pending it = S (pending it')) as Hp by (unfold pending; simpl; lia).
    match goal with |- context [MinHeap.insert h1 ?y] =>
      destruct (heap_insert_fuel h1 y) as [Hni Hsz]; destruct (MinHeap.insert h1 y) as [h2| |]
    end; cbn [mbind result_bind JS.bind]; [|done|done].
    apply IH. unfold potential in *. rewrite (Hsz h2 eq_refl). lia.
  - apply lookup_ge_None in En.
    assert (pending it' = 0%nat /\ pending it = 0%nat) as [Hp Hp']
      by (unfold pending; simpl; lia).
    cbn [mbind result_bind JS.bind]. apply IH. unfold potential in *. lia.
Qed.

Lemma kWayMerge_fuel (tbs : list SSTable.t) : Compaction.kWayMerge tbs <> OutOfFuel.
Proof.
  unfold Compaction.kWayMerge.
  destruct (kWayMerge_init_fuel tbs 0 [] MinHeap.create) as [Hne Hpot].
  destruct (Compaction.kWayMerge_init tbs 0 [] MinHeap.create) as [[its h]| |];
    cbn [mbind result_bind JS.bind]; [|done|done].
  specialize (Hpot its h eq_refl). unfold potential at 2 in Hpot. simpl in Hpot.
  pose proof (kWayMerge_loop_fuel (S (length tbs + Compaction.totalEntries tbs)) its h [] None 0)
    as Hl.
  rewrite totalEntries_sum in *.
  destruct (Compaction.kWayMerge_loop _ its h [] None 0) as [[[merged dups] h']| |];
    cbn [mbind result_bind JS.bind]; [done|done|].
  exfalso. apply Hl; [lia|done].
Qed.

(** ** Fuel: no operation of the tree runs out *)

Lemma compactLevel_total (c : Compaction.t) (m : SSTableManager.t)
    (sourceLevel targetLevel : nat) (w : World) :
  Compaction.compactLevel c m sourceLevel targetLevel w <> OutOfFuel /\
  (manager_wf m ->
   forall r c' m' w', Compaction.compactLevel c m sourceLevel targetLevel w = Ok (r, c', m', w') ->
     manager_wf m').
Proof.
  unfold Compaction.compactLevel.
  destruct (length (SSTableManager.getLevel m sourceLevel) =? 0)%nat.
  { split; [done|]. by intros Hwf r c' m' w' [= _ _ <- _]. }
  pose proof (kWayMerge_fuel
                (SSTableManager.getLevel m sourceLevel ++
                 Compaction.findOverlappingSSTables (SSTableManager.getLevel m sourceLevel)
                   (SSTableManager.getLevel m targetLevel))) as Hk.
  destruct (Compaction.kWayMerge _) as [mr| |]; cbn [mbind result_bind JS.bind];
    [|dead|done].
  match goal with |- context [SSTableManager.createSSTable ?mm _ _ _] =>
    destruct (createSSTable_spec mm targetLevel (Compaction.entries mr) w)
      as (tb & m4 & -> & _ & _ & _ & Htb & _ & Hlv) end.
  cbn [mbind result_bind JS.bind]. unfold Date_now.
  split; [done|]. intros Hwf r c' m' w' [= _ _ <- _] l x Hx.
  rewrite Hlv, !getLevel_fold_addSSTable, !getLevel_clearLevel in Hx.
  destruct (Nat.eq_dec targetLevel l) as [->|Hne].
  - rewrite !decide_True in Hx by done. simpl in Hx.
    apply elem_of_app in Hx as [Hx|Hx].
    + apply list_elem_of_In, filter_In in Hx as [Hx _]. apply (Hwf l).
      by apply list_elem_of_In.
    + by apply list_elem_of_singleton in Hx as ->.
  - rewrite !(decide_False (P := targetLevel = l)) in Hx by done.
    destruct (decide (sourceLevel = l)); [by apply elem_of_nil in Hx|]. by apply (Hwf l).
Qed.

Lemma runAutoCompaction_loop_total (levels : list nat) :
  forall c m w results,
    Compaction.runAutoCompaction_loop levels c m w results <> OutOfFuel /\
    (manager_wf m ->
     forall rs c' m' w',
       Compaction.runAutoCompaction_loop levels c m w results = Ok (rs, c', m', w') ->
       manager_wf m').
Proof.
  induction levels as [|level rest IH]; intros c m w results; cbn [Compaction.runAutoCompaction_loop].
  - split; [done|]. by intros Hwf rs c' m' w' [= _ _ <- _].
  - destruct (Compaction.shouldCompact m level); [|apply IH].
    destruct (compactLevel_total c m level (level + 1) w) as [Hne Hwf'].
    destruct (Compaction.compactLevel c m level (level + 1) w) as [[[[r c1] m1] w1]| |];
      cbn [mbind result_bind JS.bind]; [|dead|done].
    destruct r as [msg|rec].
    + destruct (IH c1 m1 w1 results) as [Hn Hw]. split; [done|].
      intros Hwf. apply Hw. by eapply Hwf'.
    + destruct (IH c1 m1 w1 (results ++ [rec])) as [Hn Hw]. split; [done|].
      intros Hwf. apply Hw. by eapply Hwf'.
Qed.

Lemma search_tables_total (level : nat) (k : string) (tables : list SSTable.t) :
  Forall table_wf tables ->
  forall path, exists r, SSTableManager.search_tables level k tables path = Ok r.
Proof.
  induction 1 as [|tb tables Htb _ IH]; intros path; cbn [SSTableManager.search_tables].
  - by eexists.
  - destruct (_ && _); [apply IH|].
    destruct (get_spec tb k Htb) as (r & -> & _). cbn [mbind result_bind JS.bind].
    destruct (SSTable.found r); [by eexists|apply IH].
Qed.

Lemma search_levels_total (m : SSTableManager.t) (k : string) (levels : list nat) :
  manager_wf m ->
  forall path, exists r, SSTableManager.search_levels m k levels path = Ok r.
Proof.
  intros Hwf. induction levels as [|level rest IH]; intros path;
    cbn [SSTableManager.search_levels].
  - by eexists.
  - destruct (search_tables_total level k (SSTableManager.getLevel m level)
                ltac:(apply Forall_forall; intros tb Htb; by apply (Hwf level)) path)
      as ([hit path'] & ->).
    cbn [mbind result_bind JS.bind]. destruct hit; [by eexists|apply IH].
Qed.

Lemma search_total (m : SSTableManager.t) (k : string) :
  manager_wf m -> exists r, SSTableManager.search m k = Ok r.
Proof. intros Hwf. by apply search_levels_total. Qed.

Lemma manager_wf_create : manager_wf SSTableManager.create.
Proof. intros l tb Htb. unfold SSTableManager.getLevel in Htb. simpl in Htb.
  rewrite lookup_empty in Htb. simpl in Htb. by apply elem_of_nil in Htb. Qed.

Lemma createSSTable_wf (m : SSTableManager.t) (l : nat) (es : list Entry.t) (w : World) :
  manager_wf m ->
  exists tb m' w', SSTableManager.createSSTable m l es w = Ok (tb, m', w') /\ manager_wf m'.
Proof.
  intros Hwf.
  destruct (createSSTable_spec m l es w) as (tb & m' & Hc & _ & _ & _ & Htb & _ & Hlv).
  exists tb, m', (snd (Date_now w)). split; [done|].
  intros l' x Hx. rewrite Hlv in Hx. case_decide as E.
  - apply elem_of_app in Hx as [Hx|Hx]; [by apply (Hwf l)|].
    by apply list_elem_of_singleton in Hx as ->.
  - by apply (Hwf l').
Qed.

Lemma flushMemtable_total (tr : LSMTree.t) (w : World) :
  tree_wf tr ->
  exists r tr' w', LSMTree.flushMemtable tr w = Ok (r, tr', w') /\ tree_wf tr'.
Proof.
  intros Hwf. unfold LSMTree.flushMemtable.
  destruct (SkipList.isEmpty _); [by eexists _, _, _|].
  destruct (createSSTable_wf (LSMTree.sstableManager tr) 0
              (SkipList.getAllEntries (LSMTree.memtable tr)) w Hwf)
    as (tb & m' & w' & -> & Hwf').
  cbn [mbind result_bind JS.bind].
  destruct (SkipList.clear _ _) as [sl w2]. by eexists _, _, _.
Qed.

Lemma put_total (tr : LSMTree.t) (k : string) (v : option string) (w : World) :
  tree_wf tr ->
  LSMTree.put tr k v w <> OutOfFuel /\
  forall r tr' w', LSMTree.put tr k v w = Ok (r, tr', w') -> tree_wf tr'.
Proof.
  intros Hwf. unfold LSMTree.put.
  destruct (SkipList.insert _ _ _ _) as [[ir sl] w1].
  match goal with |- context [if ?b then LSMTree.flushMemtable ?t ?ww else _] =>
    assert (exists fr tr2 w2,
              (if b then LSMTree.flushMemtable t ww else Ok (None, t, ww)) = Ok (fr, tr2, w2)
              /\ tree_wf tr2) as (fr & tr2 & w2 & -> & Hwf2)
  end.
  { destruct (_ <=? _)%nat; [by apply flushMemtable_total|by eexists _, _, _]. }
  cbn [mbind result_bind JS.bind]. unfold Compaction.runAutoCompaction.
  destruct (runAutoCompaction_loop_total [0; 1; 2]%nat (LSMTree.compaction tr2)
              (LSMTree.sstableManager tr2) w2 []) as [Hne Hw].
  destruct (Compaction.runAutoCompaction_loop _ _ _ _ _) as [[[[rs c] m] w3]| |];
    cbn [mbind result_bind JS.bind]; [|dead|done].
  split; [done|]. intros r tr' w' [= _ <- _]. unfold tree_wf. simpl. by eapply Hw.
Qed.

Lemma delete_total (tr : LSMTree.t) (k : string) (w : World) :
  tree_wf tr ->
  exists r tr' w', LSMTree.delete tr k w = Ok (r, tr', w') /\ tree_wf tr'.
Proof.
  intros Hwf. unfold LSMTree.delete.
  destruct (SkipList.insert _ _ _ _) as [[ir sl] w1].
  match goal with |- context [if ?b then LSMTree.flushMemtable ?t ?ww else _] =>
    assert (exists fr tr2 w2,
              (if b then LSMTree.flushMemtable t ww else Ok (None, t, ww)) = Ok (fr, tr2, w2)
              /\ tree_wf tr2) as (fr & tr2 & w2 & -> & Hwf2)
  end.
  { destruct (_ <=? _)%nat; [by apply flushMemtable_total|by eexists _, _, _]. }
  cbn [mbind result_bind JS.bind]. by eexists _, _, _.
Qed.

Lemma get_total (tr : LSMTree.t) (k : string) :
  tree_wf tr ->
  exists r tr', LSMTree.get tr k = Ok (r, tr') /\ tree_wf tr'.
Proof.
  intros Hwf. unfold LSMTree.get.
  destruct (SkipList.found _); [by eexists _, _|].
  destruct (search_total (LSMTree.sstableManager tr) k Hwf) as (r & ->).
  cbn [mbind result_bind JS.bind]. destruct (LSMTree.trackBloom _ _ _). by eexists _, _.
Qed.

Lemma compact_total (tr : LSMTree.t) (sourceLevel targetLevel : nat) (w : World) :
  tree_wf tr ->
  LSMTree.compact tr sourceLevel targetLevel w <> OutOfFuel /\
  forall r tr' w', LSMTree.compact tr sourceLevel targetLevel w = Ok (r, tr', w') -> tree_wf tr'.
Proof.
  intros Hwf. unfold LSMTree.compact.
  destruct (compactLevel_total (LSMTree.compaction tr) (LSMTree.sstableManager tr)
              sourceLevel targetLevel w) as [Hne Hw].
  destruct (Compaction.compactLevel _ _ _ _ _) as [[[[r c] m] w1]| |];
    cbn [mbind result_bind JS.bind]; [|dead|done].
  split; [done|]. intros r' tr' w' [= _ <- _]. unfold tree_wf. simpl. by eapply Hw.
Qed.

Lemma step_total (tr : LSMTree.t) (w : World) (op : Op) :
  tree_wf tr ->
  step tr w op <> OutOfFuel /\
  forall o tr' w', step tr w op = Ok (o, tr', w') -> tree_wf tr'.
Proof.
  intros Hwf. destruct op as [k v|k|k|src tgt|]; cbn [step].
  - destruct (put_total tr k v w Hwf) as [Hne Hw].
    destruct (LSMTree.put tr k v w) as [[[r tr1] w1]| |];
      cbn [mbind result_bind JS.bind]; [|dead|done].
    split; [done|]. intros o tr' w' [= _ <- _]. by eapply Hw.
  - destruct (get_total tr k Hwf) as (r & tr1 & -> & Hw).
    cbn [mbind result_bind JS.bind]. split; [done|]. by intros o tr' w' [= _ <- _].
  - destruct (delete_total tr k w Hwf) as (r & tr1 & w1 & -> & Hw).
    cbn [mbind result_bind JS.bind]. split; [done|]. by intros o tr' w' [= _ <- _].
  - destruct (compact_total tr src tgt w Hwf) as [Hne Hw].
    destruct (LSMTree.compact tr src tgt w) as [[[r tr1] w1]| |];
      cbn [mbind result_bind JS.bind]; [|dead|done].
    split; [done|]. intros o tr' w' [= _ <- _]. by eapply Hw.
  - unfold LSMTree.clear. destruct (SkipList.clear _ _) as [sl w1].
    split; [done|]. intros o tr' w' [= _ <- _]. apply manager_wf_create.
Qed.

Lemma run_total (ops : list Op) :
  forall tr w, tree_wf tr -> run tr w ops <> OutOfFuel.
Proof.
  induction ops as [|op rest IH]; intros tr w Hwf; cbn [run]; [done|].
  destruct (step_total tr w op Hwf) as [Hne Hw].
  destruct (step tr w op) as [[[o tr1] w1]| |]; cbn [mbind result_bind JS.bind]; [|done|done].
  specialize (IH tr1 w1 (Hw _ _ _ eq_refl)).
  by destruct (run tr1 w1 rest) as [[[os tr2] w2]| |].
Qed.

Lemma session_total (memtableThreshold : nat) (w : World) (ops : list Op) :
  session memtableThreshold w ops <> OutOfFuel.
Proof.
  unfold session, LSMTree.create. destruct (SkipList.create 16 w) as [sl w1].
  apply run_total, manager_wf_create.
Qed.

(** ** Determinism: the skip list *)

Lemma rank_erase (k : string) (ns : list SkipListNode.t) :
  rank k (map eraseN ns) = rank k ns.
Proof. induction ns as [|n ns IH]; simpl; [done|]. by rewrite IH. Qed.

Lemma rank_le_length (k : string) (ns : list SkipListNode.t) : (rank k ns <= length ns)%nat.
Proof. induction ns as [|n ns IH]; simpl; [lia|]. destruct (str_lt _ _); simpl; lia. Qed.

Lemma rank_spec (k : string) (ns : list SkipListNode.t) (p : nat) (n : SkipListNode.t) :
  StronglySorted node_lt ns -> ns !! p = Some n ->
  str_lt (SkipListNode.key n) k = true <-> (p < rank k ns)%nat.
Proof.
  intros Hs. revert p. induction Hs as [|x ns Hs IH Hall]; intros p Hp; [done|].
  simpl. destruct p as [|p]; simpl in Hp.
  - injection Hp as ->. destruct (str_lt _ _); split; (done || lia).
  - destruct (str_lt (SkipListNode.key x) k) eqn:Ex.
    + rewrite (IH p Hp). lia.
    + split; [|lia]. intros Hn. exfalso.
      rewrite Forall_forall in Hall.
      pose proof (Hall n (list_elem_of_lookup_2 _ _ _ Hp)) as Hxn. unfold node_lt in Hxn.
      pose proof (str_lt_trans _ _ _ Hxn Hn). congruence.
Qed.

Lemma advance_from_bounds (i : nat) (k : string) (ns : list SkipListNode.t) :
  StronglySorted node_lt ns ->
  forall scan scanpos cur cmp,
    scan = drop scanpos ns -> (cur <= scanpos)%nat -> (cur <= rank k ns)%nat ->
    let cur' := fst (SkipList.advance_from i k scan scanpos cur cmp) in
    (cur <= cur' <= rank k ns)%nat /\
    (i = 0%nat -> cur = scanpos -> cur' = rank k ns).
Proof.
  intros Hs. induction scan as [|n rest IH]; intros scanpos cur cmp Hscan Hcs Hcr; simpl.
  - split; [lia|]. intros _ ->.
    assert (length ns <= scanpos)%nat.
    { destruct (Nat.le_gt_cases (length ns) scanpos) as [|Hlt]; [done|].
      apply (f_equal length) in Hscan. rewrite length_drop in Hscan. simpl in Hscan. lia. }
    pose proof (rank_le_length k ns). lia.
  - assert (ns !! scanpos = Some n) as Hn.
    { rewrite <- (Nat.add_0_r scanpos), <- lookup_drop, <- Hscan. done. }
    assert (rest = drop (S scanpos) ns) as Hrest.
    { rewrite (drop_S _ _ _ Hn) in Hscan. by injection Hscan. }
    pose proof (rank_spec k ns scanpos n Hs Hn) as Hrk.
    destruct (i <=? SkipListNode.level n)%nat eqn:Ei.
    + destruct (str_lt (SkipListNode.key n) k) eqn:El.
      * destruct (IH (S scanpos) (S scanpos) (S cmp) Hrest ltac:(lia) ltac:(apply Hrk; done))
          as [Hb Hz].
        split; [lia|]. intros Hi _. by apply Hz.
      * simpl. split; [lia|]. intros _ ->.
        destruct (Nat.lt_ge_cases scanpos (rank k ns)) as [Hlt|]; [|lia].
        apply Hrk in Hlt. congruence.
    + destruct (IH (S scanpos) cur cmp Hrest ltac:(lia) Hcr) as [Hb Hz].
      split; [done|]. intros -> _. apply Nat.leb_gt in Ei. lia.
Qed.

Lemma descend_rank (k : string) (ns : list SkipListNode.t) :
  StronglySorted node_lt ns ->
  forall i cur cmp, (cur <= rank k ns)%nat ->
    fst (SkipList.descend i k ns cur cmp) = rank k ns.
Proof.
  intros Hs. induction i as [|i IH]; intros cur cmp Hc; simpl; unfold SkipList.advance.
  - destruct (advance_from_bounds 0 k ns Hs (drop cur ns) cur cur cmp eq_refl ltac:(lia) Hc)
      as [_ Hz].
    destruct (SkipList.advance_from _ _ _ _ _ _) as [c' m']. simpl in *. by apply Hz.
  - destruct (advance_from_bounds (S i) k ns Hs (drop cur ns) cur cur cmp eq_refl ltac:(lia) Hc)
      as [Hb _].
    destruct (SkipList.advance_from _ _ _ _ _ _) as [c' m']. simpl in *. apply IH. lia.
Qed.

(** What [search] finds, read off the chain. *)
Lemma search_chain (sl : SkipList.t) (k : string) :
  chain_sorted sl ->
  (SkipList.found (SkipList.search sl k), SkipList.sr_value (SkipList.search sl k))
  = match SkipList.nodes sl !! rank k (SkipList.nodes sl) with
    | Some n =>
      if str_eq (SkipListNode.key n) k then (true, Some (SkipListNode.value n))
      else (false, None)
    | None => (false, None)
    end.
Proof.
  intros Hs. unfold SkipList.search.
  pose proof (descend_rank k _ Hs (SkipList.level sl) 0%nat 0%nat ltac:(lia)) as Hd.
  destruct (SkipList.descend _ _ _ _ _) as [cur cmp]. simpl in Hd. subst cur.
  destruct (SkipList.nodes sl !! _) as [n|]; [|done].
  by destruct (str_eq _ _).
Qed.

Lemma search_sim (sl1 sl2 : SkipList.t) (k : string) :
  chain_sorted sl1 -> chain_sorted sl2 -> eraseSL sl1 = eraseSL sl2 ->
  SkipList.found (SkipList.search sl1 k) = SkipList.found (SkipList.search sl2 k) /\
  SkipList.sr_value (SkipList.search sl1 k) = SkipList.sr_value (SkipList.search sl2 k).
Proof.
  intros H1 H2 He.
  pose proof (search_chain sl1 k H1) as E1. pose proof (search_chain sl2 k H2) as E2.
  assert (map eraseN (SkipList.nodes sl1) = map eraseN (SkipList.nodes sl2)) as Hn
    by (by injection He).
  assert (rank k (SkipList.nodes sl1) = rank k (SkipList.nodes sl2)) as Hr.
  { by rewrite <- (rank_erase k (SkipList.nodes sl1)), Hn, rank_erase. }
  rewrite Hr in E1.
  pose proof (f_equal (fun l => l !! rank k (SkipList.nodes sl2)) Hn) as Hl.
  simpl in Hl. rewrite !list_lookup_fmap in Hl.
  destruct (SkipList.nodes sl1 !! _) as [n1|], (SkipList.nodes sl2 !! _) as [n2|];
    simpl in Hl; try discriminate.
  - injection Hl as Hk Hv. rewrite Hk, Hv in E1. rewrite <- E2 in E1.
    by injection E1.
  - rewrite <- E2 in E1. by injection E1.
Qed.

(** The chain and the size after [insert]: an existing key has its value
    replaced in place, a new key is put at its rank. *)
Lemma insert_chain (sl : SkipList.t) (k : string) (v : option string) (w : World) :
  chain_sorted sl ->
  let r := rank k (SkipList.nodes sl) in
  let sl' := snd (fst (SkipList.insert sl k v w)) in
  SkipList.maxLevel sl' = SkipList.maxLevel sl /\
  exists lvl ts,
    match SkipList.nodes sl !! r with
    | Some n =>
      if str_eq (SkipListNode.key n) k then
        SkipList.nodes sl' = <[r := SkipListNode.mk (SkipListNode.key n) v lvl ts]> (SkipList.nodes sl) /\
        SkipList.size sl' = SkipList.size sl
      else
        SkipList.nodes sl'
        = take r (SkipList.nodes sl) ++ SkipListNode.mk k v lvl ts :: drop r (SkipList.nodes sl) /\
        SkipList.size sl' = S (SkipList.size sl)
    | None =>
      SkipList.nodes sl'
      = take r (SkipList.nodes sl) ++ SkipListNode.mk k v lvl ts :: drop r (SkipList.nodes sl) /\
      SkipList.size sl' = S (SkipList.size sl)
    end.
Proof.
  intros Hs r sl'. subst sl'. unfold SkipList.insert.
  pose proof (descend_rank k _ Hs (SkipList.level sl) 0%nat 0%nat ltac:(lia)) as Hd.
  destruct (SkipList.descend _ _ _ _ _) as [cur cmp]. simpl in Hd. subst cur. fold r.
  destruct (SkipList.randomLevel sl w) as [newLevel w1].
  destruct (Date_now w1) as [now1 w2] eqn:E1. destruct (Date_now w) as [now w3] eqn:E2.
  destruct (SkipList.nodes sl !! r) as [n|] eqn:En.
  - destruct (str_eq (SkipListNode.key n) k) eqn:Ek; simpl.
    + split; [done|]. by exists (SkipListNode.level n), now.
    + split; [done|]. by exists newLevel, now1.
  - simpl. split; [done|]. by exists newLevel, now1.
Qed.

Lemma Forall_node_lt_same_keys (x1 x2 : SkipListNode.t) (l1 l2 : list SkipListNode.t) :
  SkipListNode.key x1 = SkipListNode.key x2 ->
  map SkipListNode.key l1 = map SkipListNode.key l2 ->
  Forall (node_lt x1) l1 -> Forall (node_lt x2) l2.
Proof.
  intros Hx. revert l2. induction l1 as [|y1 l1 IH]; intros [|y2 l2] Hk Hall;
    simplify_eq/=; [constructor|].
  inversion Hall; subst. constructor; [|by apply IH].
  unfold node_lt in *. congruence.
Qed.

Lemma sorted_same_keys (ns1 ns2 : list SkipListNode.t) :
  map SkipListNode.key ns1 = map SkipListNode.key ns2 ->
  StronglySorted node_lt ns1 -> StronglySorted node_lt ns2.
Proof.
  revert ns2. induction ns1 as [|x1 ns1 IH]; intros [|x2 ns2] Hk Hs;
    simplify_eq/=; [constructor|].
  apply StronglySorted_cons in Hs as [Hall Hs].
  constructor; [by apply IH|]. by eapply Forall_node_lt_same_keys.
Qed.

Lemma erase_same_keys (ns1 ns2 : list SkipListNode.t) :
  map eraseN ns1 = map eraseN ns2 -> map SkipListNode.key ns1 = map SkipListNode.key ns2.
Proof.
  intros H. apply (f_equal (map SkipListNode.key)) in H.
  rewrite !map_map in H. exact H.
Qed.

Lemma insert_sorted (sl : SkipList.t) (k : string) (v : option string) (w : World) :
  chain_sorted sl -> chain_sorted (snd (fst (SkipList.insert sl k v w))).
Proof.
  intros Hs. destruct (insert_chain sl k v w Hs) as (_ & lvl & ts & H).
  unfold chain_sorted in *. set (ns := SkipList.nodes sl) in *.
  set (r := rank k ns) in *.
  assert (forall n0, ns !! r = None \/ (ns !! r = Some n0 /\ str_eq (SkipListNode.key n0) k = false) ->
          StronglySorted node_lt (take r ns ++ SkipListNode.mk k v lvl ts :: drop r ns)) as Hnew.
  { intros n0 Hcase.
    rewrite <- (take_drop r ns) in Hs. apply StronglySorted_app in Hs as (Hx & Ht & Hd).
    apply StronglySorted_app. split; [|split; [done|]].
    - intros x1 x2 H1 H2. apply elem_of_cons in H2 as [->|H2]; [|by apply Hx].
      apply list_elem_of_lookup in H1 as [p Hp]. 
      pose proof (lookup_lt_Some _ _ _ Hp) as Hlt. rewrite length_take in Hlt.
      rewrite lookup_take_lt in Hp by lia. unfold node_lt. simpl.
      rewrite <- (take_drop r ns) in Hp at 1.
      assert (StronglySorted node_lt ns) as Hs'.
      { rewrite <- (take_drop r ns). apply StronglySorted_app. done. }
      rewrite take_drop in Hp.
      apply (rank_spec k ns p x1 Hs' Hp). fold r. lia.
    - constructor; [done|]. apply Forall_forall. intros y Hy.
      assert (StronglySorted node_lt ns) as Hs'.
      { rewrite <- (take_drop r ns). apply StronglySorted_app. done. }
      apply list_elem_of_lookup in Hy as [p Hp]. rewrite lookup_drop in Hp.
      unfold node_lt. simpl.
      assert (str_lt (SkipListNode.key y) k = false) as Hge.
      { destruct (str_lt (SkipListNode.key y) k) eqn:E; [|done].
        apply (rank_spec k ns _ y Hs' Hp) in E. fold r in E. lia. }
      destruct (str_lt k (SkipListNode.key y)) eqn:E; [done|exfalso].
      assert (k = SkipListNode.key y) as Heq by (by apply str_lt_total).
      destruct p as [|p].
      + rewrite Nat.add_0_r in Hp. destruct Hcase as [Hn|[Hn Hne]]; [congruence|].
        rewrite Hp in Hn. injection Hn as <-. apply str_eq_false in Hne. congruence.
      + destruct (lookup_lt_is_Some_2 ns r) as [y0 Hy0].
        { apply lookup_lt_Some in Hp. lia. }
        assert (str_lt (SkipListNode.key y0) k = false) as Hge0.
        { destruct (str_lt (SkipListNode.key y0) k) eqn:E0; [|done].
          apply (rank_spec k ns _ y0 Hs' Hy0) in E0. fold r in E0. lia. }
        assert (node_lt y0 y) as Hlt.
        { rewrite <- (take_drop r ns) in Hs'. apply StronglySorted_app in Hs' as (_ & _ & Hd').
          rewrite (drop_S _ _ _ Hy0) in Hd'. apply StronglySorted_cons in Hd' as [Hall _].
          rewrite Forall_forall in Hall. apply Hall.
          apply list_elem_of_lookup. exists p. rewrite lookup_drop.
          by replace (S r + p)%nat with (r + S p)%nat by lia. }
        unfold node_lt in Hlt. rewrite <- Heq in Hlt. congruence. }
  destruct (ns !! r) as [n|] eqn:En.
  - destruct (str_eq (SkipListNode.key n) k) eqn:Ek.
    + destruct H as [-> _]. eapply sorted_same_keys; [|exact Hs].
      change (map SkipListNode.key ?l) with (SkipListNode.key <$> l).
      rewrite list_fmap_insert. simpl. symmetry. apply list_insert_id.
      by rewrite list_lookup_fmap, En.
    + destruct H as [-> _]. apply (Hnew n). by right.
  - destruct H as [-> _]. apply (Hnew (SkipListNode.mk k v 0 0)). by left.
Qed.

Lemma insert_sim (sl1 sl2 : SkipList.t) (k : string) (v : option string) (w1 w2 : World) :
  chain_sorted sl1 -> chain_sorted sl2 -> eraseSL sl1 = eraseSL sl2 ->
  eraseSL (snd (fst (SkipList.insert sl1 k v w1)))
  = eraseSL (snd (fst (SkipList.insert sl2 k v w2))).
Proof.
  intros H1 H2 He.
  destruct (insert_chain sl1 k v w1 H1) as (Hm1 & l1 & t1 & C1).
  destruct (insert_chain sl2 k v w2 H2) as (Hm2 & l2 & t2 & C2).
  injection He as Hmax Hn Hsz.
  assert (rank k (SkipList.nodes sl1) = rank k (SkipList.nodes sl2)) as Hr.
  { by rewrite <- (rank_erase k (SkipList.nodes sl1)), Hn, rank_erase. }
  rewrite Hr in C1. set (r := rank k (SkipList.nodes sl2)) in *.
  pose proof (f_equal (fun l => l !! r) Hn) as Hl. simpl in Hl.
  rewrite !list_lookup_fmap in Hl.
  assert (forall l1' t1' l2' t2',
            map eraseN (take r (SkipList.nodes sl1) ++
                        SkipListNode.mk k v l1' t1' :: drop r (SkipList.nodes sl1))
            = map eraseN (take r (SkipList.nodes sl2) ++
                          SkipListNode.mk k v l2' t2' :: drop r (SkipList.nodes sl2))) as Hfresh.
  { intros ? ? ? ?. rewrite !map_app. simpl.
    change (map eraseN ?l) with (eraseN <$> l).
    rewrite !fmap_take, !fmap_drop.
    change (eraseN <$> ?l) with (map eraseN l). by rewrite Hn. }
  unfold eraseSL. rewrite Hm1, Hm2, Hmax.
  destruct (SkipList.nodes sl1 !! r) as [n1|], (SkipList.nodes sl2 !! r) as [n2|];
    simpl in Hl; try discriminate.
  - injection Hl as Hk Hv. rewrite Hk in C1.
    destruct (str_eq (SkipListNode.key n2) k).
    + destruct C1 as [-> ->], C2 as [-> ->]. rewrite Hsz. f_equal.
      change (map eraseN ?l) with (eraseN <$> l).
      rewrite !list_fmap_insert. unfold eraseN at 1 3. simpl.
      change (eraseN <$> ?l) with (map eraseN l). by rewrite Hn.
    + destruct C1 as [-> ->], C2 as [-> ->]. rewrite Hsz. f_equal. by apply Hfresh.
  - destruct C1 as [-> ->], C2 as [-> ->]. rewrite Hsz. f_equal.
    by apply Hfresh.
Qed.

(** ** Determinism: tables and the level manager *)

Lemma Ok_inj {A} (a b : A) : Ok a = Ok b -> a = b.
Proof. by intros [= ->]. Qed.

Lemma pair_eq {A B} (a a' : A) (b b' : B) : (a, b) = (a', b') -> a = a' /\ b = b'.
Proof. by intros [= -> ->]. Qed.

Lemma at_index_fmap {A B} (f : A -> B) (l : list A) (i : nat) :
  at_index (map f l) i = rmap f (at_index l i).
Proof.
  unfold at_index. change (map f l) with (f <$> l). rewrite list_lookup_fmap.
  by destruct (l !! i).
Qed.

Lemma at_Z_fmap {A B} (f : A -> B) (l : list A) (i : Z) :
  at_Z (map f l) i = rmap f (at_Z l i).
Proof. unfold at_Z. destruct (i <? 0)%Z; [done|apply at_index_fmap]. Qed.

Lemma eraseE_idemp (l : list Entry.t) : map eraseE (map eraseE l) = map eraseE l.
Proof. rewrite map_map. by apply map_ext. Qed.

Lemma sort_insert_erase (x : Entry.t) (l : list Entry.t) :
  SSTable.sort_insert (eraseE x) (map eraseE l) = map eraseE (SSTable.sort_insert x l).
Proof.
  induction l as [|y l IH]; simpl; [done|].
  destruct (str_lt _ _); simpl; [by rewrite IH|done].
Qed.

Lemma sort_erase (l : list Entry.t) : SSTable.sort (map eraseE l) = map eraseE (SSTable.sort l).
Proof.
  induction l as [|x l IH]; [done|]. unfold SSTable.sort in *. simpl.
  by rewrite IH, sort_insert_erase.
Qed.

Lemma keys_erase (l : list Entry.t) : map Entry.key (map eraseE l) = map Entry.key l.
Proof. rewrite map_map. by apply map_ext. Qed.

Lemma buildBloomFilter_erase (l : list Entry.t) :
  SSTable.buildBloomFilter (map eraseE l) = SSTable.buildBloomFilter l.
Proof. by rewrite !buildBloomFilter_fold, keys_erase, length_map. Qed.

Lemma buildSparseIndex_loop_erase (fuel : nat) (l : list Entry.t) (step i : nat) :
  SSTable.buildSparseIndex_loop fuel (map eraseE l) step i
  = SSTable.buildSparseIndex_loop fuel l step i.
Proof.
  revert i. induction fuel as [|fuel IH]; intros i; simpl; rewrite length_map; [done|].
  destruct (length l <=? i)%nat; [done|].
  rewrite at_index_fmap. destruct (at_index l i); simpl; [|done|done].
  by rewrite IH.
Qed.

Lemma buildSparseIndex_erase (l : list Entry.t) (step : nat) :
  SSTable.buildSparseIndex (map eraseE l) step = SSTable.buildSparseIndex l step.
Proof.
  unfold SSTable.buildSparseIndex. rewrite buildSparseIndex_loop_erase, !length_map.
  destruct (SSTable.buildSparseIndex_loop _ _ _ _); simpl; [|done|done].
  destruct (_ =? _)%nat; [done|]. rewrite at_index_fmap.
  by destruct (at_index l _).
Qed.

Lemma calculateSize_erase (l : list Entry.t) (bf : BloomFilter.t) (idx : list SSTable.IndexEntry) :
  SSTable.calculateSize (map eraseE l) bf idx = SSTable.calculateSize l bf idx.
Proof.
  unfold SSTable.calculateSize. f_equal. f_equal. generalize 0%Z.
  induction l as [|e l IH]; intros z; simpl; [done|]. apply IH.
Qed.

Lemma getKeyRange_erase (l : list Entry.t) :
  SSTable.getKeyRange (map eraseE l) = SSTable.getKeyRange l.
Proof.
  unfold SSTable.getKeyRange. change (map eraseE l) with (eraseE <$> l).
  rewrite fmap_last. f_equal.
  - by destruct l.
  - by destruct (last l).
Qed.

Lemma create_erase (id level : nat) (es : list Entry.t) (bf : option BloomFilter.t) (w w' : World) :
  rmap (fun r => eraseT (fst r)) (SSTable.create id level es bf w)
  = rmap (fun r => eraseT (fst r)) (SSTable.create id level (map eraseE es) bf w').
Proof.
  unfold SSTable.create. simpl.
  rewrite sort_erase, buildSparseIndex_erase, buildBloomFilter_erase.
  destruct (SSTable.buildSparseIndex _ _); simpl; [|done|done].
  unfold eraseT. simpl. by rewrite calculateSize_erase, getKeyRange_erase, eraseE_idemp.
Qed.

Lemma binarySearch_loop_erase (fuel : nat) (es : list Entry.t) (k : string)
    (left right : Z) (c : nat) :
  SSTable.binarySearch_loop fuel (map eraseE es) k left right c
  = SSTable.binarySearch_loop fuel es k left right c.
Proof.
  revert left right c. induction fuel as [|fuel IH]; intros left right c; simpl; [done|].
  destruct (right <? left)%Z; [done|].
  rewrite at_Z_fmap. destruct (at_Z es _) as [e| |]; simpl; [|done|done].
  destruct (str_eq _ _); [done|]. destruct (str_lt _ _); apply IH.
Qed.

Lemma get_erase (tb : SSTable.t) (k : string) : SSTable.get (eraseT tb) k = SSTable.get tb k.
Proof.
  unfold SSTable.get, SSTable.binarySearch. simpl. rewrite length_map.
  destruct (negb _); [done|]. destruct (SSTable.narrow _ _ _) as [s e].
  by rewrite binarySearch_loop_erase.
Qed.

Lemma containsKeyInRange_erase (tb : SSTable.t) (k : string) :
  SSTable.containsKeyInRange (eraseT tb) k = SSTable.containsKeyInRange tb k.
Proof. unfold SSTable.containsKeyInRange. simpl. by rewrite length_map. Qed.

Lemma search_tables_erase (level : nat) (k : string) (tbs : list SSTable.t)
    (path : list SSTableManager.Step) :
  SSTableManager.search_tables level k (map eraseT tbs) path
  = SSTableManager.search_tables level k tbs path.
Proof.
  revert path. induction tbs as [|tb tbs IH]; intros path; simpl; [done|].
  rewrite containsKeyInRange_erase, get_erase.
  destruct (_ && _); [apply IH|].
  destruct (SSTable.get tb k) as [r| |]; simpl; [|done|done].
  destruct (SSTable.found r); [done|apply IH].
Qed.

Lemma getLevel_erase (m : SSTableManager.t) (l : nat) :
  SSTableManager.getLevel (eraseM m) l = map eraseT (SSTableManager.getLevel m l).
Proof.
  unfold SSTableManager.getLevel. simpl. rewrite lookup_fmap.
  by destruct (SSTableManager.levels m !! l).
Qed.

Lemma sortedLevels_erase (m : SSTableManager.t) :
  SSTableManager.sortedLevels (eraseM m) = SSTableManager.sortedLevels m.
Proof.
  unfold SSTableManager.sortedLevels. simpl. rewrite map_to_list_fmap.
  f_equal. change (map fst ?l) with (fst <$> l). rewrite <- list_fmap_compose.
  apply list_fmap_ext. by intros _ [? ?] _.
Qed.

Lemma search_levels_erase (m : SSTableManager.t) (k : string) (ls : list nat)
    (path : list SSTableManager.Step) :
  SSTableManager.search_levels (eraseM m) k ls path = SSTableManager.search_levels m k ls path.
Proof.
  revert path. induction ls as [|l ls IH]; intros path; simpl; [done|].
  rewrite getLevel_erase, search_tables_erase.
  destruct (SSTableManager.search_tables _ _ _ _) as [[hit path']| |]; simpl; [|done|done].
  destruct hit; [done|apply IH].
Qed.

Lemma search_erase (m : SSTableManager.t) (k : string) :
  SSTableManager.search (eraseM m) k = SSTableManager.search m k.
Proof.
  unfold SSTableManager.search. by rewrite sortedLevels_erase, search_levels_erase.
Qed.

Lemma clearLevel_erase (m : SSTableManager.t) (l : nat) :
  eraseM (SSTableManager.clearLevel m l) = SSTableManager.clearLevel (eraseM m) l.
Proof. unfold eraseM, SSTableManager.clearLevel. simpl. by rewrite fmap_insert. Qed.

Lemma addSSTable_erase (m : SSTableManager.t) (l : nat) (tb : SSTable.t) :
  eraseM (SSTableManager.addSSTable m l tb)
  = SSTableManager.addSSTable (eraseM m) l (eraseT tb).
Proof.
  unfold SSTableManager.addSSTable. rewrite getLevel_erase. unfold eraseM. simpl.
  by rewrite fmap_insert, map_app.
Qed.

Lemma fold_addSSTable_erase (tbs : list SSTable.t) (m : SSTableManager.t) (l : nat) :
  eraseM (fold_left (fun mm tb => SSTableManager.addSSTable mm l tb) tbs m)
  = fold_left (fun mm tb => SSTableManager.addSSTable mm l tb) (map eraseT tbs) (eraseM m).
Proof.
  revert m. induction tbs as [|tb tbs IH]; intros m; simpl; [done|].
  by rewrite IH, addSSTable_erase.
Qed.

Lemma eraseT_idemp (tb : SSTable.t) : eraseT (eraseT tb) = eraseT tb.
Proof. unfold eraseT. simpl. by rewrite eraseE_idemp. Qed.

Lemma eraseM_idemp (m : SSTableManager.t) : eraseM (eraseM m) = eraseM m.
Proof.
  unfold eraseM. simpl. f_equal. rewrite <- map_fmap_compose.
  apply map_fmap_ext. intros _ x _. simpl. rewrite map_map. apply map_ext.
  intros t. apply eraseT_idemp.
Qed.

Lemma createSSTable_erase (m : SSTableManager.t) (l : nat) (es : list Entry.t) (w w' : World) :
  rmap (fun r => (eraseT (fst (fst r)), eraseM (snd (fst r))))
    (SSTableManager.createSSTable m l es w)
  = rmap (fun r => (eraseT (fst (fst r)), eraseM (snd (fst r))))
      (SSTableManager.createSSTable (eraseM m) l (map eraseE es) w').
Proof.
  unfold SSTableManager.createSSTable.
  pose proof (create_erase (SSTableManager.nextId m) l es None w w') as H.
  change (SSTableManager.nextId (eraseM m)) with (SSTableManager.nextId m).
  destruct (SSTable.create _ _ es _ _) as [[tb w1]| |],
    (SSTable.create _ _ (map eraseE es) _ _) as [[tb' w1']| |];
    simpl in H; try discriminate; try done.
  apply Ok_inj in H. cbn [mbind result_bind JS.bind rmap fst snd].
  rewrite !addSSTable_erase, H. do 3 f_equal.
  change (SSTableManager.mk (SSTableManager.levels (eraseM m)) (S (SSTableManager.nextId m)))
    with (eraseM (SSTableManager.mk (SSTableManager.levels m) (S (SSTableManager.nextId m)))).
  by rewrite eraseM_idemp.
Qed.

(** ** Determinism: the heap and the k-way merge *)

Lemma swap_erase (l : list MinHeap.Item) (i j : nat) (x y : MinHeap.Item) :
  map eraseI (MinHeap.swap l i j x y) = MinHeap.swap (map eraseI l) i j (eraseI x) (eraseI y).
Proof.
  unfold MinHeap.swap. change (map eraseI ?l) with (eraseI <$> l).
  by rewrite !list_fmap_insert.
Qed.

(** One step of a proof that a fallible loop commutes with erasure: push
    the erasure through an array read, or split on the read or on a test
    that both sides share. *)
Ltac erase_step :=
  cbn [rmap mbind result_bind JS.bind fst snd
       MinHeap.heap MinHeap.comparisons MinHeap.key MinHeap.value MinHeap.timestamp
       MinHeap.iteratorIndex eraseH eraseI];
  match goal with
  | |- ?x = ?x => reflexivity
  | |- context [at_index (map ?f ?l) ?i] => rewrite (at_index_fmap f l i)
  | |- context [rmap _ (at_index ?l ?i)] => destruct (at_index l i)
  | |- context [if ?b then _ else _] => destruct b
  end.

Lemma bubbleUp_erase (fuel : nat) (h : MinHeap.t) (index : nat) :
  MinHeap.bubbleUp fuel (eraseH h) index = rmap eraseH (MinHeap.bubbleUp fuel h index).
Proof.
  revert h index. induction fuel as [|fuel IH]; intros h index.
  - cbn [MinHeap.bubbleUp]. by destruct (index =? 0)%nat.
  - cbn [MinHeap.bubbleUp]. generalize ((index - 1) / 2)%nat. intros parentIndex.
    repeat erase_step; try done.
    rewrite <- swap_erase; exact (IH (MinHeap.mk _ _) _).
Qed.

Lemma heap_insert_erase (h : MinHeap.t) (x : MinHeap.Item) :
  MinHeap.insert (eraseH h) (eraseI x) = rmap eraseH (MinHeap.insert h x).
Proof.
  unfold MinHeap.insert. rewrite <- bubbleUp_erase. simpl.
  rewrite !length_app, length_map. f_equal. unfold eraseH. simpl. by rewrite map_app.
Qed.

Lemma bubbleDown_erase (fuel : nat) (h : MinHeap.t) (index : nat) :
  MinHeap.bubbleDown fuel (eraseH h) index = rmap eraseH (MinHeap.bubbleDown fuel h index).
Proof.
  revert h index. induction fuel as [|fuel IH]; intros h index; [done|].
  cbn [MinHeap.bubbleDown]. 
  generalize (2 * index + 1)%nat (2 * index + 2)%nat. intros lc rc.
  cbn [MinHeap.heap eraseH]. rewrite length_map.
  repeat erase_step; try done;
    rewrite <- swap_erase; exact (IH (MinHeap.mk _ _) _).
Qed.

Lemma removelast_fmap {A B} (f : A -> B) (l : list A) :
  removelast (map f l) = map f (removelast l).
Proof.
  induction l as [|x l IH]; [done|]. simpl. destruct l; [done|]. simpl in *. by rewrite IH.
Qed.

Lemma extractMin_erase (h : MinHeap.t) :
  MinHeap.extractMin (eraseH h)
  = rmap (fun r => (eraseI <$> fst r, eraseH (snd r))) (MinHeap.extractMin h).
Proof.
  unfold MinHeap.extractMin. cbn [MinHeap.heap eraseH MinHeap.comparisons].
  destruct (MinHeap.heap h) as [|x [|y l]] eqn:Eh; [done|done|].
  set (hp := x :: y :: l).
  change (eraseI x :: eraseI y :: map eraseI l) with (map eraseI hp).
  change (map eraseI hp) with (eraseI <$> hp) at 1. rewrite fmap_last.
  cbn [map]. fold (map eraseI hp). 
  destruct (last hp) as [lastItem|]; [|done]. cbn [fmap option_fmap option_map].
  rewrite removelast_fmap.
  change (map eraseI ?l) with (eraseI <$> l). rewrite <- list_fmap_insert, length_fmap.
  pose proof (bubbleDown_erase (S (length (<[0%nat:=lastItem]> (removelast hp))))
                (MinHeap.mk (<[0%nat:=lastItem]> (removelast hp)) (MinHeap.comparisons h)) 0) as Hb.
  unfold eraseH at 1 in Hb. cbn [MinHeap.heap MinHeap.comparisons] in Hb.
  change (map eraseI ?l) with (eraseI <$> l) in Hb. rewrite Hb.
  clear Hb. subst hp. cbn [fmap list_fmap]. by destruct (MinHeap.bubbleDown _ _ _).
Qed.

Lemma kWayMerge_init_erase (tbs : list SSTable.t) (i : nat)
    (its : list Compaction.Iterator) (h : MinHeap.t) :
  Compaction.kWayMerge_init (map eraseT tbs) i (map eraseIt its) (eraseH h)
  = rmap (fun r => (map eraseIt (fst r), eraseH (snd r)))
      (Compaction.kWayMerge_init tbs i its h).
Proof.
  revert i its h. induction tbs as [|tb tbs IH]; intros i its h; [done|].
  cbn [map Compaction.kWayMerge_init]. unfold SSTable.getAllEntries.
  cbn [eraseT SSTable.entries SSTable.id].
  destruct (SSTable.entries tb) as [|e es]; [apply IH|]. cbn [map].
  change (MinHeap.mkItem (Entry.key (eraseE e)) (Entry.value (eraseE e))
            (Entry.timestamp (eraseE e)) i)
    with (eraseI (MinHeap.mkItem (Entry.key e) (Entry.value e) (Entry.timestamp e) i)).
  rewrite heap_insert_erase.
  destruct (MinHeap.insert h _) as [h'| |]; cbn [rmap mbind result_bind JS.bind]; [|done|done].
  rewrite <- IH. f_equal. by rewrite map_app.
Qed.

Lemma kWayMerge_loop_erase (fuel : nat) (its : list Compaction.Iterator) (h : MinHeap.t)
    (merged : list Entry.t) (lastKey : option string) (dups : nat) :
  Compaction.kWayMerge_loop fuel (map eraseIt its) (eraseH h) (map eraseE merged) lastKey dups
  = rmap (fun r => (map eraseE (fst (fst r)), snd (fst r), eraseH (snd r)))
      (Compaction.kWayMerge_loop fuel its h merged lastKey dups).
Proof.
  revert its h merged lastKey dups.
  induction fuel as [|fuel IH]; intros its h merged lastKey dups;
    cbn [Compaction.kWayMerge_loop]; unfold MinHeap.size;
    cbn [eraseH MinHeap.heap]; rewrite length_map;
    (destruct (length (MinHeap.heap h) =? 0)%nat; [done|]); [done|].
  change (MinHeap.mk (map eraseI (MinHeap.heap h)) (MinHeap.comparisons h)) with (eraseH h).
  rewrite extractMin_erase.
  destruct (MinHeap.extractMin h) as [[extracted h1]| |];
    cbn [rmap mbind result_bind JS.bind fst snd]; [|done|done].
  destruct extracted as [x|]; cbn [fmap option_fmap option_map mbind result_bind JS.bind];
    [|done].
  cbn [eraseI MinHeap.key MinHeap.value MinHeap.timestamp MinHeap.iteratorIndex].
  rewrite at_index_fmap.
  destruct (at_index its (MinHeap.iteratorIndex x)) as [it| |];
    cbn [rmap mbind result_bind JS.bind]; [|done|done].
  cbn [eraseIt Compaction.it_entries Compaction.currentIndex Compaction.it_sstableId].
  change (map eraseE (Compaction.it_entries it)) with (eraseE <$> Compaction.it_entries it).
  rewrite list_lookup_fmap.
  set (fresh := match lastKey with
                | Some k => negb (str_eq (MinHeap.key x) k)
                | None => true
                end).
  set (merged' := if fresh then
                    match MinHeap.value x with
                    | Some v => merged ++ [Entry.mk (MinHeap.key x) (Some v) (MinHeap.timestamp x)]
                    | None => merged
                    end
                  else merged).
  assert ((if fresh then
             match MinHeap.value x with
             | Some v => map eraseE merged ++ [Entry.mk (MinHeap.key x) (Some v) 0]
             | None => map eraseE merged
             end
           else map eraseE merged) = map eraseE merged') as ->.
  { subst merged'. destruct fresh; [|done]. destruct (MinHeap.value x); [|done].
    by rewrite map_app. }
  set (it' := Compaction.mkIterator (Compaction.it_sstableId it) (Compaction.it_entries it)
                (S (Compaction.currentIndex it))).
  assert (<[MinHeap.iteratorIndex x :=
            Compaction.mkIterator (Compaction.it_sstableId it)
              (eraseE <$> Compaction.it_entries it) (S (Compaction.currentIndex it))]>
            (map eraseIt its)
          = map eraseIt (<[MinHeap.iteratorIndex x := it']> its)) as ->.
  { change (map eraseIt ?l) with (eraseIt <$> l). by rewrite list_fmap_insert. }
  destruct (Compaction.it_entries it !! S (Compaction.currentIndex it)) as [nextEntry|];
    cbn [fmap option_fmap option_map].
  - change (MinHeap.mkItem (Entry.key (eraseE nextEntry)) (Entry.value (eraseE nextEntry))
              (Entry.timestamp (eraseE nextEntry)) (MinHeap.iteratorIndex x))
      with (eraseI (MinHeap.mkItem (Entry.key nextEntry) (Entry.value nextEntry)
                      (Entry.timestamp nextEntry) (MinHeap.iteratorIndex x))).
    rewrite heap_insert_erase.
    destruct (MinHeap.insert h1 _) as [h2| |]; cbn [rmap mbind result_bind JS.bind];
      [|done|done].
    apply IH.
  - cbn [mbind result_bind JS.bind]. apply IH.
Qed.

Lemma totalEntries_erase (tbs : list SSTable.t) :
  Compaction.totalEntries (map eraseT tbs) = Compaction.totalEntries tbs.
Proof.
  unfold Compaction.totalEntries. generalize 0%nat.
  induction tbs as [|tb tbs IH]; intros n; simpl; [done|]. by rewrite length_map, IH.
Qed.

Lemma kWayMerge_erase (tbs : list SSTable.t) :
  Compaction.kWayMerge (map eraseT tbs) = rmap eraseMR (Compaction.kWayMerge tbs).
Proof.
  unfold Compaction.kWayMerge.
  pose proof (kWayMerge_init_erase tbs 0 [] MinHeap.create) as Hi.
  change (map eraseIt []) with (@nil Compaction.Iterator) in Hi.
  change (eraseH MinHeap.create) with MinHeap.create in Hi. rewrite Hi.
  destruct (Compaction.kWayMerge_init tbs 0 [] MinHeap.create) as [[its h]| |];
    cbn [rmap mbind result_bind JS.bind fst snd]; [|done|done].
  rewrite totalEntries_erase, length_map.
  pose proof (kWayMerge_loop_erase (S (length tbs + Compaction.totalEntries tbs)) its h [] None 0)
    as Hl.
  change (map eraseE []) with (@nil Entry.t) in Hl. rewrite Hl.
  destruct (Compaction.kWayMerge_loop _ its h [] None 0) as [[[merged dups] h']| |];
    cbn [rmap mbind result_bind JS.bind fst snd]; [|done|done].
  unfold eraseMR. cbn [Compaction.entries Compaction.stats]. by rewrite length_map.
Qed.

(** ** Determinism: compaction *)

Lemma filter_erase (P Q : SSTable.t -> bool) (l : list SSTable.t) :
  (forall tb, Q (eraseT tb) = P tb) ->
  List.filter Q (map eraseT l) = map eraseT (List.filter P l).
Proof.
  intros HPQ. induction l as [|tb l IH]; [done|]. simpl. rewrite HPQ.
  destruct (P tb); simpl; by rewrite IH.
Qed.

Lemma existsb_erase (P Q : SSTable.t -> bool) (l : list SSTable.t) :
  (forall tb, Q (eraseT tb) = P tb) -> existsb Q (map eraseT l) = existsb P l.
Proof.
  intros HPQ. induction l as [|tb l IH]; [done|]. simpl. by rewrite HPQ, IH.
Qed.

Lemma findOverlappingSSTables_erase (src tgt : list SSTable.t) :
  Compaction.findOverlappingSSTables (map eraseT src) (map eraseT tgt)
  = map eraseT (Compaction.findOverlappingSSTables src tgt).
Proof.
  unfold Compaction.findOverlappingSSTables. apply filter_erase.
  intros tb. by apply existsb_erase.
Qed.

Lemma includes_erase (l : list SSTable.t) (tb : SSTable.t) :
  Compaction.includes (map eraseT l) (eraseT tb) = Compaction.includes l tb.
Proof. unfold Compaction.includes. by apply existsb_erase. Qed.

Lemma inputBytes_erase (l : list SSTable.t) (z : Z) :
  fold_left (fun sum tb => (sum + SSTable.size tb)%Z) (map eraseT l) z
  = fold_left (fun sum tb => (sum + SSTable.size tb)%Z) l z.
Proof. revert z. induction l as [|tb l IH]; intros z; simpl; [done|]. apply IH. Qed.

Lemma eraseC_idemp (c : Compaction.t) : eraseC (eraseC c) = eraseC c.
Proof.
  unfold eraseC. simpl. f_equal. rewrite map_map. apply map_ext. by intros [].
Qed.

Lemma compactLevel_erase (c : Compaction.t) (m : SSTableManager.t)
    (sourceLevel targetLevel : nat) (w w' : World) :
  rmap eraseCL (Compaction.compactLevel c m sourceLevel targetLevel w)
  = rmap eraseCL (Compaction.compactLevel (eraseC c) (eraseM m) sourceLevel targetLevel w').
Proof.
  unfold Compaction.compactLevel. rewrite !getLevel_erase, length_map.
  set (src := SSTableManager.getLevel m sourceLevel).
  set (tgt := SSTableManager.getLevel m targetLevel).
  destruct (length src =? 0)%nat.
  { unfold eraseCL. simpl. by rewrite eraseC_idemp, eraseM_idemp. }
  rewrite findOverlappingSSTables_erase, <- map_app, kWayMerge_erase.
  set (ovl := Compaction.findOverlappingSSTables src tgt).
  destruct (Compaction.kWayMerge (src ++ ovl)) as [mr| |];
    cbn [rmap mbind result_bind JS.bind]; [|done|done].
  rewrite inputBytes_erase.
  rewrite (filter_erase (fun tb => negb (Compaction.includes ovl tb)))
    by (intros tb; by rewrite includes_erase).
  rewrite <- !clearLevel_erase, <- fold_addSSTable_erase.
  set (m3 := fold_left (fun mm tb => SSTableManager.addSSTable mm targetLevel tb) _ _).
  pose proof (createSSTable_erase m3 targetLevel (Compaction.entries mr) w w') as Hc.
  cbn [eraseMR Compaction.entries Compaction.stats]. rewrite length_map.
  destruct (SSTableManager.createSSTable m3 _ _ _) as [[[tb m4] w1]| |],
    (SSTableManager.createSSTable (eraseM m3) _ _ _) as [[[tb' m4'] w1']| |];
    cbn [rmap fst snd] in Hc; try discriminate; try done.
  apply Ok_inj in Hc. apply (f_equal snd) in Hc. cbn [snd] in Hc. unfold Date_now. cbn [mbind result_bind JS.bind rmap].
  match goal with |- Ok ?a = Ok ?b => assert (a = b) as Hab; [|by rewrite Hab] end.
  unfold eraseCL. cbn [fst snd Date_now eraseRes]. rewrite Hc.
  unfold eraseC, eraseR. cbn [Compaction.compactionHistory Compaction.totalCompactions
    Compaction.totalBytesCompacted
    Compaction.id Compaction.timestamp Compaction.sourceLevel Compaction.targetLevel
    Compaction.inputSSTables Compaction.outputSSTables Compaction.inputBytes
    Compaction.outputBytes Compaction.duplicatesRemoved Compaction.mergeStats].
  rewrite !map_app, map_map. cbn [map
    Compaction.id Compaction.timestamp Compaction.sourceLevel Compaction.targetLevel
    Compaction.inputSSTables Compaction.outputSSTables Compaction.inputBytes
    Compaction.outputBytes Compaction.duplicatesRemoved Compaction.mergeStats].
  by rewrite !length_map.
Qed.

Lemma compactLevel_sim (c1 c2 : Compaction.t) (m1 m2 : SSTableManager.t)
    (sourceLevel targetLevel : nat) (w1 w2 : World) :
  eraseC c1 = eraseC c2 -> eraseM m1 = eraseM m2 ->
  rmap eraseCL (Compaction.compactLevel c1 m1 sourceLevel targetLevel w1)
  = rmap eraseCL (Compaction.compactLevel c2 m2 sourceLevel targetLevel w2).
Proof.
  intros Hc Hm.
  rewrite (compactLevel_erase c1 m1 _ _ w1 w1), (compactLevel_erase c2 m2 _ _ w2 w1).
  by rewrite Hc, Hm.
Qed.

Lemma shouldCompact_sim (m1 m2 : SSTableManager.t) (level : nat) :
  eraseM m1 = eraseM m2 -> Compaction.shouldCompact m1 level = Compaction.shouldCompact m2 level.
Proof.
  intros Hm. unfold Compaction.shouldCompact.
  rewrite <- (length_map eraseT (SSTableManager.getLevel m1 level)),
    <- (length_map eraseT (SSTableManager.getLevel m2 level)), <- !getLevel_erase.
  by rewrite Hm.
Qed.

Lemma Success_inj (a b : Compaction.Record_) :
  Compaction.Success a = Compaction.Success b -> a = b.
Proof. by intros [= ->]. Qed.

Lemma runAutoCompaction_loop_sim (levels : list nat) :
  forall c1 c2 m1 m2 w1 w2 res1 res2,
    eraseC c1 = eraseC c2 -> eraseM m1 = eraseM m2 -> map eraseR res1 = map eraseR res2 ->
    rmap eraseAC (Compaction.runAutoCompaction_loop levels c1 m1 w1 res1)
    = rmap eraseAC (Compaction.runAutoCompaction_loop levels c2 m2 w2 res2).
Proof.
  induction levels as [|level levels IH]; intros c1 c2 m1 m2 w1 w2 res1 res2 Hc Hm Hres.
  { unfold eraseAC. simpl. by rewrite Hc, Hm, Hres. }
  cbn [Compaction.runAutoCompaction_loop].
  rewrite (shouldCompact_sim m1 m2 level Hm).
  destruct (Compaction.shouldCompact m2 level); [|by apply IH].
  pose proof (compactLevel_sim c1 c2 m1 m2 level (level + 1) w1 w2 Hc Hm) as Hcl.
  destruct (Compaction.compactLevel c1 m1 _ _ _) as [[[[r1 c1'] m1'] w1']| |],
    (Compaction.compactLevel c2 m2 _ _ _) as [[[[r2 c2'] m2'] w2']| |];
    cbn [rmap] in Hcl; try discriminate; try done.
  apply Ok_inj in Hcl. unfold eraseCL in Hcl. cbn [fst snd] in Hcl.
  apply pair_eq in Hcl as [Hcl Hm']. apply pair_eq in Hcl as [Hr Hc'].
  cbn [mbind result_bind JS.bind].
  destruct r1 as [msg1|rec1], r2 as [msg2|rec2]; cbn [eraseRes] in Hr; try discriminate.
  - by apply IH.
  - apply IH; [done|done|]. rewrite !map_app, Hres. cbn [map]. do 2 f_equal.
    by apply Success_inj.
Qed.

(** ** Determinism: the tree *)

Lemma getAllEntries_erase (sl : SkipList.t) :
  map eraseE (SkipList.getAllEntries sl) = SkipList.getAllEntries (eraseSL sl).
Proof.
  unfold SkipList.getAllEntries. cbn [eraseSL SkipList.nodes]. rewrite !map_map. done.
Qed.

Lemma flushMemtable_sim (tr1 tr2 : LSMTree.t) (w1 w2 : World) :
  eraseTree tr1 = eraseTree tr2 ->
  rmap eraseFlush (LSMTree.flushMemtable tr1 w1) = rmap eraseFlush (LSMTree.flushMemtable tr2 w2).
Proof.
  intros He. unfold LSMTree.flushMemtable, SkipList.isEmpty.
  pose proof (f_equal LSMTree.memtable He) as Hsl.
  pose proof (f_equal LSMTree.sstableManager He) as Hm.
  pose proof (f_equal LSMTree.memtableThreshold He) as Hth.
  pose proof (f_equal LSMTree.compaction He) as Hc.
  pose proof (f_equal LSMTree.stats He) as Hst.
  cbn [eraseTree LSMTree.memtable LSMTree.sstableManager LSMTree.memtableThreshold
       LSMTree.compaction LSMTree.stats] in Hsl, Hm, Hth, Hc, Hst.
  pose proof (f_equal SkipList.size Hsl) as Hsz.
  pose proof (f_equal SkipList.maxLevel Hsl) as Hmax.
  cbn [eraseSL SkipList.size SkipList.maxLevel] in Hsz, Hmax.
  rewrite Hsz. destruct (SkipList.size (LSMTree.memtable tr2) =? 0)%nat.
  { unfold eraseFlush. simpl. by rewrite He. }
  pose proof (createSSTable_erase (LSMTree.sstableManager tr1) 0
                (SkipList.getAllEntries (LSMTree.memtable tr1)) w1 w1) as E1.
  pose proof (createSSTable_erase (LSMTree.sstableManager tr2) 0
                (SkipList.getAllEntries (LSMTree.memtable tr2)) w2 w1) as E2.
  rewrite getAllEntries_erase in E1, E2. rewrite <- Hsl, <- Hm, <- E1 in E2. clear E1.
  destruct (SSTableManager.createSSTable (LSMTree.sstableManager tr1) _ _ _)
    as [[[tb1 m1] w1']| |],
    (SSTableManager.createSSTable (LSMTree.sstableManager tr2) _ _ _)
    as [[[tb2 m2] w2']| |]; cbn [rmap fst snd] in E2; try discriminate; try done.
  apply Ok_inj in E2. cbn [mbind result_bind JS.bind]. unfold SkipList.clear, Date_now.
  cbn [rmap].
  match goal with |- Ok ?a = Ok ?b => assert (a = b) as Hab; [|by rewrite Hab] end.
  unfold eraseFlush, eraseTree. cbn [fst snd LSMTree.memtable LSMTree.memtableThreshold
    LSMTree.sstableManager LSMTree.compaction LSMTree.stats].
  assert (SSTable.id tb1 = SSTable.id tb2) as ->.
  { apply (f_equal fst) in E2. cbn [fst] in E2.
    apply (f_equal SSTable.id) in E2. by simpl in E2. }
  apply (f_equal snd) in E2. cbn [snd] in E2. rewrite <- E2.
  unfold eraseSL. cbn [SkipList.maxLevel SkipList.nodes SkipList.size map].
  by rewrite ?Hsz, ?Hth, ?Hc, ?Hst, ?Hmax.
Qed.

Lemma flushMemtable_sorted (tr tr' : LSMTree.t) (w w' : World) (fr : option LSMTree.FlushResult) :
  chain_sorted (LSMTree.memtable tr) ->
  LSMTree.flushMemtable tr w = Ok (fr, tr', w') -> chain_sorted (LSMTree.memtable tr').
Proof.
  intros Hs. unfold LSMTree.flushMemtable.
  destruct (SkipList.isEmpty _); [by intros [= _ <- _]|].
  destruct (SSTableManager.createSSTable _ _ _ _) as [[[tb m] w1]| |]; simpl; [|done|done].
  intros [= _ <- _]. simpl. constructor.
Qed.

(** The components of two trees with the same erasure. *)
Lemma eraseTree_eq (tr1 tr2 : LSMTree.t) :
  eraseTree tr1 = eraseTree tr2 ->
  eraseSL (LSMTree.memtable tr1) = eraseSL (LSMTree.memtable tr2) /\
  LSMTree.memtableThreshold tr1 = LSMTree.memtableThreshold tr2 /\
  eraseM (LSMTree.sstableManager tr1) = eraseM (LSMTree.sstableManager tr2) /\
  eraseC (LSMTree.compaction tr1) = eraseC (LSMTree.compaction tr2) /\
  LSMTree.stats tr1 = LSMTree.stats tr2.
Proof.
  intros He.
  pose proof (f_equal LSMTree.memtable He). pose proof (f_equal LSMTree.sstableManager He).
  pose proof (f_equal LSMTree.memtableThreshold He). pose proof (f_equal LSMTree.compaction He).
  pose proof (f_equal LSMTree.stats He). done.
Qed.

Lemma eraseTree_intro (sl1 sl2 : SkipList.t) (th1 th2 : nat) (m1 m2 : SSTableManager.t)
    (c1 c2 : Compaction.t) (st1 st2 : LSMTree.Stats) :
  eraseSL sl1 = eraseSL sl2 -> th1 = th2 -> eraseM m1 = eraseM m2 -> eraseC c1 = eraseC c2 ->
  st1 = st2 ->
  eraseTree (LSMTree.mk sl1 th1 m1 c1 st1) = eraseTree (LSMTree.mk sl2 th2 m2 c2 st2).
Proof. intros. unfold eraseTree. simpl. congruence. Qed.

(** The insert, and the flush when the threshold is reached, that [put]
    and [delete] share. *)
Lemma insert_flush_sim (tr1 tr2 : LSMTree.t) (k : string) (v : option string) (w1 w2 : World)
    (f : LSMTree.Stats -> LSMTree.Stats) :
  sim tr1 tr2 ->
  let after tr w :=
    let '(_, sl, wa) := SkipList.insert (LSMTree.memtable tr) k v w in
    let tra := LSMTree.mk sl (LSMTree.memtableThreshold tr) (LSMTree.sstableManager tr)
                 (LSMTree.compaction tr) (f (LSMTree.stats tr)) in
    if (LSMTree.memtableThreshold tra <=? SkipList.size (LSMTree.memtable tra))%nat
    then LSMTree.flushMemtable tra wa
    else Ok (None, tra, wa) in
  rmap eraseFlush (after tr1 w1) = rmap eraseFlush (after tr2 w2) /\
  (forall fr tr' w', after tr1 w1 = Ok (fr, tr', w') -> chain_sorted (LSMTree.memtable tr')) /\
  (forall fr tr' w', after tr2 w2 = Ok (fr, tr', w') -> chain_sorted (LSMTree.memtable tr')).
Proof.
  intros (He & Hs1 & Hs2) after. subst after. cbn beta.
  destruct (eraseTree_eq _ _ He) as (Hsl & Hth & Hm & Hc & Hst).
  pose proof (insert_sim _ _ k v w1 w2 Hs1 Hs2 Hsl) as Hi.
  pose proof (insert_sorted _ k v w1 Hs1) as Hi1.
  pose proof (insert_sorted _ k v w2 Hs2) as Hi2.
  destruct (SkipList.insert (LSMTree.memtable tr1) k v w1) as [[ir1 sl1] wa1].
  destruct (SkipList.insert (LSMTree.memtable tr2) k v w2) as [[ir2 sl2] wa2].
  cbn [fst snd] in Hi, Hi1, Hi2.
  cbn [LSMTree.memtable LSMTree.memtableThreshold].
  pose proof (f_equal SkipList.size Hi) as Hsz. cbn [eraseSL SkipList.size] in Hsz.
  rewrite Hsz, Hth.
  assert (eraseTree (LSMTree.mk sl1 (LSMTree.memtableThreshold tr2) (LSMTree.sstableManager tr1)
                       (LSMTree.compaction tr1) (f (LSMTree.stats tr1)))
          = eraseTree (LSMTree.mk sl2 (LSMTree.memtableThreshold tr2) (LSMTree.sstableManager tr2)
                         (LSMTree.compaction tr2) (f (LSMTree.stats tr2)))) as Ha.
  { apply eraseTree_intro; congruence. }
  destruct (_ <=? _)%nat.
  - split; [by apply flushMemtable_sim|].
    split; intros fr tr' w'; by apply flushMemtable_sorted.
  - split; [unfold eraseFlush; cbn [rmap fst snd]; by rewrite Ha|].
    split; intros fr tr' w' [= _ <- _]; done.
Qed.

Lemma put_sim (tr1 tr2 : LSMTree.t) (k : string) (v : option string) (w1 w2 : World) :
  sim tr1 tr2 ->
  rmap treeOf (LSMTree.put tr1 k v w1) = rmap treeOf (LSMTree.put tr2 k v w2).
Proof.
  intros Hsim.
  destruct (insert_flush_sim tr1 tr2 k v w1 w2
              (fun st => LSMTree.mkStats (S (LSMTree.totalWrites st)) (LSMTree.totalReads st)
                           (LSMTree.totalDeletes st) (LSMTree.memtableFlushes st)
                           (LSMTree.totalCompactions st) (LSMTree.bloomFilterHits st)
                           (LSMTree.bloomFilterMisses st)) Hsim) as (Hf & _ & _).
  unfold LSMTree.put.
  destruct (SkipList.insert (LSMTree.memtable tr1) k v w1) as [[ir1 sl1] wa1].
  destruct (SkipList.insert (LSMTree.memtable tr2) k v w2) as [[ir2 sl2] wa2].
  match type of Hf with rmap _ ?a = rmap _ ?b =>
    destruct a as [[[fr1 trb1] wb1]| |], b as [[[fr2 trb2] wb2]| |] end;
    cbn [rmap] in Hf; try discriminate; try done.
  apply Ok_inj, pair_eq in Hf as [Hfr Hb]. cbn [fst snd] in Hfr, Hb.
  destruct (eraseTree_eq _ _ Hb) as (Hsl & Hth & Hm & Hc & Hst).
  cbn [mbind result_bind JS.bind]. unfold Compaction.runAutoCompaction.
  pose proof (runAutoCompaction_loop_sim [0; 1; 2]%nat _ _ _ _ wb1 wb2 [] [] Hc Hm eq_refl) as Hr.
  destruct (Compaction.runAutoCompaction_loop _ (LSMTree.compaction trb1) _ _ _)
    as [[[[res1 c1] m1] wc1]| |],
    (Compaction.runAutoCompaction_loop _ (LSMTree.compaction trb2) _ _ _)
    as [[[[res2 c2] m2] wc2]| |]; cbn [rmap] in Hr; try discriminate; try done.
  apply Ok_inj in Hr. unfold eraseAC in Hr. cbn [fst snd] in Hr.
  apply pair_eq in Hr as [Hr Hm']. apply pair_eq in Hr as [Hres Hc'].
  cbn [mbind result_bind JS.bind rmap]. unfold treeOf. cbn [fst snd].
  f_equal. apply eraseTree_intro; try done.
  pose proof (f_equal length Hres) as Hlen. rewrite !length_map in Hlen.
  by rewrite Hst, Hlen.
Qed.

Lemma put_sorted (tr tr' : LSMTree.t) (k : string) (v : option string) (w w' : World)
    (r : LSMTree.PutResult) :
  chain_sorted (LSMTree.memtable tr) ->
  LSMTree.put tr k v w = Ok (r, tr', w') -> chain_sorted (LSMTree.memtable tr').
Proof.
  intros Hs.
  assert (sim tr tr) as Hsim by done.
  destruct (insert_flush_sim tr tr k v w w
              (fun st => LSMTree.mkStats (S (LSMTree.totalWrites st)) (LSMTree.totalReads st)
                           (LSMTree.totalDeletes st) (LSMTree.memtableFlushes st)
                           (LSMTree.totalCompactions st) (LSMTree.bloomFilterHits st)
                           (LSMTree.bloomFilterMisses st)) Hsim) as (_ & Hsorted & _).
  unfold LSMTree.put.
  destruct (SkipList.insert (LSMTree.memtable tr) k v w) as [[ir sl] wa].
  match type of Hsorted with forall _ _ _, ?a = _ -> _ =>
    destruct a as [[[fr trb] wb]| |] end; cbn [mbind result_bind JS.bind]; [|done|done].
  specialize (Hsorted fr trb wb eq_refl).
  destruct (Compaction.runAutoCompaction _ _ _) as [[[[res c] m] wc]| |];
    cbn [mbind result_bind JS.bind]; [|done|done].
  by intros [= _ <- _].
Qed.

Lemma delete_sim (tr1 tr2 : LSMTree.t) (k : string) (w1 w2 : World) :
  sim tr1 tr2 ->
  rmap treeOf (LSMTree.delete tr1 k w1) = rmap treeOf (LSMTree.delete tr2 k w2).
Proof.
  intros Hsim.
  destruct (insert_flush_sim tr1 tr2 k None w1 w2
              (fun st => LSMTree.mkStats (LSMTree.totalWrites st) (LSMTree.totalReads st)
                           (S (LSMTree.totalDeletes st)) (LSMTree.memtableFlushes st)
                           (LSMTree.totalCompactions st) (LSMTree.bloomFilterHits st)
                           (LSMTree.bloomFilterMisses st)) Hsim) as (Hf & _ & _).
  unfold LSMTree.delete.
  destruct (SkipList.insert (LSMTree.memtable tr1) k None w1) as [[ir1 sl1] wa1].
  destruct (SkipList.insert (LSMTree.memtable tr2) k None w2) as [[ir2 sl2] wa2].
  match type of Hf with rmap _ ?a = rmap _ ?b =>
    destruct a as [[[fr1 trb1] wb1]| |], b as [[[fr2 trb2] wb2]| |] end;
    cbn [rmap] in Hf; try discriminate; try done.
  apply Ok_inj, pair_eq in Hf as [Hfr Hb]. cbn [fst snd] in Hfr, Hb.
  cbn [mbind result_bind JS.bind rmap]. unfold treeOf. cbn [fst snd]. by rewrite Hb.
Qed.

Lemma delete_sorted (tr tr' : LSMTree.t) (k : string) (w w' : World) (r : LSMTree.DeleteResult) :
  chain_sorted (LSMTree.memtable tr) ->
  LSMTree.delete tr k w = Ok (r, tr', w') -> chain_sorted (LSMTree.memtable tr').
Proof.
  intros Hs.
  assert (sim tr tr) as Hsim by done.
  destruct (insert_flush_sim tr tr k None w w
              (fun st => LSMTree.mkStats (LSMTree.totalWrites st) (LSMTree.totalReads st)
                           (S (LSMTree.totalDeletes st)) (LSMTree.memtableFlushes st)
                           (LSMTree.totalCompactions st) (LSMTree.bloomFilterHits st)
                           (LSMTree.bloomFilterMisses st)) Hsim) as (_ & Hsorted & _).
  unfold LSMTree.delete.
  destruct (SkipList.insert (LSMTree.memtable tr) k None w) as [[ir sl] wa].
  match type of Hsorted with forall _ _ _, ?a = _ -> _ =>
    destruct a as [[[fr trb] wb]| |] end; cbn [mbind result_bind JS.bind]; [|done|done].
  specialize (Hsorted fr trb wb eq_refl). by intros [= _ <- _].
Qed.

Lemma get_sim (tr1 tr2 : LSMTree.t) (k : string) :
  sim tr1 tr2 -> rmap eraseGet (LSMTree.get tr1 k) = rmap eraseGet (LSMTree.get tr2 k).
Proof.
  intros (He & Hs1 & Hs2).
  destruct (eraseTree_eq _ _ He) as (Hsl & Hth & Hm & Hc & Hst).
  destruct (search_sim _ _ k Hs1 Hs2 Hsl) as [Hf Hv].
  unfold LSMTree.get. rewrite Hf, Hst.
  destruct (SkipList.found (SkipList.search (LSMTree.memtable tr2) k)).
  - unfold eraseGet. cbn [rmap fst snd LSMTree.found LSMTree.value]. rewrite Hv.
    do 2 f_equal. apply eraseTree_intro; done.
  - rewrite <- (search_erase (LSMTree.sstableManager tr1)),
      <- (search_erase (LSMTree.sstableManager tr2)), Hm.
    destruct (SSTableManager.search _ k) as [sr| |]; cbn [mbind result_bind JS.bind];
      [|done|done].
    destruct (LSMTree.trackBloom _ _ _) as [hits misses].
    unfold eraseGet. cbn [rmap fst snd LSMTree.found LSMTree.value].
    do 2 f_equal. apply eraseTree_intro; done.
Qed.

Lemma get_memtable (tr tr' : LSMTree.t) (k : string) (r : LSMTree.GetResult) :
  LSMTree.get tr k = Ok (r, tr') -> LSMTree.memtable tr' = LSMTree.memtable tr.
Proof.
  unfold LSMTree.get. destruct (SkipList.found _); [by intros [= _ <-]|].
  destruct (SSTableManager.search _ _); cbn [mbind result_bind JS.bind]; [|done|done].
  destruct (LSMTree.trackBloom _ _ _). by intros [= _ <-].
Qed.

Lemma compact_sim (tr1 tr2 : LSMTree.t) (sourceLevel targetLevel : nat) (w1 w2 : World) :
  sim tr1 tr2 ->
  rmap treeOf (LSMTree.compact tr1 sourceLevel targetLevel w1)
  = rmap treeOf (LSMTree.compact tr2 sourceLevel targetLevel w2).
Proof.
  intros (He & Hs1 & Hs2).
  destruct (eraseTree_eq _ _ He) as (Hsl & Hth & Hm & Hc & Hst).
  unfold LSMTree.compact.
  pose proof (compactLevel_sim _ _ _ _ sourceLevel targetLevel w1 w2 Hc Hm) as Hcl.
  destruct (Compaction.compactLevel (LSMTree.compaction tr1) _ _ _ _)
    as [[[[r1 c1] m1] wa1]| |],
    (Compaction.compactLevel (LSMTree.compaction tr2) _ _ _ _)
    as [[[[r2 c2] m2] wa2]| |]; cbn [rmap] in Hcl; try discriminate; try done.
  apply Ok_inj in Hcl. unfold eraseCL in Hcl. cbn [fst snd] in Hcl.
  apply pair_eq in Hcl as [Hcl Hm']. apply pair_eq in Hcl as [Hr Hc'].
  cbn [mbind result_bind JS.bind rmap]. unfold treeOf. cbn [fst snd].
  f_equal. apply eraseTree_intro; try done.
  assert (Compaction.success r1 = Compaction.success r2) as ->.
  { destruct r1, r2; cbn [eraseRes] in Hr; try discriminate; done. }
  by rewrite Hst.
Qed.

Lemma compact_memtable (tr tr' : LSMTree.t) (sourceLevel targetLevel : nat) (w w' : World)
    (r : Compaction.Result) :
  LSMTree.compact tr sourceLevel targetLevel w = Ok (r, tr', w') ->
  LSMTree.memtable tr' = LSMTree.memtable tr.
Proof.
  unfold LSMTree.compact.
  destruct (Compaction.compactLevel _ _ _ _ _) as [[[[r1 c1] m1] wa1]| |];
    cbn [mbind result_bind JS.bind]; [|done|done].
  by intros [= _ <- _].
Qed.

Lemma clear_sim (tr1 tr2 : LSMTree.t) (w1 w2 : World) :
  sim tr1 tr2 ->
  eraseTree (fst (LSMTree.clear tr1 w1)) = eraseTree (fst (LSMTree.clear tr2 w2)).
Proof.
  intros (He & _ & _).
  destruct (eraseTree_eq _ _ He) as (Hsl & Hth & Hm & Hc & Hst).
  unfold LSMTree.clear, SkipList.clear, Date_now. cbn [fst].
  apply eraseTree_intro; try done.
  pose proof (f_equal SkipList.maxLevel Hsl) as Hmax. cbn [eraseSL SkipList.maxLevel] in Hmax.
  unfold eraseSL. simpl. by rewrite Hmax.
Qed.

Lemma step_sim (tr1 tr2 : LSMTree.t) (w1 w2 : World) (op : Op) :
  sim tr1 tr2 -> rmap eraseStep (step tr1 w1 op) = rmap eraseStep (step tr2 w2 op).
Proof.
  intros Hsim. destruct op as [k v|k|k|src tgt|]; cbn [step].
  - pose proof (put_sim tr1 tr2 k v w1 w2 Hsim) as H.
    destruct (LSMTree.put tr1 k v w1) as [[[r1 t1] wa1]| |],
      (LSMTree.put tr2 k v w2) as [[[r2 t2] wa2]| |]; cbn [rmap] in H;
      try discriminate; try done.
    apply Ok_inj in H. unfold treeOf in H. cbn [fst snd] in H.
    cbn [mbind result_bind JS.bind rmap]. unfold eraseStep. cbn [fst snd observe].
    by rewrite H.
  - pose proof (get_sim tr1 tr2 k Hsim) as H.
    destruct (LSMTree.get tr1 k) as [[r1 t1]| |],
      (LSMTree.get tr2 k) as [[r2 t2]| |]; cbn [rmap] in H;
      try discriminate; try done.
    apply Ok_inj in H. unfold eraseGet in H. cbn [fst snd] in H.
    apply pair_eq in H as [H Ht]. apply pair_eq in H as [Hf Hv].
    cbn [mbind result_bind JS.bind rmap]. unfold eraseStep. cbn [fst snd observe].
    by rewrite Hf, Hv, Ht.
  - pose proof (delete_sim tr1 tr2 k w1 w2 Hsim) as H.
    destruct (LSMTree.delete tr1 k w1) as [[[r1 t1] wa1]| |],
      (LSMTree.delete tr2 k w2) as [[[r2 t2] wa2]| |]; cbn [rmap] in H;
      try discriminate; try done.
    apply Ok_inj in H. unfold treeOf in H. cbn [fst snd] in H.
    cbn [mbind result_bind JS.bind rmap]. unfold eraseStep. cbn [fst snd observe].
    by rewrite H.
  - pose proof (compact_sim tr1 tr2 src tgt w1 w2 Hsim) as H.
    destruct (LSMTree.compact tr1 src tgt w1) as [[[r1 t1] wa1]| |],
      (LSMTree.compact tr2 src tgt w2) as [[[r2 t2] wa2]| |]; cbn [rmap] in H;
      try discriminate; try done.
    apply Ok_inj in H. unfold treeOf in H. cbn [fst snd] in H.
    cbn [mbind result_bind JS.bind rmap]. unfold eraseStep. cbn [fst snd observe].
    by rewrite H.
  - pose proof (clear_sim tr1 tr2 w1 w2 Hsim) as H.
    destruct (LSMTree.clear tr1 w1) as [t1 wa1], (LSMTree.clear tr2 w2) as [t2 wa2].
    cbn [fst] in H. cbn [rmap]. unfold eraseStep. cbn [fst snd observe]. by rewrite H.
Qed.

Lemma step_sorted (tr tr' : LSMTree.t) (w w' : World) (op : Op) (o : Output) :
  chain_sorted (LSMTree.memtable tr) ->
  step tr w op = Ok (o, tr', w') -> chain_sorted (LSMTree.memtable tr').
Proof.
  intros Hs. destruct op as [k v|k|k|src tgt|]; cbn [step].
  - destruct (LSMTree.put tr k v w) as [[[r t] wa]| |] eqn:E;
      cbn [mbind result_bind JS.bind]; [|done|done].
    intros [= _ <- _]. by eapply put_sorted.
  - destruct (LSMTree.get tr k) as [[r t]| |] eqn:E;
      cbn [mbind result_bind JS.bind]; [|done|done].
    intros [= _ <- _]. by rewrite (get_memtable _ _ _ _ E).
  - destruct (LSMTree.delete tr k w) as [[[r t] wa]| |] eqn:E;
      cbn [mbind result_bind JS.bind]; [|done|done].
    intros [= _ <- _]. by eapply delete_sorted.
  - destruct (LSMTree.compact tr src tgt w) as [[[r t] wa]| |] eqn:E;
      cbn [mbind result_bind JS.bind]; [|done|done].
    intros [= _ <- _]. by rewrite (compact_memtable _ _ _ _ _ _ _ E).
  - unfold LSMTree.clear, SkipList.clear, Date_now. intros [= _ <- _]. simpl. constructor.
Qed.

Lemma run_sim (ops : list Op) :
  forall tr1 tr2 w1 w2, sim tr1 tr2 ->
    rmap eraseRun (run tr1 w1 ops) = rmap eraseRun (run tr2 w2 ops).
Proof.
  induction ops as [|op ops IH]; intros tr1 tr2 w1 w2 Hsim.
  { cbn [run rmap]. unfold eraseRun. cbn [fst snd map]. f_equal. f_equal. apply Hsim. }
  cbn [run]. pose proof (step_sim tr1 tr2 w1 w2 op Hsim) as Hstep.
  destruct Hsim as (He & Hs1 & Hs2).
  destruct (step tr1 w1 op) as [[[o1 t1] wa1]| |] eqn:E1,
    (step tr2 w2 op) as [[[o2 t2] wa2]| |] eqn:E2; cbn [rmap] in Hstep;
    try discriminate; try done.
  apply Ok_inj in Hstep. unfold eraseStep in Hstep. cbn [fst snd] in Hstep.
  apply pair_eq in Hstep as [Ho Ht].
  assert (sim t1 t2) as Hsim'.
  { split; [done|]. split;
      [exact (step_sorted _ _ _ _ _ _ Hs1 E1)|exact (step_sorted _ _ _ _ _ _ Hs2 E2)]. }
  specialize (IH t1 t2 wa1 wa2 Hsim').
  cbn [mbind result_bind JS.bind].
  destruct (run t1 wa1 ops) as [[[os1 tf1] wf1]| |], (run t2 wa2 ops) as [[[os2 tf2] wf2]| |];
    cbn [mbind result_bind JS.bind rmap] in *; try discriminate; try done.
  apply Ok_inj in IH. unfold eraseRun in *. cbn [fst snd map] in *.
  apply pair_eq in IH as [Hos Htf]. by rewrite Ho, Hos, Htf.
Qed.

(** Two sessions of the same operations end in the same outcome up to
    timestamps and node levels, whatever the runtime gives to either. *)
Lemma session_sim (memtableThreshold : nat) (ops : list Op) (w1 w2 : World) :
  rmap eraseRun (session memtableThreshold w1 ops)
  = rmap eraseRun (session memtableThreshold w2 ops).
Proof.
  unfold session, LSMTree.create, SkipList.create, Date_now. apply run_sim.
  split; [done|]. split; constructor.
Qed.

Lemma observations_eraseRun (r : result (list Output * LSMTree.t * World)) :
  observations r = rmap fst (rmap eraseRun r).
Proof. by destruct r as [[[os tr] w]| |]. Qed.

Lemma lastGet_eraseRun (r : result (list Output * LSMTree.t * World)) :
  lastGet r = rmap (fun x => mjoin (last (fst x))) (rmap eraseRun r).
Proof.
  destruct r as [[[os tr] w]| |]; [|done|done]. cbn. f_equal.
  induction os as [|o [|o' os] IH]; [done|by destruct (observe o)|]. exact IH.
Qed.

Lemma inspect_eraseRun {A} (f : LSMTree.t -> A) (r : result (list Output * LSMTree.t * World)) :
  (forall tr, f (eraseTree tr) = f tr) ->
  inspect f r = rmap (fun x => f (snd x)) (rmap eraseRun r).
Proof. intros Hf. destruct r as [[[os tr] w]| |]; [|done|done]. cbn. by rewrite Hf. Qed.

(** The answers of the [get]s of a session do not depend on the runtime. *)
Lemma observations_world (memtableThreshold : nat) (ops : list Op) (w1 w2 : World) :
  observations (session memtableThreshold w1 ops)
  = observations (session memtableThreshold w2 ops).
Proof. by rewrite !observations_eraseRun, (session_sim _ _ w1 w2). Qed.

Lemma lastGet_world (memtableThreshold : nat) (ops : list Op) (w1 w2 : World) :
  lastGet (session memtableThreshold w1 ops) = lastGet (session memtableThreshold w2 ops).
Proof. by rewrite !lastGet_eraseRun, (session_sim _ _ w1 w2). Qed.

(** Nor does anything of the final tree that survives erasure. *)
Lemma inspect_world {A} (f : LSMTree.t -> A) (memtableThreshold : nat) (ops : list Op)
    (w1 w2 : World) :
  (forall tr, f (eraseTree tr) = f tr) ->
  inspect f (session memtableThreshold w1 ops) = inspect f (session memtableThreshold w2 ops).
Proof. intros Hf. by rewrite !(inspect_eraseRun f _ Hf), (session_sim _ _ w1 w2). Qed.

Lemma levelTables_erase (l : nat) (tr : LSMTree.t) :
  levelTables l (eraseTree tr) = map eraseT (levelTables l tr).
Proof. unfold levelTables. simpl. apply getLevel_erase. Qed.

Lemma levelRanges_erase (l : nat) (tr : LSMTree.t) :
  levelRanges l (eraseTree tr) = levelRanges l tr.
Proof.
  unfold levelRanges. rewrite levelTables_erase, map_map. by apply map_ext.
Qed.

Lemma historyLength_erase (tr : LSMTree.t) : historyLength (eraseTree tr) = historyLength tr.
Proof. unfold historyLength. simpl. by rewrite length_map. Qed.

Lemma shouldCompact_erase (m : SSTableManager.t) (l : nat) :
  Compaction.shouldCompact (eraseM m) l = Compaction.shouldCompact m l.
Proof. unfold Compaction.shouldCompact. by rewrite getLevel_erase, length_map. Qed.

Lemma level0State_erase (tr : LSMTree.t) : level0State (eraseTree tr) = level0State tr.
Proof.
  unfold level0State. rewrite levelTables_erase, length_map, historyLength_erase.
  cbn [eraseTree LSMTree.sstableManager]. by rewrite shouldCompact_erase.
Qed.

(** C10. Determinism of what a client observes: two sessions that run
    the same operations on fresh trees with the same flush threshold return
    the same found flag and value at every [get] (and end on the same
    exception, if any), whatever levels the skip list draws and whatever
    timestamps the clock gives in either session; and every session ends,
    in a list of answers or in an exception. *)
Theorem observations_deterministic (memtableThreshold : nat) (ops : list Op) (w1 w2 : World) :
  observations (session memtableThreshold w1 ops)
  = observations (session memtableThreshold w2 ops) /\
  observations (session memtableThreshold w1 ops) <> OutOfFuel.
Proof.
  split; [apply observations_world|].
  pose proof (session_total memtableThreshold w1 ops) as Hne.
  by destruct (session memtableThreshold w1 ops) as [[[os tr] w]| |].
Qed.
(** ** Sessions on which the engine departs from its specification

    Each session is evaluated under one runtime; by the simulation above
    its outcome is the same under every runtime. *)

(** C1. Two versions of a key in two level-0 tables: [get] returns the
    value of the first write, because [search] walks level 0 in insertion
    order, oldest table first. This holds whatever [Math.random] and
    [Date.now] return during the session. *)
Theorem get_returns_oldest_L0_version (w : World) :
  lastGet (session 1 w [Put "k" (Some "a"); Put "k" (Some "b"); Get "k"])
  = Ok (Some (true, Some "a")) /\
  lastGet (session 10 w two_flushes_of_k) = Ok (Some (true, Some "a")).
Proof.
  split.
  - rewrite (lastGet_world _ _ w world0). vm_compute. reflexivity.
  - rewrite (lastGet_world _ _ w world0). vm_compute. reflexivity.
Qed.

(** C2. After [delete], [get] answers [found = true] with the tombstone's
    [null]; and once the tombstone has been compacted away, a value that
    sits in a deeper level is returned again. This holds under every
    runtime. *)
Theorem get_after_delete_is_a_hit (w : World) :
  lastGet (session 10 w [Put "k" (Some "v"); Delete "k"; Get "k"])
  = Ok (Some (true, None)) /\
  lastGet (session 10 w [Delete "k"; Get "k"]) = Ok (Some (true, None)) /\
  observations (session 1 w delete_then_compact)
  = Ok [None; None; None; None; Some (true, None); None; Some (true, Some "x")].
Proof.
  split; [|split].
  - rewrite (lastGet_world _ _ w world0). vm_compute. reflexivity.
  - rewrite (lastGet_world _ _ w world0). vm_compute. reflexivity.
  - rewrite (observations_world _ _ w world0). vm_compute. reflexivity.
Qed.

(** C3. A compaction of level 0 into level 1 changes the answer of [get]:
    before it the newer value is returned, after it the older one, under
    every runtime. *)
Theorem compaction_changes_get (w : World) :
  observations (session 2 w newer_version_in_L0)
  = Ok [None; None; None; None; None; Some (true, Some "new"); None; Some (true, Some "old")].
Proof. rewrite (observations_world _ _ w world0). vm_compute. reflexivity. Qed.

(** C4. After compacting two level-0 tables around a level-1 table, level
    1 holds two tables whose key ranges overlap, under every runtime. *)
Theorem level1_ranges_overlap (w : World) :
  inspect (levelRanges 1) (session 2 w target_in_gap)
  = Ok [SSTable.mkKeyRange (Some "m") (Some "n"); SSTable.mkKeyRange (Some "a") (Some "z")] /\
  Compaction.rangesOverlap
    (SSTable.mkKeyRange (Some "m") (Some "n")) (SSTable.mkKeyRange (Some "a") (Some "z")) = true.
Proof.
  split; [|reflexivity].
  rewrite (inspect_world _ _ _ w world0 (levelRanges_erase 1)). vm_compute. reflexivity.
Qed.

(** C5. Four deletes that each flush leave four tables in level 0 and no
    compaction, although [shouldCompact] holds for level 0; the same
    session with puts compacts level 0 before the fourth put returns. Both
    hold under every runtime. *)
Theorem delete_flush_skips_auto_compaction (w : World) :
  inspect level0State (session 1 w [Delete "a"; Delete "b"; Delete "c"; Delete "d"])
  = Ok (4%nat, 0%nat, true) /\
  inspect level0State
    (session 1 w [Put "a" (Some "1"); Put "b" (Some "1"); Put "c" (Some "1");
                  Put "d" (Some "1")])
  = Ok (0%nat, 1%nat, false).
Proof.
  split.
  - rewrite (inspect_world _ _ _ w world0 level0State_erase). vm_compute. reflexivity.
  - rewrite (inspect_world _ _ _ w world0 level0State_erase). vm_compute. reflexivity.
Qed.

(** * Further properties of the engine *)

(** ** The skip list as a map *)

Lemma rank_of_member (ns : list SkipListNode.t) (k : string) (p : nat) (n : SkipListNode.t) :
  StronglySorted node_lt ns -> ns !! p = Some n -> SkipListNode.key n = k ->
  rank k ns = p.
Proof.
  intros Hs Hp Hk.
  pose proof (rank_spec k ns p n Hs Hp) as Hn. rewrite Hk, str_lt_irrefl in Hn.
  destruct (Nat.lt_trichotomy (rank k ns) p) as [Hlt|[Heq|Hgt]]; [|done|].
  - exfalso. destruct (lookup_lt_is_Some_2 ns (rank k ns)) as [m Hm].
    { apply lookup_lt_Some in Hp. lia. }
    pose proof (rank_spec k ns _ m Hs Hm) as Hmk.
    assert (node_lt m n) as Hmn.
    { rewrite <- (take_drop (S (rank k ns)) ns) in Hs.
      apply StronglySorted_app in Hs as (Hx & _ & _). apply Hx.
      - apply list_elem_of_lookup. exists (rank k ns). rewrite lookup_take_lt by lia. done.
      - apply list_elem_of_lookup. exists (p - S (rank k ns))%nat. rewrite lookup_drop.
        by replace (S (rank k ns) + (p - S (rank k ns)))%nat with p by lia. }
    unfold node_lt in Hmn. rewrite Hk in Hmn. apply Hmk in Hmn. lia.
  - exfalso. apply Hn in Hgt. done.
Qed.

Lemma lookup_member (sl : SkipList.t) (k : string) (n : SkipListNode.t) :
  chain_sorted sl -> n ∈ SkipList.nodes sl -> SkipListNode.key n = k ->
  lookup sl k = (true, Some (SkipListNode.value n)).
Proof.
  intros Hs Hn Hk. unfold lookup. rewrite (search_chain sl k Hs).
  apply list_elem_of_lookup in Hn as [p Hp].
  rewrite (rank_of_member _ k p n Hs Hp Hk), Hp.
  apply str_eq_true in Hk. by rewrite Hk.
Qed.

Lemma lookup_absent (sl : SkipList.t) (k : string) :
  chain_sorted sl -> (forall n, n ∈ SkipList.nodes sl -> SkipListNode.key n <> k) ->
  lookup sl k = (false, None).
Proof.
  intros Hs Hno. unfold lookup. rewrite (search_chain sl k Hs).
  destruct (SkipList.nodes sl !! _) as [n|] eqn:En; [|done].
  destruct (str_eq _ _) eqn:E; [|done].
  apply str_eq_true in E. exfalso. eapply Hno; [|exact E].
  by eapply list_elem_of_lookup_2.
Qed.

Lemma lookup_found_member (sl : SkipList.t) (k : string) (v : option (option string)) :
  chain_sorted sl -> lookup sl k = (true, v) ->
  exists n, n ∈ SkipList.nodes sl /\ SkipListNode.key n = k /\ v = Some (SkipListNode.value n).
Proof.
  intros Hs. unfold lookup. rewrite (search_chain sl k Hs).
  destruct (SkipList.nodes sl !! _) as [n|] eqn:En; [|done].
  destruct (str_eq _ _) eqn:E; [|done]. intros [= <-].
  exists n. split; [by eapply list_elem_of_lookup_2|]. split; [by apply str_eq_true|done].
Qed.

(** The nodes after [insert]: the new binding, and the old nodes of the
    other keys. *)
Lemma insert_members (sl : SkipList.t) (k : string) (v : option string) (w : World) :
  chain_sorted sl ->
  let sl' := snd (fst (SkipList.insert sl k v w)) in
  (exists n, n ∈ SkipList.nodes sl' /\ SkipListNode.key n = k /\ SkipListNode.value n = v) /\
  (forall n, SkipListNode.key n <> k -> n ∈ SkipList.nodes sl' <-> n ∈ SkipList.nodes sl).
Proof.
  intros Hs sl'. destruct (insert_chain sl k v w Hs) as (_ & lvl & ts & H). fold sl' in H.
  set (r := rank k (SkipList.nodes sl)) in *.
  assert (SkipList.nodes sl' = take r (SkipList.nodes sl)
            ++ SkipListNode.mk k v lvl ts :: drop r (SkipList.nodes sl) ->
          (exists n, n ∈ SkipList.nodes sl' /\ SkipListNode.key n = k /\ SkipListNode.value n = v) /\
          (forall n, SkipListNode.key n <> k -> n ∈ SkipList.nodes sl' <-> n ∈ SkipList.nodes sl))
    as Hfresh.
  { intros ->. split.
    - exists (SkipListNode.mk k v lvl ts). split; [|done].
      apply elem_of_app. right. apply elem_of_cons. by left.
    - intros n Hn. rewrite <- (take_drop r (SkipList.nodes sl)) at 3.
      rewrite !elem_of_app, elem_of_cons. split; [|tauto].
      intros [?|[->|?]]; [tauto|done|tauto]. }
  destruct (SkipList.nodes sl !! r) as [n0|] eqn:En; [|by apply Hfresh, H].
  destruct (str_eq (SkipListNode.key n0) k) eqn:Ek; [|by apply Hfresh, H].
  destruct H as [-> _]. apply str_eq_true in Ek. split.
  - exists (SkipListNode.mk (SkipListNode.key n0) v lvl ts). split; [|by split].
    apply list_elem_of_lookup. exists r. apply list_lookup_insert_eq.
    by eapply lookup_lt_Some.
  - intros n Hn. rewrite !list_elem_of_lookup. split; intros [p Hp].
    + destruct (decide (p = r)) as [->|Hne].
      * rewrite list_lookup_insert_eq in Hp by (by eapply lookup_lt_Some).
        injection Hp as <-. done.
      * rewrite list_lookup_insert_ne in Hp by done. by exists p.
    + exists p. destruct (decide (p = r)) as [->|Hne]; [congruence|].
      by rewrite list_lookup_insert_ne.
Qed.

Lemma lookup_after_insert (sl : SkipList.t) (k : string) (v : option string) (w : World)
    (k' : string) :
  chain_sorted sl ->
  lookup (snd (fst (SkipList.insert sl k v w))) k'
  = if decide (k' = k) then (true, Some v) else lookup sl k'.
Proof.
  intros Hs. pose proof (insert_sorted sl k v w Hs) as Hs'.
  destruct (insert_members sl k v w Hs) as [(n & Hn & Hk & Hv) Hother].
  case_decide as E.
  - subst k'. rewrite (lookup_member _ k n Hs' Hn Hk). by rewrite Hv.
  - destruct (decide (Exists (fun n => SkipListNode.key n = k') (SkipList.nodes sl)))
      as [Hex|Hno].
    + apply Exists_exists in Hex as (m & Hm & Hmk).
      rewrite (lookup_member sl k' m Hs Hm Hmk).
      apply lookup_member; [done| |done]. apply Hother; [congruence|done].
    + rewrite (lookup_absent sl k' Hs).
      2:{ intros m Hm Hmk. apply Hno, Exists_exists. by exists m. }
      apply lookup_absent; [done|]. intros m Hm Hmk.
      apply Hno, Exists_exists. exists m. split; [|done]. apply Hother; [congruence|done].
Qed.

(** ** The invariant of the skip list *)

Lemma randomLevel_loop_bound (room : nat) :
  forall lvl w, (lvl <= fst (SkipList.randomLevel_loop room lvl w) <= lvl + room)%nat.
Proof.
  induction room as [|room IH]; intros lvl w; simpl; [lia|].
  destruct (coins w (ncoins w)); simpl; [|lia].
  specialize (IH (S lvl) (mkWorld (coins w) (S (ncoins w)) (clock w) (nclock w))). lia.
Qed.

Lemma randomLevel_bound (sl : SkipList.t) (w : World) :
  (fst (SkipList.randomLevel sl w) <= SkipList.maxLevel sl)%nat.
Proof. unfold SkipList.randomLevel. pose proof (randomLevel_loop_bound (SkipList.maxLevel sl) 0 w). lia. Qed.

Lemma create_skiplist_wf (maxLevel : nat) (w : World) :
  skiplist_wf (fst (SkipList.create maxLevel w)).
Proof.
  unfold SkipList.create, Date_now. simpl.
  split; [constructor|]. split; [done|]. split; [simpl; lia|]. constructor.
Qed.

Lemma insert_wf (sl : SkipList.t) (k : string) (v : option string) (w : World) :
  skiplist_wf sl -> skiplist_wf (snd (fst (SkipList.insert sl k v w))).
Proof.
  intros (Hs & Hsz & Hlv & Hall).
  split; [by apply insert_sorted|].
  unfold SkipList.insert.
  destruct (SkipList.descend _ _ _ _ _) as [cur cmp].
  pose proof (randomLevel_bound sl w) as Hrl.
  destruct (SkipList.randomLevel sl w) as [newLevel w1]. simpl in Hrl.
  destruct (Date_now w1) as [now1 w2]. destruct (Date_now w) as [now w3].
  assert (let sl' := {| SkipList.maxLevel := SkipList.maxLevel sl;
                        SkipList.level := if (SkipList.level sl <? newLevel)%nat
                                          then newLevel else SkipList.level sl;
                        SkipList.nodes := take cur (SkipList.nodes sl)
                                          ++ SkipListNode.mk k v newLevel now1
                                             :: drop cur (SkipList.nodes sl);
                        SkipList.size := S (SkipList.size sl) |} in
          SkipList.size sl' = length (SkipList.nodes sl') /\
          (SkipList.level sl' <= SkipList.maxLevel sl')%nat /\
          Forall (fun n => (SkipListNode.level n <= SkipList.level sl')%nat) (SkipList.nodes sl'))
    as Hfresh.
  { simpl. split; [|split].
    - rewrite length_app. simpl.
      pose proof (f_equal length (take_drop cur (SkipList.nodes sl))) as Hl.
      rewrite length_app in Hl. lia.
    - destruct (_ <? _)%nat; lia.
    - assert (SkipList.level sl <= if (SkipList.level sl <? newLevel)%nat
                                   then newLevel else SkipList.level sl)%nat as Hle.
      { destruct (_ <? _)%nat eqn:E; [apply Nat.ltb_lt in E|]; lia. }
      rewrite <- (take_drop cur (SkipList.nodes sl)) in Hall.
      apply Forall_app in Hall as [Ht Hd].
      apply Forall_app. split; [|constructor].
      + eapply Forall_impl; [exact Ht|]. simpl. intros; lia.
      + simpl. destruct (_ <? _)%nat eqn:E; [|apply Nat.ltb_ge in E]; lia.
      + eapply Forall_impl; [exact Hd|]. simpl. intros; lia. }
  destruct (SkipList.nodes sl !! cur) as [n|] eqn:En; [|exact Hfresh].
  destruct (str_eq _ _); [|exact Hfresh]. simpl.
  split; [by rewrite length_insert|]. split; [done|].
  apply Forall_insert; [done|]. simpl.
  rewrite Forall_forall in Hall. apply Hall. by eapply list_elem_of_lookup_2.
Qed.

Lemma insertAll_wf (kvs : list (string * option string)) :
  forall sl w, skiplist_wf sl -> skiplist_wf (fst (insertAll sl kvs w)).
Proof.
  induction kvs as [|[k v] kvs IH]; intros sl w Hwf; simpl; [done|].
  pose proof (insert_wf sl k v w Hwf) as Hwf'.
  destruct (SkipList.insert sl k v w) as [[r sl1] w1]. simpl in Hwf'. by apply IH.
Qed.

Lemma insertAll_lookup (kvs : list (string * option string)) (k : string) :
  forall sl w, chain_sorted sl ->
    lookup (fst (insertAll sl kvs w)) k
    = match lastWrite kvs k with
      | Some v => (true, Some v)
      | None => lookup sl k
      end.
Proof.
  induction kvs as [|[k' v] kvs IH]; intros sl w Hs; simpl; [done|].
  pose proof (insert_sorted sl k' v w Hs) as Hs'.
  pose proof (lookup_after_insert sl k' v w k Hs) as Hl.
  destruct (SkipList.insert sl k' v w) as [[r sl1] w1]. simpl in Hs', Hl.
  rewrite (IH sl1 w1 Hs'). destruct (lastWrite kvs k); [done|].
  rewrite Hl. case_decide as E.
  - subst. by rewrite String.eqb_refl.
  - destruct (String.eqb k' k) eqn:E'; [|done]. apply String.eqb_eq in E'. congruence.
Qed.

Lemma getAllEntries_keys (sl : SkipList.t) :
  map Entry.key (SkipList.getAllEntries sl) = map SkipListNode.key (SkipList.nodes sl).
Proof. unfold SkipList.getAllEntries. rewrite map_map. done. Qed.

Lemma chain_sorted_keys (ns : list SkipListNode.t) :
  StronglySorted node_lt ns ->
  StronglySorted (fun a b => str_lt a b = true) (map SkipListNode.key ns).
Proof.
  induction 1 as [|n ns Hs IH Hall]; simpl; constructor; [done|].
  apply Forall_fmap. eapply Forall_impl; [exact Hall|]. done.
Qed.

(** X1. A skip list behaves as a map under [insert]: a search for the
    inserted key finds the inserted value, and a search for any other key
    answers as before, whatever level the new node draws. *)
Theorem skiplist_search_after_insert (sl : SkipList.t) (k : string) (v : option string)
    (w : World) (k' : string) :
  skiplist_wf sl ->
  let sl' := snd (fst (SkipList.insert sl k v w)) in
  skiplist_wf sl' /\
  lookup sl' k' = if decide (k' = k) then (true, Some v) else lookup sl k'.
Proof.
  intros Hwf. split; [by apply insert_wf|]. apply lookup_after_insert, Hwf.
Qed.

Lemma skiplist_search_after_insert_witness :
  skiplist_wf (fst (insertAll (fst (SkipList.create 16 world0))
                      [("b", Some "1"); ("d", Some "2")] world0)) /\
  lookup (snd (fst (SkipList.insert
                      (fst (insertAll (fst (SkipList.create 16 world0))
                              [("b", Some "1"); ("d", Some "2")] world0))
                      "c" (Some "3") world0))) "c" = (true, Some (Some "3")).
Proof.
  assert (skiplist_wf (fst (insertAll (fst (SkipList.create 16 world0))
                              [("b", Some "1"); ("d", Some "2")] world0))) as Hwf.
  { vm_compute. split; [repeat constructor|]. split; [reflexivity|].
    split; [lia|]. repeat constructor. }
  split; [exact Hwf|].
  exact (proj2 (skiplist_search_after_insert _ "c" (Some "3") world0 "c" Hwf)).
Defined.

(** X2. After any run of inserts into a new skip list, under any
    runtime, a search answers with the last value written for the key and
    misses the keys never written; the list keeps its invariant, and
    [getAllEntries] lists the keys in strictly increasing order. *)
Theorem skiplist_insertAll_last_write (maxLevel : nat) (w w' : World)
    (kvs : list (string * option string)) (k : string) :
  let sl := fst (insertAll (fst (SkipList.create maxLevel w)) kvs w') in
  lookup sl k = match lastWrite kvs k with
                | Some v => (true, Some v)
                | None => (false, None)
                end /\
  skiplist_wf sl /\
  StronglySorted (fun a b => str_lt a b = true) (map Entry.key (SkipList.getAllEntries sl)).
Proof.
  intros sl. pose proof (create_skiplist_wf maxLevel w) as Hwf0.
  pose proof (insertAll_wf kvs _ w' Hwf0) as Hwf. fold sl in Hwf.
  split; [|split; [done|]].
  - subst sl. rewrite insertAll_lookup by apply Hwf0.
    destruct (lastWrite kvs k); [done|].
    apply lookup_absent; [apply Hwf0|]. unfold SkipList.create, Date_now. simpl.
    intros n Hn. by apply elem_of_nil in Hn.
  - rewrite getAllEntries_keys. apply chain_sorted_keys, Hwf.
Qed.

(** X3. What [insert] reports: the operation is UPDATE exactly when a
    search found the key before the call, and then the size is unchanged;
    otherwise it is INSERT and the size grows by one. The reported size is
    the size after the call, and the level reported for a new node is at
    most [maxLevel]. *)
Theorem skiplist_insert_result (sl : SkipList.t) (k : string) (v : option string) (w : World) :
  skiplist_wf sl ->
  let r := fst (fst (SkipList.insert sl k v w)) in
  let sl' := snd (fst (SkipList.insert sl k v w)) in
  SkipList.operation r
  = (if SkipList.found (SkipList.search sl k) then SkipList.UPDATE else SkipList.INSERT) /\
  SkipList.size sl'
  = (if SkipList.found (SkipList.search sl k) then SkipList.size sl else S (SkipList.size sl)) /\
  SkipList.ir_size r = SkipList.size sl' /\
  SkipList.ir_key r = k /\
  (SkipList.ir_level r <= Z.of_nat (SkipList.maxLevel sl))%Z.
Proof.
  intros (Hs & Hsz & Hlv & Hall). unfold SkipList.insert, SkipList.search.
  destruct (SkipList.descend _ _ _ _ _) as [cur cmp].
  pose proof (randomLevel_bound sl w) as Hrl.
  destruct (SkipList.randomLevel sl w) as [newLevel w1]. simpl in Hrl.
  destruct (Date_now w1) as [now1 w2]. destruct (Date_now w) as [now w3].
  destruct (SkipList.nodes sl !! cur) as [n|] eqn:En; [|simpl; repeat split; lia].
  destruct (str_eq _ _); [|simpl; repeat split; lia]. simpl.
  repeat split. unfold SkipList.getNodeLevel.
  assert (forall fuel lvl later,
            (lvl <= S (SkipListNode.level n))%nat ->
            (SkipList.getNodeLevel_loop fuel lvl n later <= S (SkipListNode.level n))%nat) as Hb.
  { induction fuel as [|fuel IH]; intros lvl later Hl; simpl; [done|].
    destruct (lvl <=? SkipListNode.level n)%nat eqn:E; simpl; [|done].
    apply Nat.leb_le in E. destruct (existsb _ _); [|done]. apply IH. lia. }
  specialize (Hb (S (SkipList.maxLevel sl)) 0%nat (drop (S cur) (SkipList.nodes sl)) ltac:(lia)).
  rewrite Forall_forall in Hall.
  pose proof (Hall n (list_elem_of_lookup_2 _ _ _ En)). lia.
Qed.

Lemma skiplist_insert_result_witness :
  SkipList.operation (fst (fst (SkipList.insert
     (fst (insertAll (fst (SkipList.create 16 world0)) [("b", Some "1")] world0))
     "b" (Some "2") world0))) = SkipList.UPDATE.
Proof.
  assert (skiplist_wf (fst (insertAll (fst (SkipList.create 16 world0))
                              [("b", Some "1")] world0))) as Hwf.
  { vm_compute. split; [repeat constructor|]. split; [reflexivity|].
    split; [lia|]. repeat constructor. }
  exact (proj1 (skiplist_insert_result _ "b" (Some "2") world0 Hwf)).
Defined.

(** ** Deleting from the skip list *)

Lemma lowerLevel_le (lvl : nat) (ns : list SkipListNode.t) :
  (SkipList.lowerLevel lvl ns <= lvl)%nat.
Proof.
  induction lvl as [|l IH]; cbn [SkipList.lowerLevel]; [done|]. destruct (existsb _ _); lia.
Qed.

Lemma lowerLevel_covers (ns : list SkipListNode.t) (lvl : nat) :
  Forall (fun n => (SkipListNode.level n <= lvl)%nat) ns ->
  Forall (fun n => (SkipListNode.level n <= SkipList.lowerLevel lvl ns)%nat) ns.
Proof.
  induction lvl as [|l IH]; intros Hall; cbn [SkipList.lowerLevel]; [done|].
  destruct (existsb _ ns) eqn:E; [done|]. apply IH.
  apply Forall_forall. intros n Hn. rewrite Forall_forall in Hall.
  specialize (Hall n Hn).
  destruct (decide (SkipListNode.level n = S l)) as [Heq|]; [|lia].
  exfalso. apply not_true_iff_false in E. apply E. apply existsb_exists.
  exists n. split; [by apply list_elem_of_In|]. rewrite Heq. apply Nat.leb_refl.
Qed.

Lemma sorted_delete_at (ns : list SkipListNode.t) (p : nat) :
  StronglySorted node_lt ns -> StronglySorted node_lt (take p ns ++ drop (S p) ns).
Proof.
  intros Hs. rewrite <- (take_drop p ns) in Hs.
  apply StronglySorted_app in Hs as (Hx & Ht & Hd).
  apply StronglySorted_app. split; [|split; [done|]].
  - intros x1 x2 H1 H2. apply Hx; [done|].
    apply list_elem_of_lookup in H2 as [i Hi]. rewrite lookup_drop in Hi.
    apply list_elem_of_lookup. exists (S i). rewrite lookup_drop.
    by replace (p + S i)%nat with (S p + i)%nat by lia.
  - destruct (drop p ns) as [|x rest] eqn:E.
    + assert (drop (S p) ns = []) as ->; [|constructor].
      apply drop_ge. apply (f_equal length) in E. rewrite length_drop in E. simpl in E. lia.
    + assert (drop (S p) ns = rest) as ->.
      { rewrite <- (Nat.add_1_l p), Nat.add_comm, <- drop_drop, E. done. }
      by apply StronglySorted_cons in Hd as [_ Hd].
Qed.

(** X4. [delete] on the skip list: it succeeds exactly when a search
    finds the key; afterwards a search for the key misses and every other
    key is found as before; the size drops by one on success, and a failed
    delete leaves the list as it was. The invariant is kept. *)
Theorem skiplist_delete_spec (sl : SkipList.t) (k k' : string) :
  skiplist_wf sl ->
  let r := fst (SkipList.delete sl k) in
  let sl' := snd (SkipList.delete sl k) in
  SkipList.dr_success r = SkipList.found (SkipList.search sl k) /\
  skiplist_wf sl' /\
  lookup sl' k' = (if decide (k' = k) then (false, None) else lookup sl k') /\
  (SkipList.dr_success r = true -> S (SkipList.size sl') = SkipList.size sl) /\
  (SkipList.dr_success r = false -> sl' = sl).
Proof.
  intros Hwf. pose proof Hwf as (Hs & Hsz & Hlv & Hall).
  assert (lookup sl k' = lookup sl k') as Hold by done.
  unfold lookup at 1 in Hold. unfold lookup. unfold SkipList.delete, SkipList.search.
  pose proof (descend_rank k _ Hs (SkipList.level sl) 0%nat 0%nat ltac:(lia)) as Hd.
  destruct (SkipList.descend (SkipList.level sl) k _ _ _) as [cur cmp]. simpl in Hd. subst cur.
  set (r := rank k (SkipList.nodes sl)).
  assert (forall n, SkipList.nodes sl !! r = None \/
                    (SkipList.nodes sl !! r = Some n /\ SkipListNode.key n <> k) ->
          forall m, m ∈ SkipList.nodes sl -> SkipListNode.key m <> k) as Hmiss.
  { intros n Hcase m Hm Hmk. apply list_elem_of_lookup in Hm as [p Hp].
    pose proof (rank_of_member _ k p m Hs Hp Hmk) as Hr. fold r in Hr. subst p.
    destruct Hcase as [Hn|[Hn Hne]]; [congruence|]. rewrite Hp in Hn.
    injection Hn as <-. done. }
  assert (forall n, SkipList.nodes sl !! r = None \/
                    (SkipList.nodes sl !! r = Some n /\ SkipListNode.key n <> k) ->
          (SkipList.found (SkipList.search sl k'), SkipList.sr_value (SkipList.search sl k'))
          = (if decide (k' = k) then (false, None) else lookup sl k')) as Hsame.
  { intros n Hcase. case_decide as E; [|done]. subst k'.
    apply (lookup_absent sl k Hs). by apply (Hmiss n). }
  destruct (SkipList.nodes sl !! r) as [n|] eqn:En.
  2:{ simpl. split; [done|]. split; [done|]. split; [|done].
      apply (Hsame (SkipListNode.mk k None 0 0)). by left. }
  destruct (str_eq (SkipListNode.key n) k) eqn:Ek.
  2:{ simpl. split; [done|]. split; [done|]. split; [|done].
      apply (Hsame n). right. split; [done|]. by apply str_eq_false. }
  apply str_eq_true in Ek. cbn [fst snd SkipList.dr_success SkipList.found].
  set (ns := take r (SkipList.nodes sl) ++ drop (S r) (SkipList.nodes sl)).
  set (sl' := SkipList.mk _ _ _ _).
  assert (StronglySorted node_lt ns) as Hs' by (by apply sorted_delete_at).
  assert (length (SkipList.nodes sl) = S (length ns)) as Hlen.
  { subst ns. rewrite length_app, length_take, length_drop.
    apply lookup_lt_Some in En. lia. }
  assert (forall m, m ∈ ns <-> m ∈ SkipList.nodes sl /\ SkipListNode.key m <> k) as Hmem.
  { intros m. subst ns. rewrite elem_of_app, !list_elem_of_lookup. split.
    - intros [[p Hp]|[p Hp]].
      + pose proof (lookup_lt_Some _ _ _ Hp) as Hlt. rewrite length_take in Hlt.
        rewrite lookup_take_lt in Hp by lia. split; [by exists p|]. intros Hmk.
        pose proof (rank_of_member _ k p m Hs Hp Hmk). lia.
      + rewrite lookup_drop in Hp. split; [by eexists|]. intros Hmk.
        pose proof (rank_of_member _ k _ m Hs Hp Hmk). lia.
    - intros [[p Hp] Hmk].
      destruct (Nat.lt_trichotomy p r) as [Hlt|[->|Hgt]].
      + left. exists p. by rewrite lookup_take_lt.
      + rewrite Hp in En. injection En as ->. done.
      + right. exists (p - S r)%nat. rewrite lookup_drop.
        by replace (S r + (p - S r))%nat with p by lia. }
  split; [done|]. split; [|split; [|split; [|done]]].
  - split; [exact Hs'|]. split; [simpl; lia|]. split.
    + simpl. pose proof (lowerLevel_le (SkipList.level sl) ns). lia.
    + simpl. apply lowerLevel_covers. apply Forall_forall. intros m Hm.
      rewrite Forall_forall in Hall. apply Hall. by apply Hmem.
  - change (lookup sl' k' = if decide (k' = k) then (false, None) else lookup sl k').
    case_decide as E.
    + subst k'. apply lookup_absent; [exact Hs'|]. intros m Hm. by apply Hmem.
    + destruct (decide (Exists (fun n => SkipListNode.key n = k') (SkipList.nodes sl)))
        as [Hex|Hno].
      * apply Exists_exists in Hex as (m & Hm & Hmk).
        rewrite (lookup_member sl k' m Hs Hm Hmk).
        apply lookup_member; [exact Hs'| |done]. apply Hmem. split; [done|congruence].
      * rewrite (lookup_absent sl k' Hs).
        2:{ intros m Hm Hmk. apply Hno, Exists_exists. by exists m. }
        apply lookup_absent; [exact Hs'|]. intros m Hm Hmk.
        apply Hno, Exists_exists. exists m. split; [|done]. by apply Hmem.
  - intros _. simpl. lia.
Qed.

Lemma skiplist_delete_spec_witness :
  lookup (snd (SkipList.delete
                 (fst (insertAll (fst (SkipList.create 16 world0))
                         [("b", Some "1"); ("d", Some "2")] world0)) "b")) "b"
  = (false, None).
Proof.
  assert (skiplist_wf (fst (insertAll (fst (SkipList.create 16 world0))
                              [("b", Some "1"); ("d", Some "2")] world0))) as Hwf.
  { vm_compute. split; [repeat constructor|]. split; [reflexivity|].
    split; [lia|]. repeat constructor. }
  exact (proj1 (proj2 (proj2 (skiplist_delete_spec _ "b" "b" Hwf)))).
Defined.

(** ** The bloom filter: empty filters, byte range, and fill *)

Lemma getBit_zeros (n : nat) (h : option Z) :
  BloomFilter.getBit (replicate n 0%Z) h = false.
Proof.
  destruct h as [i|]; [|done]. unfold BloomFilter.getBit.
  destruct (replicate n 0%Z !! _) as [b|] eqn:E; [|done].
  apply lookup_replicate in E as [-> _]. done.
Qed.

Lemma optimalHashes_pos (n : nat) :
  (0 < n)%nat -> (0 < BloomFilter.optimalHashes (BloomFilter.optimalSize n) n)%nat.
Proof.
  intros Hn. pose proof (optimalSize_pos n Hn) as Hm.
  unfold BloomFilter.optimalHashes. destruct n as [|n]; [lia|].
  set (m := BloomFilter.optimalSize (S n)) in *.
  assert (0 < (m * 6931471805599453 + Z.of_nat (S n) * 10000000000000000 - 1)
              / (Z.of_nat (S n) * 10000000000000000))%Z; [|lia].
  apply Z.div_str_pos. lia.
Qed.

Lemma getHashes_length (bf : BloomFilter.t) (k : string) :
  length (BloomFilter.getHashes bf k) = BloomFilter.numHashes bf.
Proof.
  unfold BloomFilter.getHashes.
  destruct (BloomFilter.hash1 bf k), (BloomFilter.hash2 bf k);
    rewrite ?length_map, ?length_seq, ?length_replicate; done.
Qed.

Lemma zero_bits_reject (bf : BloomFilter.t) (k : string) (n : nat) :
  (0 < BloomFilter.numHashes bf)%nat -> BloomFilter.bits bf = replicate n 0%Z ->
  BloomFilter.mightExist (BloomFilter.contains bf k) = false.
Proof.
  intros Hk Hb. unfold BloomFilter.contains. simpl.
  pose proof (getHashes_length bf k) as Hl.
  destruct (BloomFilter.getHashes bf k) as [|h hs]; [simpl in Hl; lia|].
  simpl. by rewrite Hb, getBit_zeros.
Qed.

Lemma fold_add_fields (adds : list string) (bf : BloomFilter.t) :
  BloomFilter.size (fold_left BloomFilter.add adds bf) = BloomFilter.size bf /\
  BloomFilter.numHashes (fold_left BloomFilter.add adds bf) = BloomFilter.numHashes bf /\
  BloomFilter.elementsAdded (fold_left BloomFilter.add adds bf)
  = (BloomFilter.elementsAdded bf + length adds)%nat.
Proof.
  revert bf. induction adds as [|k adds IH]; intros bf; simpl; [by rewrite Nat.add_0_r|].
  destruct (IH (BloomFilter.add bf k)) as (-> & -> & ->). simpl. repeat split. lia.
Qed.

(** X5. A filter built for at least one element answers "definitely
    not present" for every key until the first [add], and again after
    [clear], whatever was added in between. *)
Theorem bloom_empty_filter_rejects (n : nat) (adds : list string) (k : string) :
  (0 < n)%nat ->
  BloomFilter.mightExist (BloomFilter.contains (BloomFilter.create n) k) = false /\
  BloomFilter.mightExist
    (BloomFilter.contains
       (BloomFilter.clear (fold_left BloomFilter.add adds (BloomFilter.create n))) k) = false.
Proof.
  intros Hn. split.
  - eapply zero_bits_reject; [|reflexivity]. by apply optimalHashes_pos.
  - eapply zero_bits_reject; [|reflexivity]. simpl.
    destruct (fold_add_fields adds (BloomFilter.create n)) as (_ & -> & _).
    by apply optimalHashes_pos.
Qed.

Lemma bloom_empty_filter_rejects_witness :
  BloomFilter.mightExist (BloomFilter.contains (BloomFilter.create 3) "k") = false.
Proof. apply (bloom_empty_filter_rejects 3 ["a"; "k"] "k"). lia. Defined.

Lemma no_probes_accept (bf : BloomFilter.t) (k : string) :
  BloomFilter.numHashes bf = 0%nat ->
  BloomFilter.mightExist (BloomFilter.contains bf k) = true.
Proof.
  intros H0. unfold BloomFilter.contains. simpl. unfold BloomFilter.getHashes. rewrite H0.
  by destruct (BloomFilter.hash1 bf k), (BloomFilter.hash2 bf k).
Qed.

(** X6. A filter built for zero elements has no bits and no probes, and
    answers "possibly present" for every key, before and after any [add];
    so a table without records is never skipped by its filter: [get] goes
    on to the binary search and misses there. *)
Theorem bloom_zero_capacity_accepts (adds : list string) (k : string)
    (id level : nat) (w : World) :
  BloomFilter.mightExist
    (BloomFilter.contains (fold_left BloomFilter.add adds (BloomFilter.create 0)) k) = true /\
  exists tb w',
    SSTable.create id level [] None w = Ok (tb, w') /\
    exists r, SSTable.get tb k = Ok r /\
              SSTable.found r = false /\ SSTable.bloomFilterSaved r = false.
Proof.
  split.
  - apply no_probes_accept.
    by destruct (fold_add_fields adds (BloomFilter.create 0)) as (_ & -> & _).
  - eexists _, _. split; [reflexivity|]. eexists. split; [reflexivity|]. done.
Qed.

Section Bytes.
Local Open Scope Z_scope.

Lemma lor_byte (b j : Z) : 0 <= b < 256 -> 0 <= j < 8 -> 0 <= Z.lor b (Z.shiftl 1 j) < 256.
Proof.
  intros Hb Hj. split; [apply Z.lor_nonneg; split; [lia|apply Z.shiftl_nonneg; lia]|].
  assert (j = 0 \/ j = 1 \/ j = 2 \/ j = 3 \/ j = 4 \/ j = 5 \/ j = 6 \/ j = 7) as Hc by lia.
  assert (Z.lor b (Z.shiftl 1 j) < 2 ^ 8); [|lia].
  destruct (Z.eq_dec (Z.lor b (Z.shiftl 1 j)) 0) as [->|Hnz]; [lia|].
  apply Z.log2_lt_pow2; [|].
  - assert (0 <= Z.lor b (Z.shiftl 1 j)); [|lia].
    apply Z.lor_nonneg. split; [lia|apply Z.shiftl_nonneg; lia].
  - rewrite Z.log2_lor by (try lia; apply Z.shiftl_nonneg; lia).
    apply Z.max_lub_lt.
    + destruct (Z.eq_dec b 0) as [->|]; [simpl; lia|].
      apply Z.log2_lt_pow2; lia.
    + rewrite Z.shiftl_1_l, Z.log2_pow2 by lia. lia.
Qed.

Lemma setBit_bytes (bs : list Z) (h : option Z) :
  (forall z, h = Some z -> 0 <= z) ->
  Forall (fun b => 0 <= b < 256) bs -> Forall (fun b => 0 <= b < 256) (BloomFilter.setBit bs h).
Proof.
  intros Hh Hall. destruct h as [i|]; [|done]. unfold BloomFilter.setBit.
  destruct (bs !! _) as [b|] eqn:Eb; [|done].
  apply Forall_insert; [done|]. apply lor_byte.
  - rewrite Forall_forall in Hall. apply Hall. by eapply list_elem_of_lookup_2.
  - apply rem8_bounds. by apply Hh.
Qed.

Lemma fold_setBit_bytes (hs : list (option Z)) (bs : list Z) :
  (forall h z, h ∈ hs -> h = Some z -> 0 <= z) ->
  Forall (fun b => 0 <= b < 256) bs ->
  Forall (fun b => 0 <= b < 256) (fold_left BloomFilter.setBit hs bs).
Proof.
  revert bs. induction hs as [|h hs IH]; intros bs Hh Hall; simpl; [done|].
  apply IH; [intros h' z Hin; apply Hh; by right|].
  apply setBit_bytes; [|done]. intros z. apply Hh. by left.
Qed.

Lemma fold_add_bytes (adds : list string) (bf : BloomFilter.t) :
  Forall (fun b => 0 <= b < 256) (BloomFilter.bits bf) ->
  Forall (fun b => 0 <= b < 256) (BloomFilter.bits (fold_left BloomFilter.add adds bf)).
Proof.
  revert bf. induction adds as [|k adds IH]; intros bf Hall; simpl; [done|].
  apply IH. simpl. apply fold_setBit_bytes; [|done].
  intros h z Hin Hz. by eapply getHashes_nonneg.
Qed.

Lemma import_export_bytes (bf : BloomFilter.t) :
  Forall (fun b => 0 <= b < 256) (BloomFilter.bits bf) ->
  BloomFilter.import (BloomFilter.export bf) = bf.
Proof.
  intros Hall. destruct bf as [sz nh bs ea]. unfold BloomFilter.import, BloomFilter.export.
  simpl in *. f_equal. induction Hall as [|b bs Hb _ IH]; simpl; [done|].
  rewrite IH. f_equal. apply Z.mod_small. lia.
Qed.

End Bytes.

Lemma buildBloomFilter_bytes (es : list Entry.t) :
  Forall (fun b => (0 <= b < 256)%Z) (BloomFilter.bits (SSTable.buildBloomFilter es)).
Proof.
  rewrite buildBloomFilter_fold. apply fold_add_bytes. simpl.
  apply Forall_forall. intros b Hb. apply elem_of_replicate in Hb as [-> _]. lia.
Qed.

(** X7. Export and import of a bloom filter: for every filter that the
    constructor and [add] can build, importing the exported object gives
    back the same size, hash count, bytes and element count, and so the
    same answer to every [contains]. *)
Theorem bloom_export_import (n : nat) (adds : list string) (k : string) :
  let bf := fold_left BloomFilter.add adds (BloomFilter.create n) in
  BloomFilter.import (BloomFilter.export bf) = bf /\
  BloomFilter.contains (BloomFilter.import (BloomFilter.export bf)) k
  = BloomFilter.contains bf k.
Proof.
  intros bf.
  assert (BloomFilter.import (BloomFilter.export bf) = bf) as H; [|by rewrite H].
  apply import_export_bytes, fold_add_bytes. simpl.
  apply Forall_forall. intros b Hb. apply elem_of_replicate in Hb as [-> _]. lia.
Qed.

Section BitCount.
Local Open Scope Z_scope.

Lemma getBit_setBit_other (bs : list Z) (i j : Z) :
  0 <= i -> 0 <= j -> i <> j ->
  BloomFilter.getBit (BloomFilter.setBit bs (Some j)) (Some i) = BloomFilter.getBit bs (Some i).
Proof.
  intros Hi Hj Hne. unfold BloomFilter.setBit, BloomFilter.getBit.
  destruct (bs !! Z.to_nat (j / 8)) as [b|] eqn:Eb; [|done].
  destruct (decide (Z.to_nat (i / 8) = Z.to_nat (j / 8))) as [Heq|Hd].
  - rewrite Heq, list_lookup_insert_eq by (by eapply lookup_lt_Some). rewrite Eb.
    pose proof (rem8_bounds i Hi) as Hri. pose proof (rem8_bounds j Hj) as Hrj.
    rewrite !land_bit_eqb by lia. f_equal. f_equal.
    rewrite Z.lor_spec, Z.shiftl_spec by lia.
    assert (Z.rem i 8 <> Z.rem j 8) as Hr.
    { intros Er. apply Hne.
      assert (i / 8 = j / 8) as Hq.
      { apply Z2Nat.inj; [apply Z.div_pos; lia|apply Z.div_pos; lia|done]. }
      rewrite !Z.rem_mod_nonneg in Er by lia.
      rewrite (Z.div_mod i 8), (Z.div_mod j 8) by lia. lia. }
    assert (Z.testbit 1 (Z.rem i 8 - Z.rem j 8) = false) as ->; [|apply orb_false_r].
    destruct (Z.lt_ge_cases (Z.rem i 8) (Z.rem j 8)).
    + apply Z.testbit_neg_r. lia.
    + apply (Z.bits_above_log2 1); simpl; lia.
  - by rewrite list_lookup_insert_ne.
Qed.

End BitCount.

Lemma count_unchanged (f g : nat -> bool) (j : nat) (l : list nat) :
  j ∉ l -> (forall i, i <> j -> g i = f i) ->
  length (List.filter (fun b => b) (map g l)) = length (List.filter (fun b => b) (map f l)).
Proof.
  intros Hj Hfg. induction l as [|x l IH]; [done|]. cbn [map List.filter].
  apply not_elem_of_cons in Hj as [Hne Hj]. rewrite (Hfg x) by done.
  destruct (f x); cbn [length]; rewrite IH; done.
Qed.

(** Changing a flag at one index changes the count of flags by at most one. *)
Lemma count_one_change (f g : nat -> bool) (j : nat) (l : list nat) :
  NoDup l -> (forall i, i <> j -> g i = f i) ->
  (length (List.filter (fun b => b) (map g l))
   <= 1 + length (List.filter (fun b => b) (map f l)))%nat.
Proof.
  intros Hnd Hfg. induction Hnd as [|x l Hx Hnd IH]; [simpl; lia|]. cbn [map List.filter].
  destruct (decide (x = j)) as [->|Hne].
  - pose proof (count_unchanged f g j l Hx Hfg). destruct (g j), (f j); cbn [length]; lia.
  - rewrite (Hfg x Hne). destruct (f x); cbn [length]; lia.
Qed.

Lemma bitsSet_setBit (sz : Z) (bs : list Z) (h : option Z) :
  (forall z, h = Some z -> (0 <= z)%Z) ->
  (length (List.filter (fun b => b)
             (map (fun i => BloomFilter.getBit (BloomFilter.setBit bs h) (Some (Z.of_nat i)))
                (seq 0 (Z.to_nat sz))))
   <= 1 + length (List.filter (fun b => b)
                    (map (fun i => BloomFilter.getBit bs (Some (Z.of_nat i)))
                       (seq 0 (Z.to_nat sz)))))%nat.
Proof.
  intros Hh. destruct h as [j|]; [|simpl; lia]. specialize (Hh j eq_refl).
  pose proof (count_one_change
                (fun i => BloomFilter.getBit bs (Some (Z.of_nat i)))
                (fun i => BloomFilter.getBit (BloomFilter.setBit bs (Some j)) (Some (Z.of_nat i)))
                (Z.to_nat j) (seq 0 (Z.to_nat sz)) (NoDup_seq _ _)) as Hc.
  apply Hc. intros i Hi. apply getBit_setBit_other; lia.
Qed.

Lemma bitsSet_fold_setBit (sz : Z) (hs : list (option Z)) (bs : list Z) :
  (forall h z, h ∈ hs -> h = Some z -> (0 <= z)%Z) ->
  (length (List.filter (fun b => b)
             (map (fun i => BloomFilter.getBit (fold_left BloomFilter.setBit hs bs)
                              (Some (Z.of_nat i)))
                (seq 0 (Z.to_nat sz))))
   <= length hs + length (List.filter (fun b => b)
                    (map (fun i => BloomFilter.getBit bs (Some (Z.of_nat i)))
                       (seq 0 (Z.to_nat sz)))))%nat.
Proof.
  revert bs. induction hs as [|h hs IH]; intros bs Hh; [simpl; lia|].
  cbn [fold_left length].
  pose proof (IH (BloomFilter.setBit bs h) (fun h' z Hin => Hh h' z ltac:(by right))) as H1.
  pose proof (bitsSet_setBit sz bs h (fun z => Hh h z ltac:(by left))) as H2.
  lia.
Qed.

Lemma bitsSet_add (bf : BloomFilter.t) (k : string) :
  (BloomFilter.bitsSet (BloomFilter.add bf k)
   <= BloomFilter.numHashes bf + BloomFilter.bitsSet bf)%nat.
Proof.
  unfold BloomFilter.bitsSet, BloomFilter.getBitArray. simpl.
  rewrite <- (getHashes_length bf k). apply bitsSet_fold_setBit.
  intros h z Hin Hz. by eapply getHashes_nonneg.
Qed.

Lemma bitsSet_fold_add (adds : list string) (bf : BloomFilter.t) :
  (BloomFilter.bitsSet (fold_left BloomFilter.add adds bf)
   <= BloomFilter.numHashes bf * length adds + BloomFilter.bitsSet bf)%nat.
Proof.
  revert bf. induction adds as [|k adds IH]; intros bf; simpl; [lia|].
  specialize (IH (BloomFilter.add bf k)). pose proof (bitsSet_add bf k).
  change (BloomFilter.numHashes (BloomFilter.add bf k)) with (BloomFilter.numHashes bf) in IH.
  lia.
Qed.

Lemma bitsSet_create (n : nat) : BloomFilter.bitsSet (BloomFilter.create n) = 0%nat.
Proof.
  unfold BloomFilter.bitsSet, BloomFilter.getBitArray.
  cbn [BloomFilter.create BloomFilter.bits BloomFilter.size].
  induction (seq 0 _) as [|i l IH]; [done|]. cbn [map List.filter].
  by rewrite getBit_zeros.
Qed.

(** X8. The fill of a bloom filter: after any run of [add] calls on a
    new filter, the number of bits that are set is at most the number of
    hash functions times the number of elements added, and
    [elementsAdded] counts the calls. *)
Theorem bloom_bits_set_bound (n : nat) (adds : list string) :
  let bf := fold_left BloomFilter.add adds (BloomFilter.create n) in
  (BloomFilter.bitsSet bf <= BloomFilter.numHashes bf * BloomFilter.elementsAdded bf)%nat /\
  BloomFilter.elementsAdded bf = length adds /\
  length (BloomFilter.getBitArray bf) = Z.to_nat (BloomFilter.size (BloomFilter.create n)).
Proof.
  intros bf. pose proof (bitsSet_fold_add adds (BloomFilter.create n)) as Hb. fold bf in Hb.
  rewrite bitsSet_create in Hb.
  destruct (fold_add_fields adds (BloomFilter.create n)) as (Hs & Hn & He). fold bf in Hs, Hn, He.
  simpl in He. split; [rewrite Hn, He; lia|]. split; [done|].
  unfold BloomFilter.getBitArray. by rewrite length_map, length_seq, Hs.
Qed.

(** ** Tables: range scans, key ranges, export and import *)

Lemma scan_start_spec (es : list Entry.t) (startKey : string) :
  forall fuel i, (length es - i <= fuel)%nat ->
  exists p, SSTable.scan_start fuel es startKey i = Ok p /\
    ((forall j e, (i <= j)%nat -> es !! j = Some e -> str_ge (Entry.key e) startKey = false)
       /\ p = 0%nat
     \/ (i <= p)%nat /\
        (exists e, es !! p = Some e /\ str_ge (Entry.key e) startKey = true) /\
        (forall j e, (i <= j < p)%nat -> es !! j = Some e ->
                     str_ge (Entry.key e) startKey = false)).
Proof.
  induction fuel as [|fuel IH]; intros i Hfuel; simpl.
  - destruct (Nat.leb_spec (length es) i); [|lia]. eexists. split; [reflexivity|]. left.
    split; [|done]. intros j e Hj He. apply lookup_lt_Some in He. lia.
  - destruct (Nat.leb_spec (length es) i) as [|Hlt].
    { eexists. split; [reflexivity|]. left.
      split; [|done]. intros j e Hj He. apply lookup_lt_Some in He. lia. }
    destruct (at_index_lt es i Hlt) as (e & -> & He). cbn [mbind result_bind JS.bind].
    destruct (str_ge (Entry.key e) startKey) eqn:E.
    + eexists. split; [reflexivity|]. right. split; [lia|]. split; [by exists e|].
      intros; lia.
    + destruct (IH (S i) ltac:(lia)) as (p & -> & Hp). exists p. split; [done|].
      destruct Hp as [[Hall ->]|(Hip & Hex & Hbefore)].
      * left. split; [|done]. intros j e' Hj He'.
        destruct (decide (j = i)) as [->|]; [congruence|]. apply (Hall j); [lia|done].
      * right. split; [lia|]. split; [done|]. intros j e' Hj He'.
        destruct (decide (j = i)) as [->|]; [congruence|]. apply (Hbefore j); [lia|done].
Qed.

Lemma filter_all_false {A} (f : A -> bool) (l : list A) :
  (forall x, x ∈ l -> f x = false) -> List.filter f l = [].
Proof.
  induction l as [|x l IH]; intros H; simpl; [done|].
  rewrite (H x) by left. apply IH. intros y Hy. apply H. by right.
Qed.

Lemma filter_all_true {A} (f g : A -> bool) (l : list A) :
  (forall x, x ∈ l -> f x = g x) -> List.filter f l = List.filter g l.
Proof.
  induction l as [|x l IH]; intros H; simpl; [done|].
  rewrite (H x) by left. rewrite IH; [done|]. intros y Hy. apply H. by right.
Qed.

Lemma scan_collect_spec (es : list Entry.t) (endKey : string) :
  StronglySorted key_le es ->
  forall fuel i, (length es - i <= fuel)%nat ->
    SSTable.scan_collect fuel es endKey i
    = Ok (List.filter (fun e => str_le (Entry.key e) endKey) (drop i es)).
Proof.
  intros Hs. induction fuel as [|fuel IH]; intros i Hfuel; simpl.
  - destruct (Nat.leb_spec (length es) i); [|lia]. by rewrite drop_ge.
  - destruct (Nat.leb_spec (length es) i) as [|Hlt]; [by rewrite drop_ge|].
    destruct (at_index_lt es i Hlt) as (e & -> & He). cbn [mbind result_bind JS.bind].
    rewrite (drop_S _ _ _ He). simpl. unfold str_gt, str_le.
    destruct (String.ltb endKey (Entry.key e)) eqn:E; simpl.
    + f_equal. symmetry. apply filter_all_false. intros x Hx.
      apply list_elem_of_lookup in Hx as [j Hj]. rewrite lookup_drop in Hj.
      pose proof (sorted_lookup es i (S i + j) e x Hs He Hj ltac:(lia)) as Hle.
      unfold key_le in Hle. apply negb_false_iff.
      destruct (String.ltb endKey (Entry.key x)) eqn:Ex; [done|].
      change (str_lt endKey (Entry.key e) = true) in E.
      change (str_lt endKey (Entry.key x) = false) in Ex.
      pose proof (str_lt_le_trans _ _ _ E Hle). unfold str_lt in *. congruence.
    + rewrite (IH (S i) ltac:(lia)). done.
Qed.

(** X9. Range scan of a sorted table. When some record has a key at or
    above [startKey], [scan] returns, in table order, exactly the records
    with [startKey <= key <= endKey]. When every key is below [startKey]
    the start position stays at the first record, and [scan] returns every
    record with [key <= endKey], although none of them is in the range. *)
Theorem sstable_scan_spec (tb : SSTable.t) (startKey endKey : string) :
  StronglySorted key_le (SSTable.entries tb) ->
  ((exists e, e ∈ SSTable.entries tb /\ str_ge (Entry.key e) startKey = true) ->
   SSTable.scan tb startKey endKey
   = Ok (List.filter (fun e => str_ge (Entry.key e) startKey && str_le (Entry.key e) endKey)
           (SSTable.entries tb))) /\
  ((forall e, e ∈ SSTable.entries tb -> str_ge (Entry.key e) startKey = false) ->
   SSTable.scan tb startKey endKey
   = Ok (List.filter (fun e => str_le (Entry.key e) endKey) (SSTable.entries tb))).
Proof.
  intros Hs. unfold SSTable.scan. set (es := SSTable.entries tb) in *.
  destruct (scan_start_spec es startKey (length es) 0%nat ltac:(lia)) as (p & -> & Hp).
  cbn [mbind result_bind JS.bind].
  rewrite (scan_collect_spec es endKey Hs) by lia.
  split.
  - intros (e0 & He0 & Hge0). destruct Hp as [[Hall _]|(_ & (e & He & Hge) & Hbefore)].
    { apply list_elem_of_lookup in He0 as [j Hj].
      rewrite (Hall j e0 ltac:(lia) Hj) in Hge0. done. }
    f_equal. rewrite <- (take_drop p es) at 2. rewrite List.filter_app.
    rewrite (filter_all_false _ (take p es)).
    2:{ intros x Hx. apply list_elem_of_lookup in Hx as [j Hj].
        pose proof (lookup_lt_Some _ _ _ Hj) as Hlt. rewrite length_take in Hlt.
        rewrite lookup_take_lt in Hj by lia.
        by rewrite (Hbefore j x ltac:(lia) Hj). }
    simpl. apply filter_all_true. intros x Hx.
    apply list_elem_of_lookup in Hx as [j Hj]. rewrite lookup_drop in Hj.
    pose proof (sorted_lookup es p (p + j) e x Hs He Hj ltac:(lia)) as Hle.
    assert (str_ge (Entry.key x) startKey = true) as ->; [|done].
    unfold str_ge in *. apply negb_true_iff. apply negb_true_iff in Hge.
    destruct (String.ltb (Entry.key x) startKey) eqn:Ex; [|done].
    unfold key_le in Hle.
    change (str_lt (Entry.key x) startKey = true) in Ex.
    change (str_lt (Entry.key e) startKey = false) in Hge.
    pose proof (str_le_lt_trans _ _ _ Hle Ex). unfold str_lt in *. congruence.
  - intros Hnone. destruct Hp as [[_ ->]|(_ & (e & He & Hge) & _)]; [by rewrite drop_0|].
    rewrite (Hnone e) in Hge; [done|]. by eapply list_elem_of_lookup_2.
Qed.

Lemma sstable_scan_spec_witness :
  exists tb w',
    SSTable.create 1 0 [Entry.mk "b" (Some "2") 0; Entry.mk "a" (Some "1") 0] None world0
    = Ok (tb, w') /\
    SSTable.scan tb "c" "z" = Ok [Entry.mk "a" (Some "1") 0; Entry.mk "b" (Some "2") 0] /\
    SSTable.scan tb "b" "z" = Ok [Entry.mk "b" (Some "2") 0].
Proof.
  eexists _, _. split; [vm_compute; reflexivity|].
  match goal with |- SSTable.scan ?tb _ _ = _ /\ _ =>
    assert (StronglySorted key_le (SSTable.entries tb)) as Hs by (repeat constructor) end.
  split.
  - refine (proj2 (sstable_scan_spec _ "c" "z" Hs) _).
    intros e He. cbn [SSTable.entries] in He.
    apply elem_of_cons in He as [->|He]; [reflexivity|].
    apply elem_of_cons in He as [->|He]; [reflexivity|]. by apply elem_of_nil in He.
  - refine (proj1 (sstable_scan_spec _ "b" "z" Hs) _).
    exists (Entry.mk "b" (Some "2") 0). split; [|reflexivity].
    cbn [SSTable.entries]. apply elem_of_cons. right. apply elem_of_cons. by left.
Defined.

Lemma sorted_head_le (es : list Entry.t) (lo e : Entry.t) :
  StronglySorted key_le es -> head es = Some lo -> e ∈ es -> key_le lo e.
Proof.
  intros Hs Hh He. apply list_elem_of_lookup in He as [i Hi].
  apply (sorted_lookup es 0 i lo e Hs); [|done|lia]. by destruct es.
Qed.

Lemma sorted_le_last (es : list Entry.t) (hi e : Entry.t) :
  StronglySorted key_le es -> last es = Some hi -> e ∈ es -> key_le e hi.
Proof.
  intros Hs Hl He. apply list_elem_of_lookup in He as [i Hi].
  rewrite last_lookup in Hl.
  apply (sorted_lookup es i _ e hi Hs Hi Hl). apply lookup_lt_Some in Hi. lia.
Qed.

(** X10. What the constructor of a table establishes: the records are
    the input records, reordered so that keys never decrease; a table
    without records has the null range and contains no key in its range;
    the range test of a table with records holds for the key of every
    record (so skipping a table by its range never hides a record), and a
    key that passes the test lies between the keys of two records. *)
Theorem sstable_constructor_spec (id level : nat) (es : list Entry.t) (w : World) :
  exists tb w',
    SSTable.create id level es None w = Ok (tb, w') /\
    SSTable.entries tb ≡ₚ es /\
    StronglySorted key_le (SSTable.entries tb) /\
    (forall e, e ∈ es -> SSTable.containsKeyInRange tb (Entry.key e) = true) /\
    (forall k, SSTable.containsKeyInRange tb k = true ->
       exists lo hi, lo ∈ es /\ hi ∈ es /\
                     str_le (Entry.key lo) k = true /\ str_le k (Entry.key hi) = true) /\
    (es = [] -> SSTable.keyRange tb = SSTable.mkKeyRange None None).
Proof.
  destruct (create_spec id level es None w) as (tb & Hc & _ & _ & He & _ & Hr & Hwf).
  exists tb, (snd (Date_now w)). split; [done|].
  destruct Hwf as [Hs _]. rewrite He in *.
  split; [apply sort_perm|]. split; [done|].
  unfold SSTable.containsKeyInRange. rewrite Hr, He. unfold SSTable.getKeyRange. simpl.
  split; [|split].
  - intros e Hin. apply sort_elem_of in Hin.
    destruct (SSTable.sort es) as [|x l]; [by apply elem_of_nil in Hin|].
    destruct (last (x :: l)) as [hi|] eqn:Hl; [|by apply last_None in Hl].
    cbn [length Nat.eqb head fmap option_fmap option_map].
    apply andb_true_iff. split.
    + pose proof (sorted_head_le _ x e Hs eq_refl Hin) as H. unfold key_le in H.
      unfold str_ge. unfold str_lt in H. by rewrite H.
    + pose proof (sorted_le_last _ hi e Hs Hl Hin) as H. unfold key_le in H.
      unfold str_le. unfold str_lt in H. by rewrite H.
  - intros k. destruct (length (SSTable.sort es) =? 0)%nat; [done|].
    destruct (head (SSTable.sort es)) as [lo|] eqn:Hh; [|done].
    destruct (last (SSTable.sort es)) as [hi|] eqn:Hl; [|done]. simpl.
    intros [H1 H2]%andb_true_iff. exists lo, hi.
    split; [apply sort_elem_of; by apply head_Some_elem_of|].
    split; [apply sort_elem_of; by apply last_Some_elem_of|]. done.
  - by intros ->.
Qed.

Lemma sort_sorted_id (l : list Entry.t) : StronglySorted key_le l -> SSTable.sort l = l.
Proof.
  induction 1 as [|x l Hs IH Hall]; [done|].
  unfold SSTable.sort in *. simpl. rewrite IH.
  destruct l as [|y l']; [done|]. simpl.
  apply Forall_cons in Hall as [Hxy _]. unfold key_le in Hxy. by rewrite Hxy.
Qed.

(** X11. Export and import of a table: importing what a constructed
    table exports gives the same table except for its creation time, and
    the imported table answers every [get] and every [scan] as the
    original does. *)
Theorem sstable_export_import (id level : nat) (es : list Entry.t) (w w2 : World)
    (k startKey endKey : string) :
  exists tb w' tb' w2',
    SSTable.create id level es None w = Ok (tb, w') /\
    SSTable.import (SSTable.export tb) w2 = Ok (tb', w2') /\
    tb' = SSTable.mk (SSTable.id tb) (SSTable.level tb) (fst (Date_now w2))
            (SSTable.entries tb) (SSTable.bloomFilter tb) (SSTable.sparseIndex tb)
            (SSTable.size tb) (SSTable.keyRange tb) /\
    SSTable.get tb' k = SSTable.get tb k /\
    SSTable.scan tb' startKey endKey = SSTable.scan tb startKey endKey.
Proof.
  unfold SSTable.import, SSTable.export, SSTable.create. simpl.
  destruct (buildSparseIndex_ok (SSTable.sort es)) as (idx & Hidx & _). rewrite Hidx.
  cbn [mbind result_bind JS.bind]. eexists _, _. eexists _, _.
  split; [reflexivity|]. simpl.
  rewrite (sort_sorted_id _ (sort_sorted es)), Hidx. cbn [mbind result_bind JS.bind].
  rewrite (import_export_bytes _ (buildBloomFilter_bytes _)).
  split; [reflexivity|]. split; [reflexivity|]. split; reflexivity.
Qed.

(** ** The heap of the merge *)

Lemma parent_lt (i : nat) : (0 < i)%nat -> ((i - 1) / 2 < i)%nat.
Proof.
  intros Hi. pose proof (Nat.div_mod_eq (i - 1) 2).
  pose proof (Nat.mod_upper_bound (i - 1) 2 ltac:(lia)). lia.
Qed.

Lemma parent_children (i idx : nat) :
  (0 < i)%nat -> ((i - 1) / 2)%nat = idx <-> i = (2 * idx + 1)%nat \/ i = (2 * idx + 2)%nat.
Proof.
  intros Hi. pose proof (Nat.div_mod_eq (i - 1) 2).
  pose proof (Nat.mod_upper_bound (i - 1) 2 ltac:(lia)). split.
  - intros <-. lia.
  - intros [->| ->].
    + replace (2 * idx + 1 - 1)%nat with (idx * 2)%nat by lia. apply Nat.div_mul. lia.
    + replace (2 * idx + 2 - 1)%nat with (1 + idx * 2)%nat by lia.
      rewrite Nat.div_add by lia. done.
Qed.

Lemma item_le_trans (a b c : MinHeap.Item) : item_le a b -> item_le b c -> item_le a c.
Proof. unfold item_le. intros H1 H2. by eapply str_le_trans. Qed.

Lemma item_lt_le (a b : MinHeap.Item) :
  str_lt (MinHeap.key a) (MinHeap.key b) = true -> item_le a b.
Proof. unfold item_le. apply str_lt_asym. Qed.

Lemma insert_cons_perm {A} (l : list A) (j : nat) (x y : A) :
  l !! j = Some y -> y :: <[j := x]> l ≡ₚ x :: l.
Proof.
  revert j. induction l as [|a l IH]; intros [|j] Hj; simplify_eq/=.
  - apply Permutation_swap.
  - rewrite Permutation_swap. rewrite (IH j Hj). apply Permutation_swap.
Qed.

Lemma swap_perm (l : list MinHeap.Item) (i j : nat) (x y : MinHeap.Item) :
  l !! i = Some x -> l !! j = Some y -> MinHeap.swap l i j x y ≡ₚ l.
Proof.
  unfold MinHeap.swap. revert i j. induction l as [|a l IH]; intros [|i] [|j] Hi Hj;
    simplify_eq/=.
  - done.
  - by apply insert_cons_perm.
  - by apply insert_cons_perm.
  - by rewrite (IH i j).
Qed.

Lemma swap_lookup (l : list MinHeap.Item) (i j k : nat) (x y : MinHeap.Item) :
  (i < length l)%nat -> (j < length l)%nat -> i <> j ->
  MinHeap.swap l i j x y !! k
  = if decide (k = j) then Some x else if decide (k = i) then Some y else l !! k.
Proof.
  intros Hi Hj Hne. unfold MinHeap.swap.
  destruct (decide (k = j)) as [->|Hkj].
  - rewrite list_lookup_insert_eq; [done|]. by rewrite length_insert.
  - rewrite list_lookup_insert_ne by done.
    destruct (decide (k = i)) as [->|Hki].
    + by rewrite list_lookup_insert_eq.
    + by rewrite list_lookup_insert_ne.
Qed.

Lemma up_inv_swap (l : list MinHeap.Item) (idx : nat) (x p : MinHeap.Item) :
  (0 < idx)%nat -> l !! idx = Some x -> l !! ((idx - 1) / 2)%nat = Some p ->
  str_lt (MinHeap.key x) (MinHeap.key p) = true ->
  up_inv l idx -> up_inv (MinHeap.swap l idx ((idx - 1) / 2) x p) ((idx - 1) / 2).
Proof.
  intros Hidx Hx Hp Hlt [Hpairs Hgrand].
  pose proof (parent_lt idx Hidx) as Hpl. set (pi := ((idx - 1) / 2)%nat) in *.
  pose proof (lookup_lt_Some _ _ _ Hx) as Hxl. pose proof (lookup_lt_Some _ _ _ Hp) as Hpl'.
  assert (forall k, MinHeap.swap l idx pi x p !! k
                    = if decide (k = pi) then Some x
                      else if decide (k = idx) then Some p else l !! k) as Hsw.
  { intros k. apply swap_lookup; lia. }
  split.
  - intros i a b Hi Hne. rewrite !Hsw. intros Ha Hb.
    rewrite decide_False in Ha by done.
    destruct (decide (i = idx)) as [->|Hni].
    + fold pi in Hb. rewrite decide_True in Hb by done.
      injection Ha as <-. injection Hb as <-. by apply item_lt_le.
    + destruct (decide ((i - 1) / 2 = pi)%nat) as [Hpp|Hpp].
      * injection Hb as <-. apply item_le_trans with p; [by apply item_lt_le|].
        apply (Hpairs i a p Hi Hni Ha). by rewrite Hpp.
      * destruct (decide ((i - 1) / 2 = idx)%nat) as [Hpd|Hpd].
        -- injection Hb as <-. apply (Hgrand i a p Hidx Hi Hpd Ha Hp).
        -- by apply (Hpairs i a b).
  - intros c a g Hpi Hc Hpc. rewrite !Hsw. intros Ha Hg.
    pose proof (parent_lt pi Hpi) as Hgl.
    rewrite decide_False in Hg by lia. rewrite decide_False in Hg by lia.
    destruct (decide (c = pi)) as [->|_]; [pose proof (parent_lt pi Hpi); lia|].
    destruct (decide (c = idx)) as [->|Hci].
    + injection Ha as <-. apply (Hpairs pi p g Hpi ltac:(lia) Hp Hg).
    + apply item_le_trans with p.
      * apply (Hpairs pi p g Hpi ltac:(lia) Hp Hg).
      * apply (Hpairs c a p Hc Hci Ha). by rewrite Hpc.
Qed.

Lemma bubbleUp_spec (fuel : nat) :
  forall h idx, (idx <= fuel)%nat -> (idx < length (MinHeap.heap h))%nat ->
    up_inv (MinHeap.heap h) idx ->
    exists h', MinHeap.bubbleUp fuel h idx = Ok h' /\
               MinHeap.heap h' ≡ₚ MinHeap.heap h /\ heap_ok (MinHeap.heap h').
Proof.
  induction fuel as [|fuel IH]; intros h idx Hf Hlen Hinv; cbn [MinHeap.bubbleUp].
  - assert (idx = 0%nat) as -> by lia. simpl. exists h. split; [done|]. split; [done|].
    intros i x p Hi Ha Hb. apply (proj1 Hinv i x p); [done|lia|done|done].
  - destruct (idx =? 0)%nat eqn:E.
    { apply Nat.eqb_eq in E as ->. exists h. split; [done|]. split; [done|].
      intros i x p Hi Ha Hb. apply (proj1 Hinv i x p); [done|lia|done|done]. }
    apply Nat.eqb_neq in E. pose proof (parent_lt idx ltac:(lia)) as Hpl.
    destruct (at_index_lt (MinHeap.heap h) idx Hlen) as (x & -> & Hx).
    destruct (at_index_lt (MinHeap.heap h) ((idx - 1) / 2) ltac:(lia)) as (p & -> & Hp).
    cbn [mbind result_bind JS.bind]. unfold str_ge.
    destruct (String.ltb (MinHeap.key x) (MinHeap.key p)) eqn:El; cbn [negb].
    + destruct (IH (MinHeap.mk (MinHeap.swap (MinHeap.heap h) idx ((idx - 1) / 2) x p)
                      (S (MinHeap.comparisons h))) ((idx - 1) / 2)%nat)
        as (h' & -> & Hperm & Hok).
      * lia.
      * cbn [MinHeap.heap]. unfold MinHeap.swap. rewrite !length_insert. lia.
      * cbn [MinHeap.heap]. apply up_inv_swap; [lia|done|done|done|done].
      * exists h'. split; [done|]. split; [|done].
        rewrite Hperm. cbn [MinHeap.heap]. by apply swap_perm.
    + eexists. split; [reflexivity|]. simpl. split; [done|].
      intros i a b Hi Ha Hb. destruct (decide (i = idx)) as [->|Hne].
      * simplify_eq. exact El.
      * by apply (proj1 Hinv i a b).
Qed.

Lemma heap_insert_spec (h : MinHeap.t) (x : MinHeap.Item) :
  heap_ok (MinHeap.heap h) ->
  exists h', MinHeap.insert h x = Ok h' /\
             MinHeap.heap h' ≡ₚ x :: MinHeap.heap h /\ heap_ok (MinHeap.heap h').
Proof.
  intros Hok. unfold MinHeap.insert.
  set (l := MinHeap.heap h ++ [x]).
  assert (length l = S (length (MinHeap.heap h))) as Hl.
  { subst l. rewrite length_app. simpl. lia. }
  destruct (bubbleUp_spec (length l) (MinHeap.mk l (MinHeap.comparisons h)) (length l - 1))
    as (h' & -> & Hperm & Hok'); [lia|simpl; lia| |].
  - simpl. split.
    + intros i a b Hi Hne Ha Hb. pose proof (lookup_lt_Some _ _ _ Ha) as Hil.
      pose proof (parent_lt i Hi). subst l.
      rewrite lookup_app_l in Ha by lia. rewrite lookup_app_l in Hb by lia.
      by apply (Hok i a b).
    + intros c a g _ Hc Hpc Ha _. pose proof (lookup_lt_Some _ _ _ Ha) as Hcl.
      pose proof (parent_lt c Hc). lia.
  - exists h'. split; [done|]. split; [|done]. rewrite Hperm. simpl. subst l.
    by rewrite Permutation_app_comm.
Qed.

Lemma down_inv_swap (l : list MinHeap.Item) (idx c : nat) (x y : MinHeap.Item) :
  l !! idx = Some x -> l !! c = Some y ->
  c = (2 * idx + 1)%nat \/ c = (2 * idx + 2)%nat ->
  str_lt (MinHeap.key y) (MinHeap.key x) = true ->
  (forall s z, s = (2 * idx + 1)%nat \/ s = (2 * idx + 2)%nat -> l !! s = Some z -> item_le y z) ->
  down_inv l idx -> down_inv (MinHeap.swap l idx c x y) c.
Proof.
  intros Hx Hy Hc Hlt Hmin [Hpairs Hgrand].
  pose proof (lookup_lt_Some _ _ _ Hx) as Hxl. pose proof (lookup_lt_Some _ _ _ Hy) as Hyl.
  assert (0 < c)%nat as Hc0 by lia.
  assert (((c - 1) / 2)%nat = idx) as Hpc by (by apply parent_children).
  assert (forall k, MinHeap.swap l idx c x y !! k
                    = if decide (k = c) then Some x
                      else if decide (k = idx) then Some y else l !! k) as Hsw.
  { intros k. apply swap_lookup; lia. }
  split.
  - intros i a b Hi Hne. rewrite !Hsw. intros Ha Hb.
    rewrite (decide_False (P := ((i - 1) / 2)%nat = c)) in Hb by done.
    destruct (decide (i = c)) as [->|Hic].
    + rewrite Hpc in Hb. rewrite decide_True in Hb by done.
      injection Ha as <-. injection Hb as <-. by apply item_lt_le.
    + destruct (decide (i = idx)) as [->|Hii].
      * injection Ha as <-. pose proof (parent_lt idx Hi) as Hpl.
        rewrite decide_False in Hb by lia.
        apply (Hgrand c y b Hi Hc0 Hpc Hy Hb).
      * destruct (decide ((i - 1) / 2 = idx)%nat) as [Hpi|Hpi].
        -- injection Hb as <-. apply (Hmin i a); [|done]. by apply parent_children.
        -- by apply (Hpairs i a b).
  - intros d a g _ Hd Hpd. rewrite !Hsw. intros Ha Hg.
    rewrite Hpc in Hg. pose proof (parent_lt d Hd) as Hdl.
    rewrite decide_False in Hg by lia. rewrite decide_True in Hg by done.
    injection Hg as <-.
    rewrite decide_False in Ha by lia. rewrite decide_False in Ha by lia.
    apply (Hpairs d a y Hd ltac:(lia) Ha). by rewrite Hpd.
Qed.

Lemma down_inv_done (l : list MinHeap.Item) (idx : nat) (x : MinHeap.Item) :
  l !! idx = Some x ->
  (forall s z, s = (2 * idx + 1)%nat \/ s = (2 * idx + 2)%nat -> l !! s = Some z -> item_le x z) ->
  down_inv l idx -> heap_ok l.
Proof.
  intros Hx Hmin [Hpairs _] i a b Hi Ha Hb.
  destruct (decide ((i - 1) / 2 = idx)%nat) as [Hp|Hp]; [|by apply (Hpairs i a b)].
  rewrite Hp, Hx in Hb. injection Hb as <-. apply (Hmin i a); [|done].
  by apply parent_children.
Qed.

Lemma down_inv_leaf (l : list MinHeap.Item) (idx : nat) :
  (length l <= 2 * idx + 1)%nat -> down_inv l idx -> heap_ok l.
Proof.
  intros Hlen [Hpairs _] i a b Hi Ha Hb.
  destruct (decide ((i - 1) / 2 = idx)%nat) as [Hp|Hp]; [|by apply (Hpairs i a b)].
  apply parent_children in Hp; [|done]. apply lookup_lt_Some in Ha. lia.
Qed.

Lemma bubbleDown_spec (fuel : nat) :
  forall h idx, (1 <= fuel)%nat -> (S (length (MinHeap.heap h)) <= idx + fuel)%nat ->
    down_inv (MinHeap.heap h) idx ->
    exists h', MinHeap.bubbleDown fuel h idx = Ok h' /\
               MinHeap.heap h' ≡ₚ MinHeap.heap h /\ heap_ok (MinHeap.heap h').
Proof.
  induction fuel as [|fuel IH]; intros h idx H1 Hf Hinv; [lia|].
  cbn [MinHeap.bubbleDown].
  set (lc := (2 * idx + 1)%nat). set (rc := (2 * idx + 2)%nat).
  set (l := MinHeap.heap h) in *. set (len := length l) in *.
  assert (forall x s c,
            l !! idx = Some x ->
            (s = idx /\
             (forall t z, t = lc \/ t = rc -> l !! t = Some z -> item_le x z)) \/
            ((s = lc \/ s = rc) /\
             exists y, l !! s = Some y /\
               str_lt (MinHeap.key y) (MinHeap.key x) = true /\
               (forall t z, t = lc \/ t = rc -> l !! t = Some z -> item_le y z)) ->
            exists h',
              (if (s =? idx)%nat then Ok (MinHeap.mk l c)
               else y ← at_index l s;
                    MinHeap.bubbleDown fuel (MinHeap.mk (MinHeap.swap l idx s x y) c) s) = Ok h' /\
              MinHeap.heap h' ≡ₚ l /\ heap_ok (MinHeap.heap h')) as Htail.
  { intros x s c Hx [[-> Hmin]|[Hs (y & Hy & Hlt & Hmin)]].
    - rewrite Nat.eqb_refl. eexists. split; [reflexivity|]. split; [done|].
      by apply (down_inv_done l idx x).
    - assert (s <> idx) as Hne by (subst lc rc; lia).
      apply Nat.eqb_neq in Hne as E. rewrite E.
      unfold at_index. rewrite Hy. cbn [mbind result_bind JS.bind].
      pose proof (lookup_lt_Some _ _ _ Hy) as Hyl.
      destruct (IH (MinHeap.mk (MinHeap.swap l idx s x y) c) s) as (h' & -> & Hperm & Hok).
      + subst lc rc len. lia.
      + cbn [MinHeap.heap]. unfold MinHeap.swap. rewrite !length_insert.
        subst lc rc len. lia.
      + cbn [MinHeap.heap]. by apply down_inv_swap.
      + exists h'. split; [done|]. split; [|done]. rewrite Hperm. cbn [MinHeap.heap].
        by apply swap_perm. }
  destruct (Nat.ltb_spec lc len) as [Hlc|Hlc].
  - destruct (at_index_lt l lc Hlc) as (a & Hra & Ha).
    destruct (at_index_lt l idx ltac:(subst lc; lia)) as (x & Hrx & Hx).
    rewrite Hra, Hrx. cbn [mbind result_bind JS.bind].
    destruct (Nat.ltb_spec rc len) as [Hrc|Hrc].
    + destruct (at_index_lt l rc Hrc) as (b & Hrb & Hb). rewrite Hrb.
      cbn [mbind result_bind JS.bind].
      destruct (str_lt (MinHeap.key a) (MinHeap.key x)) eqn:Eax.
      * rewrite Hra. cbn [mbind result_bind JS.bind].
        destruct (str_lt (MinHeap.key b) (MinHeap.key a)) eqn:Eba.
        -- apply (Htail x); [done|]. right. split; [by right|]. exists b.
           split; [done|]. split; [by eapply str_lt_trans|].
           intros t z [->| ->] Hz; simplify_eq; [by apply item_lt_le|].
           unfold item_le. apply str_lt_irrefl.
        -- apply (Htail x); [done|]. right. split; [by left|]. exists a.
           split; [done|]. split; [done|].
           intros t z [->| ->] Hz; simplify_eq; [|done].
           unfold item_le. apply str_lt_irrefl.
      * rewrite Hrx. cbn [mbind result_bind JS.bind].
        destruct (str_lt (MinHeap.key b) (MinHeap.key x)) eqn:Ebx.
        -- apply (Htail x); [done|]. right. split; [by right|]. exists b.
           split; [done|]. split; [done|].
           intros t z [->| ->] Hz; simplify_eq.
           ++ apply item_le_trans with x; [by apply item_lt_le|done].
           ++ unfold item_le. apply str_lt_irrefl.
        -- apply (Htail x); [done|]. left. split; [done|].
           intros t z [->| ->] Hz; simplify_eq; done.
    + cbn [mbind result_bind JS.bind].
      destruct (str_lt (MinHeap.key a) (MinHeap.key x)) eqn:Eax.
      * apply (Htail x); [done|]. right. split; [by left|]. exists a.
        split; [done|]. split; [done|].
        intros t z [->| ->] Hz; simplify_eq.
        -- unfold item_le. apply str_lt_irrefl.
        -- apply lookup_lt_Some in Hz. fold len in Hz. lia.
      * apply (Htail x); [done|]. left. split; [done|].
        intros t z [->| ->] Hz; simplify_eq; [done|].
        apply lookup_lt_Some in Hz. fold len in Hz. lia.
  - cbn [mbind result_bind JS.bind].
    destruct (Nat.ltb_spec rc len) as [Hrc|Hrc]; [subst lc rc; lia|].
    cbn [mbind result_bind JS.bind]. rewrite Nat.eqb_refl.
    eexists. split; [reflexivity|]. split; [done|].
    apply (down_inv_leaf l idx); [subst lc len; lia|done].
Qed.

Lemma heap_root_least (l : list MinHeap.Item) (m : MinHeap.Item) :
  heap_ok l -> l !! 0%nat = Some m -> forall y, y ∈ l -> item_le m y.
Proof.
  intros Hok Hm y Hy. apply list_elem_of_lookup in Hy as [i Hi].
  revert y Hi. induction i as [i IH] using lt_wf_ind. intros y Hi.
  destruct (decide (i = 0%nat)) as [->|Hne].
  { rewrite Hm in Hi. injection Hi as <-. unfold item_le. apply str_lt_irrefl. }
  pose proof (parent_lt i ltac:(lia)) as Hpl.
  destruct (lookup_lt_is_Some_2 l ((i - 1) / 2)) as [p Hp].
  { apply lookup_lt_Some in Hi. lia. }
  apply item_le_trans with p; [by apply (IH _ Hpl)|].
  apply (Hok i y p); [lia|done|done].
Qed.

Lemma heap_extractMin_spec (h : MinHeap.t) :
  heap_ok (MinHeap.heap h) ->
  match MinHeap.heap h with
  | [] => MinHeap.extractMin h = Ok (None, h)
  | _ :: _ =>
    exists m h', MinHeap.extractMin h = Ok (Some m, h') /\
      MinHeap.heap h ≡ₚ m :: MinHeap.heap h' /\
      heap_ok (MinHeap.heap h') /\
      (forall y, y ∈ MinHeap.heap h -> item_le m y)
  end.
Proof.
  intros Hok. unfold MinHeap.extractMin.
  destruct (MinHeap.heap h) as [|m [|y rest]] eqn:Eh; [done| |].
  - exists m. eexists. split; [reflexivity|]. simpl. split; [done|]. split.
    + intros i a b Hi Ha. by destruct i.
    + intros z Hz. apply list_elem_of_singleton in Hz as ->.
      unfold item_le. apply str_lt_irrefl.
  - destruct (last (m :: y :: rest)) as [lastItem|] eqn:El; [|by apply last_None in El].
    assert (exists rl, y :: rest = rl ++ [lastItem] /\
                       removelast (m :: y :: rest) = m :: rl) as (rl & Hsplit & Hrl).
    { assert (last (y :: rest) = Some lastItem) as Hl' by done.
      apply last_Some in Hl' as [l0 Hl0]. exists l0. split; [done|].
      rewrite Hl0. rewrite (app_comm_cons l0 [lastItem] m). by rewrite removelast_last. }
    rewrite Hrl. cbn [insert list_insert].
    assert (length (y :: rest) = S (length rl)) as Hlen.
    { rewrite Hsplit, length_app. simpl. lia. }
    destruct (bubbleDown_spec (S (length (lastItem :: rl)))
                (MinHeap.mk (lastItem :: rl) (MinHeap.comparisons h)) 0)
      as (h' & -> & Hperm & Hok'); [lia|cbn [MinHeap.heap]; lia| |].
    + cbn [MinHeap.heap]. split; [|intros; lia].
      intros i a b Hi Hp. pose proof (parent_lt i Hi) as Hpl. intros Ha Hb.
      apply (Hok i a b Hi).
      * pose proof (lookup_lt_Some _ _ _ Ha) as Hil. cbn [length] in Hil.
        destruct i as [|i]; [lia|].
        change (rl !! i = Some a) in Ha. change ((y :: rest) !! i = Some a).
        rewrite Hsplit. rewrite lookup_app_l by lia. done.
      * destruct ((i - 1) / 2)%nat as [|j] eqn:Ej; [done|].
        change (rl !! j = Some b) in Hb. change ((y :: rest) !! j = Some b).
        pose proof (lookup_lt_Some _ _ _ Hb) as Hjl.
        rewrite Hsplit. rewrite lookup_app_l by lia. done.
    + cbn [mbind result_bind JS.bind]. exists m, h'. split; [done|].
      split; [|split; [done|]].
      * rewrite Hperm. cbn [MinHeap.heap]. constructor.
        rewrite Hsplit. by rewrite Permutation_app_comm.
      * intros z Hz. by apply (heap_root_least (m :: y :: rest) m Hok).
Qed.

Lemma minheap_extractMin_spec_aux (h : MinHeap.t) :
  heap_ok (MinHeap.heap h) ->
  (MinHeap.heap h = [] -> MinHeap.extractMin h = Ok (None, h)) /\
  (MinHeap.heap h <> [] ->
   exists m h', MinHeap.extractMin h = Ok (Some m, h') /\
     MinHeap.heap h ≡ₚ m :: MinHeap.heap h' /\
     heap_ok (MinHeap.heap h') /\
     (forall y, y ∈ MinHeap.heap h -> item_le m y)).
Proof.
  intros Hok. pose proof (heap_extractMin_spec h Hok) as H.
  destruct (MinHeap.heap h) as [|x l]; [by split|].
  split; [done|]. by intros _.
Qed.

Lemma heap_ok_nil : heap_ok [].
Proof. intros i x p Hi Hx. by rewrite lookup_nil in Hx. Qed.

(** X12. [insert] on the heap: when the array is in heap order, the
    call returns (no read falls outside the array), the new array holds the
    old elements and the new one, and it is in heap order again. *)
Theorem minheap_insert_spec (h : MinHeap.t) (x : MinHeap.Item) :
  heap_ok (MinHeap.heap h) ->
  exists h', MinHeap.insert h x = Ok h' /\
             MinHeap.heap h' ≡ₚ x :: MinHeap.heap h /\
             heap_ok (MinHeap.heap h') /\
             MinHeap.size h' = S (MinHeap.size h).
Proof.
  intros Hok. destruct (heap_insert_spec h x Hok) as (h' & Hi & Hperm & Hok').
  exists h'. split; [done|]. split; [done|]. split; [done|].
  unfold MinHeap.size. by rewrite Hperm.
Qed.

Lemma minheap_insert_spec_witness :
  exists h',
    MinHeap.insert
      (MinHeap.mk [MinHeap.mkItem "b" None 0 0; MinHeap.mkItem "c" None 0 1;
                   MinHeap.mkItem "d" None 0 2] 0)
      (MinHeap.mkItem "a" (Some "v") 0 3) = Ok h' /\
    MinHeap.heap h' ≡ₚ
      MinHeap.mkItem "a" (Some "v") 0 3 ::
      [MinHeap.mkItem "b" None 0 0; MinHeap.mkItem "c" None 0 1; MinHeap.mkItem "d" None 0 2] /\
    heap_ok (MinHeap.heap h') /\
    MinHeap.heap h' !! 0%nat = Some (MinHeap.mkItem "a" (Some "v") 0 3).
Proof.
  assert (heap_ok [MinHeap.mkItem "b" None 0 0; MinHeap.mkItem "c" None 0 1;
                   MinHeap.mkItem "d" None 0 2]) as Hok.
  { intros i x p Hi Hx Hp. destruct i as [|[|[|i]]]; [lia| | |discriminate Hx];
      vm_compute in Hx, Hp; injection Hx as <-; injection Hp as <-; reflexivity. }
  destruct (minheap_insert_spec (MinHeap.mk _ 0) (MinHeap.mkItem "a" (Some "v") 0 3) Hok)
    as (h' & Hi & Hp & Hh & _).
  exists h'. split; [exact Hi|]. split; [exact Hp|]. split; [exact Hh|].
  vm_compute in Hi. injection Hi as <-. reflexivity.
Defined.

(** X13. [extractMin] on the heap: on the empty heap it returns null
    and changes nothing; on a heap in heap order it returns an element
    whose key is not above the key of any element, and leaves the other
    elements, in heap order. *)
Theorem minheap_extractMin_spec (h : MinHeap.t) :
  heap_ok (MinHeap.heap h) ->
  (MinHeap.heap h = [] -> MinHeap.extractMin h = Ok (None, h)) /\
  (MinHeap.heap h <> [] ->
   exists m h', MinHeap.extractMin h = Ok (Some m, h') /\
     MinHeap.heap h ≡ₚ m :: MinHeap.heap h' /\
     heap_ok (MinHeap.heap h') /\
     (forall y, y ∈ MinHeap.heap h -> str_le (MinHeap.key m) (MinHeap.key y) = true)).
Proof.
  intros Hok. pose proof (heap_extractMin_spec h Hok) as H.
  destruct (MinHeap.heap h) as [|x l]; [by split|].
  split; [done|]. intros _. destruct H as (m & h' & He & Hperm & Hok' & Hmin).
  exists m, h'. split; [done|]. split; [done|]. split; [done|].
  intros y Hy. specialize (Hmin y Hy). unfold item_le, str_lt in Hmin.
  unfold str_le. by rewrite Hmin.
Qed.

Lemma minheap_extractMin_spec_witness :
  exists m h',
    MinHeap.extractMin (MinHeap.mk [MinHeap.mkItem "a" None 0 0; MinHeap.mkItem "b" None 0 1] 0)
    = Ok (Some m, h') /\ MinHeap.key m = "a".
Proof.
  assert (heap_ok [MinHeap.mkItem "a" None 0 0; MinHeap.mkItem "b" None 0 1]) as Hok.
  { intros i x p Hi Hx Hp. destruct i as [|[|[|i]]]; [lia| |done|done].
    vm_compute in Hx, Hp. injection Hx as <-. injection Hp as <-. reflexivity. }
  destruct (proj2 (minheap_extractMin_spec (MinHeap.mk _ 0) Hok) ltac:(done))
    as (m & h' & He & _).
  exists m, h'. split; [exact He|]. vm_compute in He. by injection He as <- _.
Defined.

(** ** The k-way merge *)

Lemma elem_of_concat_imap {A B} (f : nat -> A -> list B) (l : list A) (x : B) :
  x ∈ concat (imap f l) <-> exists i a, l !! i = Some a /\ x ∈ f i a.
Proof.
  revert f. induction l as [|a l IH]; intros f; simpl.
  - split; [by intros ?%elem_of_nil|]. by intros (i & b & Hi & _).
  - rewrite elem_of_app, IH. split.
    + intros [Hx|(i & b & Hi & Hx)]; [by exists 0%nat, a|by exists (S i), b].
    + intros ([|i] & b & Hi & Hx); simplify_eq/=; [by left|]. right. by exists i, b.
Qed.

Lemma concat_imap_insert {A B} (f : nat -> A -> list B) (l : list A) (i : nat) (a a' : A) :
  l !! i = Some a ->
  exists pre post,
    concat (imap f l) = pre ++ f i a ++ post /\
    concat (imap f (<[i := a']> l)) = pre ++ f i a' ++ post.
Proof.
  revert f i. induction l as [|x l IH]; intros f i Hi; [done|].
  destruct i as [|i]; simplify_eq/=.
  - by exists [], (concat (imap (f ∘ S) l)).
  - destruct (IH (f ∘ S) i Hi) as (pre & post & -> & ->).
    exists (f 0%nat x ++ pre), post. by rewrite <- !app_assoc.
Qed.

Lemma itemOf_entryOf (i : nat) (e : Entry.t) : entryOf (itemOf i e) = e.
Proof. by destruct e. Qed.

Lemma headOf_elem (i : nat) (it : Compaction.Iterator) (x : MinHeap.Item) :
  x ∈ headOf i it ->
  exists e, Compaction.it_entries it !! Compaction.currentIndex it = Some e /\ x = itemOf i e.
Proof.
  unfold headOf. destruct (_ !! _) as [e|]; [|by intros ?%elem_of_nil].
  intros ->%list_elem_of_singleton. by exists e.
Qed.

Lemma restOf_head (i : nat) (it : Compaction.Iterator) (e : Entry.t) :
  Compaction.it_entries it !! Compaction.currentIndex it = Some e ->
  restOf i it
  = itemOf i e :: restOf i (Compaction.mkIterator (Compaction.it_sstableId it)
                              (Compaction.it_entries it) (S (Compaction.currentIndex it))).
Proof. intros He. unfold restOf. simpl. by rewrite (drop_S _ _ _ He). Qed.

(** Everything an iterator has left is at or above its current element. *)
Lemma restOf_ge (i : nat) (it : Compaction.Iterator) (e : Entry.t) (z : MinHeap.Item) :
  StronglySorted key_le (Compaction.it_entries it) ->
  Compaction.it_entries it !! Compaction.currentIndex it = Some e ->
  z ∈ restOf i it -> item_le (itemOf i e) z.
Proof.
  intros Hs He Hz. unfold restOf in Hz.
  apply list_elem_of_fmap in Hz as (e' & -> & He').
  apply list_elem_of_lookup in He' as [j Hj]. rewrite lookup_drop in Hj.
  pose proof (sorted_lookup _ _ _ e e' Hs He Hj ltac:(lia)) as Hle.
  exact Hle.
Qed.

Lemma remaining_ge (its : list Compaction.Iterator) (h : MinHeap.t) (m z : MinHeap.Item) :
  merge_inv its h -> iterators_sorted its ->
  (forall y, y ∈ MinHeap.heap h -> item_le m y) ->
  z ∈ remaining its -> item_le m z.
Proof.
  intros (_ & Hperm) Hsorted Hmin Hz. unfold iterators_sorted in Hsorted.
  apply elem_of_concat_imap in Hz as (i & it & Hi & Hz).
  assert (StronglySorted key_le (Compaction.it_entries it)) as Hs.
  { rewrite Forall_forall in Hsorted. apply Hsorted. by eapply list_elem_of_lookup_2. }
  destruct (Compaction.it_entries it !! Compaction.currentIndex it) as [e|] eqn:He.
  - apply item_le_trans with (itemOf i e); [|exact (restOf_ge i it e z Hs He Hz)].
    apply Hmin. rewrite Hperm. apply elem_of_concat_imap. exists i, it. split; [done|].
    unfold headOf. rewrite He. by apply list_elem_of_singleton.
  - unfold restOf in Hz. rewrite drop_ge in Hz by (by apply lookup_ge_None).
    by apply elem_of_nil in Hz.
Qed.

Lemma heads_nil_remaining (its : list Compaction.Iterator) :
  heads its = [] -> remaining its = [].
Proof.
  intros Hh. destruct (remaining its) as [|z l] eqn:E; [done|exfalso].
  assert (z ∈ remaining its) as Hz by (rewrite E; left).
  apply elem_of_concat_imap in Hz as (i & it & Hi & Hz).
  unfold restOf in Hz. apply list_elem_of_fmap in Hz as (e & _ & He).
  apply list_elem_of_lookup in He as [j Hj]. rewrite lookup_drop in Hj.
  destruct (lookup_lt_is_Some_2 (Compaction.it_entries it) (Compaction.currentIndex it))
    as [e0 He0]; [apply lookup_lt_Some in Hj; lia|].
  assert (itemOf i e0 ∈ heads its) as Hin.
  { apply elem_of_concat_imap. exists i, it. split; [done|].
    unfold headOf. rewrite He0. by apply list_elem_of_singleton. }
  rewrite Hh in Hin. by apply elem_of_nil in Hin.
Qed.

Lemma emit_step (m : MinHeap.Item) (xs : list MinHeap.Item) (lastKey : option string)
    (merged : list Entry.t) (dups : nat) :
  let fresh := match lastKey with
               | Some k => negb (str_eq (MinHeap.key m) k)
               | None => true
               end in
  let merged' :=
    if fresh then
      match MinHeap.value m with
      | Some v => merged ++ [Entry.mk (MinHeap.key m) (Some v) (MinHeap.timestamp m)]
      | None => merged
      end
    else merged in
  let lastKey' := if fresh then Some (MinHeap.key m) else lastKey in
  let dups' := if fresh then dups else S dups in
  (merged' ++ fst (emit xs lastKey'), (dups' + snd (emit xs lastKey'))%nat)
  = (merged ++ fst (emit (m :: xs) lastKey), (dups + snd (emit (m :: xs) lastKey))%nat).
Proof.
  intros fresh merged' lastKey' dups'. subst merged' lastKey' dups'.
  cbn [emit]. fold fresh. destruct fresh.
  - destruct (emit xs (Some (MinHeap.key m))) as [out d]. cbn [fst snd].
    destruct (MinHeap.value m); [by rewrite <- app_assoc|done].
  - destruct (emit xs lastKey) as [out d]. cbn [fst snd]. f_equal. lia.
Qed.

Lemma merge_step_inv (its : list Compaction.Iterator) (h h1 : MinHeap.t) (m : MinHeap.Item) :
  merge_inv its h ->
  MinHeap.heap h ≡ₚ m :: MinHeap.heap h1 -> heap_ok (MinHeap.heap h1) ->
  exists it e,
    its !! MinHeap.iteratorIndex m = Some it /\
    Compaction.it_entries it !! Compaction.currentIndex it = Some e /\
    m = itemOf (MinHeap.iteratorIndex m) e /\
    let it' := Compaction.mkIterator (Compaction.it_sstableId it) (Compaction.it_entries it)
                 (S (Compaction.currentIndex it)) in
    let its' := <[MinHeap.iteratorIndex m := it']> its in
    remaining its ≡ₚ m :: remaining its' /\
    (iterators_sorted its -> iterators_sorted its') /\
    headOf (MinHeap.iteratorIndex m) it' ++ MinHeap.heap h1 ≡ₚ heads its'.
Proof.
  intros (Hok & Hperm) Hext Hok1.
  assert (m ∈ heads its) as Hm by (rewrite <- Hperm, Hext; left).
  apply elem_of_concat_imap in Hm as (i & it & Hi & Hm).
  apply headOf_elem in Hm as (e & He & ->). cbn [itemOf MinHeap.iteratorIndex].
  exists it, e. split; [done|]. split; [done|]. split; [done|]. cbv zeta.
  set (it' := Compaction.mkIterator _ _ _). set (its' := <[i := it']> its).
  split; [|split].
  - destruct (concat_imap_insert restOf its i it it' Hi) as (pre & post & Hr & Hr').
    unfold remaining. subst its'. rewrite Hr, Hr'.
    rewrite (restOf_head i it e He). fold it'.
    rewrite <- app_comm_cons. by rewrite <- Permutation_middle.
  - intros Hsorted. unfold iterators_sorted in *.
    subst its'. apply Forall_insert; [done|]. simpl.
    rewrite Forall_forall in Hsorted. apply Hsorted. by eapply list_elem_of_lookup_2.
  - destruct (concat_imap_insert headOf its i it it' Hi) as (pre & post & Hh & Hh').
    unfold heads in *. subst its'. rewrite Hh'. rewrite Hh in Hperm.
    assert (headOf i it = [itemOf i e]) as Hhd by (unfold headOf; by rewrite He).
    rewrite Hhd in Hperm. rewrite Hext in Hperm.
    simpl in Hperm. rewrite <- Permutation_middle in Hperm.
    apply Permutation_cons_inv in Hperm. rewrite Hperm.
    rewrite !app_assoc. f_equiv. apply Permutation_app_comm.
Qed.

Lemma kWayMerge_loop_spec (fuel : nat) :
  forall its h merged lastKey dups,
    merge_inv its h -> (potential its h < fuel)%nat ->
    exists xs h',
      Compaction.kWayMerge_loop fuel its h merged lastKey dups
      = Ok (merged ++ fst (emit xs lastKey), (dups + snd (emit xs lastKey))%nat, h') /\
      xs ≡ₚ remaining its /\ (iterators_sorted its -> StronglySorted item_le xs) /\
      MinHeap.heap h' = [].
Proof.
  induction fuel as [|fuel IH]; intros its h merged lastKey dups Hinv Hpot; [lia|].
  cbn [Compaction.kWayMerge_loop]. pose proof Hinv as (Hok & Hperm).
  destruct (MinHeap.size h =? 0)%nat eqn:Esz.
  { apply Nat.eqb_eq in Esz. unfold MinHeap.size in Esz. apply nil_length_inv in Esz.
    exists [], h. cbn [emit fst snd]. rewrite app_nil_r, Nat.add_0_r.
    split; [done|]. split; [|split; [constructor|done]].
    rewrite heads_nil_remaining; [done|]. rewrite Esz in Hperm.
    by apply Permutation_nil_l in Hperm. }
  apply Nat.eqb_neq in Esz.
  destruct (proj2 (minheap_extractMin_spec_aux h Hok)) as (m & h1 & -> & Hext & Hok1 & Hmin).
  { intros E. apply Esz. unfold MinHeap.size. by rewrite E. }
  cbn [mbind result_bind JS.bind].
  destruct (merge_step_inv its h h1 m Hinv Hext Hok1)
    as (it & e & Hit & He & Hm & Hrem & Hsorted' & Hheads).
  unfold at_index at 1. rewrite Hit. cbn [mbind result_bind JS.bind].
  set (it' := Compaction.mkIterator (Compaction.it_sstableId it) (Compaction.it_entries it)
                (S (Compaction.currentIndex it))) in *.
  set (its' := <[MinHeap.iteratorIndex m := it']> its) in *.
  pose proof (sum_pending_insert its _ it it' Hit) as Hsum.
  assert (S (MinHeap.size h1) = MinHeap.size h) as Hsz1.
  { unfold MinHeap.size. rewrite Hext. done. }
  assert (exists h2,
            match Compaction.it_entries it' !! Compaction.currentIndex it' with
            | Some nextEntry =>
              MinHeap.insert h1
                (MinHeap.mkItem (Entry.key nextEntry) (Entry.value nextEntry)
                   (Entry.timestamp nextEntry) (MinHeap.iteratorIndex m))
            | None => Ok h1
            end = Ok h2 /\ merge_inv its' h2 /\ (potential its' h2 < fuel)%nat)
    as (h2 & -> & Hinv2 & Hpot2).
  { unfold headOf in Hheads.
    change (Compaction.it_entries it' !! Compaction.currentIndex it')
      with (Compaction.it_entries it !! S (Compaction.currentIndex it)) in *.
    destruct (Compaction.it_entries it !! S (Compaction.currentIndex it)) as [nextEntry|] eqn:En.
    - destruct (heap_insert_spec h1 (itemOf (MinHeap.iteratorIndex m) nextEntry) Hok1)
        as (h2 & Hi & Hperm2 & Hok2).
      exists h2. split; [exact Hi|]. split.
      + split; [done|]. rewrite Hperm2. exact Hheads.
      + apply lookup_lt_Some in En.
        assert (pending it = S (pending it')) as Hp by (unfold pending; simpl; lia).
        unfold potential in *. unfold MinHeap.size in *. rewrite Hperm2. cbn [length].
        fold its' in Hsum. lia.
    - exists h1. split; [done|]. split.
      + split; [done|]. exact Hheads.
      + apply lookup_ge_None in En.
        assert (pending it' = 0%nat /\ pending it = 0%nat) as [Hp Hp']
          by (unfold pending; simpl; lia).
        unfold potential in *. fold its' in Hsum. lia. }
  cbn [mbind result_bind JS.bind].
  match goal with |- context [Compaction.kWayMerge_loop fuel its' h2 ?mg ?lk ?dp] =>
    destruct (IH its' h2 mg lk dp Hinv2 Hpot2) as (xs & h' & -> & Hxs & Hss & Hh') end.
  exists (m :: xs), h'. split; [|split; [|split; [|done]]].
  - f_equal. pose proof (emit_step m xs lastKey merged dups) as Hstep. cbv zeta in Hstep.
    apply pair_eq in Hstep as [H1 H2]. by rewrite H1, H2.
  - rewrite Hrem. by constructor.
  - intros Hsorted. constructor; [by apply Hss, Hsorted'|]. apply Forall_forall. intros z Hz.
    apply (remaining_ge its h m z Hinv Hsorted Hmin). rewrite Hrem. right. by rewrite <- Hxs.
Qed.

Lemma kWayMerge_init_empty (tbs : list SSTable.t) :
  Forall (fun tb => SSTable.entries tb = []) tbs ->
  forall i its h, Compaction.kWayMerge_init tbs i its h = Ok (its, h).
Proof.
  induction 1 as [|tb tbs Htb _ IH]; intros i its h; cbn [Compaction.kWayMerge_init]; [done|].
  unfold SSTable.getAllEntries. rewrite Htb. apply IH.
Qed.

Lemma heads_snoc (its : list Compaction.Iterator) (it : Compaction.Iterator) :
  heads (its ++ [it]) = heads its ++ headOf (length its) it.
Proof.
  unfold heads. rewrite imap_app, concat_app. simpl.
  by rewrite Nat.add_0_r, app_nil_r.
Qed.

Lemma remaining_snoc (its : list Compaction.Iterator) (it : Compaction.Iterator) :
  remaining (its ++ [it]) = remaining its ++ restOf (length its) it.
Proof.
  unfold remaining. rewrite imap_app, concat_app. simpl.
  by rewrite Nat.add_0_r, app_nil_r.
Qed.

Lemma empties_last_tail (tb : SSTable.t) (tbs : list SSTable.t) :
  empties_last (tb :: tbs) -> empties_last tbs.
Proof. intros H i j a b Hij Ha Hb. apply (H (S i) (S j) a b); [lia|done|done]. Qed.

Lemma empties_last_after_empty (tb : SSTable.t) (tbs : list SSTable.t) :
  empties_last (tb :: tbs) -> SSTable.entries tb = [] ->
  Forall (fun t => SSTable.entries t = []) tbs.
Proof.
  intros H Hempty. apply Forall_forall. intros t Ht.
  apply list_elem_of_lookup in Ht as [j Hj]. apply (H 0%nat (S j) tb t); [lia|done|done|done].
Qed.

Lemma kWayMerge_init_spec (tbs : list SSTable.t) :
  empties_last tbs ->
  forall its h,
    merge_inv its h ->
    exists its' h',
      Compaction.kWayMerge_init tbs (length its) its h = Ok (its', h') /\
      merge_inv its' h' /\
      map entryOf (remaining its')
      = map entryOf (remaining its) ++ concat (map SSTable.entries tbs) /\
      (iterators_sorted its ->
       Forall (fun tb => StronglySorted key_le (SSTable.entries tb)) tbs ->
       iterators_sorted its').
Proof.
  induction tbs as [|tb tbs IH]; intros Hlast its h Hinv; cbn [Compaction.kWayMerge_init].
  { exists its, h. split; [done|]. split; [done|]. simpl. by rewrite app_nil_r. }
  unfold SSTable.getAllEntries. destruct (SSTable.entries tb) as [|e es] eqn:Ee.
  - rewrite (kWayMerge_init_empty tbs (empties_last_after_empty tb tbs Hlast Ee)).
    exists its, h. split; [done|]. split; [done|]. split; [|done]. simpl. rewrite Ee. simpl.
    assert (concat (map SSTable.entries tbs) = []) as ->; [|by rewrite app_nil_r].
    pose proof (empties_last_after_empty tb tbs Hlast Ee) as Hall.
    clear -Hall. induction Hall as [|t l Ht _ IHl]; simpl; [done|]. by rewrite Ht, IHl.
  - destruct Hinv as [Hok Hperm].
    destruct (heap_insert_spec h (itemOf (length its) e) Hok) as (h1 & Hi & Hperm1 & Hok1).
    change (MinHeap.mkItem (Entry.key e) (Entry.value e) (Entry.timestamp e) (length its))
      with (itemOf (length its) e).
    rewrite Hi. cbn [mbind result_bind JS.bind].
    set (it := Compaction.mkIterator (SSTable.id tb) (e :: es) 0).
    destruct (IH (empties_last_tail tb tbs Hlast) (its ++ [it]) h1) as (its' & h' & Hinit & Hinv' & Hrem & Hsort).
    { split; [done|]. rewrite Hperm1, heads_snoc, Hperm. unfold headOf. simpl.
      by rewrite <- Permutation_cons_append. }
    rewrite length_app in Hinit. simpl in Hinit. rewrite Nat.add_1_r in Hinit.
    exists its', h'. split; [done|]. split; [done|]. split.
    + rewrite Hrem, remaining_snoc, map_app. unfold restOf. simpl. rewrite Ee.
      rewrite <- app_assoc. f_equal. f_equal. rewrite itemOf_entryOf. f_equal.
      rewrite map_map. rewrite <- (map_id es) at 2. apply map_ext. intros a. apply itemOf_entryOf.
    + intros Hs Htbs. apply Forall_cons in Htbs as [Htb Htbs]. apply Hsort; [|done].
      apply Forall_app. split; [done|]. constructor; [|done]. simpl. by rewrite <- Ee.
Qed.

(** The records the merge appends, from the elements in extraction order. *)
Lemma emit_sound (xs : list MinHeap.Item) :
  forall lastKey e, e ∈ fst (emit xs lastKey) ->
    Entry.value e <> None /\ exists x, x ∈ xs /\ e = entryOf x.
Proof.
  induction xs as [|x xs IH]; intros lastKey e; cbn [emit]; [by intros ?%elem_of_nil|].
  destruct (match lastKey with Some k => negb (str_eq (MinHeap.key x) k) | None => true end).
  - destruct (emit xs (Some (MinHeap.key x))) as [out d] eqn:E. cbn [fst].
    assert (e ∈ out -> Entry.value e <> None /\ exists x0, x0 ∈ x :: xs /\ e = entryOf x0) as Hrest.
    { intros He. destruct (IH (Some (MinHeap.key x)) e) as [Hv (x0 & Hx0 & Hex)].
      { by rewrite E. }
      split; [done|]. exists x0. split; [by right|done]. }
    destruct (MinHeap.value x) as [v|] eqn:Ev; [|done].
    intros [->|He]%elem_of_cons; [|by apply Hrest].
    split; [done|]. exists x. split; [by left|]. unfold entryOf. by rewrite Ev.
  - destruct (emit xs lastKey) as [out d] eqn:E. cbn [fst]. intros He.
    destruct (IH lastKey e) as [Hv (x0 & Hx0 & Hex)]; [by rewrite E|].
    split; [done|]. exists x0. split; [by right|done].
Qed.

Lemma emit_sorted (xs : list MinHeap.Item) :
  StronglySorted item_le xs ->
  forall lastKey,
    (forall k, lastKey = Some k -> Forall (fun x => str_lt (MinHeap.key x) k = false) xs) ->
    StronglySorted key_lt (fst (emit xs lastKey)) /\
    (forall k, lastKey = Some k ->
       Forall (fun e => str_lt k (Entry.key e) = true) (fst (emit xs lastKey))).
Proof.
  induction 1 as [|x xs Hs IH Hall]; intros lastKey Hlow; cbn [emit].
  { split; [constructor|]. intros; constructor. }
  set (fresh := match lastKey with
                | Some k => negb (str_eq (MinHeap.key x) k) | None => true end).
  assert (forall k, lastKey = Some k -> fresh = true -> str_lt k (MinHeap.key x) = true) as Hk.
  { intros k -> Hf. subst fresh. simpl in Hf. apply negb_true_iff, str_eq_false in Hf.
    specialize (Hlow k eq_refl). apply Forall_cons in Hlow as [Hx _].
    destruct (str_lt k (MinHeap.key x)) eqn:E; [done|]. exfalso. apply Hf.
    by apply str_lt_total. }
  destruct fresh eqn:Ef.
  - destruct (IH (Some (MinHeap.key x))) as [Hsorted Hgt].
    { intros k [= <-]. eapply Forall_impl; [exact Hall|]. intros y Hy. exact Hy. }
    specialize (Hgt _ eq_refl).
    destruct (emit xs (Some (MinHeap.key x))) as [out d]. cbn [fst] in *.
    assert (forall k, lastKey = Some k -> Forall (fun e => str_lt k (Entry.key e) = true) out)
      as Hout.
    { intros k Hlk. eapply Forall_impl; [exact Hgt|]. intros e He. simpl in He.
      eapply str_lt_trans; [|exact He]. by apply Hk. }
    destruct (MinHeap.value x) as [v|]; [|by split].
    split.
    + constructor; [done|]. exact Hgt.
    + intros k Hlk. constructor; [simpl; by apply Hk|]. by apply Hout.
  - destruct (IH lastKey) as [Hsorted Hgt].
    { intros k Hlk. specialize (Hlow k Hlk). by apply Forall_cons in Hlow as [_ ?]. }
    destruct (emit xs lastKey) as [out d]. cbn [fst] in *. by split.
Qed.

Lemma emit_complete (xs : list MinHeap.Item) (k : string) :
  (forall x, x ∈ xs -> MinHeap.key x = k -> MinHeap.value x <> None) ->
  forall lastKey, lastKey <> Some k -> (exists x, x ∈ xs /\ MinHeap.key x = k) ->
    exists e, e ∈ fst (emit xs lastKey) /\ Entry.key e = k.
Proof.
  induction xs as [|x xs IH]; intros Hval lastKey Hlk (x0 & Hx0 & Hk0);
    [by apply elem_of_nil in Hx0|].
  cbn [emit].
  set (fresh := match lastKey with
                | Some k => negb (str_eq (MinHeap.key x) k) | None => true end).
  destruct (decide (MinHeap.key x = k)) as [Hxk|Hxk].
  - assert (fresh = true) as ->.
    { subst fresh. destruct lastKey as [k'|]; [|done]. apply negb_true_iff, str_eq_false.
      congruence. }
    destruct (emit xs (Some (MinHeap.key x))) as [out d]. cbn [fst].
    destruct (MinHeap.value x) as [v|] eqn:Ev.
    + eexists. split; [by left|]. done.
    + exfalso. by apply (Hval x); [left| |].
  - assert (x0 ∈ xs) as Hin.
    { apply elem_of_cons in Hx0 as [->|]; [done|done]. }
    assert (forall lk, lk <> Some k -> exists e, e ∈ fst (emit xs lk) /\ Entry.key e = k) as Hrec.
    { intros lk Hne. apply IH; [|done|by exists x0].
      intros y Hy. apply Hval. by right. }
    destruct fresh.
    + destruct (Hrec (Some (MinHeap.key x))) as (e & He & Hek); [congruence|].
      destruct (emit xs (Some (MinHeap.key x))) as [out d]. cbn [fst] in *.
      exists e. split; [|done]. destruct (MinHeap.value x); [by right|done].
    + destruct (Hrec lastKey Hlk) as (e & He & Hek).
      destruct (emit xs lastKey) as [out d]. cbn [fst] in *. by exists e.
Qed.

Lemma emit_count (xs : list MinHeap.Item) :
  forall lastKey,
    (length (fst (emit xs lastKey)) + snd (emit xs lastKey) <= length xs)%nat /\
    ((forall x, x ∈ xs -> MinHeap.value x <> None) ->
     (length (fst (emit xs lastKey)) + snd (emit xs lastKey))%nat = length xs).
Proof.
  induction xs as [|x xs IH]; intros lastKey; cbn [emit]; [by split|].
  destruct (match lastKey with Some k => negb (str_eq (MinHeap.key x) k) | None => true end).
  - destruct (IH (Some (MinHeap.key x))) as [Hle Heq].
    destruct (emit xs (Some (MinHeap.key x))) as [out d]. cbn [fst snd length] in *.
    destruct (MinHeap.value x) as [v|] eqn:Ev; cbn [length].
    + split; [lia|]. intros Hv. rewrite <- Heq; [lia|]. intros y Hy. apply Hv. by right.
    + split; [lia|]. intros Hv. exfalso. by apply (Hv x); [left|].
  - destruct (IH lastKey) as [Hle Heq].
    destruct (emit xs lastKey) as [out d]. cbn [fst snd length] in *.
    split; [lia|]. intros Hv. rewrite <- Heq; [lia|]. intros y Hy. apply Hv. by right.
Qed.

Lemma kWayMerge_good (tbs : list SSTable.t) :
  empties_last tbs ->
  exists xs mr,
    Compaction.kWayMerge tbs = Ok mr /\
    Compaction.entries mr = fst (emit xs None) /\
    Compaction.ms_duplicatesRemoved (Compaction.stats mr) = snd (emit xs None) /\
    Compaction.inputEntries (Compaction.stats mr) = length xs /\
    Compaction.outputEntries (Compaction.stats mr) = length (Compaction.entries mr) /\
    map entryOf xs ≡ₚ concat (map SSTable.entries tbs) /\
    (Forall (fun tb => StronglySorted key_le (SSTable.entries tb)) tbs ->
     StronglySorted item_le xs).
Proof.
  intros Hlast. unfold Compaction.kWayMerge.
  destruct (kWayMerge_init_spec tbs Hlast [] MinHeap.create) as (its & h & Hinit & Hinv & Hrem & Hsort).
  { split; [apply heap_ok_nil|done]. }
  simpl in Hinit. rewrite Hinit. cbn [mbind result_bind JS.bind].
  destruct (kWayMerge_init_fuel tbs 0 [] MinHeap.create) as [_ Hpot].
  specialize (Hpot its h Hinit). unfold potential at 2 in Hpot. simpl in Hpot.
  destruct (kWayMerge_loop_spec (S (length tbs + Compaction.totalEntries tbs)) its h [] None 0 Hinv)
    as (xs & h' & -> & Hxs & Hss & Hh').
  { rewrite totalEntries_sum. lia. }
  cbn [mbind result_bind JS.bind]. simpl in Hrem.
  assert (map entryOf xs ≡ₚ concat (map SSTable.entries tbs)) as Hperm.
  { by rewrite Hxs, Hrem. }
  exists xs. eexists. split; [reflexivity|]. cbn.
  split; [done|]. split; [done|]. split; [|split; [done|split; [done|]]].
  - rewrite totalEntries_sum.
    rewrite <- (length_map entryOf xs), Hperm.
    clear. induction tbs as [|tb tbs IH]; simpl; [done|]. by rewrite length_app, IH.
  - intros Htbs. apply Hss, Hsort; [constructor|done].
Qed.

Lemma elem_of_concat_entries (tbs : list SSTable.t) (e : Entry.t) :
  e ∈ concat (map SSTable.entries tbs) <-> exists tb, tb ∈ tbs /\ e ∈ SSTable.entries tb.
Proof.
  induction tbs as [|t tbs IH]; simpl.
  - split; [by intros ?%elem_of_nil|]. intros (tb & Htb & _). by apply elem_of_nil in Htb.
  - rewrite elem_of_app, IH. split.
    + intros [He|(tb & Htb & He)]; [exists t; split; [by left|done]|].
      exists tb. split; [by right|done].
    + intros (tb & Htb & He). apply elem_of_cons in Htb as [->|Htb]; [by left|].
      right. by exists tb.
Qed.

(** X14. The k-way merge of sorted tables, none without records before
    one with records: it returns; the keys of its output strictly
    increase, so no key occurs twice; no output record is a tombstone; and
    every output record is a record of one of the input tables, with its
    key, value and timestamp. *)
Theorem kWayMerge_output_sorted (tbs : list SSTable.t) :
  empties_last tbs ->
  Forall (fun tb => StronglySorted key_le (SSTable.entries tb)) tbs ->
  exists mr,
    Compaction.kWayMerge tbs = Ok mr /\
    StronglySorted key_lt (Compaction.entries mr) /\
    (forall e, e ∈ Compaction.entries mr ->
       Entry.value e <> None /\ exists tb, tb ∈ tbs /\ e ∈ SSTable.entries tb).
Proof.
  intros Hlast Hsorted.
  destruct (kWayMerge_good tbs Hlast) as (xs & mr & Hk & He & _ & _ & _ & Hperm & Hss).
  exists mr. split; [done|]. rewrite He. split.
  - apply emit_sorted; [by apply Hss|]. intros k Hk'. discriminate.
  - intros e Hin. destruct (emit_sound xs None e Hin) as [Hv (x & Hx & ->)].
    split; [done|]. apply elem_of_concat_entries. rewrite <- Hperm.
    apply list_elem_of_fmap. by exists x.
Qed.

(** X15. What the merge keeps and what it counts, for tables none of
    which without records stands before one with records: a key all of
    whose records in the input carry a value is a key of the output; the
    statistics report the number of input records and of output records,
    and output records plus duplicates removed are at most the input
    records, with equality when no input record is a tombstone. *)
Theorem kWayMerge_complete_counts (tbs : list SSTable.t) :
  empties_last tbs ->
  exists mr,
    Compaction.kWayMerge tbs = Ok mr /\
    (forall k,
       (exists tb e, tb ∈ tbs /\ e ∈ SSTable.entries tb /\ Entry.key e = k) ->
       (forall tb e, tb ∈ tbs -> e ∈ SSTable.entries tb -> Entry.key e = k ->
                     Entry.value e <> None) ->
       exists e, e ∈ Compaction.entries mr /\ Entry.key e = k) /\
    Compaction.inputEntries (Compaction.stats mr)
    = length (concat (map SSTable.entries tbs)) /\
    Compaction.outputEntries (Compaction.stats mr) = length (Compaction.entries mr) /\
    (Compaction.outputEntries (Compaction.stats mr)
     + Compaction.ms_duplicatesRemoved (Compaction.stats mr)
     <= Compaction.inputEntries (Compaction.stats mr))%nat /\
    ((forall tb e, tb ∈ tbs -> e ∈ SSTable.entries tb -> Entry.value e <> None) ->
     (Compaction.outputEntries (Compaction.stats mr)
      + Compaction.ms_duplicatesRemoved (Compaction.stats mr))%nat
     = Compaction.inputEntries (Compaction.stats mr)).
Proof.
  intros Hlast.
  destruct (kWayMerge_good tbs Hlast) as (xs & mr & Hk & He & Hd & Hin & Hout & Hperm & _).
  exists mr. split; [done|].
  assert (forall x, x ∈ xs -> exists tb, tb ∈ tbs /\ entryOf x ∈ SSTable.entries tb) as Hfrom.
  { intros x Hx. apply elem_of_concat_entries. rewrite <- Hperm.
    apply list_elem_of_fmap. by exists x. }
  split; [|split; [|split; [done|split]]].
  - intros k (tb & e & Htb & Hetb & Hek) Hval. rewrite He.
    apply emit_complete; [|done|].
    + intros x Hx Hxk. destruct (Hfrom x Hx) as (tb' & Htb' & Hx').
      apply (Hval tb' (entryOf x) Htb' Hx' Hxk).
    + assert (e ∈ map entryOf xs) as Hex.
      { rewrite Hperm. apply elem_of_concat_entries. by exists tb. }
      apply list_elem_of_fmap in Hex as (x & -> & Hx). by exists x.
  - by rewrite Hin, <- (length_map entryOf xs), Hperm.
  - rewrite Hout, He, Hd, Hin. apply emit_count.
  - intros Hval. rewrite Hout, He, Hd, Hin. apply emit_count.
    intros x Hx. destruct (Hfrom x Hx) as (tb' & Htb' & Hx'). apply (Hval tb' _ Htb' Hx').
Qed.

(** *** A table without records before a table with records *)

Lemma kWayMerge_init_general (tbs : list SSTable.t) :
  forall i its h,
    heap_ok (MinHeap.heap h) ->
    exists its' h',
      Compaction.kWayMerge_init tbs i its h = Ok (its', h') /\
      heap_ok (MinHeap.heap h') /\
      length its' = (length its + nonEmptyTables tbs)%nat /\
      (forall j tb, tbs !! j = Some tb -> SSTable.entries tb <> [] ->
         exists x, x ∈ MinHeap.heap h' /\ MinHeap.iteratorIndex x = (i + j)%nat) /\
      (forall x, x ∈ MinHeap.heap h -> x ∈ MinHeap.heap h').
Proof.
  induction tbs as [|tb tbs IH]; intros i its h Hok; cbn [Compaction.kWayMerge_init].
  { exists its, h. split; [done|]. split; [done|]. unfold nonEmptyTables. simpl.
    split; [lia|]. split; [|done]. intros j tb Hj. by rewrite lookup_nil in Hj. }
  unfold SSTable.getAllEntries, nonEmptyTables. cbn [List.filter].
  destruct (SSTable.entries tb) as [|e es] eqn:Ee.
  - destruct (IH (S i) its h Hok) as (its' & h' & -> & Hok' & Hlen & Htag & Hkeep).
    exists its', h'. split; [done|]. split; [done|]. simpl. split; [exact Hlen|].
    split; [|done]. intros [|j] t Hj Hne; simplify_eq/=.
    destruct (Htag j t Hj Hne) as (x & Hx & Hxi). exists x. split; [done|]. lia.
  - destruct (heap_insert_spec h (MinHeap.mkItem (Entry.key e) (Entry.value e)
                                    (Entry.timestamp e) i) Hok) as (h1 & -> & Hperm1 & Hok1).
    cbn [mbind result_bind JS.bind].
    destruct (IH (S i) (its ++ [Compaction.mkIterator (SSTable.id tb) (e :: es) 0]) h1 Hok1)
      as (its' & h' & -> & Hok' & Hlen & Htag & Hkeep).
    exists its', h'. split; [done|]. split; [done|]. split.
    { rewrite Hlen, length_app. simpl. unfold nonEmptyTables. lia. }
    split.
    + intros [|j] t Hj Hne; simplify_eq/=.
      * eexists. split; [apply Hkeep; rewrite Hperm1; by left|]. simpl. lia.
      * destruct (Htag j t Hj Hne) as (x & Hx & Hxi). exists x. split; [done|]. lia.
    + intros x Hx. apply Hkeep. rewrite Hperm1. by right.
Qed.

Lemma kWayMerge_loop_bad (fuel : nat) :
  forall its h merged lastKey dups,
    heap_ok (MinHeap.heap h) ->
    (exists x, x ∈ MinHeap.heap h /\ (length its <= MinHeap.iteratorIndex x)%nat) ->
    forall r, Compaction.kWayMerge_loop fuel its h merged lastKey dups <> Ok r.
Proof.
  induction fuel as [|fuel IH]; intros its h merged lastKey dups Hok (x & Hx & Hbad) r;
    cbn [Compaction.kWayMerge_loop].
  - destruct (MinHeap.size h =? 0)%nat eqn:Esz; [|done].
    apply Nat.eqb_eq in Esz. unfold MinHeap.size in Esz. apply nil_length_inv in Esz.
    rewrite Esz in Hx. by apply elem_of_nil in Hx.
  - destruct (MinHeap.size h =? 0)%nat eqn:Esz.
    { apply Nat.eqb_eq in Esz. unfold MinHeap.size in Esz. apply nil_length_inv in Esz.
      rewrite Esz in Hx. by apply elem_of_nil in Hx. }
    destruct (proj2 (minheap_extractMin_spec_aux h Hok)) as (m & h1 & -> & Hext & Hok1 & _).
    { intros E. rewrite E in Hx. by apply elem_of_nil in Hx. }
    cbn [mbind result_bind JS.bind]. unfold at_index at 1.
    destruct (its !! MinHeap.iteratorIndex m) as [it|] eqn:Eit; [|done].
    cbn [mbind result_bind JS.bind].
    assert (x ∈ MinHeap.heap h1) as Hx1.
    { rewrite Hext in Hx. apply elem_of_cons in Hx as [->|]; [|done].
      apply lookup_lt_Some in Eit. lia. }
    destruct (Compaction.it_entries _ !! _) as [nextEntry|].
    + match goal with |- context [MinHeap.insert h1 ?y] =>
        destruct (heap_insert_spec h1 y Hok1) as (h2 & -> & Hperm2 & Hok2) end.
      cbn [mbind result_bind JS.bind]. apply IH; [done|].
      exists x. split; [rewrite Hperm2; by right|]. by rewrite length_insert.
    + cbn [mbind result_bind JS.bind]. apply IH; [done|].
      exists x. split; [done|]. by rewrite length_insert.
Qed.

Lemma nonEmptyTables_le (tbs : list SSTable.t) : (nonEmptyTables tbs <= length tbs)%nat.
Proof.
  unfold nonEmptyTables. induction tbs as [|tb tbs IH]; simpl; [done|].
  destruct (negb _); simpl; lia.
Qed.

Lemma nonEmptyTables_app (l1 l2 : list SSTable.t) :
  nonEmptyTables (l1 ++ l2) = (nonEmptyTables l1 + nonEmptyTables l2)%nat.
Proof. unfold nonEmptyTables. by rewrite List.filter_app, length_app. Qed.

Lemma nonEmptyTables_lt (tbs : list SSTable.t) (i : nat) (a : SSTable.t) :
  tbs !! i = Some a -> SSTable.entries a = [] -> (nonEmptyTables tbs < length tbs)%nat.
Proof.
  intros Hi Ha. rewrite <- (take_drop_middle tbs i a Hi).
  rewrite nonEmptyTables_app, length_app.
  pose proof (nonEmptyTables_le (take i tbs)). pose proof (nonEmptyTables_le (drop (S i) tbs)).
  unfold nonEmptyTables at 2. cbn [List.filter]. rewrite Ha. cbn [length Nat.eqb negb].
  fold (nonEmptyTables (drop (S i) tbs)). simpl. lia.
Qed.

Lemma last_nonempty_table (tbs : list SSTable.t) :
  forall i j a b, (i < j)%nat -> tbs !! i = Some a -> tbs !! j = Some b ->
    SSTable.entries a = [] -> SSTable.entries b <> [] ->
    exists j' tb, tbs !! j' = Some tb /\ SSTable.entries tb <> [] /\
                  (nonEmptyTables tbs <= j')%nat.
Proof.
  induction tbs as [|t l IH] using rev_ind; intros i j a b Hij Ha Hb Hea Heb;
    [by rewrite lookup_nil in Ha|].
  pose proof (lookup_lt_Some _ _ _ Hb) as Hjl. rewrite length_app in Hjl. simpl in Hjl.
  assert (l !! i = Some a) as Ha'.
  { rewrite lookup_app_l in Ha by lia. done. }
  destruct (SSTable.entries t) as [|e es] eqn:Et.
  - assert (j < length l)%nat as Hj.
    { destruct (decide (j = length l)) as [->|]; [|lia].
      rewrite list_lookup_middle in Hb by done. injection Hb as <-. done. }
    rewrite lookup_app_l in Hb by done.
    destruct (IH i j a b Hij Ha' Hb Hea Heb) as (j' & tb & Hj' & Hne & Hle).
    exists j', tb. split; [by apply lookup_app_l_Some|]. split; [done|].
    rewrite nonEmptyTables_app. unfold nonEmptyTables at 2. cbn [List.filter].
    rewrite Et. simpl. lia.
  - exists (length l), t. split; [by apply list_lookup_middle|]. split; [by rewrite Et|].
    rewrite nonEmptyTables_app. unfold nonEmptyTables at 2. cbn [List.filter].
    rewrite Et. simpl. pose proof (nonEmptyTables_lt l i a Ha' Hea). lia.
Qed.

Lemma kWayMerge_throws (tbs : list SSTable.t) (i j : nat) (a b : SSTable.t) :
  (i < j)%nat -> tbs !! i = Some a -> tbs !! j = Some b ->
  SSTable.entries a = [] -> SSTable.entries b <> [] ->
  Compaction.kWayMerge tbs = TypeError.
Proof.
  intros Hij Ha Hb Hea Heb.
  destruct (last_nonempty_table tbs i j a b Hij Ha Hb Hea Heb) as (j' & tb & Hj' & Hne & Hle).
  pose proof (kWayMerge_fuel tbs) as Hfuel.
  unfold Compaction.kWayMerge in *.
  destruct (kWayMerge_init_general tbs 0 [] MinHeap.create heap_ok_nil)
    as (its & h & Hinit & Hok & Hlen & Htag & _).
  rewrite Hinit in *. cbn [mbind result_bind JS.bind] in *.
  destruct (Htag j' tb Hj' Hne) as (x & Hx & Hxi).
  pose proof (kWayMerge_loop_bad (S (length tbs + Compaction.totalEntries tbs)) its h [] None 0 Hok)
    as Hbad.
  destruct (Compaction.kWayMerge_loop _ its h [] None 0) as [r| |]; [|done|done].
  exfalso. apply (Hbad ltac:(exists x; split; [done|simpl in *; lia]) r). done.
Qed.

(** A merge that returns had no table without records before one with
    records. *)
Lemma kWayMerge_Ok_empties_last (tbs : list SSTable.t) (mr : Compaction.MergeResult) :
  Compaction.kWayMerge tbs = Ok mr -> empties_last tbs.
Proof.
  intros Hk i j a b Hij Ha Hb Hea.
  destruct (SSTable.entries b) as [|e es] eqn:Eb; [done|]. exfalso.
  rewrite (kWayMerge_throws tbs i j a b Hij Ha Hb Hea) in Hk; [done|]. by rewrite Eb.
Qed.

(** X16. When a table without records stands before a table with
    records in the input of the merge, the merge throws a TypeError: the
    heap elements carry the index of their table, the iterators are indexed
    by the tables that have records, and the element of the last table with
    records finds no iterator at its index. *)
Theorem kWayMerge_empty_table_first_throws (tbs : list SSTable.t) (i j : nat)
    (a b : SSTable.t) :
  (i < j)%nat -> tbs !! i = Some a -> tbs !! j = Some b ->
  SSTable.entries a = [] -> SSTable.entries b <> [] ->
  Compaction.kWayMerge tbs = TypeError.
Proof. apply kWayMerge_throws. Qed.

Lemma empties_last_nonempty (tbs : list SSTable.t) :
  Forall (fun tb => SSTable.entries tb <> []) tbs -> empties_last tbs.
Proof.
  intros Hall i j a b _ Ha _ Hea. rewrite Forall_forall in Hall.
  exfalso. apply (Hall a); [by eapply list_elem_of_lookup_2|done].
Qed.

Lemma kWayMerge_output_sorted_witness :
  exists mr,
    Compaction.kWayMerge
      [plainTable 1 [Entry.mk "a" (Some "1") 0; Entry.mk "c" None 0];
       plainTable 2 [Entry.mk "b" (Some "2") 0; Entry.mk "c" (Some "3") 0]] = Ok mr /\
    StronglySorted key_lt (Compaction.entries mr).
Proof.
  destruct (kWayMerge_output_sorted
              [plainTable 1 [Entry.mk "a" (Some "1") 0; Entry.mk "c" None 0];
               plainTable 2 [Entry.mk "b" (Some "2") 0; Entry.mk "c" (Some "3") 0]])
    as (mr & Hk & Hs & _).
  - apply empties_last_nonempty. repeat constructor; done.
  - repeat constructor.
  - by exists mr.
Defined.

Lemma kWayMerge_complete_counts_witness :
  exists mr,
    Compaction.kWayMerge
      [plainTable 1 [Entry.mk "a" (Some "1") 0; Entry.mk "c" (Some "0") 0];
       plainTable 2 [Entry.mk "b" (Some "2") 0; Entry.mk "c" (Some "3") 0]] = Ok mr /\
    (Compaction.outputEntries (Compaction.stats mr)
     + Compaction.ms_duplicatesRemoved (Compaction.stats mr))%nat = 4%nat.
Proof.
  destruct (kWayMerge_complete_counts
              [plainTable 1 [Entry.mk "a" (Some "1") 0; Entry.mk "c" (Some "0") 0];
               plainTable 2 [Entry.mk "b" (Some "2") 0; Entry.mk "c" (Some "3") 0]])
    as (mr & Hk & _ & Hin & _ & _ & Heq).
  - apply empties_last_nonempty. repeat constructor; done.
  - exists mr. split; [done|]. rewrite Heq; [by rewrite Hin|].
    intros tb e Htb He.
    repeat (apply elem_of_cons in Htb as [->|Htb];
            [cbn [plainTable SSTable.entries] in He;
             repeat (apply elem_of_cons in He as [->|He]; [done|]);
             by apply elem_of_nil in He|]).
    by apply elem_of_nil in Htb.
Defined.

Lemma kWayMerge_empty_table_first_throws_witness :
  Compaction.kWayMerge [plainTable 1 []; plainTable 2 [Entry.mk "a" (Some "1") 0]] = TypeError.
Proof.
  apply (kWayMerge_empty_table_first_throws _ 0 1 (plainTable 1 [])
           (plainTable 2 [Entry.mk "a" (Some "1") 0])); [lia|reflexivity|reflexivity|reflexivity|done].
Defined.

(** ** Compaction: key ranges *)

Lemma falsy_false (x : option string) :
  Compaction.falsy x = false <-> exists s, x = Some s /\ s <> EmptyString.
Proof.
  destruct x as [s|]; simpl.
  - destruct s; simpl; split; try done.
    + by intros (s' & [= <-] & Hne).
    + intros _. by eexists.
  - split; [done|]. by intros (s & ? & _).
Qed.

(** X17. Overlap of key ranges. With four bounds that are neither null
    nor the empty string and each range in order, [rangesOverlap] holds
    exactly when some key lies in both ranges; the test is symmetric; and a
    range one of whose bounds is null or the empty string overlaps no
    range, itself included. *)
Theorem rangesOverlap_spec (r1 r2 : SSTable.KeyRange) :
  Compaction.rangesOverlap r1 r2 = Compaction.rangesOverlap r2 r1 /\
  (Compaction.falsy (SSTable.min r1) = true \/ Compaction.falsy (SSTable.max r1) = true ->
   Compaction.rangesOverlap r1 r2 = false /\ Compaction.rangesOverlap r1 r1 = false) /\
  (forall min1 max1 min2 max2,
     r1 = SSTable.mkKeyRange (Some min1) (Some max1) ->
     r2 = SSTable.mkKeyRange (Some min2) (Some max2) ->
     min1 <> EmptyString -> max1 <> EmptyString -> min2 <> EmptyString -> max2 <> EmptyString ->
     str_le min1 max1 = true -> str_le min2 max2 = true ->
     (Compaction.rangesOverlap r1 r2 = true <->
      exists k, str_le min1 k = true /\ str_le k max1 = true /\
                str_le min2 k = true /\ str_le k max2 = true)).
Proof.
  split; [|split].
  - unfold Compaction.rangesOverlap.
    destruct (Compaction.falsy (SSTable.min r1)), (Compaction.falsy (SSTable.max r1)),
      (Compaction.falsy (SSTable.min r2)), (Compaction.falsy (SSTable.max r2)); simpl; try done.
    destruct (SSTable.min r1), (SSTable.max r1), (SSTable.min r2), (SSTable.max r2); try done.
    by rewrite orb_comm.
  - unfold Compaction.rangesOverlap. intros [-> | ->]; simpl; [done|].
    by destruct (Compaction.falsy (SSTable.min r1)).
  - intros min1 max1 min2 max2 -> -> H1 H2 H3 H4 Ho1 Ho2.
    unfold Compaction.rangesOverlap. simpl.
    assert (forall s, s <> EmptyString -> (String.length s =? 0)%nat = false) as Hlen.
    { intros [|c s] Hs; [done|done]. }
    rewrite !Hlen by done. simpl. unfold str_le, str_lt in *.
    rewrite negb_true_iff in *. rewrite orb_false_iff. split.
    + intros [Ha Hb].
      destruct (String.ltb min1 min2) eqn:E.
      * exists min2. rewrite !negb_true_iff. repeat split; try done.
        -- by apply (str_lt_asym min1 min2).
        -- apply str_lt_irrefl.
      * exists min1. rewrite !negb_true_iff. repeat split; try done.
        apply str_lt_irrefl.
    + intros (k & Ha & Hb & Hc & Hd). rewrite !negb_true_iff in *. split.
      * change (str_lt max1 min2 = false). apply (str_le_trans _ k _); [exact Hc|exact Hb].
      * change (str_lt max2 min1 = false). apply (str_le_trans _ k _); [exact Ha|exact Hd].
Qed.

Lemma rangesOverlap_spec_witness :
  Compaction.rangesOverlap (SSTable.mkKeyRange (Some "a") (Some "m"))
    (SSTable.mkKeyRange (Some "k") (Some "z")) = true.
Proof.
  apply (proj2 (proj2 (rangesOverlap_spec (SSTable.mkKeyRange (Some "a") (Some "m"))
                         (SSTable.mkKeyRange (Some "k") (Some "z"))))
           "a" "m" "k" "z"); try done.
  exists "k". done.
Defined.

(** ** The level manager: which table answers a search *)

Lemma hasKey_false (k : string) (tb : SSTable.t) :
  hasKey k tb = false <-> forall e, e ∈ SSTable.entries tb -> Entry.key e <> k.
Proof.
  unfold hasKey. split.
  - intros H e He Hk. apply not_true_iff_false in H. apply H, existsb_exists.
    exists e. split; [by apply list_elem_of_In|]. by apply str_eq_true.
  - intros H. apply not_true_iff_false. intros (e & He & Hk)%existsb_exists.
    apply (H e); [by apply list_elem_of_In|by apply str_eq_true].
Qed.

(** Skipping a table by its range hides no record. *)
Lemma range_skip_sound (tb : SSTable.t) (k : string) :
  table_built tb -> SSTable.containsKeyInRange tb k = false -> hasKey k tb = false.
Proof.
  intros ([Hs _] & _ & Hr) Hc. apply hasKey_false. intros e He Hk. subst k.
  unfold SSTable.containsKeyInRange in Hc. rewrite Hr in Hc. unfold SSTable.getKeyRange in Hc.
  simpl in Hc.
  destruct (SSTable.entries tb) as [|x l] eqn:E; [by apply elem_of_nil in He|].
  rewrite <- E in *.
  assert ((length (SSTable.entries tb) =? 0)%nat = false) as Hl by (by rewrite E).
  rewrite Hl in Hc.
  destruct (head (SSTable.entries tb)) as [lo|] eqn:Hh; [|by rewrite E in Hh].
  destruct (last (SSTable.entries tb)) as [hi|] eqn:Hla; [|by apply last_None in Hla; congruence].
  simpl in Hc. apply andb_false_iff in Hc as [Hc|Hc].
  - pose proof (sorted_head_le _ lo e Hs Hh He) as H. unfold key_le, str_lt in H.
    unfold str_ge in Hc. by rewrite H in Hc.
  - pose proof (sorted_le_last _ hi e Hs Hla He) as H. unfold key_le, str_lt in H.
    unfold str_le in Hc. by rewrite H in Hc.
Qed.

(** What [get] on a built table says about its records. *)
Lemma get_built (tb : SSTable.t) (k : string) :
  table_built tb ->
  exists r, SSTable.get tb k = Ok r /\
    (SSTable.found r = false -> hasKey k tb = false) /\
    (SSTable.found r = true ->
     exists e, e ∈ SSTable.entries tb /\ Entry.key e = k /\
               SSTable.value r = Some (Entry.value e)).
Proof.
  intros (Hwf & Hb & _). destruct (get_spec tb k Hwf) as (r & Hg & Hf & Hnf).
  exists r. split; [done|]. split.
  - intros Hr. destruct (Hnf Hr) as (_ & Hsaved & Hno). apply hasKey_false.
    destruct (SSTable.bloomFilterSaved r) eqn:Es; [|by apply Hno].
    intros e He Hk. subst k. symmetry in Hsaved. apply negb_true_iff in Hsaved.
    rewrite Hb, (buildBloomFilter_covers _ e He) in Hsaved. done.
  - intros Hr. by destruct (Hf Hr) as (_ & e & He & Hk & Hv); exists e.
Qed.

Lemma search_tables_spec (level : nat) (k : string) (tables : list SSTable.t) :
  Forall table_built tables ->
  forall path, exists hit path',
    SSTableManager.search_tables level k tables path = Ok (hit, path') /\
    (length path <= length path' <= length path + length tables)%nat /\
    match hit with
    | None => Forall (fun tb => hasKey k tb = false) tables
    | Some v =>
      exists pre tb post e,
        tables = pre ++ tb :: post /\ Forall (fun t => hasKey k t = false) pre /\
        e ∈ SSTable.entries tb /\ Entry.key e = k /\ v = Entry.value e
    end.
Proof.
  induction 1 as [|tb tables Htb _ IH]; intros path; cbn [SSTableManager.search_tables].
  { exists None, path. split; [done|]. split; [simpl; lia|constructor]. }
  assert (forall path0, (length path <= length path0 <= S (length path))%nat ->
            hasKey k tb = false ->
            exists hit path',
              SSTableManager.search_tables level k tables path0 = Ok (hit, path') /\
              (length path <= length path' <= length path + length (tb :: tables))%nat /\
              match hit with
              | None => Forall (fun tb => hasKey k tb = false) (tb :: tables)
              | Some v =>
                exists pre tb0 post e,
                  tb :: tables = pre ++ tb0 :: post /\ Forall (fun t => hasKey k t = false) pre /\
                  e ∈ SSTable.entries tb0 /\ Entry.key e = k /\ v = Entry.value e
              end) as Hskip.
  { intros path0 Hp0 Hno. destruct (IH path0) as (hit & path' & -> & Hlen & Hhit).
    exists hit, path'. split; [done|]. split; [simpl; lia|].
    destruct hit as [v|]; [|by constructor].
    destruct Hhit as (pre & tb0 & post & e & -> & Hpre & He & Hk & Hv).
    exists (tb :: pre), tb0, post, e. split; [done|]. split; [by constructor|done]. }
  destruct ((0 <? level)%nat && negb (SSTable.containsKeyInRange tb k)) eqn:Eskip.
  - apply Hskip; [lia|]. apply andb_true_iff in Eskip as [_ Hc%negb_true_iff].
    by apply range_skip_sound.
  - destruct (get_built tb k Htb) as (r & -> & Hnf & Hf). cbn [mbind result_bind JS.bind].
    destruct (SSTable.found r) eqn:Er.
    + destruct (Hf eq_refl) as (e & He & Hk & Hv).
      eexists (Some _), _. split; [reflexivity|]. split.
      { rewrite length_app. simpl. lia. }
      exists [], tb, tables, e. split; [done|]. split; [constructor|].
      split; [done|]. split; [done|]. by rewrite Hv.
    + apply Hskip; [rewrite length_app; simpl; lia|]. by apply Hnf.
Qed.

Lemma search_levels_spec (m : SSTableManager.t) (k : string) (levels : list nat) :
  (forall l tb, tb ∈ SSTableManager.getLevel m l -> table_built tb) ->
  forall path, exists r,
    SSTableManager.search_levels m k levels path = Ok r /\
    (length (SSTableManager.searchPath r)
     <= length path + length (concat (map (SSTableManager.getLevel m) levels)))%nat /\
    if SSTableManager.found r then
      exists pre tb post e,
        concat (map (SSTableManager.getLevel m) levels) = pre ++ tb :: post /\
        Forall (fun t => hasKey k t = false) pre /\
        e ∈ SSTable.entries tb /\ Entry.key e = k /\
        SSTableManager.value r = Some (Entry.value e)
    else
      SSTableManager.value r = None /\
      Forall (fun tb => hasKey k tb = false) (concat (map (SSTableManager.getLevel m) levels)).
Proof.
  intros Hbuilt. induction levels as [|level rest IH]; intros path;
    cbn [SSTableManager.search_levels].
  { eexists. split; [reflexivity|]. simpl. split; [lia|]. split; [done|constructor]. }
  destruct (search_tables_spec level k (SSTableManager.getLevel m level)
              ltac:(apply Forall_forall; intros tb Htb; by apply (Hbuilt level)) path)
    as (hit & path' & -> & Hlen & Hhit).
  cbn [mbind result_bind JS.bind]. cbn [map concat]. destruct hit as [v|].
  - eexists. split; [reflexivity|]. cbn. split; [rewrite length_app; lia|].
    destruct Hhit as (pre & tb & post & e & Hsplit & Hpre & He & Hk & Hv).
    exists pre, tb, (post ++ concat (map (SSTableManager.getLevel m) rest)), e.
    split; [rewrite Hsplit; by rewrite <- app_assoc|]. split; [done|]. split; [done|].
    split; [done|]. by rewrite Hv.
  - destruct (IH path') as (r & -> & Hlen' & Hr). exists r. split; [done|].
    split; [rewrite length_app; lia|].
    destruct (SSTableManager.found r).
    + destruct Hr as (pre & tb & post & e & Hsplit & Hpre & He & Hk & Hv).
      exists (SSTableManager.getLevel m level ++ pre), tb, post, e.
      split; [rewrite Hsplit; by rewrite <- app_assoc|].
      split; [by apply Forall_app|]. done.
    + destruct Hr as [Hv Hall]. split; [done|]. by apply Forall_app.
Qed.

Lemma sortedLevels_spec (m : SSTableManager.t) :
  Sorted Nat.le (SSTableManager.sortedLevels m) /\
  NoDup (SSTableManager.sortedLevels m) /\
  forall l, l ∈ SSTableManager.sortedLevels m <-> is_Some (SSTableManager.levels m !! l).
Proof.
  unfold SSTableManager.sortedLevels. split; [|split].
  - apply Sorted_merge_sort. intros x y. lia.
  - rewrite merge_sort_Permutation. apply NoDup_fst_map_to_list.
  - intros l. rewrite merge_sort_Permutation.
    change (map fst (map_to_list (SSTableManager.levels m)))
      with ((map_to_list (SSTableManager.levels m)).*1).
    rewrite list_elem_of_fmap. split.
    + intros ([l' tbs] & -> & Hin). apply elem_of_map_to_list in Hin. by eexists.
    + intros [tbs Hl]. exists (l, tbs). split; [done|]. by apply elem_of_map_to_list.
Qed.

Lemma allTables_elem (m : SSTableManager.t) (tb : SSTable.t) :
  tb ∈ allTables m <-> exists l, tb ∈ SSTableManager.getLevel m l.
Proof.
  unfold allTables. split.
  - generalize (SSTableManager.sortedLevels m). intros ls.
    induction ls as [|l ls IH]; simpl; [by intros ?%elem_of_nil|].
    intros [H|H]%elem_of_app; [by exists l|by apply IH].
  - intros [l Hl].
    assert (l ∈ SSTableManager.sortedLevels m) as Hin.
    { apply sortedLevels_spec. unfold SSTableManager.getLevel in Hl.
      destruct (SSTableManager.levels m !! l); [done|]. by apply elem_of_nil in Hl. }
    revert Hin. generalize (SSTableManager.sortedLevels m). intros ls Hin.
    induction ls as [|l' ls IH]; simpl; [by apply elem_of_nil in Hin|].
    apply elem_of_app. apply elem_of_cons in Hin as [->|Hin]; [by left|right; by apply IH].
Qed.

(** X18. Which table answers [search]: the manager visits the levels
    in ascending order and the tables of a level in array order, and
    returns the value of the first table on that way that holds the key;
    it finds nothing exactly when no table of any level holds the key. A
    table skipped by its key range or by its bloom filter never holds the
    key. The search path has at most one step per table. *)
Theorem manager_search_first_table (m : SSTableManager.t) (k : string) :
  (forall l tb, tb ∈ SSTableManager.getLevel m l -> table_built tb) ->
  exists r,
    SSTableManager.search m k = Ok r /\
    (SSTableManager.sstablesChecked r <= length (allTables m))%nat /\
    (SSTableManager.found r = true ->
     exists pre tb post e,
       allTables m = pre ++ tb :: post /\
       Forall (fun t => hasKey k t = false) pre /\
       e ∈ SSTable.entries tb /\ Entry.key e = k /\
       SSTableManager.value r = Some (Entry.value e)) /\
    (SSTableManager.found r = false ->
     SSTableManager.value r = None /\
     forall l tb, tb ∈ SSTableManager.getLevel m l -> hasKey k tb = false).
Proof.
  intros Hbuilt. unfold SSTableManager.search.
  destruct (search_levels_spec m k (SSTableManager.sortedLevels m) Hbuilt [])
    as (r & -> & Hlen & Hr).
  exists r. split; [done|]. split; [exact Hlen|]. fold (allTables m) in Hr.
  destruct (SSTableManager.found r).
  - split; [by intros _|done].
  - split; [done|]. intros _. destruct Hr as [Hv Hall]. split; [done|].
    intros l tb Htb. rewrite Forall_forall in Hall. apply Hall.
    apply allTables_elem. by exists l.
Qed.

(** ** Invariants of the manager and of the tree *)

Lemma key_lt_le (es : list Entry.t) :
  StronglySorted key_lt es -> StronglySorted key_le es.
Proof.
  induction 1 as [|x l Hs IH Hall]; constructor; [done|].
  eapply Forall_impl; [exact Hall|]. intros y Hy. unfold key_lt, key_le in *.
  by apply str_lt_asym.
Qed.

Lemma filter_sublist {A} (f : A -> bool) (l : list A) : List.filter f l `sublist_of` l.
Proof.
  induction l as [|x l IH]; simpl; [constructor|].
  destruct (f x); by constructor.
Qed.

Lemma manager_ok_create : manager_ok SSTableManager.create.
Proof.
  assert (forall l, SSTableManager.getLevel SSTableManager.create l = []) as H.
  { intros l. unfold SSTableManager.getLevel. simpl. by rewrite lookup_empty. }
  split; [|split].
  - intros l tb Htb. rewrite H in Htb. by apply elem_of_nil in Htb.
  - intros l. rewrite H. constructor.
  - intros l1 l2 tb1 tb2 _ Htb. rewrite H in Htb. by apply elem_of_nil in Htb.
Qed.

(** Taking tables away keeps the invariant. *)
Lemma manager_ok_sub (m m' : SSTableManager.t) :
  manager_ok m -> SSTableManager.nextId m' = SSTableManager.nextId m ->
  (forall l, SSTableManager.getLevel m' l `sublist_of` SSTableManager.getLevel m l) ->
  manager_ok m'.
Proof.
  intros (HT & HN & HX) Hid Hsub. split; [|split].
  - intros l tb Htb. rewrite Hid. apply HT. by eapply elem_of_sublist; [|apply Hsub].
  - intros l. eapply sublist_NoDup; [apply HN|].
    change (map SSTable.id ?x) with (SSTable.id <$> x). apply fmap_sublist, Hsub.
  - intros l1 l2 tb1 tb2 Hne H1 H2. apply (HX l1 l2); [done| |].
    + by eapply elem_of_sublist; [|apply Hsub].
    + by eapply elem_of_sublist; [|apply Hsub].
Qed.

Lemma createSSTable_ok (m : SSTableManager.t) (l : nat) (es : list Entry.t) (w : World) :
  manager_ok m -> StronglySorted key_lt es ->
  exists tb m',
    SSTableManager.createSSTable m l es w = Ok (tb, m', snd (Date_now w)) /\
    manager_ok m' /\
    SSTable.entries tb = es /\ SSTable.id tb = SSTableManager.nextId m /\
    SSTableManager.nextId m' = S (SSTableManager.nextId m) /\
    (forall l', SSTableManager.getLevel m' l'
                = if decide (l = l') then SSTableManager.getLevel m l ++ [tb]
                  else SSTableManager.getLevel m l').
Proof.
  intros (HT & HN & HX) Hs. unfold SSTableManager.createSSTable.
  destruct (create_spec (SSTableManager.nextId m) l es None w)
    as (tb & -> & Hid & Hlv & He & Hb & Hr & Hwf).
  cbn [mbind result_bind JS.bind]. rewrite (sort_sorted_id es (key_lt_le es Hs)) in *.
  eexists _, _. split; [reflexivity|].
  assert (forall l', SSTableManager.getLevel
                       (SSTableManager.addSSTable
                          {| SSTableManager.levels := SSTableManager.levels m;
                             SSTableManager.nextId := S (SSTableManager.nextId m) |} l tb) l'
                     = if decide (l = l') then SSTableManager.getLevel m l ++ [tb]
                       else SSTableManager.getLevel m l') as Hlevels.
  { intros l'. by rewrite getLevel_addSSTable. }
  split; [|split; [done|split; [done|split; [done|exact Hlevels]]]].
  assert (table_built tb /\ StronglySorted key_lt (SSTable.entries tb) /\
          (SSTable.id tb < S (SSTableManager.nextId m))%nat /\ SSTable.level tb = l) as Hnew.
  { split; [|split; [by rewrite He|split; [lia|done]]].
    split; [done|]. split; [by rewrite Hb, He|by rewrite Hr, He]. }
  split; [|split].
  - intros l' t Ht. rewrite Hlevels in Ht.
    change (SSTableManager.nextId (SSTableManager.addSSTable _ l tb))
      with (S (SSTableManager.nextId m)).
    case_decide as E.
    + subst l'. apply elem_of_app in Ht as [Ht|Ht].
      * destruct (HT l t Ht) as (? & ? & ? & ?). split; [done|]. split; [done|]. split; [lia|done].
      * apply list_elem_of_singleton in Ht as ->. exact Hnew.
    + destruct (HT l' t Ht) as (? & ? & ? & ?). split; [done|]. split; [done|]. split; [lia|done].
  - intros l'. rewrite Hlevels. case_decide as E; [|apply HN].
    rewrite map_app. apply NoDup_app. split; [apply HN|]. split; [|by apply NoDup_singleton].
    intros i Hi Hi'. apply list_elem_of_singleton in Hi'. subst i.
    apply list_elem_of_fmap in Hi as (t & Hti & Ht). destruct (HT l t Ht) as (_ & _ & Hlt & _).
    simpl in Hti. lia.
  - intros l1 l2 tb1 tb2 Hne. rewrite !Hlevels. intros H1 H2.
    assert (forall l' t, t ∈ SSTableManager.getLevel m l' -> SSTable.id t <> SSTable.id tb) as Hold.
    { intros l' t Ht. destruct (HT l' t Ht) as (_ & _ & Hlt & _). lia. }
    destruct (decide (l = l1)) as [->|E1].
    + rewrite decide_False in H2 by done.
      apply elem_of_app in H1 as [H1|H1]; [by apply (HX l1 l2)|].
      apply list_elem_of_singleton in H1 as ->. intros Heq. by apply (Hold l2 tb2 H2).
    + destruct (decide (l = l2)) as [->|E3].
      * apply elem_of_app in H2 as [H2|H2]; [by apply (HX l1 l2)|].
        apply list_elem_of_singleton in H2 as ->. by apply (Hold l1).
      * by apply (HX l1 l2).
Qed.

Lemma merge_inputs_sorted (m : SSTableManager.t) (src tgt : list SSTable.t) (l1 l2 : nat) :
  manager_ok m ->
  src `sublist_of` SSTableManager.getLevel m l1 ->
  tgt `sublist_of` SSTableManager.getLevel m l2 ->
  Forall (fun tb => StronglySorted key_le (SSTable.entries tb)) (src ++ tgt).
Proof.
  intros (HT & _ & _) H1 H2. apply Forall_app. split; apply Forall_forall; intros tb Htb.
  - destruct (HT l1 tb) as (_ & Hs & _); [by eapply elem_of_sublist|]. by apply key_lt_le.
  - destruct (HT l2 tb) as (_ & Hs & _); [by eapply elem_of_sublist|]. by apply key_lt_le.
Qed.

(** What a compaction does to the manager and to the engine's record. *)
Lemma compactLevel_effect (c : Compaction.t) (m : SSTableManager.t) (src tgt : nat) (w : World)
    (r : Compaction.Result) (c' : Compaction.t) (m' : SSTableManager.t) (w' : World) :
  manager_ok m -> SSTableManager.getLevel m src <> [] ->
  Compaction.compactLevel c m src tgt w = Ok (r, c', m', w') ->
  let source := SSTableManager.getLevel m src in
  let overlapping :=
    Compaction.findOverlappingSSTables source (SSTableManager.getLevel m tgt) in
  let kept :=
    List.filter (fun tb => negb (Compaction.includes overlapping tb))
      (SSTableManager.getLevel m tgt) in
  exists mr tb rec,
    Compaction.kWayMerge (source ++ overlapping) = Ok mr /\
    r = Compaction.Success rec /\
    SSTable.entries tb = Compaction.entries mr /\
    StronglySorted key_lt (Compaction.entries mr) /\
    (forall e, e ∈ Compaction.entries mr ->
       Entry.value e <> None /\ exists t, t ∈ source ++ overlapping /\ e ∈ SSTable.entries t) /\
    SSTable.id tb = SSTableManager.nextId m /\
    SSTableManager.nextId m' = S (SSTableManager.nextId m) /\
    (forall l, SSTableManager.getLevel m' l
               = if decide (tgt = l) then kept ++ [tb]
                 else if decide (src = l) then [] else SSTableManager.getLevel m l) /\
    manager_ok m' /\
    Compaction.compactionHistory c' = Compaction.compactionHistory c ++ [rec] /\
    Compaction.totalCompactions c' = S (Compaction.totalCompactions c) /\
    Compaction.id rec = Compaction.totalCompactions c /\
    Compaction.sourceLevel rec = src /\ Compaction.targetLevel rec = tgt /\
    Compaction.inputSSTables rec = (length source + length overlapping)%nat /\
    Compaction.outputSSTables rec = 1%nat /\
    Compaction.mergeStats rec = Compaction.stats mr.
Proof.
  intros Hok Hsrc Hc source overlapping kept. unfold Compaction.compactLevel in Hc.
  fold source in Hc. fold overlapping in Hc. fold kept in Hc.
  destruct (length source =? 0)%nat eqn:El.
  { apply Nat.eqb_eq, nil_length_inv in El. done. }
  destruct (Compaction.kWayMerge (source ++ overlapping)) as [mr| |] eqn:Ek;
    cbn [mbind result_bind JS.bind] in Hc; [|done|done].
  assert (Forall (fun tb => StronglySorted key_le (SSTable.entries tb)) (source ++ overlapping))
    as Hsorted.
  { apply (merge_inputs_sorted m _ _ src tgt Hok); [done|]. apply filter_sublist. }
  pose proof (kWayMerge_Ok_empties_last _ _ Ek) as Hlast.
  destruct (kWayMerge_good _ Hlast) as (xs & mr0 & Hk0 & He & _ & _ & _ & Hperm & Hss).
  rewrite Ek in Hk0. injection Hk0 as <-.
  assert (StronglySorted key_lt (Compaction.entries mr)) as Hstrict.
  { rewrite He. apply emit_sorted; [by apply Hss|]. intros k Hk'. discriminate. }
  set (m3 := fold_left (fun mm tb => SSTableManager.addSSTable mm tgt tb) kept
               (SSTableManager.clearLevel (SSTableManager.clearLevel m src) tgt)) in *.
  assert (forall l, SSTableManager.getLevel m3 l
                    = if decide (tgt = l) then kept
                      else if decide (src = l) then [] else SSTableManager.getLevel m l) as Hm3.
  { intros l. subst m3. rewrite getLevel_fold_addSSTable.
    repeat rewrite getLevel_clearLevel. repeat case_decide; simplify_eq; done. }
  assert (SSTableManager.nextId m3 = SSTableManager.nextId m) as Hid3.
  { subst m3.
    assert (forall (ks : list SSTable.t) mm,
              SSTableManager.nextId
                (fold_left (fun mm tb => SSTableManager.addSSTable mm tgt tb) ks mm)
              = SSTableManager.nextId mm) as H.
    { induction ks as [|t k IH]; intros mm; simpl; [done|]. by rewrite IH. }
    by rewrite H. }
  assert (manager_ok m3) as Hok3.
  { apply (manager_ok_sub m m3 Hok); [|intros l; rewrite Hm3].
    - rewrite Hid3. done.
    - case_decide as E1; [subst l; apply filter_sublist|].
      case_decide; [apply sublist_nil_l|done]. }
  destruct (createSSTable_ok m3 tgt (Compaction.entries mr) w Hok3 Hstrict)
    as (tb & m4 & Hcr & Hok4 & Hent & Hidtb & Hid4 & Hlv4).
  rewrite Hcr in Hc. cbn [mbind result_bind JS.bind] in Hc. unfold Date_now in Hc.
  injection Hc as <- <- <- <-.
  exists mr, tb. eexists. split; [done|]. split; [reflexivity|]. split; [done|].
  split; [done|]. split.
  { intros e Hin. rewrite He in Hin. destruct (emit_sound xs None e Hin) as [Hv (x & Hx & ->)].
    split; [done|]. apply elem_of_concat_entries. rewrite <- Hperm.
    apply list_elem_of_fmap. by exists x. }
  split; [by rewrite Hidtb, Hid3|]. split; [by rewrite Hid4, Hid3|]. split.
  { intros l. rewrite Hlv4. repeat rewrite Hm3. repeat case_decide; simplify_eq; done. }
  split; [done|]. cbn. rewrite length_app. repeat split; done.
Qed.

Lemma compactLevel_empty (c : Compaction.t) (m : SSTableManager.t) (src tgt : nat) (w : World) :
  SSTableManager.getLevel m src = [] ->
  Compaction.compactLevel c m src tgt w
  = Ok (Compaction.Failure ("No SSTables at level " +:+ NilZero.string_of_uint (Nat.to_uint src)),
        c, m, w).
Proof. intros H. unfold Compaction.compactLevel. by rewrite H. Qed.

Lemma compactLevel_ok (c : Compaction.t) (m : SSTableManager.t) (src tgt : nat) (w : World)
    (r : Compaction.Result) (c' : Compaction.t) (m' : SSTableManager.t) (w' : World) :
  manager_ok m -> Compaction.compactLevel c m src tgt w = Ok (r, c', m', w') ->
  manager_ok m' /\
  (forall l tb e, tb ∈ SSTableManager.getLevel m' l -> e ∈ SSTable.entries tb ->
     exists l0 tb0, tb0 ∈ SSTableManager.getLevel m l0 /\ e ∈ SSTable.entries tb0).
Proof.
  intros Hok Hc. destruct (SSTableManager.getLevel m src) as [|s0 rest] eqn:Es.
  { rewrite (compactLevel_empty c m src tgt w Es) in Hc. injection Hc as <- <- <- <-.
    split; [done|]. intros l tb e Htb He. by exists l, tb. }
  destruct (compactLevel_effect c m src tgt w r c' m' w' Hok ltac:(by rewrite Es) Hc)
    as (mr & tb & rec & _ & _ & Hent & _ & Hfrom & _ & _ & Hlv & Hok' & _).
  split; [done|]. intros l t e Ht He. rewrite Hlv in Ht.
  assert (forall t0, t0 ∈ Compaction.findOverlappingSSTables (SSTableManager.getLevel m src)
                            (SSTableManager.getLevel m tgt) ->
                     t0 ∈ SSTableManager.getLevel m tgt) as Hov.
  { intros t0 H0. eapply elem_of_sublist; [exact H0|apply filter_sublist]. }
  case_decide as E1.
  - apply elem_of_app in Ht as [Ht|Ht].
    + exists tgt, t. split; [|done]. eapply elem_of_sublist; [exact Ht|apply filter_sublist].
    + apply list_elem_of_singleton in Ht as ->. rewrite Hent in He.
      destruct (Hfrom e He) as (_ & t0 & Ht0 & He0).
      apply elem_of_app in Ht0 as [Ht0|Ht0]; [by exists src, t0|].
      exists tgt, t0. split; [by apply Hov|done].
  - case_decide as E2; [by apply elem_of_nil in Ht|]. by exists l, t.
Qed.

Lemma runAutoCompaction_loop_ok (levels : list nat) :
  forall c m w results rs c' m' w',
    manager_ok m -> StronglySorted lt levels ->
    Compaction.runAutoCompaction_loop levels c m w results = Ok (rs, c', m', w') ->
    manager_ok m' /\
    (forall l tb e, tb ∈ SSTableManager.getLevel m' l -> e ∈ SSTable.entries tb ->
       exists l0 tb0, tb0 ∈ SSTableManager.getLevel m l0 /\ e ∈ SSTable.entries tb0) /\
    (forall l, l ∈ levels ->
       (length (SSTableManager.getLevel m' l) < Compaction.threshold l)%nat) /\
    (forall l, Forall (fun l' => (l < l')%nat) levels ->
       SSTableManager.getLevel m' l = SSTableManager.getLevel m l) /\
    (exists new, rs = results ++ new /\
       Compaction.compactionHistory c' = Compaction.compactionHistory c ++ new /\
       Compaction.totalCompactions c' = (Compaction.totalCompactions c + length new)%nat).
Proof.
  induction levels as [|level rest IH]; intros c m w results rs c' m' w' Hok Hsorted;
    cbn [Compaction.runAutoCompaction_loop].
  { intros [= <- <- <- <-]. split; [done|]. split; [by intros l tb e ? ?; exists l, tb|].
    split; [by intros l ?%elem_of_nil|]. split; [done|].
    exists []. by rewrite !app_nil_r, Nat.add_0_r. }
  apply StronglySorted_cons in Hsorted as [Hlt Hsorted].
  assert (forall c1 m1 w1 res1 new1,
            manager_ok m1 ->
            (forall l tb e, tb ∈ SSTableManager.getLevel m1 l -> e ∈ SSTable.entries tb ->
               exists l0 tb0, tb0 ∈ SSTableManager.getLevel m l0 /\ e ∈ SSTable.entries tb0) ->
            (length (SSTableManager.getLevel m1 level) < Compaction.threshold level)%nat ->
            (forall l, (l < level)%nat ->
               SSTableManager.getLevel m1 l = SSTableManager.getLevel m l) ->
            res1 = results ++ new1 ->
            Compaction.compactionHistory c1 = Compaction.compactionHistory c ++ new1 ->
            Compaction.totalCompactions c1 = (Compaction.totalCompactions c + length new1)%nat ->
            Compaction.runAutoCompaction_loop rest c1 m1 w1 res1 = Ok (rs, c', m', w') ->
            manager_ok m' /\
            (forall l tb e, tb ∈ SSTableManager.getLevel m' l -> e ∈ SSTable.entries tb ->
               exists l0 tb0, tb0 ∈ SSTableManager.getLevel m l0 /\ e ∈ SSTable.entries tb0) /\
            (forall l, l ∈ level :: rest ->
               (length (SSTableManager.getLevel m' l) < Compaction.threshold l)%nat) /\
            (forall l, Forall (fun l' => (l < l')%nat) (level :: rest) ->
               SSTableManager.getLevel m' l = SSTableManager.getLevel m l) /\
            (exists new, rs = results ++ new /\
               Compaction.compactionHistory c' = Compaction.compactionHistory c ++ new /\
               Compaction.totalCompactions c' = (Compaction.totalCompactions c + length new)%nat))
    as Hstep.
  { intros c1 m1 w1 res1 new1 Hok1 Hfrom1 Hthr1 Hlow1 Hres1 Hhist1 Htot1 Hrun.
    destruct (IH c1 m1 w1 res1 rs c' m' w' Hok1 Hsorted Hrun)
      as (Hok' & Hfrom' & Hthr' & Hlow' & new & Hrs & Hhist & Htot).
    split; [done|]. split.
    { intros l tb e Htb He. destruct (Hfrom' l tb e Htb He) as (l0 & tb0 & Htb0 & He0).
      by apply (Hfrom1 l0 tb0). }
    split.
    { intros l [->|Hl]%elem_of_cons; [|by apply Hthr'].
      rewrite (Hlow' level); [done|]. done. }
    split.
    { intros l [Hl Hall]%Forall_cons. rewrite (Hlow' l Hall). by apply Hlow1. }
    exists (new1 ++ new). rewrite Hrs, Hres1, Hhist, Hhist1, Htot, Htot1, length_app.
    rewrite <- !app_assoc. split; [done|]. split; [done|lia]. }
  destruct (Compaction.shouldCompact m level) eqn:Esc.
  - destruct (Compaction.compactLevel c m level (level + 1) w) as [[[[r c1] m1] w1]| |] eqn:Ec;
      cbn [mbind result_bind JS.bind]; [|done|done].
    assert (SSTableManager.getLevel m level <> []) as Hne.
    { unfold Compaction.shouldCompact in Esc. apply Nat.leb_le in Esc.
      intros E. rewrite E in Esc. simpl in Esc. destruct level as [|[|[|?]]]; simpl in Esc; lia. }
    destruct (compactLevel_effect c m level (level + 1) w r c1 m1 w1 Hok Hne Ec)
      as (mr & tb & rec & _ & -> & _ & _ & _ & _ & _ & Hlv & Hok1 & Hhist & Htot & _).
    destruct (compactLevel_ok c m level (level + 1) w _ c1 m1 w1 Hok Ec) as [_ Hfrom1].
    apply (Hstep c1 m1 w1 (results ++ [rec]) [rec]); try done.
    + rewrite Hlv. rewrite decide_False by lia. rewrite decide_True by done.
      destruct level as [|[|[|?]]]; simpl; lia.
    + intros l Hl. rewrite Hlv. rewrite decide_False by lia. by rewrite decide_False by lia.
    + rewrite Htot. simpl. lia.
  - apply (Hstep c m w results []);
      [done|by intros l tb e ? ?; exists l, tb| |done|by rewrite app_nil_r
      |by rewrite app_nil_r|simpl; lia].
    unfold Compaction.shouldCompact in Esc. by apply Nat.leb_gt in Esc.
Qed.

Lemma getAllEntries_sorted (sl : SkipList.t) :
  chain_sorted sl -> StronglySorted key_lt (SkipList.getAllEntries sl).
Proof.
  unfold chain_sorted, SkipList.getAllEntries.
  induction 1 as [|n ns Hs IH Hall]; simpl; constructor; [done|].
  apply Forall_forall. intros e He. apply list_elem_of_fmap in He as (n' & -> & Hn').
  rewrite Forall_forall in Hall. exact (Hall n' Hn').
Qed.

Lemma flushMemtable_effect (tr : LSMTree.t) (w : World) (W : list (string * option string)) :
  skiplist_wf (LSMTree.memtable tr) -> manager_ok (LSMTree.sstableManager tr) ->
  data_from W tr ->
  exists fr tr' w',
    LSMTree.flushMemtable tr w = Ok (fr, tr', w') /\
    tree_ok tr' /\ data_from W tr' /\
    LSMTree.memtableThreshold tr' = LSMTree.memtableThreshold tr /\
    LSMTree.compaction tr' = LSMTree.compaction tr /\
    SkipList.size (LSMTree.memtable tr') = 0%nat /\
    (SkipList.size (LSMTree.memtable tr) = 0%nat -> fr = None /\ tr' = tr) /\
    (SkipList.size (LSMTree.memtable tr) <> 0%nat ->
     exists tb,
       fr = Some (LSMTree.mkFlushResult (SkipList.size (LSMTree.memtable tr)) (SSTable.id tb) 0) /\
       SSTable.entries tb = SkipList.getAllEntries (LSMTree.memtable tr) /\
       SSTable.id tb = SSTableManager.nextId (LSMTree.sstableManager tr) /\
       SkipList.nodes (LSMTree.memtable tr') = [] /\
       (forall l, SSTableManager.getLevel (LSMTree.sstableManager tr') l
                  = if decide (0%nat = l)
                    then SSTableManager.getLevel (LSMTree.sstableManager tr) 0 ++ [tb]
                    else SSTableManager.getLevel (LSMTree.sstableManager tr) l) /\
       LSMTree.memtableFlushes (LSMTree.stats tr')
       = S (LSMTree.memtableFlushes (LSMTree.stats tr))).
Proof.
  intros Hsl Hm [Hd1 Hd2]. unfold LSMTree.flushMemtable, SkipList.isEmpty.
  destruct (SkipList.size (LSMTree.memtable tr) =? 0)%nat eqn:Esz.
  { apply Nat.eqb_eq in Esz. exists None, tr, w. split; [done|].
    split; [split; [done|split; [done|by right]]|]. split; [done|]. split; [done|].
    split; [done|]. split; [done|]. split; [done|]. intros H. done. }
  apply Nat.eqb_neq in Esz.
  destruct (createSSTable_ok (LSMTree.sstableManager tr) 0
              (SkipList.getAllEntries (LSMTree.memtable tr)) w Hm
              (getAllEntries_sorted _ (proj1 Hsl)))
    as (tb & m' & -> & Hm' & Hent & Hid & Hnid & Hlv).
  cbn [mbind result_bind JS.bind]. unfold SkipList.clear, Date_now.
  eexists _, _, _. split; [reflexivity|]. cbn.
  split.
  { split; [|split; [done|by right]].
    split; [constructor|]. split; [done|]. split; [simpl; lia|constructor]. }
  split.
  { split; [by intros n ?%elem_of_nil|]. cbn. intros l t e Ht He. rewrite Hlv in Ht.
    case_decide as E; [|by apply (Hd2 l t)].
    apply elem_of_app in Ht as [Ht|Ht]; [by apply (Hd2 0%nat t)|].
    apply list_elem_of_singleton in Ht as ->. rewrite Hent in He.
    unfold SkipList.getAllEntries in He. apply list_elem_of_fmap in He as (n & -> & Hn).
    simpl. by apply Hd1. }
  split; [done|]. split; [done|]. split; [done|]. split; [done|]. intros _.
  exists tb. split; [done|]. split; [done|]. split; [done|]. split; [done|]. split; done.
Qed.

(** Every node after [insert] is the written binding or an old node. *)
Lemma insert_nodes_from (sl : SkipList.t) (k : string) (v : option string) (w : World)
    (n : SkipListNode.t) :
  chain_sorted sl -> n ∈ SkipList.nodes (snd (fst (SkipList.insert sl k v w))) ->
  (SkipListNode.key n = k /\ SkipListNode.value n = v) \/ n ∈ SkipList.nodes sl.
Proof.
  intros Hs Hn. destruct (decide (SkipListNode.key n = k)) as [Hk|Hk].
  - left. split; [done|].
    destruct (insert_members sl k v w Hs) as [(n0 & Hn0 & Hk0 & Hv0) _].
    pose proof (insert_sorted sl k v w Hs) as Hs'.
    pose proof (lookup_member _ k n Hs' Hn Hk) as H1.
    pose proof (lookup_member _ k n0 Hs' Hn0 Hk0) as H2.
    rewrite H1 in H2. injection H2 as ->. done.
  - right. by apply (insert_members sl k v w Hs).
Qed.

Lemma insert_size_pos (sl : SkipList.t) (k : string) (v : option string) (w : World) :
  skiplist_wf sl -> (0 < SkipList.size (snd (fst (SkipList.insert sl k v w))))%nat.
Proof.
  intros Hwf. pose proof (insert_wf sl k v w Hwf) as (_ & Hsz & _).
  destruct (insert_members sl k v w (proj1 Hwf)) as [(n & Hn & _) _].
  rewrite Hsz. destruct (SkipList.nodes _); [by apply elem_of_nil in Hn|simpl; lia].
Qed.

Lemma data_from_mono (W W' : list (string * option string)) (tr : LSMTree.t) :
  (forall x, x ∈ W -> x ∈ W') -> data_from W tr -> data_from W' tr.
Proof.
  intros Hsub [H1 H2]. split; [intros n Hn; by apply Hsub, H1|].
  intros l tb e Htb He. by apply Hsub, (H2 l tb).
Qed.

(** The first half of [put] and of [delete]: the insert into the
    memtable, and the flush when the threshold is reached. *)
Lemma insert_flush_ok (tr tr1 : LSMTree.t) (k : string) (v : option string) (w : World)
    (W : list (string * option string)) :
  tree_ok tr -> data_from W tr ->
  LSMTree.memtable tr1 = snd (fst (SkipList.insert (LSMTree.memtable tr) k v w)) ->
  LSMTree.memtableThreshold tr1 = LSMTree.memtableThreshold tr ->
  LSMTree.sstableManager tr1 = LSMTree.sstableManager tr ->
  LSMTree.compaction tr1 = LSMTree.compaction tr ->
  forall w1, exists fr tr2 w2,
    (if (LSMTree.memtableThreshold tr1 <=? SkipList.size (LSMTree.memtable tr1))%nat
     then LSMTree.flushMemtable tr1 w1 else Ok (None, tr1, w1)) = Ok (fr, tr2, w2) /\
    tree_ok tr2 /\ data_from (W ++ [(k, v)]) tr2 /\
    LSMTree.memtableThreshold tr2 = LSMTree.memtableThreshold tr /\
    LSMTree.compaction tr2 = LSMTree.compaction tr /\
    (fr = None -> tr2 = tr1 /\
       (SkipList.size (LSMTree.memtable tr1) < LSMTree.memtableThreshold tr)%nat) /\
    (fr <> None -> SkipList.size (LSMTree.memtable tr2) = 0%nat /\
       (LSMTree.memtableThreshold tr <= SkipList.size (LSMTree.memtable tr1))%nat).
Proof.
  intros (Hsl & Hm & Hsz) [Hd1 Hd2] Hmem Hth Hman Hcomp w1.
  pose proof (insert_wf _ k v w Hsl) as Hsl1. rewrite <- Hmem in Hsl1.
  pose proof (insert_size_pos _ k v w Hsl) as Hpos. rewrite <- Hmem in Hpos.
  assert (data_from (W ++ [(k, v)]) tr1) as Hd.
  { split.
    - intros n Hn. rewrite Hmem in Hn.
      destruct (insert_nodes_from _ k v w n (proj1 Hsl) Hn) as [[<- <-]|Hold].
      + apply elem_of_app. right. by apply list_elem_of_singleton.
      + apply elem_of_app. left. by apply Hd1.
    - intros l tb e Htb He. rewrite Hman in Htb. apply elem_of_app. left. by apply (Hd2 l tb). }
  rewrite Hth.
  destruct (LSMTree.memtableThreshold tr <=? SkipList.size (LSMTree.memtable tr1))%nat eqn:E.
  - apply Nat.leb_le in E.
    destruct (flushMemtable_effect tr1 w1 (W ++ [(k, v)]) Hsl1 ltac:(by rewrite Hman) Hd)
      as (fr & tr2 & w2 & -> & Hok2 & Hd2' & Hth2 & Hc2 & Hz & _ & Hfl).
    exists fr, tr2, w2. split; [done|]. split; [done|]. split; [done|].
    split; [congruence|]. split; [congruence|]. split.
    + intros ->. destruct (Hfl ltac:(lia)) as (tb & Hfr & _). done.
    + intros _. done.
  - apply Nat.leb_gt in E. exists None, tr1, w1. split; [done|]. split.
    { split; [done|]. split; [by rewrite Hman|]. left. by rewrite Hth. }
    split; [done|]. split; [done|]. split; [done|]. split; [done|]. done.
Qed.

Lemma put_ok (tr : LSMTree.t) (k : string) (v : option string) (w : World)
    (W : list (string * option string)) (r : LSMTree.PutResult) (tr' : LSMTree.t) (w' : World) :
  tree_ok tr -> data_from W tr -> LSMTree.put tr k v w = Ok (r, tr', w') ->
  tree_ok tr' /\ data_from (W ++ [(k, v)]) tr' /\
  LSMTree.memtableThreshold tr' = LSMTree.memtableThreshold tr /\
  (forall l, (l < 3)%nat ->
     (length (SSTableManager.getLevel (LSMTree.sstableManager tr') l)
      < Compaction.threshold l)%nat) /\
  (LSMTree.pr_flushed r = false ->
   LSMTree.memtable tr' = snd (fst (SkipList.insert (LSMTree.memtable tr) k v w))).
Proof.
  intros Hok Hd. unfold LSMTree.put.
  destruct (SkipList.insert (LSMTree.memtable tr) k v w) as [[ir sl] w1] eqn:Ei.
  set (tr1 := LSMTree.mk sl _ _ _ _).
  destruct (insert_flush_ok tr tr1 k v w W Hok Hd ltac:(by rewrite Ei) eq_refl eq_refl eq_refl w1)
    as (fr & tr2 & w2 & Hfl & Hok2 & Hd2 & Hth2 & Hc2 & Hnone & Hsome).
  cbv zeta. rewrite Hfl. cbn [mbind result_bind JS.bind].
  unfold Compaction.runAutoCompaction.
  destruct (Compaction.runAutoCompaction_loop _ _ _ _ _) as [[[[rs c] m] w3]| |] eqn:Er;
    cbn [mbind result_bind JS.bind]; [|done|done].
  intros [= <- <- <-].
  destruct (runAutoCompaction_loop_ok [0; 1; 2]%nat _ _ _ _ _ _ _ _ (proj1 (proj2 Hok2))
              ltac:(repeat constructor) Er) as (Hm' & Hfrom & Hthr & _ & _).
  split; [|split; [|split; [done|split]]].
  - destruct Hok2 as (Hsl2 & _ & Hsz2). split; [done|]. split; [done|]. done.
  - destruct Hd2 as [Hd21 Hd22]. split; [done|]. cbn. intros l tb e Htb He.
    destruct (Hfrom l tb e Htb He) as (l0 & tb0 & Htb0 & He0). by apply (Hd22 l0 tb0).
  - cbn. intros l Hl. apply Hthr. destruct l as [|[|[|?]]]; [| | |lia].
    + by left.
    + right. by left.
    + right. right. by left.
  - cbn. intros Hf. apply bool_decide_eq_false in Hf.
    destruct fr as [f|]; [exfalso; by apply Hf|]. destruct (Hnone eq_refl) as [-> _]. done.
Qed.

Lemma delete_ok (tr : LSMTree.t) (k : string) (w : World)
    (W : list (string * option string)) (r : LSMTree.DeleteResult) (tr' : LSMTree.t)
    (w' : World) :
  tree_ok tr -> data_from W tr -> LSMTree.delete tr k w = Ok (r, tr', w') ->
  tree_ok tr' /\ data_from (W ++ [(k, None)]) tr' /\
  LSMTree.memtableThreshold tr' = LSMTree.memtableThreshold tr.
Proof.
  intros Hok Hd. unfold LSMTree.delete.
  destruct (SkipList.insert (LSMTree.memtable tr) k None w) as [[ir sl] w1] eqn:Ei.
  set (tr1 := LSMTree.mk sl _ _ _ _).
  destruct (insert_flush_ok tr tr1 k None w W Hok Hd ltac:(by rewrite Ei) eq_refl eq_refl eq_refl w1)
    as (fr & tr2 & w2 & Hfl & Hok2 & Hd2 & Hth2 & Hc2 & _).
  cbv zeta. rewrite Hfl. cbn [mbind result_bind JS.bind]. by intros [= <- <- <-].
Qed.

Lemma manager_ok_built (m : SSTableManager.t) :
  manager_ok m -> forall l tb, tb ∈ SSTableManager.getLevel m l -> table_built tb.
Proof. intros (HT & _) l tb Htb. by destruct (HT l tb Htb). Qed.

Lemma get_ok (tr : LSMTree.t) (k : string) (W : list (string * option string)) :
  tree_ok tr -> data_from W tr ->
  exists r tr',
    LSMTree.get tr k = Ok (r, tr') /\
    LSMTree.memtable tr' = LSMTree.memtable tr /\
    LSMTree.sstableManager tr' = LSMTree.sstableManager tr /\
    LSMTree.compaction tr' = LSMTree.compaction tr /\
    LSMTree.memtableThreshold tr' = LSMTree.memtableThreshold tr /\
    (LSMTree.found r = true -> (k, LSMTree.value r) ∈ W) /\
    (forall v, lookup (LSMTree.memtable tr) k = (true, Some v) ->
       LSMTree.found r = true /\ LSMTree.value r = v /\ LSMTree.location r = LSMTree.Memtable) /\
    (LSMTree.found r = false ->
       LSMTree.value r = None /\ LSMTree.location r = LSMTree.NotFound /\
       (forall n, n ∈ SkipList.nodes (LSMTree.memtable tr) -> SkipListNode.key n <> k) /\
       (forall l tb, tb ∈ SSTableManager.getLevel (LSMTree.sstableManager tr) l ->
          hasKey k tb = false)).
Proof.
  intros (Hsl & Hm & _) [Hd1 Hd2]. unfold LSMTree.get.
  assert (lookup (LSMTree.memtable tr) k = lookup (LSMTree.memtable tr) k) as Hl by done.
  unfold lookup at 1 in Hl.
  destruct (SkipList.found (SkipList.search (LSMTree.memtable tr) k)) eqn:Ef.
  - eexists _, _. split; [reflexivity|]. cbn.
    split; [done|]. split; [done|]. split; [done|]. split; [done|].
    split; [|split; [|done]].
    + intros _. symmetry in Hl.
      destruct (lookup_found_member _ k _ (proj1 Hsl) Hl) as (n & Hn & Hk & Hv).
      rewrite Hv. simpl. rewrite <- Hk. by apply Hd1.
    + intros v Hv. rewrite Hv in Hl. injection Hl as Hl. by rewrite Hl.
  - destruct (search_levels_spec (LSMTree.sstableManager tr) k
                (SSTableManager.sortedLevels (LSMTree.sstableManager tr))
                (manager_ok_built _ Hm) []) as (sr & Hs & _ & Hr).
    unfold SSTableManager.search. rewrite Hs. cbn [mbind result_bind JS.bind].
    destruct (LSMTree.trackBloom _ _ _) as [hits misses].
    eexists _, _. split; [reflexivity|]. cbn.
    split; [done|]. split; [done|]. split; [done|]. split; [done|].
    fold (allTables (LSMTree.sstableManager tr)) in Hr.
    destruct (SSTableManager.found sr) eqn:Esr.
    + destruct Hr as (pre & tb & post & e & Hsplit & _ & He & Hk & Hv).
      split; [|split; [|done]].
      * intros _. rewrite Hv. simpl. rewrite <- Hk.
        assert (tb ∈ allTables (LSMTree.sstableManager tr)) as Hin.
        { rewrite Hsplit. apply elem_of_app. right. by left. }
        apply allTables_elem in Hin as [l Hl']. by apply (Hd2 l tb).
      * intros v Hv'. rewrite Hv' in Hl. done.
    + destruct Hr as [Hv Hall]. split; [done|]. split.
      * intros v Hv'. rewrite Hv' in Hl. done.
      * intros _. split; [done|]. split; [done|]. split.
        -- intros n Hn Hk.
           pose proof (lookup_member _ k n (proj1 Hsl) Hn Hk) as Hlm.
           rewrite Hlm in Hl. done.
        -- intros l tb Htb. rewrite Forall_forall in Hall. apply Hall.
           apply allTables_elem. by exists l.
Qed.

Lemma compact_ok (tr : LSMTree.t) (src tgt : nat) (w : World)
    (W : list (string * option string)) (r : Compaction.Result) (tr' : LSMTree.t) (w' : World) :
  tree_ok tr -> data_from W tr -> LSMTree.compact tr src tgt w = Ok (r, tr', w') ->
  tree_ok tr' /\ data_from W tr' /\
  LSMTree.memtableThreshold tr' = LSMTree.memtableThreshold tr.
Proof.
  intros (Hsl & Hm & Hsz) [Hd1 Hd2]. unfold LSMTree.compact.
  destruct (Compaction.compactLevel _ _ _ _ _) as [[[[r0 c] m] w1]| |] eqn:Ec;
    cbn [mbind result_bind JS.bind]; [|done|done].
  intros [= <- <- <-].
  destruct (compactLevel_ok _ _ _ _ _ _ _ _ _ Hm Ec) as [Hm' Hfrom].
  split; [by split|]. split; [|done]. split; [done|]. cbn. intros l tb e Htb He.
  destruct (Hfrom l tb e Htb He) as (l0 & tb0 & Htb0 & He0). by apply (Hd2 l0 tb0).
Qed.

Lemma clear_ok (tr : LSMTree.t) (w : World) (W : list (string * option string)) :
  tree_ok (fst (LSMTree.clear tr w)) /\ data_from W (fst (LSMTree.clear tr w)) /\
  LSMTree.memtableThreshold (fst (LSMTree.clear tr w)) = LSMTree.memtableThreshold tr.
Proof.
  unfold LSMTree.clear, SkipList.clear, Date_now. cbn. split; [|split; [|done]].
  - split; [|split; [apply manager_ok_create|by right]].
    split; [constructor|]. split; [done|]. split; [simpl; lia|constructor].
  - split; [by intros n ?%elem_of_nil|]. cbn. intros l tb e Htb.
    unfold SSTableManager.getLevel in Htb. simpl in Htb. rewrite lookup_empty in Htb.
    by apply elem_of_nil in Htb.
Qed.

Lemma writes_app (ops1 ops2 : list Op) : writes (ops1 ++ ops2) = writes ops1 ++ writes ops2.
Proof. unfold writes. apply omap_app. Qed.

Lemma step_ok (tr : LSMTree.t) (w : World) (op : Op) (W : list (string * option string))
    (o : Output) (tr' : LSMTree.t) (w' : World) :
  tree_ok tr -> data_from W tr -> step tr w op = Ok (o, tr', w') ->
  tree_ok tr' /\ data_from (W ++ writes [op]) tr' /\
  LSMTree.memtableThreshold tr' = LSMTree.memtableThreshold tr /\
  (forall k r, op = Get k -> o = OGet r -> LSMTree.found r = true ->
     (k, LSMTree.value r) ∈ W).
Proof.
  intros Hok Hd. destruct op as [k v|k|k|src tgt|]; cbn [step].
  - destruct (LSMTree.put tr k v w) as [[[r t] wa]| |] eqn:E;
      cbn [mbind result_bind JS.bind]; [|done|done].
    intros [= <- <- <-]. destruct (put_ok _ _ _ _ W _ _ _ Hok Hd E) as (? & ? & ? & _).
    split; [done|]. split; [done|]. split; [done|]. by intros ? ? [=].
  - destruct (get_ok tr k W Hok Hd) as (r & t & -> & Hmem & Hman & Hc & Hth & Hfound & _).
    cbn [mbind result_bind JS.bind]. intros [= <- <- <-].
    destruct Hok as (Hsl & Hm & Hsz). destruct Hd as [Hd1 Hd2].
    split; [split; [by rewrite Hmem|split; [by rewrite Hman|by rewrite Hmem, Hth]]|].
    split.
    { simpl. rewrite app_nil_r. split; [by rewrite Hmem|by rewrite Hman]. }
    split; [done|]. intros k' r' [= <-] [= <-]. done.
  - destruct (LSMTree.delete tr k w) as [[[r t] wa]| |] eqn:E;
      cbn [mbind result_bind JS.bind]; [|done|done].
    intros [= <- <- <-]. destruct (delete_ok _ _ _ W _ _ _ Hok Hd E) as (? & ? & ?).
    split; [done|]. split; [done|]. split; [done|]. by intros ? ? [=].
  - destruct (LSMTree.compact tr src tgt w) as [[[r t] wa]| |] eqn:E;
      cbn [mbind result_bind JS.bind]; [|done|done].
    intros [= <- <- <-]. destruct (compact_ok _ _ _ _ W _ _ _ Hok Hd E) as (? & ? & ?).
    simpl. rewrite app_nil_r.
    split; [done|]. split; [done|]. split; [done|]. by intros ? ? [=].
  - destruct (LSMTree.clear tr w) as [t wa] eqn:E. intros [= <- <- <-].
    destruct (clear_ok tr w W) as (? & ? & ?). rewrite E in *. simpl in *.
    rewrite app_nil_r.
    split; [done|]. split; [done|]. split; [done|]. by intros ? ? [=].
Qed.

Lemma run_ok (ops : list Op) :
  forall tr w W os tr' w',
    tree_ok tr -> data_from W tr -> run tr w ops = Ok (os, tr', w') ->
    tree_ok tr' /\ data_from (W ++ writes ops) tr' /\
    LSMTree.memtableThreshold tr' = LSMTree.memtableThreshold tr /\
    length os = length ops /\
    (forall i k r, ops !! i = Some (Get k) -> os !! i = Some (OGet r) ->
       LSMTree.found r = true -> (k, LSMTree.value r) ∈ W ++ writes (take i ops)).
Proof.
  induction ops as [|op ops IH]; intros tr w W os tr' w' Hok Hd; cbn [run].
  { intros [= <- <- <-]. simpl. rewrite app_nil_r.
    split; [done|]. split; [done|]. split; [done|]. split; [done|].
    intros i k r Hi. by rewrite lookup_nil in Hi. }
  destruct (step tr w op) as [[[o t1] w1]| |] eqn:Es; cbn [mbind result_bind JS.bind];
    [|done|done].
  destruct (run t1 w1 ops) as [[[os1 t2] w2]| |] eqn:Er; cbn [mbind result_bind JS.bind];
    [|done|done].
  intros [= <- <- <-].
  destruct (step_ok tr w op W o t1 w1 Hok Hd Es) as (Hok1 & Hd1 & Hth1 & Hget).
  destruct (IH t1 w1 (W ++ writes [op]) os1 t2 w2 Hok1 Hd1 Er)
    as (Hok2 & Hd2 & Hth2 & Hlen & Hgets).
  change (op :: ops) with ([op] ++ ops). rewrite writes_app, app_assoc.
  split; [done|]. split; [done|]. split; [congruence|]. split; [simpl; lia|].
  intros [|i] k r Hi Ho Hf; simpl in Hi, Ho.
  - injection Hi as ->. injection Ho as ->. rewrite take_0. simpl. rewrite app_nil_r.
    by apply (Hget k r).
  - specialize (Hgets i k r Hi Ho Hf).
    change (take (S i) ([op] ++ ops)) with ([op] ++ take i ops).
    by rewrite writes_app, app_assoc.
Qed.

Lemma create_tree_ok (memtableThreshold : nat) (w : World) :
  tree_ok (fst (LSMTree.create memtableThreshold w)) /\
  data_from [] (fst (LSMTree.create memtableThreshold w)) /\
  LSMTree.memtableThreshold (fst (LSMTree.create memtableThreshold w)) = memtableThreshold.
Proof.
  unfold LSMTree.create, SkipList.create, Date_now. cbn. split; [|split; [|done]].
  - split; [|split; [apply manager_ok_create|by right]].
    split; [constructor|]. split; [done|]. split; [simpl; lia|constructor].
  - split; [by intros n ?%elem_of_nil|]. cbn. intros l tb e Htb.
    unfold SSTableManager.getLevel in Htb. simpl in Htb. rewrite lookup_empty in Htb.
    by apply elem_of_nil in Htb.
Qed.

Lemma session_ok (memtableThreshold : nat) (w : World) (ops : list Op)
    (os : list Output) (tr : LSMTree.t) (w' : World) :
  session memtableThreshold w ops = Ok (os, tr, w') ->
  tree_ok tr /\ data_from (writes ops) tr /\
  LSMTree.memtableThreshold tr = memtableThreshold /\ length os = length ops /\
  (forall i k r, ops !! i = Some (Get k) -> os !! i = Some (OGet r) ->
     LSMTree.found r = true -> (k, LSMTree.value r) ∈ writes (take i ops)).
Proof.
  unfold session. destruct (create_tree_ok memtableThreshold w) as (Hok & Hd & Hth).
  destruct (LSMTree.create memtableThreshold w) as [tr0 w0]. simpl in *.
  intros Hr. destruct (run_ok ops tr0 w0 [] os tr w' Hok Hd Hr) as (? & ? & ? & ? & ?).
  split; [done|]. split; [done|]. split; [congruence|]. split; done.
Qed.

(** ** Properties of sessions *)

Lemma run_app (ops1 ops2 : list Op) :
  forall tr w os tr' w',
    run tr w (ops1 ++ ops2) = Ok (os, tr', w') ->
    exists os1 tr1 w1 os2,
      run tr w ops1 = Ok (os1, tr1, w1) /\ run tr1 w1 ops2 = Ok (os2, tr', w') /\
      os = os1 ++ os2.
Proof.
  induction ops1 as [|op ops1 IH]; intros tr w os tr' w'; cbn [app run].
  { intros H. by exists [], tr, w, os. }
  destruct (step tr w op) as [[[o t1] w1]| |]; cbn [mbind result_bind JS.bind]; [|done|done].
  destruct (run t1 w1 (ops1 ++ ops2)) as [[[os0 t2] w2]| |] eqn:Er;
    cbn [mbind result_bind JS.bind]; [|done|done].
  intros [= <- <- <-].
  destruct (IH t1 w1 os0 t2 w2 Er) as (os1 & tr1 & w1' & os2 & -> & Hr2 & ->).
  cbn [mbind result_bind JS.bind]. by exists (o :: os1), tr1, w1', os2.
Qed.

Lemma session_app (memtableThreshold : nat) (w : World) (ops1 ops2 : list Op)
    (os : list Output) (tr : LSMTree.t) (w' : World) :
  session memtableThreshold w (ops1 ++ ops2) = Ok (os, tr, w') ->
  exists os1 tr1 w1 os2,
    session memtableThreshold w ops1 = Ok (os1, tr1, w1) /\
    run tr1 w1 ops2 = Ok (os2, tr, w') /\ os = os1 ++ os2.
Proof.
  unfold session. destruct (LSMTree.create memtableThreshold w) as [tr0 w0]. apply run_app.
Qed.

(** X19. What every session keeps. Whatever the operations and the
    runtime, a session that returns ends in a tree in which: the memtable
    chain is strictly increasing by key, its size counts its nodes and is
    below the flush threshold (or 0); every table of every level has
    strictly increasing keys, the key range of its records, the number of
    its level, and an id below the manager's [nextId]; and no two tables,
    in one level or in two, have the same id. *)
Theorem session_keeps_invariants (memtableThreshold : nat) (w : World) (ops : list Op)
    (os : list Output) (tr : LSMTree.t) (w' : World) :
  session memtableThreshold w ops = Ok (os, tr, w') ->
  tree_ok tr /\
  LSMTree.memtableThreshold tr = memtableThreshold /\
  ((SkipList.size (LSMTree.memtable tr) < memtableThreshold)%nat \/
   SkipList.size (LSMTree.memtable tr) = 0%nat) /\
  (forall l tb, tb ∈ levelTables l tr ->
     StronglySorted key_lt (SSTable.entries tb) /\ SSTable.level tb = l /\
     SSTable.keyRange tb = SSTable.getKeyRange (SSTable.entries tb) /\
     (SSTable.id tb < SSTableManager.nextId (LSMTree.sstableManager tr))%nat) /\
  (forall l1 l2 i1 i2 tb1 tb2,
     levelTables l1 tr !! i1 = Some tb1 -> levelTables l2 tr !! i2 = Some tb2 ->
     SSTable.id tb1 = SSTable.id tb2 -> l1 = l2 /\ i1 = i2).
Proof.
  intros Hs. destruct (session_ok _ _ _ _ _ _ Hs) as (Hok & _ & Hth & _).
  split; [done|]. split; [done|]. pose proof Hok as (_ & (HT & HN & HX) & Hsz).
  split; [by rewrite <- Hth|]. split.
  - intros l tb Htb. destruct (HT l tb Htb) as ((_ & _ & Hr) & Hs' & Hid & Hl). done.
  - unfold levelTables. intros l1 l2 i1 i2 tb1 tb2 H1 H2 Hid.
    destruct (decide (l1 = l2)) as [->|Hne].
    + split; [done|]. apply (NoDup_lookup _ i1 i2 (SSTable.id tb1) (HN l2)).
      * change (map SSTable.id ?x) with (SSTable.id <$> x). by rewrite list_lookup_fmap, H1.
      * change (map SSTable.id ?x) with (SSTable.id <$> x). rewrite list_lookup_fmap, H2.
        simpl. by rewrite Hid.
    + exfalso. apply (HX l1 l2 tb1 tb2 Hne); [by eapply list_elem_of_lookup_2
                                              |by eapply list_elem_of_lookup_2|done].
Qed.

(** X20. [put] leaves the first three levels below their thresholds:
    when a session ends with a [put] that returns, level 0 holds fewer
    than 4 tables, level 1 fewer than 10 and level 2 fewer than 100,
    whatever state the earlier operations (deletes included) left. *)
Theorem put_restores_thresholds (memtableThreshold : nat) (w : World) (ops : list Op)
    (k : string) (v : option string) (os : list Output) (tr : LSMTree.t) (w' : World) :
  session memtableThreshold w (ops ++ [Put k v]) = Ok (os, tr, w') ->
  (length (levelTables 0 tr) < 4)%nat /\
  (length (levelTables 1 tr) < 10)%nat /\
  (length (levelTables 2 tr) < 100)%nat.
Proof.
  intros Hs. destruct (session_app _ _ _ _ _ _ _ Hs) as (os1 & tr1 & w1 & os2 & Hs1 & Hr & _).
  destruct (session_ok _ _ _ _ _ _ Hs1) as (Hok & Hd & _).
  cbn [run step] in Hr.
  destruct (LSMTree.put tr1 k v w1) as [[[r t] wa]| |] eqn:E;
    cbn [mbind result_bind JS.bind] in Hr; [|done|done].
  injection Hr as <- <- <-.
  destruct (put_ok _ _ _ _ _ _ _ _ Hok Hd E) as (_ & _ & _ & Hthr & _).
  unfold levelTables. split; [apply (Hthr 0%nat); lia|].
  split; [apply (Hthr 1%nat); lia|apply (Hthr 2%nat); lia].
Qed.

(** X21. No read returns what was not written. When a [get] of a
    session answers found for key [k] with value [v], an earlier operation
    of the session was [put(k, v)], or [delete(k)] with [v] null; this holds
    across flushes, compactions and clears. *)
Theorem get_returns_a_written_value (memtableThreshold : nat) (w : World) (ops : list Op)
    (os : list Output) (tr : LSMTree.t) (w' : World) (i : nat) (k : string)
    (r : LSMTree.GetResult) :
  session memtableThreshold w ops = Ok (os, tr, w') ->
  ops !! i = Some (Get k) -> os !! i = Some (OGet r) -> LSMTree.found r = true ->
  exists j, (j < i)%nat /\
    (ops !! j = Some (Put k (LSMTree.value r)) \/
     (ops !! j = Some (Delete k) /\ LSMTree.value r = None)).
Proof.
  intros Hs Hi Ho Hf. destruct (session_ok _ _ _ _ _ _ Hs) as (_ & _ & _ & _ & Hget).
  specialize (Hget i k r Hi Ho Hf). unfold writes in Hget.
  apply list_elem_of_omap in Hget as (op & Hop & Hw).
  apply list_elem_of_lookup in Hop as [j Hj].
  pose proof (lookup_lt_Some _ _ _ Hj) as Hlt. rewrite length_take in Hlt.
  rewrite lookup_take_lt in Hj by lia.
  exists j. split; [lia|]. destruct op as [k0 v0|k0|k0|? ?|]; simplify_eq; [by left|by right].
Qed.

(** X22. A write that does not flush is read back from the memtable:
    when a session ends with [put(k, v)] and [get(k)] and the put reports
    no flush, the get answers found with [v] from the memtable; after
    [delete(k)] without a flush it answers found with null. *)
Theorem get_after_unflushed_write (memtableThreshold : nat) (w : World) (ops : list Op)
    (k : string) (os : list Output) (tr : LSMTree.t) (w' : World) (r : LSMTree.GetResult) :
  (forall v pr,
     session memtableThreshold w (ops ++ [Put k v; Get k]) = Ok (os ++ [OPut pr; OGet r], tr, w') ->
     LSMTree.pr_flushed pr = false ->
     LSMTree.found r = true /\ LSMTree.value r = v /\ LSMTree.location r = LSMTree.Memtable) /\
  (forall dr,
     session memtableThreshold w (ops ++ [Delete k; Get k])
     = Ok (os ++ [ODelete dr; OGet r], tr, w') ->
     LSMTree.dr_flushed dr = false ->
     LSMTree.found r = true /\ LSMTree.value r = None /\
     LSMTree.location r = LSMTree.Memtable).
Proof.
  split.
  - intros v pr Hs Hfl.
    destruct (session_app _ _ _ _ _ _ _ Hs) as (os1 & tr1 & w1 & os2 & Hs1 & Hr & Hos).
    destruct (session_ok _ _ _ _ _ _ Hs1) as (Hok & Hd & _ & Hlen & _).
    cbn [run step] in Hr.
    destruct (LSMTree.put tr1 k v w1) as [[[pr0 t] wa]| |] eqn:E;
      cbn [mbind result_bind JS.bind] in Hr; [|done|done].
    destruct (put_ok _ _ _ _ _ _ _ _ Hok Hd E) as (Hok' & Hd' & _ & _ & Hmem).
    destruct (get_ok t k _ Hok' Hd') as (r0 & t' & Hg & _ & _ & _ & _ & _ & Hhit & _).
    rewrite Hg in Hr. cbn [mbind result_bind JS.bind] in Hr. injection Hr as <- <- <-.
    assert (pr0 = pr /\ r0 = r) as [-> ->].
    { apply app_inj_2 in Hos as [_ Heq]; [|done]. by injection Heq as -> ->. }
    apply Hhit. rewrite (Hmem Hfl).
    rewrite (lookup_after_insert _ k v w1 k (proj1 (proj1 Hok))). by rewrite decide_True.
  - intros dr Hs Hfl.
    destruct (session_app _ _ _ _ _ _ _ Hs) as (os1 & tr1 & w1 & os2 & Hs1 & Hr & Hos).
    destruct (session_ok _ _ _ _ _ _ Hs1) as (Hok & Hd & _ & Hlen & _).
    cbn [run step] in Hr.
    destruct (LSMTree.delete tr1 k w1) as [[[dr0 t] wa]| |] eqn:E;
      cbn [mbind result_bind JS.bind] in Hr; [|done|done].
    destruct (delete_ok _ _ _ _ _ _ _ Hok Hd E) as (Hok' & Hd' & _).
    destruct (get_ok t k _ Hok' Hd') as (r0 & t' & Hg & _ & _ & _ & _ & _ & Hhit & _).
    rewrite Hg in Hr. cbn [mbind result_bind JS.bind] in Hr. injection Hr as <- <- <-.
    assert (dr0 = dr /\ r0 = r) as [-> ->].
    { apply app_inj_2 in Hos as [_ Heq]; [|done]. by injection Heq as -> ->. }
    apply Hhit. clear Hg Hhit.
    unfold LSMTree.delete in E.
    destruct (SkipList.insert (LSMTree.memtable tr1) k None w1) as [[ir sl] w2] eqn:Ei.
    set (tr2 := LSMTree.mk sl _ _ _ _) in E.
    destruct (insert_flush_ok tr1 tr2 k None w1 _ Hok Hd ltac:(by rewrite Ei) eq_refl eq_refl
                eq_refl w2) as (fr & tr3 & w3 & Hfl3 & _ & _ & _ & _ & Hnone & _).
    cbv zeta in E. rewrite Hfl3 in E. cbn [mbind result_bind JS.bind] in E.
    injection E as <- <- <-. cbn in Hfl. apply bool_decide_eq_false in Hfl.
    destruct fr as [f|]; [exfalso; by apply Hfl|]. destruct (Hnone eq_refl) as [-> _].
    cbn [tr2 LSMTree.memtable].
    pose proof (lookup_after_insert (LSMTree.memtable tr1) k None w1 k (proj1 (proj1 Hok))) as Hl.
    rewrite Ei in Hl. simpl in Hl. by rewrite decide_True in Hl.
Qed.

Lemma manager_search_first_table_witness :
  exists os tr w' r,
    session 2 world0
      [Put "a" (Some "1"); Put "b" (Some "2"); Put "a" (Some "3"); Put "c" (Some "4")]
    = Ok (os, tr, w') /\
    SSTableManager.search (LSMTree.sstableManager tr) "a" = Ok r /\
    (SSTableManager.sstablesChecked r <= length (allTables (LSMTree.sstableManager tr)))%nat.
Proof.
  assert (exists os tr w',
            session 2 world0
              [Put "a" (Some "1"); Put "b" (Some "2"); Put "a" (Some "3"); Put "c" (Some "4")]
            = Ok (os, tr, w')) as (os & tr & w' & Hs)
    by (eexists _, _, _; vm_compute; reflexivity).
  destruct (manager_search_first_table (LSMTree.sstableManager tr) "a"
              (manager_ok_built _ (proj1 (proj2 (proj1 (session_ok _ _ _ _ _ _ Hs))))))
    as (r & Hr & Hle & _).
  exists os, tr, w', r. split; [exact Hs|]. split; [exact Hr|exact Hle].
Defined.

Lemma session_keeps_invariants_witness :
  exists os tr w',
    session 2 world0
      [Put "a" (Some "1"); Put "b" (Some "2"); Delete "a"; Compact 0 1; Put "c" (Some "3")]
    = Ok (os, tr, w') /\ tree_ok tr.
Proof.
  assert (exists os tr w',
            session 2 world0
              [Put "a" (Some "1"); Put "b" (Some "2"); Delete "a"; Compact 0 1;
               Put "c" (Some "3")]
            = Ok (os, tr, w')) as (os & tr & w' & Hs)
    by (eexists _, _, _; vm_compute; reflexivity).
  exists os, tr, w'. split; [exact Hs|].
  exact (proj1 (session_keeps_invariants _ _ _ _ _ _ Hs)).
Defined.

Lemma put_restores_thresholds_witness :
  exists os tr w',
    session 1 world0
      ([Put "a" (Some "1"); Put "b" (Some "2"); Put "c" (Some "3")] ++ [Put "d" (Some "4")])
    = Ok (os, tr, w') /\ (length (levelTables 0 tr) < 4)%nat.
Proof.
  assert (exists os tr w',
            session 1 world0
              ([Put "a" (Some "1"); Put "b" (Some "2"); Put "c" (Some "3")]
               ++ [Put "d" (Some "4")])
            = Ok (os, tr, w')) as (os & tr & w' & Hs)
    by (eexists _, _, _; vm_compute; reflexivity).
  exists os, tr, w'. split; [exact Hs|].
  exact (proj1 (put_restores_thresholds _ _ _ _ _ _ _ _ Hs)).
Defined.

Lemma get_returns_a_written_value_witness :
  exists os tr w' r,
    session 1 world0 [Put "a" (Some "1"); Delete "b"; Get "a"] = Ok (os, tr, w') /\
    os !! 2%nat = Some (OGet r) /\ LSMTree.found r = true /\
    exists j, (j < 2)%nat /\
      ([Put "a" (Some "1"); Delete "b"; Get "a"] !! j = Some (Put "a" (LSMTree.value r)) \/
       ([Put "a" (Some "1"); Delete "b"; Get "a"] !! j = Some (Delete "a") /\
        LSMTree.value r = None)).
Proof.
  assert (exists os tr w' r,
            session 1 world0 [Put "a" (Some "1"); Delete "b"; Get "a"] = Ok (os, tr, w') /\
            os !! 2%nat = Some (OGet r) /\ LSMTree.found r = true)
    as (os & tr & w' & r & Hs & Hr & Hf)
    by (eexists _, _, _, _; split; [vm_compute; reflexivity|];
        split; vm_compute; reflexivity).
  exists os, tr, w', r. split; [exact Hs|]. split; [exact Hr|]. split; [exact Hf|].
  exact (get_returns_a_written_value _ _ _ _ _ _ 2%nat "a" r Hs eq_refl Hr Hf).
Defined.

Lemma get_after_unflushed_write_witness :
  exists pr r tr w',
    session 5 world0 ([] ++ [Put "a" (Some "1"); Get "a"]) = Ok ([] ++ [OPut pr; OGet r], tr, w') /\
    LSMTree.pr_flushed pr = false /\
    LSMTree.found r = true /\ LSMTree.value r = Some "1" /\
    LSMTree.location r = LSMTree.Memtable.
Proof.
  assert (exists pr r tr w',
            session 5 world0 ([] ++ [Put "a" (Some "1"); Get "a"])
            = Ok ([] ++ [OPut pr; OGet r], tr, w') /\
            LSMTree.pr_flushed pr = false)
    as (pr & r & tr & w' & Hs & Hf)
    by (eexists _, _, _, _; split; [cbn [app]; vm_compute; reflexivity|reflexivity]).
  exists pr, r, tr, w'. split; [exact Hs|]. split; [exact Hf|].
  exact (proj1 (get_after_unflushed_write _ _ _ _ _ _ _ _) _ _ Hs Hf).
Defined.

(** X23. A flush moves the memtable into a new level-0 table. On a
    tree that keeps its invariant, [flushMemtable] returns; on an empty
    memtable it returns null and changes nothing; otherwise it appends
    one table to level 0, at the end, holding the records of the memtable
    in key order, leaves the other levels as they were, and empties the
    memtable; the new table answers [get] for every key of the memtable
    with the value the memtable held. *)
Theorem flushMemtable_spec (tr : LSMTree.t) (w : World) :
  tree_ok tr ->
  exists fr tr' w',
    LSMTree.flushMemtable tr w = Ok (fr, tr', w') /\ tree_ok tr' /\
    (SkipList.size (LSMTree.memtable tr) = 0%nat -> fr = None /\ tr' = tr) /\
    (SkipList.size (LSMTree.memtable tr) <> 0%nat ->
     exists tb,
       fr = Some (LSMTree.mkFlushResult (SkipList.size (LSMTree.memtable tr)) (SSTable.id tb) 0) /\
       SSTable.entries tb = SkipList.getAllEntries (LSMTree.memtable tr) /\
       levelTables 0 tr' = levelTables 0 tr ++ [tb] /\
       (forall l, l <> 0%nat -> levelTables l tr' = levelTables l tr) /\
       SkipList.nodes (LSMTree.memtable tr') = [] /\
       SkipList.size (LSMTree.memtable tr') = 0%nat /\
       (forall k v, lookup (LSMTree.memtable tr) k = (true, Some v) ->
          exists r, SSTable.get tb k = Ok r /\ SSTable.found r = true /\
                    SSTable.value r = Some v)).
Proof.
  intros (Hsl & Hm & Hsz).
  assert (data_from
            (map (fun n => (SkipListNode.key n, SkipListNode.value n))
               (SkipList.nodes (LSMTree.memtable tr)) ++
             concat (map (fun tb => map (fun e => (Entry.key e, Entry.value e)) (SSTable.entries tb))
                       (allTables (LSMTree.sstableManager tr)))) tr) as Hd.
  { split.
    - intros n Hn. apply elem_of_app. left. apply list_elem_of_fmap. by exists n.
    - intros l tb e Htb He. apply elem_of_app. right.
      assert (tb ∈ allTables (LSMTree.sstableManager tr)) as Hin
        by (apply allTables_elem; by exists l).
      clear -Hin He. induction (allTables _) as [|t ts IH]; [by apply elem_of_nil in Hin|].
      simpl. apply elem_of_app. apply elem_of_cons in Hin as [->|Hin]; [left|right; by apply IH].
      apply list_elem_of_fmap. by exists e. }
  destruct (flushMemtable_effect tr w _ Hsl Hm Hd)
    as (fr & tr' & w' & Hf & Hok' & _ & _ & _ & Hz & Hempty & Hfull).
  exists fr, tr', w'. split; [done|]. split; [done|]. split; [done|].
  intros Hne. destruct (Hfull Hne) as (tb & Hfr & Hent & Hid & Hnodes & Hlv & _).
  exists tb. split; [done|]. split; [done|]. unfold levelTables.
  split; [by rewrite Hlv, decide_True|]. split.
  { intros l Hl. rewrite Hlv. by rewrite decide_False. }
  split; [done|]. split; [done|].
  intros k v Hl.
  destruct Hok' as (_ & (HT' & _) & _).
  assert (tb ∈ SSTableManager.getLevel (LSMTree.sstableManager tr') 0) as Htb.
  { rewrite Hlv, decide_True by done. apply elem_of_app. right. by left. }
  destruct (HT' 0%nat tb Htb) as (Hbuilt & _).
  destruct (lookup_found_member _ k _ (proj1 Hsl) Hl) as (n & Hn & Hk & Hv).
  destruct (get_built tb k Hbuilt) as (r & Hg & Hnf & Hfound).
  exists r. split; [done|].
  destruct (SSTable.found r) eqn:Er.
  - split; [done|]. destruct (Hfound eq_refl) as (e & He & Hek & Hev).
    rewrite Hev. f_equal. rewrite Hent in He. unfold SkipList.getAllEntries in He.
    apply list_elem_of_fmap in He as (n' & -> & Hn'). simpl in *.
    pose proof (lookup_member _ k n' (proj1 Hsl) Hn' Hek) as Hl'.
    rewrite Hl in Hl'. by injection Hl' as ->.
  - exfalso. specialize (Hnf eq_refl). rewrite hasKey_false in Hnf.
    apply (Hnf (Entry.mk (SkipListNode.key n) (SkipListNode.value n) (SkipListNode.timestamp n)));
      [|done].
    rewrite Hent. unfold SkipList.getAllEntries. apply list_elem_of_fmap. by exists n.
Qed.

(** X24. What a compaction does. On a manager that keeps its invariant
    and a source level with tables, a compaction that returns has
    succeeded: the source level is empty (when it is not the target), the
    target level holds the tables that no source table overlaps, in
    their order, followed by one new table with the next id; the new table
    holds the output of the merge of the source tables and the overlapping
    target tables, with strictly increasing keys, no tombstone, and only
    records of those tables; the other levels are untouched; and the
    history gains one record, numbered by the count of compactions before. *)
Theorem compactLevel_spec (c : Compaction.t) (m : SSTableManager.t) (src tgt : nat) (w : World)
    (r : Compaction.Result) (c' : Compaction.t) (m' : SSTableManager.t) (w' : World) :
  manager_ok m -> SSTableManager.getLevel m src <> [] ->
  Compaction.compactLevel c m src tgt w = Ok (r, c', m', w') ->
  let source := SSTableManager.getLevel m src in
  let overlapping :=
    Compaction.findOverlappingSSTables source (SSTableManager.getLevel m tgt) in
  let kept :=
    List.filter (fun tb => negb (Compaction.includes overlapping tb))
      (SSTableManager.getLevel m tgt) in
  exists mr tb rec,
    Compaction.kWayMerge (source ++ overlapping) = Ok mr /\
    r = Compaction.Success rec /\
    SSTable.entries tb = Compaction.entries mr /\
    StronglySorted key_lt (Compaction.entries mr) /\
    (forall e, e ∈ Compaction.entries mr ->
       Entry.value e <> None /\ exists t, t ∈ source ++ overlapping /\ e ∈ SSTable.entries t) /\
    SSTable.id tb = SSTableManager.nextId m /\
    SSTableManager.nextId m' = S (SSTableManager.nextId m) /\
    (forall l, SSTableManager.getLevel m' l
               = if decide (tgt = l) then kept ++ [tb]
                 else if decide (src = l) then [] else SSTableManager.getLevel m l) /\
    manager_ok m' /\
    Compaction.compactionHistory c' = Compaction.compactionHistory c ++ [rec] /\
    Compaction.totalCompactions c' = S (Compaction.totalCompactions c) /\
    Compaction.id rec = Compaction.totalCompactions c /\
    Compaction.sourceLevel rec = src /\ Compaction.targetLevel rec = tgt /\
    Compaction.inputSSTables rec = (length source + length overlapping)%nat /\
    Compaction.outputSSTables rec = 1%nat /\
    Compaction.mergeStats rec = Compaction.stats mr.
Proof. apply compactLevel_effect. Qed.

(** ** The counters *)

Lemma compactLevel_counters (c : Compaction.t) (m : SSTableManager.t) (src tgt : nat) (w : World)
    (r : Compaction.Result) (c' : Compaction.t) (m' : SSTableManager.t) (w' : World) :
  Compaction.compactLevel c m src tgt w = Ok (r, c', m', w') ->
  history_numbered c ->
  history_numbered c' /\
  Compaction.totalCompactions c'
  = (Compaction.totalCompactions c + if Compaction.success r then 1 else 0)%nat.
Proof.
  unfold Compaction.compactLevel. intros H [Hn Hid].
  destruct (length _ =? 0)%nat.
  { injection H as <- <- <- <-. simpl. split; [done|lia]. }
  destruct (Compaction.kWayMerge _) as [mr| |]; simpl in H; try done.
  destruct (SSTableManager.createSSTable _ _ _ _) as [[[tb m4] w1]| |]; simpl in H; try done.
  destruct (Date_now w1) as [now w2]. injection H as <- <- <- <-. simpl.
  split; [|lia]. split; simpl.
  - rewrite length_app. simpl. lia.
  - intros i rec Hi. apply lookup_app_Some in Hi as [Hi|[Hge Hi]]; [by apply Hid|].
    apply list_lookup_singleton_Some in Hi as [Hi <-]. simpl. lia.
Qed.

Lemma runAutoCompaction_loop_counters (levels : list nat) :
  forall c m w results rs c' m' w',
    Compaction.runAutoCompaction_loop levels c m w results = Ok (rs, c', m', w') ->
    history_numbered c ->
    history_numbered c' /\
    (Compaction.totalCompactions c' + length results
     = Compaction.totalCompactions c + length rs)%nat.
Proof.
  induction levels as [|l rest IH]; intros c m w results rs c' m' w' H Hc; simpl in H.
  { injection H as <- <- <- <-. split; [done|lia]. }
  destruct (Compaction.shouldCompact m l); [|by apply (IH _ _ _ _ _ _ _ _ H)].
  destruct (Compaction.compactLevel c m l (l + 1) w) as [[[[r c1] m1] w1]| |] eqn:E;
    simpl in H; try done.
  destruct (compactLevel_counters _ _ _ _ _ _ _ _ _ E Hc) as [Hc1 Ht].
  destruct r as [msg|rec]; simpl in Ht;
    destruct (IH _ _ _ _ _ _ _ _ H Hc1) as [Hc' Hl]; (split; [done|]).
  - lia.
  - rewrite length_app in Hl. simpl in Hl. lia.
Qed.

Lemma flushMemtable_counters (tr : LSMTree.t) (w : World) (fr : option LSMTree.FlushResult)
    (tr' : LSMTree.t) (w' : World) :
  LSMTree.flushMemtable tr w = Ok (fr, tr', w') ->
  LSMTree.totalWrites (LSMTree.stats tr') = LSMTree.totalWrites (LSMTree.stats tr) /\
  LSMTree.totalReads (LSMTree.stats tr') = LSMTree.totalReads (LSMTree.stats tr) /\
  LSMTree.totalDeletes (LSMTree.stats tr') = LSMTree.totalDeletes (LSMTree.stats tr) /\
  LSMTree.totalCompactions (LSMTree.stats tr') = LSMTree.totalCompactions (LSMTree.stats tr) /\
  LSMTree.compaction tr' = LSMTree.compaction tr.
Proof.
  unfold LSMTree.flushMemtable. intros H.
  destruct (SkipList.isEmpty _). { by injection H as <- <- <-. }
  destruct (SSTableManager.createSSTable _ _ _ _) as [[[tb m1] w1]| |]; simpl in H; try done.
  by injection H as <- <- <-.
Qed.

Lemma step_counters (tr : LSMTree.t) (w : World) (op : Op) (o : Output) (tr' : LSMTree.t)
    (w' : World) :
  step tr w op = Ok (o, tr', w') -> counters_ok tr ->
  counters_step op tr tr' /\ counters_ok tr'.
Proof.
  intros H [Hs Hc]. destruct op as [k v|k|k|src tgt|]; simpl in H.
  - destruct (LSMTree.put tr k v w) as [[[r t1] w1]| |] eqn:E; simpl in H; try done.
    injection H as <- <- <-. unfold LSMTree.put in E.
    destruct (SkipList.insert _ _ _ _) as [[ir sl] w0].
    set (tr1 := LSMTree.mk _ _ _ _ _) in E.
    assert (exists fr tr2 w2,
      (if (LSMTree.memtableThreshold tr1 <=? SkipList.size (LSMTree.memtable tr1))%nat
       then LSMTree.flushMemtable tr1 w0 else Ok (None, tr1, w0)) = Ok (fr, tr2, w2) /\
      LSMTree.totalWrites (LSMTree.stats tr2) = LSMTree.totalWrites (LSMTree.stats tr1) /\
      LSMTree.totalReads (LSMTree.stats tr2) = LSMTree.totalReads (LSMTree.stats tr1) /\
      LSMTree.totalDeletes (LSMTree.stats tr2) = LSMTree.totalDeletes (LSMTree.stats tr1) /\
      LSMTree.totalCompactions (LSMTree.stats tr2) = LSMTree.totalCompactions (LSMTree.stats tr1) /\
      LSMTree.compaction tr2 = LSMTree.compaction tr1) as (fr & tr2 & w2 & Ef & Hf).
    { destruct (_ <=? _)%nat.
      - destruct (LSMTree.flushMemtable tr1 w0) as [[[fr tr2] w2]| |] eqn:Ef;
          simpl in E; try done.
        exists fr, tr2, w2. split; [done|]. by apply (flushMemtable_counters _ _ _ _ _ Ef).
      - by exists None, tr1, w0. }
    rewrite Ef in E. simpl in E.
    destruct (Compaction.runAutoCompaction _ _ _) as [[[[rs c] m] w3]| |] eqn:Ea;
      simpl in E; try done.
    injection E as <- <- <-.
    destruct Hf as (Hw & Hr & Hd & Htc & Hcc).
    assert (history_numbered (LSMTree.compaction tr2)) as Hc2 by (by rewrite Hcc).
    destruct (runAutoCompaction_loop_counters _ _ _ _ _ _ _ _ _ Ea Hc2) as [Hc' Hl].
    simpl in Hl. split.
    + unfold counters_step. simpl. rewrite Hw, Hr, Hd. subst tr1. simpl. lia.
    + split; [|done]. simpl. rewrite Htc. rewrite Hcc in Hl. subst tr1. simpl in *. lia.
  - destruct (LSMTree.get tr k) as [[r t1]| |] eqn:E; simpl in H; try done.
    injection H as <- <- <-. unfold LSMTree.get in E.
    destruct (SkipList.found _).
    { injection E as <- <-. split; [unfold counters_step; simpl; lia|]. by split. }
    destruct (SSTableManager.search _ _) as [sr| |]; simpl in E; try done.
    destruct (LSMTree.trackBloom _ _ _) as [hits misses]. injection E as <- <-.
    split; [unfold counters_step; simpl; lia|]. by split.
  - destruct (LSMTree.delete tr k w) as [[[r t1] w1]| |] eqn:E; simpl in H; try done.
    injection H as <- <- <-. unfold LSMTree.delete in E.
    destruct (SkipList.insert _ _ _ _) as [[ir sl] w0].
    set (tr1 := LSMTree.mk _ _ _ _ _) in E.
    destruct (_ <=? _)%nat.
    + destruct (LSMTree.flushMemtable tr1 w0) as [[[fr tr2] w2]| |] eqn:Ef;
        simpl in E; try done.
      injection E as <- <- <-.
      destruct (flushMemtable_counters _ _ _ _ _ Ef) as (Hw & Hr & Hd & Htc & Hcc).
      split.
      * unfold counters_step. simpl. rewrite Hw, Hr, Hd. subst tr1. simpl. lia.
      * split; [by rewrite Htc, Hcc|by rewrite Hcc].
    + simpl in E. injection E as <- <- <-. subst tr1.
      split; [unfold counters_step; simpl; lia|]. by split.
  - destruct (LSMTree.compact tr src tgt w) as [[[r t1] w1]| |] eqn:E; simpl in H; try done.
    injection H as <- <- <-. unfold LSMTree.compact in E.
    destruct (Compaction.compactLevel _ _ _ _ _) as [[[[r' c] m] w2]| |] eqn:Ec;
      simpl in E; try done.
    injection E as <- <- <-.
    destruct (compactLevel_counters _ _ _ _ _ _ _ _ _ Ec Hc) as [Hc' Ht].
    split.
    + unfold counters_step. simpl. destruct (Compaction.success r'); simpl; lia.
    + split; [|done]. simpl. rewrite Ht. destruct (Compaction.success r'); simpl; lia.
  - injection H as <- <- <-. split; [done|]. split; [done|]. split; [done|].
    intros i rec Hi. simpl in Hi. by destruct i.
Qed.

Lemma afterClear_noClear (ops : list Op) : hasClear ops = false -> afterClear ops = ops.
Proof.
  induction ops as [|op rest IH]; [done|]. intros H.
  change (hasClear (op :: rest)) with
    ((match op with Clear => true | _ => false end) || hasClear rest) in H.
  apply orb_false_iff in H as [Hop Hrest]. cbn [afterClear]. rewrite Hrest.
  by destruct op.
Qed.

Lemma run_counters (ops : list Op) :
  forall tr w os tr' w',
    run tr w ops = Ok (os, tr', w') -> counters_ok tr ->
    counters_ok tr' /\
    let base := if hasClear ops then LSMTree.noStats else LSMTree.stats tr in
    LSMTree.totalWrites (LSMTree.stats tr')
    = (LSMTree.totalWrites base + countPuts (afterClear ops))%nat /\
    LSMTree.totalReads (LSMTree.stats tr')
    = (LSMTree.totalReads base + countGets (afterClear ops))%nat /\
    LSMTree.totalDeletes (LSMTree.stats tr')
    = (LSMTree.totalDeletes base + countDeletes (afterClear ops))%nat.
Proof.
  induction ops as [|op rest IH]; intros tr w os tr' w' H Hok.
  { injection H as <- <- <-. split; [done|]. simpl. unfold countPuts, countGets, countDeletes.
    simpl. lia. }
  simpl in H.
  destruct (step tr w op) as [[[o tr1] w1]| |] eqn:Es; simpl in H; try done.
  destruct (run tr1 w1 rest) as [[[os1 tr2] w2]| |] eqn:Er; simpl in H; try done.
  injection H as <- <- <-.
  destruct (step_counters _ _ _ _ _ _ Es Hok) as [Hstep Hok1].
  destruct (IH _ _ _ _ _ Er Hok1) as [Hok2 Hrest]. split; [done|].
  cbn [afterClear]. change (hasClear (op :: rest)) with
    ((match op with Clear => true | _ => false end) || hasClear rest).
  cbv zeta in Hrest. destruct (hasClear rest) eqn:Eh.
  { rewrite orb_true_r. exact Hrest. }
  rewrite orb_false_r. unfold counters_step in Hstep.
  unfold countPuts, countGets, countDeletes in *.
  rewrite (afterClear_noClear _ Eh) in Hrest. clear IH.
  destruct op; cbn [List.filter length] in *;
    try (destruct Hstep as (Hw & Hr & Hd); lia).
  rewrite Hstep in Hrest. exact Hrest.
Qed.

(** X25. The counters of a session. After a session that returns,
    the counters of writes, reads and deletes count the [put], [get] and
    [delete] calls made since the last [clear] (a [delete] is not counted
    as a write); the tree's count of compactions equals the compaction
    engine's, which is the length of its history; and the records of the
    history are numbered 0, 1, 2, ... in order. *)
Theorem session_counters (memtableThreshold : nat) (w : World) (ops : list Op)
    (os : list Output) (tr : LSMTree.t) (w' : World) :
  session memtableThreshold w ops = Ok (os, tr, w') ->
  LSMTree.totalWrites (LSMTree.stats tr) = countPuts (afterClear ops) /\
  LSMTree.totalReads (LSMTree.stats tr) = countGets (afterClear ops) /\
  LSMTree.totalDeletes (LSMTree.stats tr) = countDeletes (afterClear ops) /\
  LSMTree.totalCompactions (LSMTree.stats tr)
  = length (Compaction.compactionHistory (LSMTree.compaction tr)) /\
  Compaction.totalCompactions (LSMTree.compaction tr)
  = length (Compaction.compactionHistory (LSMTree.compaction tr)) /\
  (forall i rec, Compaction.compactionHistory (LSMTree.compaction tr) !! i = Some rec ->
     Compaction.id rec = i).
Proof.
  unfold session, LSMTree.create. destruct (SkipList.create 16 w) as [sl w1]. intros H.
  assert (counters_ok (LSMTree.mk sl memtableThreshold SSTableManager.create
                         Compaction.create LSMTree.noStats)) as Hok.
  { split; [done|]. split; [done|]. intros i rec Hi. simpl in Hi. by destruct i. }
  destruct (run_counters _ _ _ _ _ _ H Hok) as [[Hs [Hn Hid]] (Hw & Hr & Hd)].
  cbv zeta in Hw, Hr, Hd.
  assert (forall b : bool, (if b then LSMTree.noStats else LSMTree.noStats) = LSMTree.noStats)
    as Hb by (by intros []).
  cbn [LSMTree.stats] in Hw, Hr, Hd. rewrite Hb in Hw, Hr, Hd. simpl in Hw, Hr, Hd.
  repeat split; try done. by rewrite Hs.
Qed.

Lemma flushMemtable_spec_witness :
  exists os tr w' fr tr' w'',
    session 5 world0 [Put "b" (Some "2"); Put "a" (Some "1")] = Ok (os, tr, w') /\
    LSMTree.flushMemtable tr w' = Ok (fr, tr', w'') /\ tree_ok tr'.
Proof.
  assert (exists os tr w',
            session 5 world0 [Put "b" (Some "2"); Put "a" (Some "1")] = Ok (os, tr, w'))
    as (os & tr & w' & Hs)
    by (eexists _, _, _; vm_compute; reflexivity).
  destruct (flushMemtable_spec tr w' (proj1 (session_ok _ _ _ _ _ _ Hs)))
    as (fr & tr' & w'' & Hf & Hok & _).
  exists os, tr, w', fr, tr', w''. split; [exact Hs|]. split; [exact Hf|exact Hok].
Defined.

Lemma compactLevel_spec_witness :
  exists os tr w' r c' m' w'' rec,
    session 1 world0 [Put "a" (Some "1"); Put "b" (Some "2"); Delete "a"] = Ok (os, tr, w') /\
    Compaction.compactLevel (LSMTree.compaction tr) (LSMTree.sstableManager tr) 0 1 w'
    = Ok (r, c', m', w'') /\
    r = Compaction.Success rec.
Proof.
  assert (exists os tr w' r c' m' w'',
            session 1 world0 [Put "a" (Some "1"); Put "b" (Some "2"); Delete "a"]
            = Ok (os, tr, w') /\
            SSTableManager.getLevel (LSMTree.sstableManager tr) 0 <> [] /\
            Compaction.compactLevel (LSMTree.compaction tr) (LSMTree.sstableManager tr) 0 1 w'
            = Ok (r, c', m', w''))
    as (os & tr & w' & r & c' & m' & w'' & Hs & Hne & Hc)
    by (eexists _, _, _, _, _, _, _; split; [vm_compute; reflexivity|];
        split; [vm_compute; discriminate|vm_compute; reflexivity]).
  destruct (compactLevel_spec _ _ _ _ _ _ _ _ _
              (proj1 (proj2 (proj1 (session_ok _ _ _ _ _ _ Hs)))) Hne Hc)
    as (mr & tb & rec & _ & Hr & _).
  exists os, tr, w', r, c', m', w'', rec. split; [exact Hs|]. split; [exact Hc|exact Hr].
Defined.

Lemma session_counters_witness :
  exists os tr w',
    session 2 world0
      [Put "a" (Some "1"); Get "a"; Clear; Put "b" (Some "2"); Delete "b"; Get "b"]
    = Ok (os, tr, w') /\
    LSMTree.totalWrites (LSMTree.stats tr) = 1%nat.
Proof.
  assert (exists os tr w',
            session 2 world0
              [Put "a" (Some "1"); Get "a"; Clear; Put "b" (Some "2"); Delete "b"; Get "b"]
            = Ok (os, tr, w')) as (os & tr & w' & Hs)
    by (eexists _, _, _; vm_compute; reflexivity).
  exists os, tr, w'. split; [exact Hs|].
  exact (proj1 (session_counters _ _ _ _ _ _ Hs)).
Defined.

(** ** Clearing *)

Lemma insert_maxLevel (sl : SkipList.t) (k : string) (v : option string) (w : World) :
  SkipList.maxLevel (snd (fst (SkipList.insert sl k v w))) = SkipList.maxLevel sl.
Proof.
  unfold SkipList.insert.
  destruct (SkipList.descend _ _ _ _ _) as [cur cmp].
  destruct (SkipList.randomLevel sl w) as [newLevel w1].
  destruct (Date_now w1) as [now1 w2]. destruct (Date_now w) as [now w3].
  destruct (SkipList.nodes sl !! cur) as [n|]; [destruct (str_eq _ _)|]; reflexivity.
Qed.

Lemma flushMemtable_shape (tr : LSMTree.t) (w : World) (fr : option LSMTree.FlushResult)
    (tr' : LSMTree.t) (w' : World) :
  LSMTree.flushMemtable tr w = Ok (fr, tr', w') ->
  SkipList.maxLevel (LSMTree.memtable tr') = SkipList.maxLevel (LSMTree.memtable tr) /\
  LSMTree.memtableThreshold tr' = LSMTree.memtableThreshold tr.
Proof.
  unfold LSMTree.flushMemtable. intros H.
  destruct (SkipList.isEmpty _). { by injection H as <- <- <-. }
  destruct (SSTableManager.createSSTable _ _ _ _) as [[[tb m1] w1]| |]; simpl in H; try done.
  by injection H as <- <- <-.
Qed.

Lemma step_shape (tr : LSMTree.t) (w : World) (op : Op) (o : Output) (tr' : LSMTree.t)
    (w' : World) :
  step tr w op = Ok (o, tr', w') ->
  SkipList.maxLevel (LSMTree.memtable tr') = SkipList.maxLevel (LSMTree.memtable tr) /\
  LSMTree.memtableThreshold tr' = LSMTree.memtableThreshold tr.
Proof.
  intros H. destruct op as [k v|k|k|src tgt|]; simpl in H.
  - destruct (LSMTree.put tr k v w) as [[[r t1] w1]| |] eqn:E; simpl in H; try done.
    injection H as <- <- <-. unfold LSMTree.put in E.
    pose proof (insert_maxLevel (LSMTree.memtable tr) k v w) as Hm.
    destruct (SkipList.insert _ _ _ _) as [[ir sl] w0]. simpl in Hm.
    set (tr1 := LSMTree.mk _ _ _ _ _) in E.
    assert (exists fr tr2 w2,
      (if (LSMTree.memtableThreshold tr1 <=? SkipList.size (LSMTree.memtable tr1))%nat
       then LSMTree.flushMemtable tr1 w0 else Ok (None, tr1, w0)) = Ok (fr, tr2, w2) /\
      SkipList.maxLevel (LSMTree.memtable tr2) = SkipList.maxLevel (LSMTree.memtable tr1) /\
      LSMTree.memtableThreshold tr2 = LSMTree.memtableThreshold tr1)
      as (fr & tr2 & w2 & Ef & Hf1 & Hf2).
    { destruct (_ <=? _)%nat.
      - destruct (LSMTree.flushMemtable tr1 w0) as [[[fr tr2] w2]| |] eqn:Ef;
          simpl in E; try done.
        exists fr, tr2, w2. split; [done|]. by apply (flushMemtable_shape _ _ _ _ _ Ef).
      - by exists None, tr1, w0. }
    rewrite Ef in E. simpl in E.
    destruct (Compaction.runAutoCompaction _ _ _) as [[[[rs c] m] w3]| |]; simpl in E; try done.
    injection E as <- <- <-. simpl. rewrite Hf1, Hf2. subst tr1. simpl. by rewrite Hm.
  - destruct (LSMTree.get tr k) as [[r t1]| |] eqn:E; simpl in H; try done.
    injection H as <- <- <-. unfold LSMTree.get in E.
    destruct (SkipList.found _). { by injection E as <- <-. }
    destruct (SSTableManager.search _ _) as [sr| |]; simpl in E; try done.
    destruct (LSMTree.trackBloom _ _ _) as [hits misses]. by injection E as <- <-.
  - destruct (LSMTree.delete tr k w) as [[[r t1] w1]| |] eqn:E; simpl in H; try done.
    injection H as <- <- <-. unfold LSMTree.delete in E.
    pose proof (insert_maxLevel (LSMTree.memtable tr) k None w) as Hm.
    destruct (SkipList.insert _ _ _ _) as [[ir sl] w0]. simpl in Hm.
    set (tr1 := LSMTree.mk _ _ _ _ _) in E.
    destruct (_ <=? _)%nat.
    + destruct (LSMTree.flushMemtable tr1 w0) as [[[fr tr2] w2]| |] eqn:Ef;
        simpl in E; try done.
      injection E as <- <- <-.
      destruct (flushMemtable_shape _ _ _ _ _ Ef) as [Hf1 Hf2].
      rewrite Hf1, Hf2. subst tr1. simpl. by rewrite Hm.
    + simpl in E. injection E as <- <- <-. subst tr1. simpl. by rewrite Hm.
  - destruct (LSMTree.compact tr src tgt w) as [[[r t1] w1]| |] eqn:E; simpl in H; try done.
    injection H as <- <- <-. unfold LSMTree.compact in E.
    destruct (Compaction.compactLevel _ _ _ _ _) as [[[[r' c] m] w2]| |]; simpl in E; try done.
    by injection E as <- <- <-.
  - by injection H as <- <- <-.
Qed.

Lemma run_shape (ops : list Op) :
  forall tr w os tr' w',
    run tr w ops = Ok (os, tr', w') ->
    SkipList.maxLevel (LSMTree.memtable tr') = SkipList.maxLevel (LSMTree.memtable tr) /\
    LSMTree.memtableThreshold tr' = LSMTree.memtableThreshold tr.
Proof.
  induction ops as [|op rest IH]; intros tr w os tr' w' H; simpl in H.
  { by injection H as <- <- <-. }
  destruct (step tr w op) as [[[o tr1] w1]| |] eqn:Es; simpl in H; try done.
  destruct (run tr1 w1 rest) as [[[os1 tr2] w2]| |] eqn:Er; simpl in H; try done.
  injection H as <- <- <-.
  destruct (step_shape _ _ _ _ _ _ Es) as [H1 H2].
  destruct (IH _ _ _ _ _ Er) as [H3 H4]. split; congruence.
Qed.

(** X26. [clear] gives back the fresh tree. After any session that ends
    with [clear], the tree is the one the constructor builds for the same
    threshold: empty memtable, no table, table ids starting again at 1, no
    compaction history, all counters zero. So whatever follows behaves as
    on a new tree, and a [get] right after finds nothing. *)
Theorem clear_resets_tree (memtableThreshold : nat) (w : World) (ops : list Op)
    (os : list Output) (tr : LSMTree.t) (w' : World) :
  session memtableThreshold w (ops ++ [Clear]) = Ok (os, tr, w') ->
  tr = fst (LSMTree.create memtableThreshold w) /\
  forall k, exists r, LSMTree.get tr k = Ok r /\ LSMTree.found (fst r) = false.
Proof.
  intros H.
  assert (tr = fst (LSMTree.create memtableThreshold w)) as ->.
  { unfold session in H. unfold LSMTree.create in *.
    destruct (SkipList.create 16 w) as [sl w1] eqn:Ec.
    destruct (run_app _ _ _ _ _ _ _ H) as (os1 & tr1 & w2 & os2 & H1 & H2 & _).
    destruct (run_shape _ _ _ _ _ _ H1) as [Hm Ht]. simpl in Hm, Ht.
    simpl in H2. injection H2 as _ <- _. simpl. rewrite Hm, Ht.
    unfold SkipList.create in Ec. destruct (Date_now w). by injection Ec as <- _. }
  split; [done|]. intros k. eexists. split; [reflexivity|]. reflexivity.
Qed.

Lemma clear_resets_tree_witness :
  exists os tr w',
    session 1 world0 ([Put "a" (Some "1"); Put "b" (Some "2"); Delete "a"] ++ [Clear])
    = Ok (os, tr, w') /\
    tr = fst (LSMTree.create 1 world0).
Proof.
  assert (exists os tr w',
            session 1 world0 ([Put "a" (Some "1"); Put "b" (Some "2"); Delete "a"] ++ [Clear])
            = Ok (os, tr, w')) as (os & tr & w' & Hs)
    by (eexists _, _, _; vm_compute; reflexivity).
  exists os, tr, w'. split; [exact Hs|]. exact (proj1 (clear_resets_tree _ _ _ _ _ _ Hs)).
Defined.
